(** * swcmorphologyparser / morphologycorejs: a shallow embedding

    The development follows the JavaScript sources module by module:

    - [Js]: the fragments of the language the code leans on (regular
      expressions, [String.prototype.trim/split/replace], arrays with
      holes, objects used as maps and the order of [Object.keys],
      completion of a call: return, throw, or no result within the fuel,
      and the limits of the engine);
    - [Constants]: [src/Constants.js] (its text is bundled at the end of
      [dist/swcmorphologyparser.js]);
    - [TreeNode]: [src/TreeNode.js];
    - [Soma], [MSection], [Morphology]: morphologycorejs;
    - [TreeNodeCollection]: [src/TreeNodeCollection.js];
    - [SwcParser]: [src/SwcParser.js].

    Then come the predicates the statements use, and the properties: the
    store of nodes after [_initCollection], the order and the continuity
    of the sections, termination, the failures, and the claims C1 to C10
    of the specification, each under its number.

    Numbers: the coordinates and radii are IEEE doubles ([float]); the
    fields that went through [Math.round] (id, type, parent id) are
    integers ([Z]); a row of non numeric tokens, whose rounded value is
    NaN, is outside the model.  Texts are sequences of code units below
    256, one [ascii] each.

    Loops that the language does not bound take fuel: [OutOfFuel] is
    the result of a call that needs more.  Recursion is bounded by the
    call stack of the engine, and the growth of an array by the largest
    length the engine allows: beyond them a call throws a RangeError.
    The loops of this code that nothing ends push on an array at every
    turn: such a run has no result within the fuel that the array has
    room for, and throws a RangeError beyond.

    Sections of morphologycorejs: a value of [MSection.t] is a section
    that has an id and whose arrays of points and of radiuses exist, as
    after [initWithRawSection]; a section as [new Section()] leaves it,
    whose id, points and radiuses are [null], and type names that are
    names of [Object.prototype] are outside the model. *)

From stdpp Require Import relations.
From Stdlib Require Import ZArith Lia List String Ascii Bool.
From Stdlib Require Import Floats.PrimFloat.
From Stdlib Require Uint63.
From stdpp Require Import base tactics option list numbers.

Set Default Proof Using "Type".

(* ================================================================== *)
(** * JavaScript fragments *)
(* ================================================================== *)

Module Js.

(** ** Completion of a call *)

Inductive error := TypeError | RangeError.

(** [OutOfFuel] stands for a call that has not completed within the
    number of loop iterations and recursive calls it was allowed. *)
Inductive outcome (A : Type) :=
| Return (a : A)
| Throw (e : error)
| OutOfFuel.
Arguments Return {A} a.
Arguments Throw {A} e.
Arguments OutOfFuel {A}.

Definition bind {A B} (m : outcome A) (k : A -> outcome B) : outcome B :=
  match m with
  | Return a => k a
  | Throw e => Throw e
  | OutOfFuel => OutOfFuel
  end.

(** ** The limits of the engine

    [callStack] is the depth of recursion the engine allows: the number
    of calls of a method to itself, one inside the other, that the call
    stack has room for; the call that does not fit throws a RangeError
    (Maximum call stack size exceeded).  [maxArrayLength] is the number
    of elements an array can hold; [push] on an array that is full
    throws a RangeError (Invalid array length).  The limits differ from
    one engine to the other; none is below 16, the engines the code
    runs on allow thousands of nested calls and millions of elements. *)
Class engine := mkEngine {
  callStack : nat;
  maxArrayLength : nat;
  callStack_min : 16 <= callStack;
  maxArrayLength_min : 16 <= maxArrayLength
}.

(** [a.push(x)], for the arrays that a loop of the code can fill
    without end: [nonSomaChildren] in [getNonSomaChildren] and
    [sections] in [_buildSections].  The other arrays hold no more
    elements than there are points, but for [nodeList], which [dive]
    pushes on once in each call: there the call stack is the limit. *)
Definition push {eng : engine} {A} (x : A) (a : list A) : outcome (list A) :=
  if length a <? maxArrayLength then Return (a ++ [x]) else Throw RangeError.

(** Reading a property of [undefined] throws a TypeError. *)
Definition deref {A} (o : option A) : outcome A :=
  match o with
  | Some a => Return a
  | None => Throw TypeError
  end.

Definition completes {A} (m : outcome A) : Prop :=
  match m with OutOfFuel => False | _ => True end.

(** ** Characters *)

Definition code (c : ascii) : nat := nat_of_ascii c.

(** LineTerminator, among the code units below 256: LF and CR. *)
Definition isLineTerminator (c : ascii) : bool :=
  (code c =? 10) || (code c =? 13).

(** [\s]: TAB, LF, VT, FF, CR, SP and NBSP. *)
Definition isSpace (c : ascii) : bool :=
  ((9 <=? code c) && (code c <=? 13)) || (code c =? 32) || (code c =? 160).

(** [.] matches everything but a line terminator. *)
Definition isDot (c : ascii) : bool := negb (isLineTerminator c).

Definition isChar (d c : ascii) : bool := Ascii.eqb d c.

(** [[\s,]] *)
Definition isSpaceOrComma (c : ascii) : bool := isSpace c || isChar "," c.

(** ** Regular expressions

    The five expressions of [SwcParser.extractPoints] are sequences of
    assertions and of quantified character classes.  [rmatch] is the
    backtracking matcher at one position: [prev] is the character before
    the position, [s] the rest of the input; the result is the length of
    the match the engine finds first. *)

Inductive quant := Greedy | Lazy.

Inductive atom :=
| One (p : ascii -> bool)                        (* a class, once *)
| Many (q : quant) (min1 : bool) (p : ascii -> bool) (* p*  p*?  p+  p+? *)
| Bol                                            (* ^ *)
| Eol.                                           (* $ *)

Abbreviation regex := (list atom).

Definition at_bol (multiline : bool) (prev : option ascii) : bool :=
  match prev with
  | None => true
  | Some c => multiline && isLineTerminator c
  end.

Definition at_eol (multiline : bool) (s : list ascii) : bool :=
  match s with
  | [] => true
  | c :: _ => multiline && isLineTerminator c
  end.

Definition succ_len (o : option nat) : option nat :=
  match o with Some n => Some (S n) | None => None end.

Definition orelse (a b : option nat) : option nat :=
  match a with Some n => Some n | None => b end.

Fixpoint rmatch (m : bool) (r : regex) {struct r}
  : option ascii -> list ascii -> option nat :=
  match r with
  | [] => fun _ _ => Some 0
  | One p :: r' => fun _ s =>
      match s with
      | c :: s' => if p c then succ_len (rmatch m r' (Some c) s') else None
      | [] => None
      end
  | Many q min1 p :: r' =>
      let rest := rmatch m r' in
      let many :=
        fix many (prev : option ascii) (s : list ascii) {struct s} : option nat :=
          match s with
          | c :: s' =>
              if p c then
                match q with
                | Greedy => orelse (succ_len (many (Some c) s')) (rest prev s)
                | Lazy => orelse (rest prev s) (succ_len (many (Some c) s'))
                end
              else rest prev s
          | [] => rest prev s
          end in
      fun prev s =>
        if min1 then
          match s with
          | c :: s' => if p c then succ_len (many (Some c) s') else None
          | [] => None
          end
        else many prev s
  | Bol :: r' => fun prev s => if at_bol m prev then rmatch m r' prev s else None
  | Eol :: r' => fun prev s => if at_eol m s then rmatch m r' prev s else None
  end.

(** [str.replace(/r/g, '')]: every match is removed.  [skip] counts the
    characters of the current match still to be removed.  After an empty
    match the engine moves one character on, which is kept. *)
Fixpoint remove_all (m : bool) (r : regex) (skip : nat)
  (prev : option ascii) (s : list ascii) : list ascii :=
  match s with
  | [] => []
  | c :: s' =>
      match skip with
      | S k => remove_all m r k (Some c) s'
      | O =>
          match rmatch m r prev s with
          | Some (S n) => remove_all m r n (Some c) s'
          | _ => c :: remove_all m r 0 (Some c) s'
          end
      end
  end.

(** [str.replace(/r/, '')], no [g] flag: the first match only. *)
Fixpoint remove_first (m : bool) (r : regex)
  (prev : option ascii) (s : list ascii) : list ascii :=
  match rmatch m r prev s with
  | Some n => drop n s
  | None =>
      match s with
      | [] => []
      | c :: s' => c :: remove_first m r (Some c) s'
      end
  end.

(** [str.split(/r/)]: [piece] is the substring since the last split
    point, [at_p] says that the position is that split point (an empty
    match there does not split). *)
Fixpoint split_loop (r : regex) (skip : nat) (piece : list ascii)
  (at_p : bool) (prev : option ascii) (s : list ascii) : list (list ascii) :=
  match s with
  | [] => [piece]
  | c :: s' =>
      match skip with
      | S k => split_loop r k [] true (Some c) s'
      | O =>
          match rmatch false r prev s with
          | Some (S n) => piece :: split_loop r n [] true (Some c) s'
          | Some O =>
              if at_p then split_loop r 0 (piece ++ [c]) false (Some c) s'
              else piece :: split_loop r 0 [c] false (Some c) s'
          | None => split_loop r 0 (piece ++ [c]) false (Some c) s'
          end
      end
  end.

Definition split_regex (r : regex) (s : list ascii) : list (list ascii) :=
  match s with
  | [] => match rmatch false r None [] with Some _ => [] | None => [[]] end
  | _ => split_loop r 0 [] true None s
  end.

(** [str.split(sep)] for a separator of one character. *)
Fixpoint split_char (sep : ascii) (piece : list ascii) (s : list ascii)
  : list (list ascii) :=
  match s with
  | [] => [piece]
  | c :: s' =>
      if isChar sep c then piece :: split_char sep [] s'
      else split_char sep (piece ++ [c]) s'
  end.

Fixpoint dropWhile (p : ascii -> bool) (s : list ascii) : list ascii :=
  match s with
  | c :: s' => if p c then dropWhile p s' else s
  | [] => []
  end.

(** [str.trim()] *)
Definition trim (s : list ascii) : list ascii :=
  rev (dropWhile isSpace (rev (dropWhile isSpace s))).

(** ** Arrays with holes

    [None] is a hole.  [arr[i] = v] beyond the end extends the array, the
    indices in between stay empty. *)
Abbreviation array A := (list (option A)).

Definition array_set {A} (i : nat) (v : A) (arr : array A) : array A :=
  if i <? length arr then <[i := Some v]> arr
  else arr ++ replicate (i - length arr) None ++ [Some v].

(** ** Objects used as maps from numbers

    The own properties in creation order; a number names the property
    of its decimal string.  Assigning to an existing property keeps its
    place. *)
Abbreviation object V := (list (Z * V)).

Fixpoint obj_get {V} (k : Z) (o : object V) : option V :=
  match o with
  | [] => None
  | (k', v) :: o' => if Z.eqb k k' then Some v else obj_get k o'
  end.

Fixpoint obj_set {V} (k : Z) (v : V) (o : object V) : object V :=
  match o with
  | [] => [(k, v)]
  | (k', v') :: o' =>
      if Z.eqb k k' then (k, v) :: o' else (k', v') :: obj_set k v o'
  end.

(** The [in] operator.  The properties inherited from [Object.prototype]
    have names that are no decimal numeral, so for a number it comes
    down to the own properties. *)
Definition obj_in {V} (k : Z) (o : object V) : bool :=
  match obj_get k o with Some _ => true | None => false end.

(** An array index: a canonical numeric string below 2^32 - 1. *)
Definition isArrayIndex (k : Z) : bool :=
  (0 <=? k)%Z && (k <? 4294967295)%Z.

Fixpoint insert_sorted (k : Z) (l : list Z) : list Z :=
  match l with
  | [] => [k]
  | k' :: l' => if (k <=? k')%Z then k :: l else k' :: insert_sorted k l'
  end.

Definition sort_keys (l : list Z) : list Z := foldr insert_sorted [] l.

(** [Object.keys(o)]: the array indices in ascending order, then the
    other names in creation order. *)
Definition Object_keys {V} (o : object V) : list Z :=
  sort_keys (List.filter isArrayIndex (map fst o))
  ++ List.filter (fun k => negb (isArrayIndex k)) (map fst o).

(** [Object.values(o)] follows the order of the keys. *)
Definition Object_values {V} (o : object V) : list V :=
  omap (fun k => obj_get k o) (Object_keys o).

(** Truthiness of a number that may be [null]. *)
Definition truthy_num (v : option nat) : bool :=
  match v with
  | None => false
  | Some O => false
  | Some (S _) => true
  end.

(** [Math.max(...l)] *)
Definition max2 (a b : float) : float :=
  if PrimFloat.is_nan a then a
  else if PrimFloat.is_nan b then b
  else if PrimFloat.ltb a b then b
  else if PrimFloat.ltb b a then a
  else if PrimFloat.get_sign a then b else a.

Definition Math_max (l : list float) : float :=
  fold_left max2 l PrimFloat.neg_infinity.

End Js.
Export Js.

#[export] Instance outcome_bind : MBind outcome :=
  fun A B k m => Js.bind m k.
#[export] Instance outcome_ret : MRet outcome := @Js.Return.


(* ================================================================== *)
(** * Constants.js *)
(* ================================================================== *)

Module Constants.

(** The values a module of constants is made of. *)
#[local] Unset Elimination Schemes.
Inductive value :=
| Undefined
| Num (n : Z)
| Obj (props : list (string * value)).
#[local] Set Elimination Schemes.

Fixpoint lookup (k : string) (props : list (string * value)) : value :=
  match props with
  | [] => Undefined
  | (k', v) :: props' => if String.eqb k k' then v else lookup k props'
  end.

(** [o.k] *)
Definition get (o : value) (k : string) : value :=
  match o with
  | Obj props => lookup k props
  | _ => Undefined
  end.

(** [n === v] for a number [n] *)
Definition strict_eq_num (n : Z) (v : value) : bool :=
  match v with
  | Num m => Z.eqb n m
  | _ => false
  end.

(** [const SWC_TYPES = { UNDEFINED: 0, SOMA: 1, ... }] *)
Definition SWC_TYPES : value :=
  Obj [("UNDEFINED"%string, Num 0); ("SOMA"%string, Num 1);
       ("AXON"%string, Num 2); ("BASAL_DENDRITE"%string, Num 3);
       ("APICAL_DENDRITE"%string, Num 4); ("CUSTOM"%string, Num 5)].

(** [export default ({ SWC_TYPES, })]: the default export is an object
    with the one property [SWC_TYPES]. *)
Definition default : value := Obj [("SWC_TYPES"%string, SWC_TYPES)].

End Constants.

(* ================================================================== *)
(** * TreeNode.js *)
(* ================================================================== *)

Module TreeNode.

(** [import SWC_TYPES from './Constants']: the local name [SWC_TYPES] is
    bound to the default export of the module. *)
Definition SWC_TYPES : Constants.value := Constants.default.

(** Nodes live in a store, in the order of their creation; a reference
    to a node is its index there. *)
Abbreviation ref := nat.

Definition vec3 := (float * float * float)%type.

Record t := mk {
  _id : Z;
  _type : Z;
  _position : vec3;
  _radius : float;
  _parent : option ref;          (* null, or a node *)
  _children : list ref;
  _hasSomaChildren : bool
}.

Abbreviation heap := (list t).

(** [constructor(id, type, x, y, z, r)] *)
Definition new (id type : Z) (x y z r : float) : t :=
  mk id type (x, y, z) r None [] false.

Definition getId (this : t) : Z := _id this.
Definition getType (this : t) : Z := _type this.
Definition getRadius (this : t) : float := _radius this.
Definition getPosition (this : t) : vec3 := _position this.
Definition getParent (this : t) : option ref := _parent this.
Definition getChildren (this : t) : list ref := _children this.

(** [return (this._type === SWC_TYPES.SOMA)] *)
Definition isSoma (this : t) : bool :=
  Constants.strict_eq_num (_type this) (Constants.get SWC_TYPES "SOMA").

Definition set_parent (p : option ref) (n : t) : t :=
  mk (_id n) (_type n) (_position n) (_radius n) p
     (_children n) (_hasSomaChildren n).

Definition push_child (c : ref) (soma : bool) (n : t) : t :=
  mk (_id n) (_type n) (_position n) (_radius n) (_parent n)
     (_children n ++ [c]) soma.

Definition idOf (h : heap) (r : ref) : option Z := _id <$> h !! r.

(** [doesAlreadyHaveChild(cNode)]: by id. *)
Definition doesAlreadyHaveChild (h : heap) (this : t) (cNode : t) : bool :=
  existsb (fun c => match idOf h c with
                    | Some i => Z.eqb i (getId cNode)
                    | None => false
                    end) (_children this).

(** [_addChild(cNode)] *)
Definition _addChild (h : heap) (this cNode : ref) : heap :=
  match h !! this, h !! cNode with
  | Some tn, Some cn =>
      if doesAlreadyHaveChild h tn cn then h
      else <[this := push_child cNode (isSoma cn || _hasSomaChildren tn) tn]> h
  | _, _ => h
  end.

(** [setParent(pNode)]: [pNode] is what the lookup in the table of nodes
    gave, [None] for [undefined]; the call [pNode._addChild(this)] then
    throws. *)
Definition setParent (h : heap) (this : ref) (pNode : option ref)
  : outcome heap :=
  let h := alter (set_parent pNode) this h in
  p ← deref pNode;
  mret (_addChild h p this).

Section Engine.
Context {eng : engine}.

(** The loop of [getNonSomaChildren]:
    [for (let i = 0; i < this._children.length; i += 0)]. *)
Fixpoint nonSomaLoop (fuel : nat) (h : heap) (children : list ref)
  (i : nat) (nonSomaChildren : list ref) : outcome (list ref) :=
  match fuel with
  | O => OutOfFuel
  | S fuel =>
      if i <? length children then
        c ← deref (children !! i);
        cn ← deref (h !! c);
        nonSomaChildren ←
          (if negb (isSoma cn) then push c nonSomaChildren
           else mret nonSomaChildren);
        nonSomaLoop fuel h children (i + 0) nonSomaChildren
      else mret nonSomaChildren
  end.

(** [getNonSomaChildren()] *)
Definition getNonSomaChildren (fuel : nat) (h : heap) (this : t)
  : outcome (list ref) :=
  if negb (_hasSomaChildren this) then mret (_children this)
  else nonSomaLoop fuel h (_children this) 0 [].

(** [dive(nodeList)]: the result is the array [nodeList] after the call
    and the returned array.  [room] is the number of calls of [dive],
    one inside the other, that the call stack has room for: a call
    throws when there is none, as the call [children[0].dive(nodeList)]
    of a node to its child does on a chain that is too long.  [fuel] is
    for the loop of [getNonSomaChildren]. *)
Fixpoint dive (room fuel : nat) (h : heap) (this : ref) (nodeList : list ref)
  : outcome (list ref * list ref) :=
  match room with
  | O => Throw RangeError
  | S room =>
      let nodeList := nodeList ++ [this] in
      tn ← deref (h !! this);
      children ← getNonSomaChildren fuel h tn;
      match children with
      | [c] =>
          cn ← deref (h !! c);
          if Z.eqb (getType cn) (_type tn) then dive room fuel h c nodeList
          else mret (nodeList, [])
      | _ => mret (nodeList, children)
      end
  end.

End Engine.

End TreeNode.

(* ================================================================== *)
(** * The raw morphology: what the parser hands to morphologycorejs *)
(* ================================================================== *)

Definition vec3 := TreeNode.vec3.

(** [{ position, radius }] *)
Module RawPoint.
Record t := mk { position : vec3; radius : float }.
End RawPoint.

(** [{ id, type, radius, points }], each point a [{ position }] *)
Module RawSoma.
Record t := mk {
  id : Z;
  type : string;
  radius : float;
  points : list vec3
}.
End RawSoma.

(** [{ typevalue, typename, points, id, children, parent }] *)
Module RawSection.
Record t := mk {
  typevalue : Z;
  typename : option string;      (* null, or a name *)
  points : list RawPoint.t;
  id : nat;
  children : list nat;
  parent : option nat            (* null, or the id of a section *)
}.
End RawSection.

(** [{ soma, sections }], either of which may be [null] *)
Module RawMorphology.
Record t := mk {
  soma : option RawSoma.t;
  sections : option (list RawSection.t)
}.
End RawMorphology.

(* ================================================================== *)
(** * morphologycorejs: Soma.js *)
(* ================================================================== *)

Module Soma.

Record t := mk {
  _id : option Z;
  _typename : string;
  _typevalue : Z;
  _points : list vec3;
  _radius : option float
}.

(** [constructor()] *)
Definition new : t := mk None "soma" 1 [] None.

Definition getPoints (this : t) : list vec3 := _points this.
Definition getRadius (this : t) : option float := _radius this.
Definition getId (this : t) : option Z := _id this.

(** [setId(id)] *)
Definition setId (this : t) (id : Z) : t :=
  mk (Some id) (_typename this) (_typevalue this) (_points this) (_radius this).

(** [addPoint(x, y, z)] *)
Definition addPoint (this : t) (x y z : float) : t :=
  mk (_id this) (_typename this) (_typevalue this)
     (_points this ++ [(x, y, z)]) (_radius this).

(** [setRadius(r)] *)
Definition setRadius (this : t) (r : float) : t :=
  mk (_id this) (_typename this) (_typevalue this) (_points this) (Some r).

(** [initWithRawSection(rawSoma)], for a raw soma that is not [null] *)
Definition initWithRawSection (this : t) (rawSoma : RawSoma.t) : t :=
  mk (Some (RawSoma.id rawSoma)) (_typename this) (_typevalue this)
     (RawSoma.points rawSoma) (Some (RawSoma.radius rawSoma)).

Definition add3 (a p : vec3) : vec3 :=
  match a, p with
  | (a0, a1, a2), (p0, p1, p2) =>
      (PrimFloat.add a0 p0, PrimFloat.add a1 p1, PrimFloat.add a2 p2)
  end.

Definition div3 (a : vec3) (n : float) : vec3 :=
  match a with
  | (a0, a1, a2) => (PrimFloat.div a0 n, PrimFloat.div a1 n, PrimFloat.div a2 n)
  end.

Definition float_of_nat (n : nat) : float :=
  PrimFloat.of_uint63 (Uint63.of_Z (Z.of_nat n)).

(** [getCenter()]: [None] is [null]. *)
Definition getCenter (this : t) : option vec3 :=
  let nbPoints := length (_points this) in
  match _points this with
  | [p] => Some p
  | _ =>
      if 1 <? nbPoints then
        let average := fold_left add3 (_points this) (0, 0, 0)%float in
        Some (div3 average (float_of_nat nbPoints))
      else None
  end.

End Soma.

(* ================================================================== *)
(** * morphologycorejs: Section.js *)
(* ================================================================== *)

Module MSection.

(** [TYPEVALUE_2_TYPENAME[v]] *)
Definition TYPEVALUE_2_TYPENAME (v : Z) : option string :=
  match v with
  | 0%Z => Some "undefined"%string
  | 1%Z => Some "soma"%string
  | 2%Z => Some "axon"%string
  | 3%Z => Some "basal_dendrite"%string
  | 4%Z => Some "apical_dendrite"%string
  | 5%Z => Some "custom"%string
  | _ => None
  end.

(** [TYPENAME_2_TYPEVALUE[n]], for a name [n] that is no name of
    [Object.prototype] *)
Definition TYPENAME_2_TYPEVALUE (n : string) : option Z :=
  if String.eqb n "undefined" then Some 0%Z
  else if String.eqb n "soma" then Some 1%Z
  else if String.eqb n "axon" then Some 2%Z
  else if String.eqb n "basal_dendrite" then Some 3%Z
  else if String.eqb n "apical_dendrite" then Some 4%Z
  else if String.eqb n "custom" then Some 5%Z
  else None.

(** A section refers to its parent and to its children, which are
    sections of the same morphology, by their ids: the keys under which
    the morphology stores them. *)
Record t := mk {
  _id : nat;
  _parent : option nat;
  _children : list nat;
  _typename : option string;
  _typevalue : option Z;
  _points : list vec3;
  _radiuses : list float
}.

Definition getId (this : t) : nat := _id this.
Definition getParent (this : t) : option nat := _parent this.
Definition getChildren (this : t) : list nat := _children this.
Definition getPoints (this : t) : list vec3 := _points this.
Definition getRadiuses (this : t) : list float := _radiuses this.
Definition getTypevalue (this : t) : option Z := _typevalue this.
Definition getTypename (this : t) : option string := _typename this.

(** Truthiness of [rawSection.typename] and of [rawSection.typevalue] *)
Definition truthy_name (n : option string) : bool :=
  match n with
  | Some s => negb (String.eqb s "")
  | None => false
  end.

Definition truthy_value (v : Z) : bool := negb (Z.eqb v 0).

(** [new Section(morphology)] followed by [initWithRawSection(rawSection)] *)
Definition initWithRawSection (rawSection : RawSection.t) : t :=
  let tn := RawSection.typename rawSection in
  let tv := RawSection.typevalue rawSection in
  let named := truthy_name tn || truthy_value tv in
  mk (RawSection.id rawSection) None []
     (if named then
        if truthy_name tn then tn else TYPEVALUE_2_TYPENAME tv
      else None)
     (if named then
        if truthy_value tv then Some tv
        else match tn with
             | Some s => TYPENAME_2_TYPEVALUE s
             | None => None
             end
      else None)
     (map RawPoint.position (RawSection.points rawSection))
     (map RawPoint.radius (RawSection.points rawSection)).

Definition with_parent (p : nat) (s : t) : t :=
  mk (_id s) (Some p) (_children s) (_typename s) (_typevalue s)
     (_points s) (_radiuses s).

Definition with_child (c : nat) (s : t) : t :=
  mk (_id s) (_parent s) (_children s ++ [c]) (_typename s) (_typevalue s)
     (_points s) (_radiuses s).

(** [setParent(section)]: [section] is [None] when it is [undefined]. *)
Definition setParent (this : t) (section : option t) : t :=
  match section with
  | Some p => if negb (getId p =? _id this) then with_parent (getId p) this else this
  | None => this
  end.

(** [hasChild(section)] *)
Definition hasChild (this : t) (section : t) : bool :=
  existsb (fun c => c =? getId section) (_children this).

(** [setId(id)] *)
Definition setId (this : t) (id : nat) : t :=
  mk id (_parent this) (_children this) (_typename this) (_typevalue this)
     (_points this) (_radiuses this).

(** [setTypeValue(tv)]: the name is left as it is. *)
Definition setTypeValue (this : t) (tv : Z) : t :=
  mk (_id this) (_parent this) (_children this) (_typename this) (Some tv)
     (_points this) (_radiuses this).

(** [addPoint(x, y, z, r = 1)], for a section whose arrays exist (on a
    section that [initWithRawSection] has not filled, [this._points] is
    [null] and the call throws); [r] is [None] when the argument is
    left out. *)
Definition addPoint (this : t) (x y z : float) (r : option float) : t :=
  mk (_id this) (_parent this) (_children this) (_typename this) (_typevalue this)
     (_points this ++ [(x, y, z)]) (_radiuses this ++ [default 1%float r]).

(** What the loop of [getSize] adds for the points [p1] and [p2]:
    [Math.sqrt(dx * dx + dy * dy + dz * dz)]. *)
Definition segment (p1 p2 : vec3) : float :=
  match p1, p2 with
  | (x1, y1, z1), (x2, y2, z2) =>
      let dx := PrimFloat.sub x1 x2 in
      let dy := PrimFloat.sub y1 y2 in
      let dz := PrimFloat.sub z1 z2 in
      PrimFloat.sqrt
        (PrimFloat.add (PrimFloat.add (PrimFloat.mul dx dx) (PrimFloat.mul dy dy))
                       (PrimFloat.mul dz dz))
  end.

(** [for (let i = 0; i < this._points.length - 1; i += 1)] *)
Fixpoint sizeLoop (points : list vec3) (sum : float) : float :=
  match points with
  | p1 :: rest =>
      match rest with
      | p2 :: _ => sizeLoop rest (PrimFloat.add sum (segment p1 p2))
      | [] => sum
      end
  | [] => sum
  end.

(** [getSize()], for a section whose array of points exists *)
Definition getSize (this : t) : float := sizeLoop (_points this) 0%float.

(** [addChild(section)]; [section.getId()] throws on [undefined]. *)
Definition addChild (this : t) (section : option t) : outcome t :=
  s ← deref section;
  if negb (getId s =? _id this) then
    if hasChild this s then mret this else mret (with_child (getId s) this)
  else mret this.

End MSection.

(* ================================================================== *)
(** * morphologycorejs: Morphology.js *)
(* ================================================================== *)

Module Morphology.

Record t := mk {
  _sections : object MSection.t;
  _soma : option Soma.t
}.

(** [constructor()] *)
Definition new : t := mk [] None.

Definition key (id : nat) : Z := Z.of_nat id.

Definition with_sections (o : object MSection.t) (m : t) : t :=
  mk o (_soma m).

(** First loop of [buildFromRawMorphology]: the sections, without
    parent nor children. *)
Definition initSections (rawSections : list RawSection.t)
  (o : object MSection.t) : object MSection.t :=
  fold_left (fun o raw =>
               let s := MSection.initWithRawSection raw in
               obj_set (key (MSection.getId s)) s o)
            rawSections o.

Fixpoint addChildren (o : object MSection.t) (cur : MSection.t)
  (children : list nat) : outcome MSection.t :=
  match children with
  | [] => mret cur
  | c :: children =>
      cur ← MSection.addChild cur (obj_get (key c) o);
      addChildren o cur children
  end.

(** Second loop: parents and children.  [currentSection] is the object
    stored under [currentRawSection.id]; the calls change it in place. *)
Fixpoint linkSections (rawSections : list RawSection.t)
  (o : object MSection.t) : outcome (object MSection.t) :=
  match rawSections with
  | [] => mret o
  | currentRawSection :: rest =>
      let k := key (RawSection.id currentRawSection) in
      currentSection ← deref (obj_get k o);
      let currentSection :=
        match RawSection.parent currentRawSection with
        | Some p => MSection.setParent currentSection (obj_get (key p) o)
        | None => currentSection
        end in
      currentSection ←
        addChildren o currentSection (RawSection.children currentRawSection);
      linkSections rest (obj_set k currentSection o)
  end.

(** [buildFromRawMorphology(rawMorphology)]; reading [.length] of
    [rawMorphology.sections] throws when it is [null]. *)
Definition buildFromRawMorphology (this : t) (rawMorphology : RawMorphology.t)
  : outcome t :=
  let this :=
    match RawMorphology.soma rawMorphology with
    | Some rawSoma => mk (_sections this) (Some (Soma.initWithRawSection Soma.new rawSoma))
    | None => this
    end in
  rawSections ← deref (RawMorphology.sections rawMorphology);
  let o := initSections rawSections (_sections this) in
  o ← linkSections rawSections o;
  mret (with_sections o this).

(** [getSection(id)]: [None] is [null]. *)
Definition getSection (this : t) (id : Z) : option MSection.t :=
  if obj_in id (_sections this) then obj_get id (_sections this)
  else None.

(** [getArrayOfSections()] *)
Definition getArrayOfSections (this : t) : list MSection.t :=
  Object_values (_sections this).

(** [getSoma()] *)
Definition getSoma (this : t) : option Soma.t := _soma this.

(** [getNumberOfSections()]: [return Object.keys(this._sections)], the
    names of the sections, each given by the number it is the numeral
    of. *)
Definition getNumberOfSections (this : t) : list Z :=
  Object_keys (_sections this).

(** [this._specialSections]: under a name, [null] or an array of
    sections.  The array holds the sections as they were when it was
    filled. *)
Abbreviation specials := (list (string * option (list MSection.t))).

Fixpoint special (name : string) (sp : specials)
  : option (option (list MSection.t)) :=
  match sp with
  | [] => None
  | (n, v) :: sp' => if String.eqb name n then Some v else special name sp'
  end.

Fixpoint setSpecial (name : string) (v : option (list MSection.t))
  (sp : specials) : specials :=
  match sp with
  | [] => [(name, v)]
  | (n, v') :: sp' =>
      if String.eqb name n then (n, v) :: sp' else (n, v') :: setSpecial name v sp'
  end.

(** [_findSpecialSection(specialityName, selector, force)]: the special
    sections after the call, and the array it returns. *)
Definition _findSpecialSection (this : t) (sp : specials)
  (specialityName : string) (selector : MSection.t -> bool) (force : bool)
  : specials * list MSection.t :=
  let sp :=
    match special specialityName sp with
    | None => setSpecial specialityName None sp
    | Some _ => sp
    end in
  match force, special specialityName sp with
  | false, Some (Some found) => (sp, found)
  | _, _ =>
      let found := List.filter selector (Object_values (_sections this)) in
      (setSpecial specialityName (Some found) sp, found)
  end.

(** [getOrphanSections(force = false)] *)
Definition getOrphanSections (this : t) (sp : specials) (force : bool)
  : specials * list MSection.t :=
  _findSpecialSection this sp "orphans"
    (fun s => match MSection.getParent s with Some _ => false | None => true end)
    force.

End Morphology.

(* ================================================================== *)
(** * TreeNodeCollection.js *)
(* ================================================================== *)

(** A point of the SWC file: the array
    [[pointId, pointType, x, y, z, radius, parentId]]. *)
Module Point.
Record t := mk {
  id : Z;
  type : Z;
  x : float;
  y : float;
  z : float;
  radius : float;
  parentId : Z
}.
End Point.

Module TreeNodeCollection.

Import TreeNode.

(** [import SWC_TYPES from './Constants'] *)
Definition SWC_TYPES : Constants.value := Constants.default.

Record t := mk {
  _nodes : object ref;
  store : heap;                  (* the TreeNode objects created so far *)
  _rawSoma : option RawSoma.t;
  _rawSections : option (list RawSection.t);
  _rawMorphology : option RawMorphology.t;
  _morphology : option Morphology.t
}.

Definition getRawMorphology (this : t) := _rawMorphology this.
Definition getMorphology (this : t) := _morphology this.

(** The loop of [_initCollection]; reading [points[i][0]] throws when
    the slot [i] of the array is empty. *)
Fixpoint initLoop (points : array Point.t) (nodes : object ref) (h : heap)
  (somaNodes : list ref) : outcome (object ref * heap * list ref) :=
  match points with
  | [] => mret (nodes, h, somaNodes)
  | slot :: points =>
      p ← deref slot;
      let aNode := length h in
      let h := h ++ [TreeNode.new (Point.id p) (Point.type p) (Point.x p)
                       (Point.y p) (Point.z p) (Point.radius p)] in
      let nodes := obj_set (Point.id p) aNode nodes in
      let somaNodes :=
        if Constants.strict_eq_num (Point.type p) (Constants.get SWC_TYPES "SOMA")
        then somaNodes ++ [aNode] else somaNodes in
      let parentId := Point.parentId p in
      if Z.eqb parentId (-1) then initLoop points nodes h somaNodes
      else
        let theParentNode := obj_get parentId nodes in
        h ← setParent h aNode theParentNode;
        initLoop points nodes h somaNodes
  end.

Definition nodesOf (h : heap) (l : list ref) : list TreeNode.t :=
  omap (fun r => h !! r) l.

(** [_initCollection(points)] *)
Definition _initCollection (this : t) (points : array Point.t) : outcome t :=
  '(nodes, h, somaNodes) ← initLoop points (_nodes this) (store this) [];
  let rawSoma :=
    if 0 <? length somaNodes then
      Some (RawSoma.mk 0 "soma"
              (Math_max (map getRadius (nodesOf h somaNodes)))
              (map getPosition (nodesOf h somaNodes)))
    else _rawSoma this in
  mret (mk nodes h rawSoma (_rawSections this) (_rawMorphology this)
           (_morphology this)).

Section Engine.
Context {eng : engine}.

(** The search for the first node that has non-soma children, along
    [Object.keys(this._nodes)]. *)
Fixpoint findFirstValid (fuel : nat) (h : heap) (nodes : object ref)
  (allNodeIds : list Z) : outcome (option (ref * list ref)) :=
  match allNodeIds with
  | [] => mret None
  | nodeId :: rest =>
      r ← deref (obj_get nodeId nodes);
      n ← deref (h !! r);
      childrenOfNode ← getNonSomaChildren fuel h n;
      if 0 <? length childrenOfNode then mret (Some (r, childrenOfNode))
      else findFirstValid fuel h nodes rest
  end.

(** An element of the stack: [{ node, parentSectionId }]. *)
Record entry := mkEntry { node : ref; parentSectionId : option nat }.

(** The variables [buildRawSection] closes over.  The list [stack] holds
    the array back to front: its head is the last element, the one
    [pop] takes. *)
Record state := mkState {
  stack : list entry;
  sections : list RawSection.t;
  currentSectionId : nat
}.

Definition pointOf (n : TreeNode.t) : RawPoint.t :=
  RawPoint.mk (getPosition n) (getRadius n).

(** [if (parentSectionId === null && points.length) points[0].radius = 0] *)
Definition zeroFirstRadius (parentSectionId : option nat)
  (points : list RawPoint.t) : list RawPoint.t :=
  match parentSectionId, points with
  | None, p :: rest => RawPoint.mk (RawPoint.position p) 0%float :: rest
  | _, _ => points
  end.

Definition addChildId (c : nat) (s : RawSection.t) : RawSection.t :=
  RawSection.mk (RawSection.typevalue s) (RawSection.typename s)
    (RawSection.points s) (RawSection.id s) (RawSection.children s ++ [c])
    (RawSection.parent s).

(** [if (parentSectionId) sections[parentSectionId].children.push(currentSectionId)] *)
Definition registerChild (parentSectionId : option nat) (cur : nat)
  (sections : list RawSection.t) : outcome (list RawSection.t) :=
  if truthy_num parentSectionId then
    match parentSectionId with
    | Some p =>
        ps ← deref (sections !! p);
        mret (<[p := addChildId cur ps]> sections)
    | None => mret sections
    end
  else mret sections.

(** [stack.push] of each of [nextNodes], in order *)
Definition pushAll (nextNodes : list ref) (cur : nat) (stack : list entry)
  : list entry :=
  rev (map (fun n => mkEntry n (Some cur)) nextNodes) ++ stack.

(** [buildRawSection(startingNode, parentSectionId)]; the call stack has
    room for the call of [dive] and for [callStack] calls of [dive] to
    itself inside it. *)
Definition buildRawSection (fuel : nat) (h : heap) (st : state)
  (startingNode : ref) (parentSectionId : option nat)
  : outcome (RawSection.t * state) :=
  sn ← deref (h !! startingNode);
  let nodeList :=
    match getParent sn with
    | Some p => [p]
    | None => []
    end in
  '(nodeList, nextNodes) ← dive (S callStack) fuel h startingNode nodeList;
  let points := map pointOf (nodesOf h nodeList) in
  let points := zeroFirstRadius parentSectionId points in
  let section :=
    RawSection.mk (getType sn) None points (currentSectionId st) []
      parentSectionId in
  sections ← registerChild parentSectionId (currentSectionId st) (sections st);
  mret (section,
        mkState (pushAll nextNodes (currentSectionId st) (stack st))
                sections
                (currentSectionId st + 1)).

(** [while (stack.length) { ... }].  Every turn pushes a section: a run
    whose stack never empties ends when [sections] is full, with a
    RangeError, unless the engine is out of memory before, which aborts
    the run without a result. *)
Fixpoint popping (fuel : nat) (h : heap) (st : state)
  : outcome (list RawSection.t) :=
  match fuel with
  | O => OutOfFuel
  | S fuel =>
      match stack st with
      | [] => mret (sections st)
      | stackElem :: rest =>
          '(section, st) ←
            buildRawSection fuel h
              (mkState rest (sections st) (currentSectionId st))
              (node stackElem) (parentSectionId stackElem);
          sections ← push section (sections st);
          let sections := <[RawSection.id section := section]> sections in
          popping fuel h (mkState (stack st) sections (currentSectionId st))
      end
  end.

(** [_buildSections()] *)
Definition _buildSections (fuel : nat) (this : t) : outcome t :=
  let allNodeIds := Object_keys (_nodes this) in
  first ← findFirstValid fuel (store this) (_nodes this) allNodeIds;
  match first with
  | None => mret this
  | Some (firstValidNode, firstValidChildren) =>
      let stack := rev (map (fun c => mkEntry c None) firstValidChildren) in
      sections ← popping fuel (store this) (mkState stack [] 0);
      if 0 <? length sections then
        mret (mk (_nodes this) (store this) (_rawSoma this) (Some sections)
                 (_rawMorphology this) (_morphology this))
      else mret this
  end.

(** [_buildMorphologyObjects()] *)
Definition _buildMorphologyObjects (this : t) : outcome t :=
  match _rawSections this, _rawSoma this with
  | None, None => mret this
  | _, _ =>
      let raw := RawMorphology.mk (_rawSoma this) (_rawSections this) in
      m ← Morphology.buildFromRawMorphology Morphology.new raw;
      mret (mk (_nodes this) (store this) (_rawSoma this) (_rawSections this)
               (Some raw) (Some m))
  end.

(** [constructor(points)] *)
Definition new (fuel : nat) (points : array Point.t) : outcome t :=
  let this := mk [] [] None None None None in
  this ← _initCollection this points;
  this ← _buildSections fuel this;
  _buildMorphologyObjects this.

End Engine.

End TreeNodeCollection.

(* ================================================================== *)
(** * SwcParser.js *)
(* ================================================================== *)

Module SwcParser.

Record t := mk {
  _morphology : option Morphology.t;
  _rawMorphology : option RawMorphology.t
}.

Definition getRawMorphology (this : t) := _rawMorphology this.
Definition getMorphology (this : t) := _morphology this.

(** [/\s*#.*?$/mg] *)
Definition re_comment : regex :=
  [Many Greedy false isSpace; One (isChar "#"); Many Lazy false isDot; Eol].

(** [/^\s*$/mg] *)
Definition re_empty : regex := [Bol; Many Greedy false isSpace; Eol].

(** [/^\s+/m] *)
Definition re_leading : regex := [Bol; Many Greedy true isSpace].

(** [/\s+$/m] *)
Definition re_trailing : regex := [Many Greedy true isSpace; Eol].

(** [/[\s,]+/] *)
Definition re_separator : regex := [Many Greedy true isSpaceOrComma].

Definition LF : ascii := ascii_of_nat 10.

Section Builtins.

(** The two functions of the host the parser calls on a token; the
    rounded value is an integer. *)
Variable parseFloat : string -> float.
Variable Math_round : float -> Z.
Context {eng : engine}.

Definition field (row : list (list ascii)) (k : nat) : string :=
  string_of_list_ascii (nth k row []).

(** The body of the loop over the lines: [swcPoints[i] = [...]] when the
    row has 7 fields or more. *)
Fixpoint linesLoop (lines : list (list ascii)) (i : nat)
  (swcPoints : array Point.t) : array Point.t :=
  match lines with
  | [] => swcPoints
  | line :: lines =>
      let row :=
        split_regex re_separator
          (remove_first true re_trailing None
             (remove_first true re_leading None line)) in
      let swcPoints :=
        if 7 <=? length row then
          array_set i
            (Point.mk (Math_round (parseFloat (field row 0)))
                      (Math_round (parseFloat (field row 1)))
                      (parseFloat (field row 2))
                      (parseFloat (field row 3))
                      (parseFloat (field row 4))
                      (parseFloat (field row 5))
                      (Math_round (parseFloat (field row 6))))
            swcPoints
        else swcPoints in
      linesLoop lines (i + 1) swcPoints
  end.

(** [static extractPoints(swcStr)] *)
Definition extractPoints (swcStr : string) : array Point.t :=
  let result := remove_all true re_comment 0 None (list_ascii_of_string swcStr) in
  let result := remove_all true re_empty 0 None (trim result) in
  let lines := split_char LF [] result in
  linesLoop lines 0 [].

(** [parse(swcStr)]: the parser after the call, and how the call
    completed. *)
Definition parse (fuel : nat) (this : t) (swcStr : string)
  : t * outcome unit :=
  let this := mk None None in
  let rawPoints := extractPoints swcStr in
  match TreeNodeCollection.new fuel rawPoints with
  | Return treeNodeCollection =>
      (mk (TreeNodeCollection.getMorphology treeNodeCollection)
          (TreeNodeCollection.getRawMorphology treeNodeCollection),
       Return tt)
  | Throw e => (this, Throw e)
  | OutOfFuel => (this, OutOfFuel)
  end.

End Builtins.

End SwcParser.

(* ================================================================== *)
(** * Predicates used in the statements *)
(* ================================================================== *)

(** A run that the code does not end: it has no result as long as the
    engine goes on, and fails with a RangeError when the engine gives
    up; no amount of fuel makes it return, or fail otherwise. *)
Definition exhausts {A} (run : nat -> outcome A) : Prop :=
  (forall fuel, run fuel = OutOfFuel \/ run fuel = Throw RangeError) /\
  exists fuel, forall fuel', fuel <= fuel' -> run fuel' = Throw RangeError.

(** A run that ends has one result, which it completes with from some
    amount of fuel on. *)
Definition terminates {A} (run : nat -> outcome A) : Prop :=
  exists fuel r, completes r /\ forall fuel', fuel <= fuel' -> run fuel' = r.

(** [b] is [a], unless [a] ran out of fuel. *)
Definition extends {A} (a b : outcome A) : Prop := a = OutOfFuel \/ a = b.

(** ** Predicates on the store of nodes *)

Section StorePredicates.
Import TreeNode.

(** A child is a node of the store, created no earlier than the node
    that lists it, whose parent is that node.  No node is flagged as
    having a soma child. *)
Record store_ok (h : heap) : Prop := {
  ok_child : forall r n c, h !! r = Some n -> c ∈ _children n ->
             r <= c /\ exists cn, h !! c = Some cn /\ _parent cn = Some r;
  ok_soma : forall r n, h !! r = Some n -> _hasSomaChildren n = false;
  ok_len : forall r n, h !! r = Some n -> length (_children n) <= length h
}.

(** No node lists itself: a child is created after the node. *)
Definition store_strict (h : heap) : Prop :=
  forall r n c, h !! r = Some n -> c ∈ _children n -> r < c.

Definition table_ok (nodes : object ref) (h : heap) : Prop :=
  forall k r, obj_get k nodes = Some r -> r < length h.

(** No accepted point names itself as its parent. *)
Definition noSelfParent (points : array Point.t) : Prop :=
  forall p, Some p ∈ points -> Point.parentId p <> Point.id p.

End StorePredicates.

(** ** The order of the sections, as the specification words it *)

Section SectionOrder.
Import TreeNode TreeNodeCollection.
Context {eng : engine}.

(** A raw section without the list of its children. *)
Definition strip (s : RawSection.t) : RawSection.t :=
  RawSection.mk (RawSection.typevalue s) (RawSection.typename s)
    (RawSection.points s) (RawSection.id s) [] (RawSection.parent s).

(** The nodes a section starts with: the parent of its starting node. *)
Definition seed (cn : TreeNode.t) : list ref :=
  match getParent cn with
  | Some p => [p]
  | None => []
  end.

(** The section of a starting node: its type, the points of the nodes
    walked, the id it is given and its parent section. *)
Definition sectionOf (h : heap) (cn : TreeNode.t) (nodeList : list ref)
  (id : nat) (parent : option nat) : RawSection.t :=
  RawSection.mk (getType cn) None
    (zeroFirstRadius parent (map pointOf (nodesOf h nodeList))) id [] parent.

(** The starting nodes [ys] a section hands on, as work for later: the
    last one first. *)
Definition spawned (ys : list ref) (id : nat) : list entry :=
  rev (map (fun n => mkEntry n (Some id)) ys).

(** [Forest h es next l]: [l] lists the sections of the trees that start
    at the entries [es], numbered from [next] on, depth first: a section
    is followed by all the sections below it, the branches it forks into
    being taken in the reverse of the order of the children, and only
    then by the sections of the entries after it. *)
Inductive Forest (h : heap) : list entry -> nat -> list RawSection.t -> Prop :=
| Forest_nil next : Forest h [] next []
| Forest_cons c par es next cn fuel nodeList ys below after :
    h !! c = Some cn ->
    dive (S callStack) fuel h c (seed cn) = Return (nodeList, ys) ->
    Forest h (spawned ys next) (S next) below ->
    Forest h es (S next + length below) after ->
    Forest h (mkEntry c par :: es) next
      (sectionOf h cn nodeList next par :: below ++ after).

End SectionOrder.

(** ** Continuity of the sections *)

Section Continuity.
Import TreeNode TreeNodeCollection.

Definition firstPoint (s : RawSection.t) : option RawPoint.t :=
  head (RawSection.points s).

Definition lastPoint (s : RawSection.t) : option RawPoint.t :=
  list.last (RawSection.points s).

(** Every section that has a parent section starts with the point its
    parent section ends with. *)
Definition continuous (secs : list RawSection.t) : Prop :=
  forall i s p, secs !! i = Some s -> RawSection.parent s = Some p ->
    exists ps pt, secs !! p = Some ps /\
      firstPoint s = Some pt /\ lastPoint ps = Some pt.

(** An entry of the stack: its node has a parent node, and the section
    it names as parent, if any, ends with the point of that node. *)
Definition entry_ok (h : heap) (secs : list RawSection.t) (e : entry) : Prop :=
  exists cn p pn,
    h !! node e = Some cn /\ _parent cn = Some p /\ h !! p = Some pn /\
    forall q, parentSectionId e = Some q ->
      exists ps, secs !! q = Some ps /\ lastPoint ps = Some (pointOf pn).

End Continuity.

(** ** Engines *)

(** An engine whose call stack has room for 16 calls of a method to
    itself, and whose arrays hold 16 elements. *)
Definition smallEngine : engine := mkEngine 16 16 (le_n 16) (le_n 16).

(** ** Reading the result of a call *)

(** What a call returned, if it did. *)
Definition returned {A} (o : outcome A) : option A :=
  match o with
  | Return a => Some a
  | _ => None
  end.

(** ** The inputs of the examples *)

(** A point, in a slot of the array of points. *)
Definition pt (id type : Z) (pos : vec3) (r : float) (parent : Z)
  : option Point.t :=
  match pos with
  | (x, y, z) => Some (Point.mk id type x y z r parent)
  end.

(** One axon node, 2, below the root, with two axon children, 3 and 4. *)
Definition forkPoints (p1 p2 p3 p4 : vec3) (r1 r2 r3 r4 : float)
  : array Point.t :=
  [pt 1 1 p1 r1 (-1); pt 2 2 p2 r2 1; pt 3 2 p3 r3 2; pt 4 2 p4 r4 2].

(** A root of type soma, [i0], and a chain of four nodes of type axon
    below it: [i1] is a child of [i0], [i2] of [i1], and so on. *)
Definition chainPoints (i0 i1 i2 i3 i4 : Z) (p0 p1 p2 p3 p4 : vec3)
  (r0 r1 r2 r3 r4 : float) : array Point.t :=
  [pt i0 1 p0 r0 (-1); pt i1 2 p1 r1 i0; pt i2 2 p2 r2 i1;
   pt i3 2 p3 r3 i2; pt i4 2 p4 r4 i3].

(** The id of the root is a non negative integer below the ids of the
    other points, which are all different. *)
Definition rootFirst (root : Z) (others : list Z) : Prop :=
  (0 <= root)%Z /\ Forall (fun i => (root < i)%Z) others /\ NoDup others.

(** ** Fuel that is enough *)

Section Potential.
Import TreeNode TreeNodeCollection.

(** The weight of a stack over a store of [n] nodes: a node weighs more
    than all the nodes created after it can weigh together. *)
Definition weight (n : nat) (r : ref) : nat := S n ^ (n - r).

Definition potential (n : nat) (stack : list entry) : nat :=
  list_sum (map (fun e => weight n (node e)) stack).

(** Loop iterations and recursive calls that are enough for a store of
    [n] nodes none of which is its own parent. *)
Definition enough (n : nat) : nat := n * S n ^ n + n + 2.

End Potential.

(** A point that names itself as its parent, and a second child of it. *)
Definition selfParentFork : array Point.t :=
  [pt 1 2 (0, 0, 0) 1 1; pt 2 2 (1, 0, 0) 1 1]%float.

(** The store [_initCollection] builds from [selfParentFork]: the node 0
    is its own parent and its own first child. *)
Definition selfParentStore : TreeNode.heap :=
  [TreeNode.mk 1 2 (0, 0, 0)%float 1%float (Some 0) [0; 1] false;
   TreeNode.mk 2 2 (1, 0, 0)%float 1%float (Some 0) [] false].

(** A root, a child of the root, and a point that names itself as its
    parent. *)
Definition selfParentAside : array Point.t :=
  [pt 1 1 (0, 0, 0) 5 (-1); pt 2 2 (1, 0, 0) 1 1; pt 3 2 (2, 0, 0) 1 3]%float.

(** The point at index [i] names a parent, and no point before it has
    that id. *)
Definition parentNotEarlier (points : array Point.t) (i : nat) (p : Point.t)
  : Prop :=
  points !! i = Some (Some p) /\
  Point.parentId p <> (-1)%Z /\
  forall j q, j < i -> points !! j = Some (Some q) ->
    Point.id q <> Point.parentId p.

(** The same, and the parent it names is not the point itself either:
    the id is not registered when the parent is looked up. *)
Definition parentNotRegistered (points : array Point.t) (i : nat) (p : Point.t)
  : Prop :=
  parentNotEarlier points i p /\ Point.parentId p <> Point.id p.

(** ** Objects *)

(** No two properties of an object have the same name. *)
Definition wf_object {V} (o : object V) : Prop := NoDup (map fst o).

(** Lines of text, joined by line feeds. *)
Definition unlines (l : list string) : string :=
  String.concat (String SwcParser.LF EmptyString) l.

(** The point [extractPoints] makes of a row of seven fields. *)
Definition parsed (parseFloat : string -> float) (Math_round : float -> Z)
  (id type x y z radius parentId : string) : option Point.t :=
  Some (Point.mk (Math_round (parseFloat id)) (Math_round (parseFloat type))
          (parseFloat x) (parseFloat y) (parseFloat z) (parseFloat radius)
          (Math_round (parseFloat parentId))).

(** Three lines, the second of one field only. *)
Definition textWithShortLine : string :=
  unlines ["1 1 0 0 0 5 -1"; "foo"; "2 2 1 0 0 1 1"]%string.

(** A morphology that stores one section, under the id 0. *)
Definition oneSection : Morphology.t :=
  Morphology.mk
    [(0%Z, MSection.mk 0 None [] (Some "axon"%string) (Some 2%Z)
             [(0, 0, 0); (1, 0, 0)]%float [0; 1]%float)]
    None.


(** ** Texts of points *)

(** A character of a field: no white space, no comma, no [#]. *)
Definition isField (c : ascii) : bool :=
  negb (isSpaceOrComma c) && negb (isChar "#" c).

(** A character that separates two fields of a line: white space or a
    comma, and no line terminator. *)
Definition isBlank (c : ascii) : bool :=
  isSpaceOrComma c && negb (isLineTerminator c).

(** White space within a line. *)
Definition isGap (c : ascii) : bool := isSpace c && negb (isLineTerminator c).

(** A row of fields: the first one, then the others, each after its
    separator. *)
Record row := mkRow {
  lead : list ascii;
  others : list (list ascii * list ascii)
}.

Definition fields (r : row) : list (list ascii) :=
  lead r :: map snd (others r).

Definition render_row (r : row) : list ascii :=
  lead r ++ concat (map (fun sf => fst sf ++ snd sf) (others r)).

Definition wf_field (f : list ascii) : bool :=
  match f with [] => false | _ => forallb isField f end.

Definition wf_sep (s : list ascii) : bool :=
  match s with [] => false | _ => forallb isBlank s end.

Definition wf_row (r : row) : bool :=
  wf_field (lead r)
  && forallb (fun sf => wf_sep (fst sf) && wf_field (snd sf)) (others r).

(** A line of a file: a comment, or a row of fields that a comment may
    follow.  A comment is white space, [#] and a text. *)
Inductive line :=
| Comment (gap text : list ascii)
| Data (r : row) (remark : option (list ascii * list ascii)).

Definition render_comment (gap text : list ascii) : list ascii :=
  gap ++ "#"%char :: text.

Definition render_line (l : line) : list ascii :=
  match l with
  | Comment gap text => render_comment gap text
  | Data r None => render_row r
  | Data r (Some (gap, text)) => render_row r ++ render_comment gap text
  end.

Definition wf_comment (gap text : list ascii) : bool :=
  forallb isGap gap && forallb isDot text.

Definition wf_line (l : line) : bool :=
  match l with
  | Comment gap text => wf_comment gap text
  | Data r None => wf_row r
  | Data r (Some (gap, text)) => wf_row r && wf_comment gap text
  end.

(** The rows of the lines that are no comment. *)
Definition rowsOf (doc : list line) : list row :=
  omap (fun l => match l with Data r _ => Some r | Comment _ _ => None end) doc.

(** Each line after a line feed, and the lines joined by line feeds. *)
Definition tailLines (ls : list (list ascii)) : list ascii :=
  concat (map (fun l => SwcParser.LF :: l) ls).

Definition joinLines (ls : list (list ascii)) : list ascii :=
  match ls with
  | [] => []
  | l :: ls' => l ++ tailLines ls'
  end.

(** The text of a file, given its lines. *)
Definition render (doc : list line) : string :=
  string_of_list_ascii (joinLines (map render_line doc)).

(** An array without the empty slots it ends with. *)
Fixpoint trunc {A} (l : array A) : array A :=
  match l with
  | [] => []
  | x :: l' =>
      match x, trunc l' with
      | None, [] => []
      | _, t => x :: t
      end
  end.

(** The point of a row of seven fields or more, and the slot of a row. *)
Definition rowPoint (parseFloat : string -> float) (Math_round : float -> Z)
  (fs : list (list ascii)) : Point.t :=
  Point.mk (Math_round (parseFloat (SwcParser.field fs 0)))
           (Math_round (parseFloat (SwcParser.field fs 1)))
           (parseFloat (SwcParser.field fs 2))
           (parseFloat (SwcParser.field fs 3))
           (parseFloat (SwcParser.field fs 4))
           (parseFloat (SwcParser.field fs 5))
           (Math_round (parseFloat (SwcParser.field fs 6))).

Definition slot (parseFloat : string -> float) (Math_round : float -> Z)
  (r : row) : option Point.t :=
  if 7 <=? length (fields r) then Some (rowPoint parseFloat Math_round (fields r))
  else None.

(** ** Regular expressions: what the matcher finds *)

(** The length of the longest prefix of [s] made of characters of [p]. *)
Fixpoint run (p : ascii -> bool) (s : list ascii) : nat :=
  match s with
  | c :: s' => if p c then S (run p s') else 0
  | [] => 0
  end.

(** The comment that starts at the head of [s], white space included:
    its length. *)
Fixpoint commentAt (s : list ascii) : option nat :=
  match s with
  | [] => None
  | c :: s' =>
      if isSpace c then succ_len (commentAt s')
      else if isChar "#" c then Some (S (run isDot s'))
      else None
  end.

(** No match of [r] in [s] but empty ones; [prev] is the character
    before [s]. *)
Fixpoint quiet (m : bool) (r : regex) (prev : option ascii) (s : list ascii)
  : Prop :=
  match s with
  | [] => True
  | c :: s' =>
      (rmatch m r prev s = None \/ rmatch m r prev s = Some 0)
      /\ quiet m r (Some c) s'
  end.

(** No line of [s] starts with white space; [prev] is the character
    before [s]. *)
Fixpoint tidy (prev : option ascii) (s : list ascii) : bool :=
  match s with
  | [] => true
  | c :: s' => (negb (at_bol true prev) || negb (isSpace c)) && tidy (Some c) s'
  end.

(** The text of a row: it has no line terminator and no [#], and white
    space neither at its start nor at its end. *)
Definition rowText (l : list ascii) : Prop :=
  Forall (fun c => isLineTerminator c = false /\ isChar "#" c = false) l /\
  (exists c l', l = c :: l' /\ isSpace c = false) /\
  (exists l' z, l = l' ++ [z] /\ isSpace z = false).

(** A row whose fields are separated by one space each. *)
Definition spaced (first : string) (rest : list string) : row :=
  mkRow (list_ascii_of_string first)
        (map (fun f => (list_ascii_of_string " ", list_ascii_of_string f)) rest).

(** The lines of a file without its comments. *)
Definition plain (rows : list row) : list line :=
  map (fun r => Data r None) rows.

(** Two rows of seven fields, each followed by a row of one field. *)
Definition rowsWithShortOnes : list row :=
  [spaced "1" ["1"; "0"; "0"; "0"; "5"; "-1"]; spaced "foo" [];
   spaced "2" ["2"; "1"; "0"; "0"; "1"; "1"]; spaced "bar" []]%string.

(** A file with a header, a comment between two rows and a remark at
    the end of a row. *)
Definition fileWithComments : list line :=
  [Comment [] (list_ascii_of_string " a neuron");
   Data (spaced "1" ["1"; "0"; "0"; "0"; "5"; "-1"]%string) None;
   Comment (list_ascii_of_string "  ") (list_ascii_of_string "the axon");
   Data (spaced "2" ["2"; "1"; "0"; "0"; "1"; "1"]%string)
        (Some (list_ascii_of_string " ", list_ascii_of_string " tip"))].

(** ** Files as they are written *)

Definition CR : ascii := ascii_of_nat 13.

(** A line as it is written: white space before it, the line, white
    space after it, and a carriage return when the file has one before
    its line feeds. *)
Record written := mkWritten {
  indent : list ascii;
  content : line;
  trailing : list ascii;
  cr : bool
}.

Definition ending (c : bool) : list ascii := if c then [CR] else [].

Definition render_written (w : written) : list ascii :=
  indent w ++ render_line (content w) ++ trailing w ++ ending (cr w).

Definition wf_written (w : written) : bool :=
  forallb isGap (indent w) && wf_line (content w) && forallb isGap (trailing w).

(** The text of a file, given its lines as they are written. *)
Definition write (doc : list written) : string :=
  string_of_list_ascii (joinLines (map render_written doc)).

(** The rows of a file. *)
Definition rowsWritten (doc : list written) : list row :=
  rowsOf (map content doc).

(** A row of what is left of a file without its comments, after the
    end of the line before it: white space, a carriage return if any,
    the line feed, and the white space before the row. *)
Record gapped := mkGapped {
  g_trailing : list ascii;
  g_cr : bool;
  g_indent : list ascii;
  g_row : row
}.

Definition render_gapped (g : gapped) : list ascii :=
  g_trailing g ++ ending (g_cr g)
  ++ SwcParser.LF :: g_indent g ++ render_row (g_row g).

Definition wf_gapped (g : gapped) : Prop :=
  Forall (fun c => isGap c = true) (g_trailing g) /\
  Forall (fun c => isGap c = true) (g_indent g) /\
  wf_row (g_row g) = true.

(** The rows of the lines [doc], that come after the white space [tr]
    and the carriage return [c], and what is left after the last row. *)
Fixpoint gaps (tr : list ascii) (c : bool) (doc : list written) : list gapped :=
  match doc with
  | [] => []
  | w :: doc' =>
      match content w with
      | Comment _ _ => gaps [] (cr w) doc'
      | Data r None => mkGapped tr c (indent w) r :: gaps (trailing w) (cr w) doc'
      | Data r (Some _) => mkGapped tr c (indent w) r :: gaps [] (cr w) doc'
      end
  end.

Fixpoint leftover (tr : list ascii) (c : bool) (doc : list written) : list ascii :=
  match doc with
  | [] => tr ++ ending c
  | w :: doc' =>
      match content w with
      | Data r None => leftover (trailing w) (cr w) doc'
      | _ => leftover [] (cr w) doc'
      end
  end.

(** The rows, from the first field of the first one to the last field
    of the last one. *)
Definition inner (gs : list gapped) : list ascii :=
  match gs with
  | [] => []
  | g :: gs' => render_row (g_row g) ++ concat (map render_gapped gs')
  end.

(** The lines of [cur] and the rows after it. *)
Fixpoint linesFrom (cur : list ascii) (gs : list gapped) : list (list ascii) :=
  match gs with
  | [] => [cur]
  | g :: gs' =>
      (cur ++ g_trailing g ++ ending (g_cr g))
      :: linesFrom (g_indent g ++ render_row (g_row g)) gs'
  end.

(** A line without the white space around it. *)
Definition unspace (l : list ascii) : list ascii :=
  remove_first true SwcParser.re_trailing None
    (remove_first true SwcParser.re_leading None l).

(** A file of a system that ends its lines with a carriage return and a
    line feed: a header, two indented rows, the second with a remark,
    and a comment at the end. *)
Definition fileAsWritten : list written :=
  [mkWritten [] (Comment [] (list_ascii_of_string " a neuron")) [] true;
   mkWritten (list_ascii_of_string "  ")
     (Data (spaced "1" ["1"; "0"; "0"; "0"; "5"; "-1"]%string) None)
     (list_ascii_of_string " ") true;
   mkWritten (list_ascii_of_string "  ")
     (Data (spaced "2" ["2"; "1"; "0"; "0"; "1"; "1"]%string)
           (Some (list_ascii_of_string " ", list_ascii_of_string " tip")))
     [] true;
   mkWritten [] (Comment [] (list_ascii_of_string " the end")) [] true].

(** The text of rows, a line of white space only, and more rows. *)
Definition withBlankLine (above : list row) (blank : list ascii)
  (below : list row) : string :=
  string_of_list_ascii
    (joinLines (map render_row above ++ blank :: map render_row below)).

(** ** Points and stores *)

(** Every slot holds a point that names no parent. *)
Definition unconnected (points : array Point.t) : Prop :=
  Forall (fun slot => exists p, slot = Some p /\ Point.parentId p = (-1)%Z) points.

(** No node of the store has a child. *)
Definition childless (h : TreeNode.heap) : Prop :=
  Forall (fun n => TreeNode._children n = [] /\ TreeNode._hasSomaChildren n = false) h.

(** ** Parents and children of the raw sections *)

(** The places, counted from [i], of [Some p] in a list of parents. *)
Fixpoint indicesOf (p : nat) (parents : list (option nat)) (i : nat) : list nat :=
  match parents with
  | [] => []
  | q :: rest =>
      match q with
      | Some q' => if q' =? p then i :: indicesOf p rest (S i) else indicesOf p rest (S i)
      | None => indicesOf p rest (S i)
      end
  end.

(** The sections that name the section [p] as their parent, in the
    order of their ids. *)
Definition childrenOf (secs : list RawSection.t) (p : nat) : list nat :=
  indicesOf p (map RawSection.parent secs) 0.

(** The lists of children: empty for the section 0, and for any other
    section the sections that name it as their parent. *)
Definition registered (secs : list RawSection.t) : Prop :=
  forall p ps, secs !! p = Some ps ->
    RawSection.children ps
    = match p with 0 => [] | S _ => childrenOf secs p end.

(** A section comes after its parent. *)
Definition parentsFirst (secs : list RawSection.t) : Prop :=
  forall c sc q, secs !! c = Some sc -> RawSection.parent sc = Some q -> q < c.

(** A root, the node 2 below it, the nodes 3 and 4 below the node 2,
    and the nodes 5 and 6 below the node 4. *)
Definition twoForks : array Point.t :=
  [pt 1 1 (0, 0, 0) 5 (-1); pt 2 2 (1, 0, 0) 1 1; pt 3 2 (2, 1, 0) 1 2;
   pt 4 2 (2, (-1), 0) 1 2; pt 5 2 (3, 0, 0) 1 4; pt 6 2 (3, (-2), 0) 1 4]%float.

(** ** Raw sections and the sections of a morphology *)

(** The section a raw section stands for: its id, its parent and its
    children, the type [initWithRawSection] gives it, and its points. *)
Definition mirror (s : RawSection.t) : MSection.t :=
  MSection.mk (RawSection.id s) (RawSection.parent s) (RawSection.children s)
    (MSection._typename (MSection.initWithRawSection s))
    (MSection._typevalue (MSection.initWithRawSection s))
    (map RawPoint.position (RawSection.points s))
    (map RawPoint.radius (RawSection.points s)).

(** Raw sections whose ids are their places in the list, and that name
    as parent and as children other sections of the list, no child
    twice. *)
Definition wellNumbered (raws : list RawSection.t) : Prop :=
  forall i s, raws !! i = Some s ->
    RawSection.id s = i /\
    (forall q, RawSection.parent s = Some q -> q < length raws /\ q <> i) /\
    Forall (fun c => c < length raws /\ c <> i) (RawSection.children s) /\
    NoDup (RawSection.children s).

(** The sections of [raws] stored under their ids. *)
Definition entries (F : RawSection.t -> MSection.t) (raws : list RawSection.t)
  : object MSection.t :=
  map (fun s => (Morphology.key (RawSection.id s), F s)) raws.

(** The ids of [raws] count from [off]. *)
Definition idsFrom (off : nat) (raws : list RawSection.t) : Prop :=
  forall i s, raws !! i = Some s -> RawSection.id s = off + i.

(** A section with other children. *)
Definition with_children (cs : list nat) (s : MSection.t) : MSection.t :=
  MSection.mk (MSection._id s) (MSection._parent s) cs (MSection._typename s)
    (MSection._typevalue s) (MSection._points s) (MSection._radiuses s).

(** A section has no parent. *)
Definition orphan (s : RawSection.t) : bool :=
  match RawSection.parent s with Some _ => false | None => true end.

(** Three raw sections, the second and the third below the first. *)
Definition threeRaw : list RawSection.t :=
  [RawSection.mk 2 None [RawPoint.mk (0, 0, 0) 0; RawPoint.mk (1, 0, 0) 1]%float
     0 [1; 2] None;
   RawSection.mk 2 None [RawPoint.mk (1, 0, 0) 1; RawPoint.mk (2, 1, 0) 1]%float
     1 [] (Some 0);
   RawSection.mk 3 None [RawPoint.mk (1, 0, 0) 1; RawPoint.mk (2, 0, 0) 1]%float
     2 [] (Some 0)].

(** ** Sections and somas *)

(** [addPoint] for each of the points [(x, y, z, r)] of a list. *)
Definition addPoints (s : MSection.t)
  (more : list (float * float * float * option float)) : MSection.t :=
  fold_left (fun s p => match p with (x, y, z, r) => MSection.addPoint s x y z r end)
            more s.

(** A section keeps its children apart: no child twice, and not itself. *)
Definition childrenApart (s : MSection.t) : Prop :=
  NoDup (MSection._children s) /\ MSection._id s ∉ MSection._children s.

(** A section with the children 1 and 2, and a section 3. *)
Definition sectionWithChildren : MSection.t :=
  MSection.mk 0 None [1; 2] (Some "axon"%string) (Some 2%Z)
    [(0, 0, 0); (1, 0, 0)]%float [0; 1]%float.

Definition sectionThree : MSection.t :=
  MSection.mk 3 None [] (Some "axon"%string) (Some 2%Z)
    [(1, 0, 0); (2, 0, 0)]%float [1; 1]%float.

(** ** The nodes of a section *)

(** What a raw section is made of: the node [above] its starting node,
    then nodes of one type, the type of the section.  The section
    without a parent section starts at the node [root]. *)
Definition madeOf (h : TreeNode.heap) (root : TreeNode.t) (s : RawSection.t)
  : Prop :=
  exists above ns,
    above ∈ h /\ ns <> [] /\
    Forall (fun n => n ∈ h /\ TreeNode.getType n = RawSection.typevalue s) ns /\
    RawSection.points s
    = TreeNodeCollection.zeroFirstRadius (RawSection.parent s)
        (map TreeNodeCollection.pointOf (above :: ns)) /\
    (RawSection.parent s = None -> above = root).

(** The entries of a stack that name the section [p] as the parent. *)
Definition entriesBelow (p : nat) (es : list TreeNodeCollection.entry) : nat :=
  length (List.filter
            (fun e => match TreeNodeCollection.parentSectionId e with
                      | Some q => q =? p
                      | None => false
                      end) es).

(** ** The nodes of the points *)

(** The place of the last point of [ps] that has the id [k], the points
    being counted from [i]; [found] when there is none. *)
Fixpoint lastFrom (i : nat) (ps : list Point.t) (k : Z) (found : option nat)
  : option nat :=
  match ps with
  | [] => found
  | p :: ps' =>
      lastFrom (S i) ps' k (if Z.eqb (Point.id p) k then Some i else found)
  end.

Definition lastWithId (ps : list Point.t) (k : Z) : option nat :=
  lastFrom 0 ps k None.

(** The parent of the node of the point [p], the point at the place [i]
    of [ps]: none when [p] names no parent, and otherwise the node of
    the last point up to [p], [p] included, that has the id [p] names. *)
Definition parentOf (ps : list Point.t) (i : nat) (p : Point.t) : option nat :=
  if Z.eqb (Point.parentId p) (-1) then None
  else lastWithId (take (S i) ps) (Point.parentId p).

(** What a node holds of its point, and its parent. *)
Definition core (n : TreeNode.t) : Z * Z * vec3 * float * option nat :=
  (TreeNode._id n, TreeNode._type n, TreeNode._position n, TreeNode._radius n,
   TreeNode._parent n).

Definition nodeOf (ps : list Point.t) (i : nat) (p : Point.t)
  : Z * Z * vec3 * float * option nat :=
  (Point.id p, Point.type p, (Point.x p, Point.y p, Point.z p), Point.radius p,
   parentOf ps i p).

(** The ids of the children of a node. *)
Definition childIds (h : TreeNode.heap) (n : TreeNode.t) : list Z :=
  omap (TreeNode.idOf h) (TreeNode._children n).

(** The state of the loop of [_initCollection] after the points [pre]. *)
Record collected (pre : list Point.t) (nodes : object TreeNode.ref)
  (h : TreeNode.heap) : Prop := {
  col_length : length h = length pre;
  col_table : forall k, obj_get k nodes = lastWithId pre k;
  col_core : forall i p, pre !! i = Some p -> core <$> h !! i = Some (nodeOf pre i p);
  col_ok : store_ok h;
  col_ids : forall r n, h !! r = Some n -> NoDup (childIds h n)
}.

(** Two points with the id 2 below the point 1, and a point below the
    id 2. *)
Definition twiceTheSameId : list Point.t :=
  [Point.mk 1 1 0 0 0 5 (-1); Point.mk 2 2 1 0 0 1 1; Point.mk 2 2 2 0 0 1 1;
   Point.mk 3 2 3 0 0 1 2]%float.

(** ** Files, rows and keys *)

(** A line is a comment. *)
Definition isComment (l : line) : bool :=
  match l with Comment _ _ => true | Data _ _ => false end.

(** Two lines of comment. *)
Definition onlyComments : list line :=
  [Comment [] (list_ascii_of_string " a neuron");
   Comment (list_ascii_of_string " ") (list_ascii_of_string "no point yet")].

(** Numbers in ascending order. *)
Fixpoint ascending (l : list Z) : Prop :=
  match l with
  | [] => True
  | k :: l' => Forall (Z.le k) l' /\ ascending l'
  end.

(** ** Points that a parse accepts *)

(** A call that does not throw. *)
Definition safe {A} (m : outcome A) : Prop := forall e, m <> Throw e.

(** Every point names as its parent -1, for none, or the id of a point
    that comes before it, and never its own id. *)
Definition parentsBefore (ps : list Point.t) : Prop :=
  forall i p, ps !! i = Some p ->
    Point.parentId p <> Point.id p /\
    (Point.parentId p = (-1)%Z \/
     exists j q, j < i /\ ps !! j = Some q /\ Point.id q = Point.parentId p).

(** The entries of a stack name nodes of the store and sections that
    are built. *)
Definition stack_ok (h : TreeNode.heap) (st : TreeNodeCollection.state) : Prop :=
  Forall (fun e => TreeNodeCollection.node e < length h /\
                   forall q, TreeNodeCollection.parentSectionId e = Some q ->
                             q < length (TreeNodeCollection.sections st))
         (TreeNodeCollection.stack st).

(** ** The forest of the nodes *)

(** [c] is a child of the node [r]. *)
Definition childOf (h : TreeNode.heap) (r c : TreeNode.ref) : Prop :=
  exists n, h !! r = Some n /\ c ∈ TreeNode._children n.

(** [b] is the node [a], or a node below it. *)
Definition below (h : TreeNode.heap) : TreeNode.ref -> TreeNode.ref -> Prop :=
  rtc (childOf h).

(** The nodes form a forest: a child is created after the node that
    lists it, names it as its parent, and is listed once. *)
Record forest (h : TreeNode.heap) : Prop := {
  forest_ok : store_ok h;
  forest_strict : store_strict h;
  forest_once : forall r n, h !! r = Some n -> NoDup (TreeNode._children n)
}.

(** Nodes none of which is below another, or twice in the list. *)
Definition apart (h : TreeNode.heap) (l : list TreeNode.ref) : Prop :=
  NoDup l /\ forall a b, a ∈ l -> b ∈ l -> below h a b -> a = b.

(** The state of the loop over the stack: [started] are the nodes that
    the sections built so far start from, one for each; the nodes on
    the stack are apart, and none is above a node of [started]. *)
Record pending (h : TreeNode.heap) (started : list TreeNode.ref)
  (st : TreeNodeCollection.state) : Prop := {
  pe_stack : stack_ok h st;
  pe_cur : TreeNodeCollection.currentSectionId st
           = length (TreeNodeCollection.sections st);
  pe_len : length (TreeNodeCollection.sections st) = length started;
  pe_once : NoDup started;
  pe_nodes : Forall (fun g => g < length h) started;
  pe_apart : apart h (map TreeNodeCollection.node (TreeNodeCollection.stack st));
  pe_done : forall g a, g ∈ started ->
            a ∈ map TreeNodeCollection.node (TreeNodeCollection.stack st) ->
            ~ below h a g
}.

(** ** Inputs that meet the limits of the engine *)

(** One point, which is its own parent. *)
Definition loneSelfParent : array Point.t := [pt 1 2 (0, 0, 0) 1 1]%float.

(** The store [_initCollection] builds from [loneSelfParent]: the node 0
    is its own parent and its only child. *)
Definition loneStore : TreeNode.heap :=
  [TreeNode.mk 1 2 (0, 0, 0)%float 1%float (Some 0) [0] false].

(** A root of type soma, numbered 1, and a chain of [n] axon points
    below it, numbered from 2 on, each the child of the point before. *)
Definition chainPoint (i : nat) : Point.t :=
  Point.mk (Z.of_nat i + 2) 2 0%float 0%float 0%float 1%float (Z.of_nat i + 1).

Definition longChain (n : nat) : array Point.t :=
  pt 1 1 (0, 0, 0)%float 5%float (-1) :: map (fun i => Some (chainPoint i)) (seq 0 n).

(** The node [i] of the store once the root and [j] points of the chain
    are read: the last one has no child yet. *)
Definition chainNode (j i : nat) : TreeNode.t :=
  TreeNode.mk (Z.of_nat i + 1) (if i =? 0 then 1 else 2) (0, 0, 0)%float
    (if i =? 0 then 5%float else 1%float)
    (if i =? 0 then None else Some (i - 1))
    (if i <? j then [S i] else []) false.

Definition chainStore (j : nat) : TreeNode.heap :=
  map (chainNode j) (seq 0 (S j)).
(* ================================================================== *)
(** * Properties *)
(* ================================================================== *)

(** ** The completion monad *)

Lemma bind_Return {A B} (m : outcome A) (k : A -> outcome B) b :
  m ≫= k = Return b <-> exists a, m = Return a /\ k a = Return b.
Proof.
  unfold mbind, outcome_bind, Js.bind. split.
  - destruct m; intros H; try discriminate. eauto.
  - intros (a & -> & H). exact H.
Qed.

Lemma bind_OutOfFuel {A B} (m : outcome A) (k : A -> outcome B) :
  m ≫= k = OutOfFuel <->
  m = OutOfFuel \/ exists a, m = Return a /\ k a = OutOfFuel.
Proof.
  unfold mbind, outcome_bind, Js.bind. split.
  - destruct m; intros H; try discriminate; eauto.
  - intros [-> | (a & -> & H)]; auto.
Qed.

Lemma bind_completes {A B} (m : outcome A) (k : A -> outcome B) :
  completes m -> (forall a, m = Return a -> completes (k a)) ->
  completes (m ≫= k).
Proof.
  unfold mbind, outcome_bind, Js.bind.
  destruct m; simpl; intros Hm Hk; auto.
Qed.

Lemma deref_Return {A} (o : option A) a : deref o = Return a <-> o = Some a.
Proof. destruct o; simpl; split; intros H; congruence. Qed.

Lemma deref_completes {A} (o : option A) : completes (deref o).
Proof. destruct o; exact I. Qed.

Lemma mret_Return {A} (a b : A) : (mret a : outcome A) = Return b <-> a = b.
Proof. unfold mret, outcome_ret. split; congruence. Qed.

(** [push] returns the array with one more element, when there is room. *)
Lemma push_Return {eng : engine} {A} (x : A) a b :
  push x a = Return b <-> length a < maxArrayLength /\ b = a ++ [x].
Proof.
  unfold push. destruct (Nat.ltb_spec (length a) maxArrayLength); split.
  - by intros [= <-].
  - by intros [_ ->].
  - discriminate.
  - intros [? _]. lia.
Qed.

Lemma push_room {eng : engine} {A} (x : A) a :
  length a < maxArrayLength -> push x a = Return (a ++ [x]).
Proof. intros H. by apply push_Return. Qed.

Lemma push_full {eng : engine} {A} (x : A) a :
  maxArrayLength <= length a -> push x a = Throw RangeError.
Proof. unfold push. intros H. by destruct (Nat.ltb_spec (length a) maxArrayLength); [lia|]. Qed.

Lemma push_completes {eng : engine} {A} (x : A) a : completes (push x a).
Proof. unfold push. by destruct (_ <? _). Qed.

(** The limits of an engine are sixteen at least: what is left of each
    after sixteen calls and sixteen elements is a variable, so that runs
    on small inputs compute. *)
Ltac engine_limits eng :=
  let s := fresh "stack" in
  let m := fresh "maxLength" in
  let Hs := fresh "Hstack" in
  let Hm := fresh "HmaxLength" in
  destruct eng as [s m Hs Hm];
  do 16 (destruct s as [|s]; [exfalso; clear -Hs; lia|]);
  do 16 (destruct m as [|m]; [exfalso; clear -Hm; lia|]).

(** Splits the hypotheses that say a sequence of calls returned. *)
Ltac inv_ret :=
  repeat match goal with
    | H : push _ _ = Return _ |- _ =>
        apply (proj1 (push_Return _ _ _)) in H; destruct H as [? ->]
    | H : _ ≫= _ = Return _ |- _ =>
        apply (proj1 (bind_Return _ _ _)) in H; destruct H as (? & ? & H)
    | H : deref _ = Return _ |- _ => apply (proj1 (deref_Return _ _)) in H
    | H : mret _ = Return _ |- _ => apply (proj1 (mret_Return _ _)) in H
    | H : Return _ = Return _ |- _ => injection H as H
    | H : Throw _ = Return _ |- _ => discriminate H
    | H : OutOfFuel = Return _ |- _ => discriminate H
    end.

(** ** No node is ever seen as a soma

    [SWC_TYPES] is the default export of Constants.js, the object
    [{ SWC_TYPES }]; it has no property [SOMA]. *)

Lemma SOMA_undefined :
  Constants.get TreeNode.SWC_TYPES "SOMA" = Constants.Undefined
  /\ Constants.get TreeNodeCollection.SWC_TYPES "SOMA" = Constants.Undefined.
Proof. split; reflexivity. Qed.

Lemma SOMA_intended :
  Constants.get (Constants.get Constants.default "SWC_TYPES") "SOMA"
  = Constants.Num 1.
Proof. reflexivity. Qed.

Lemma isSoma_false (n : TreeNode.t) : TreeNode.isSoma n = false.
Proof. reflexivity. Qed.

(** ** TreeNode: children and dives *)

Section TreeNodeFacts.
Import TreeNode.
Context {eng : engine}.

(** The loop of [getNonSomaChildren] leaves [i] at 0: it is left only
    when there is no child at all. *)
Lemma nonSomaLoop_Return fuel h children acc l :
  nonSomaLoop fuel h children 0 acc = Return l -> children = [] /\ l = acc.
Proof.
  revert acc. induction fuel as [|fuel IH]; intros acc; simpl; [discriminate|].
  destruct children as [|c cs]; simpl.
  - intros H. inv_ret. auto.
  - intros H. inv_ret. apply IH in H as [? _]. discriminate.
Qed.

Lemma getNonSomaChildren_Return fuel h n l :
  getNonSomaChildren fuel h n = Return l -> l = _children n.
Proof.
  unfold getNonSomaChildren. destruct (_hasSomaChildren n); simpl.
  - intros H. apply nonSomaLoop_Return in H as [-> ->]. reflexivity.
  - intros H. inv_ret. auto.
Qed.

Lemma getNonSomaChildren_plain fuel h n :
  _hasSomaChildren n = false ->
  getNonSomaChildren fuel h n = Return (_children n).
Proof. unfold getNonSomaChildren. intros ->. reflexivity. Qed.

(** A node flagged as having a soma child whose first child is a node of
    the store: the loop pushes this child at every turn, until the array
    is full. *)
Lemma nonSomaLoop_full h c cn cs : forall fuel acc,
  h !! c = Some cn -> maxArrayLength - length acc < fuel ->
  nonSomaLoop fuel h (c :: cs) 0 acc = Throw RangeError.
Proof.
  induction fuel as [|fuel IH]; intros acc Hc Hfuel; [lia|].
  simpl. rewrite Hc. simpl. unfold push.
  destruct (Nat.ltb_spec (length acc) maxArrayLength) as [Hlt|Hge]; [|reflexivity].
  simpl. apply IH; [done|]. rewrite length_app. simpl. lia.
Qed.

(** The loop [i += 0] of [getNonSomaChildren], on a node that is flagged
    as having a soma child, ends with a RangeError. *)
Lemma getNonSomaChildren_full fuel h n c cn cs :
  _hasSomaChildren n = true -> _children n = c :: cs -> h !! c = Some cn ->
  maxArrayLength < fuel ->
  getNonSomaChildren fuel h n = Throw RangeError.
Proof.
  intros Hflag Hch Hc Hfuel. unfold getNonSomaChildren.
  rewrite Hflag, Hch. simpl. eapply nonSomaLoop_full; [done|]. simpl. lia.
Qed.

Lemma nodesOf_app h a b :
  TreeNodeCollection.nodesOf h (a ++ b)
  = TreeNodeCollection.nodesOf h a ++ TreeNodeCollection.nodesOf h b.
Proof. apply omap_app. Qed.

Lemma nodesOf_cons h r n l :
  h !! r = Some n ->
  TreeNodeCollection.nodesOf h (r :: l) = n :: TreeNodeCollection.nodesOf h l.
Proof. intros H. unfold TreeNodeCollection.nodesOf. simpl. rewrite H. reflexivity. Qed.

(** What a dive that returns has done: it has appended a path that ends
    at a node [t] of the store, and it yields children of [t]. *)
Lemma dive_Return room fuel h this nl nl' ys :
  dive room fuel h this nl = Return (nl', ys) ->
  exists path t tn,
    nl' = nl ++ path ++ [t] /\ h !! t = Some tn /\
    (ys = [] \/ ys = _children tn).
Proof.
  revert this nl. induction room as [|room IH]; intros this nl; simpl; [discriminate|].
  intros H. inv_ret.
  match goal with Hc : getNonSomaChildren _ _ _ = _ |- _ =>
    apply getNonSomaChildren_Return in Hc; subst end.
  match goal with Ht : h !! this = Some ?x |- _ => rename x into tn; rename Ht into Htn end.
  destruct (_children tn) as [|c [|c' cs]] eqn:Hch.
  - inv_ret. injection H as <- <-. exists [], this, tn. rewrite Hch. auto.
  - inv_ret.
    destruct (Z.eqb _ _).
    + apply IH in H as (path & t & tn' & -> & Ht & Hys).
      exists (this :: path), t, tn'. rewrite <- !app_assoc. auto.
    + inv_ret. injection H as <- <-. exists [], this, tn. auto.
  - inv_ret. injection H as <- <-. exists [], this, tn. rewrite Hch. auto.
Qed.

Lemma dive_O fuel h this nl : dive 0 fuel h this nl = Throw RangeError.
Proof. reflexivity. Qed.

(** The equation of [dive]. *)
Lemma dive_S room fuel h this nl :
  dive (S room) fuel h this nl
  = (tn ← deref (h !! this);
     children ← getNonSomaChildren fuel h tn;
     match children with
     | [c] =>
         cn ← deref (h !! c);
         if Z.eqb (getType cn) (_type tn) then dive room fuel h c (nl ++ [this])
         else mret (nl ++ [this], [])
     | _ => mret (nl ++ [this], children)
     end).
Proof. reflexivity. Qed.

End TreeNodeFacts.

Arguments TreeNode.dive : simpl never.

(** ** The store of nodes after [_initCollection] *)

Section StoreInvariant.
Import TreeNode TreeNodeCollection.

Lemma obj_get_set_eq {V} k (v : V) o : obj_get k (obj_set k v o) = Some v.
Proof.
  induction o as [|[k' v'] o IH]; simpl.
  - rewrite Z.eqb_refl. reflexivity.
  - destruct (Z.eqb k k') eqn:E; simpl; rewrite ?Z.eqb_refl, ?E; auto.
Qed.

Lemma obj_get_set_ne {V} k k' (v : V) o :
  k <> k' -> obj_get k' (obj_set k v o) = obj_get k' o.
Proof.
  intros Hne. induction o as [|[k0 v0] o IH]; simpl.
  - destruct (Z.eqb_spec k' k); congruence.
  - destruct (Z.eqb_spec k k0); simpl.
    + subst. destruct (Z.eqb_spec k' k0); congruence.
    + destruct (Z.eqb_spec k' k0); auto.
Qed.

Lemma store_ok_nil : store_ok [].
Proof. split; intros r n; rewrite lookup_nil; discriminate. Qed.

Lemma store_strict_nil : store_strict [].
Proof. intros r n c; rewrite lookup_nil; discriminate. Qed.

(** [new TreeNode(...)] *)
Lemma store_ok_new h nn :
  store_ok h -> _children nn = [] -> _hasSomaChildren nn = false ->
  store_ok (h ++ [nn]).
Proof.
  intros [Hc Hs Hl] Hch Hso. split.
  - intros r n c Hr Hin.
    destruct (decide (r < length h)) as [Hlt|Hge].
    + rewrite lookup_app_l in Hr by done.
      destruct (Hc _ _ _ Hr Hin) as (Hle & cn & Hcn & Hp).
      split; [done|]. exists cn. split; [|done].
      apply lookup_app_l_Some. done.
    + rewrite lookup_app_r in Hr by lia.
      apply list_lookup_singleton_Some in Hr as [_ <-].
      rewrite Hch in Hin. by apply elem_of_nil in Hin.
  - intros r n Hr.
    destruct (decide (r < length h)) as [Hlt|Hge].
    + rewrite lookup_app_l in Hr by done. eauto.
    + rewrite lookup_app_r in Hr by lia.
      apply list_lookup_singleton_Some in Hr as [_ <-]. done.
  - intros r n Hr. rewrite length_app. simpl.
    destruct (decide (r < length h)) as [Hlt|Hge].
    + rewrite lookup_app_l in Hr by done. apply Hl in Hr. lia.
    + rewrite lookup_app_r in Hr by lia.
      apply list_lookup_singleton_Some in Hr as [_ <-]. rewrite Hch. simpl. lia.
Qed.

Lemma store_strict_new h nn :
  store_strict h -> _children nn = [] -> store_strict (h ++ [nn]).
Proof.
  intros Hs Hch r n c Hr Hin.
  destruct (decide (r < length h)) as [Hlt|Hge].
  - rewrite lookup_app_l in Hr by done. eauto.
  - rewrite lookup_app_r in Hr by lia.
    apply list_lookup_singleton_Some in Hr as [_ <-].
    rewrite Hch in Hin. by apply elem_of_nil in Hin.
Qed.

(** [aNode.setParent(theParentNode)] for the node [a] just created, all
    of whose fields are still the initial ones. *)
Lemma store_ok_link h a an p :
  store_ok h -> h !! a = Some an ->
  _children an = [] -> _parent an = None ->
  (forall r n, h !! r = Some n -> a ∉ _children n) ->
  (forall r n, h !! r = Some n -> length (_children n) < length h) ->
  p <= a ->
  store_ok (_addChild (alter (set_parent (Some p)) a h) p a).
Proof.
  intros [Hc Hs Hl] Ha Hch Hpar Hfresh Hlen Hpa.
  assert (Hp : p < length h) by (apply lookup_lt_Some in Ha; lia).
  set (h2 := alter (set_parent (Some p)) a h).
  assert (Ha2 : h2 !! a = Some (set_parent (Some p) an)).
  { unfold h2. rewrite list_lookup_alter_eq, Ha. reflexivity. }
  assert (Hne2 : forall r, r <> a -> h2 !! r = h !! r).
  { intros r Hr. unfold h2. by rewrite list_lookup_alter_ne. }
  assert (Hlen2 : length h2 = length h) by apply length_alter.
  assert (Hsame : forall r n, h2 !! r = Some n ->
            exists n0, h !! r = Some n0 /\ _children n = _children n0 /\
              _hasSomaChildren n = _hasSomaChildren n0 /\
              (r <> a -> _parent n = _parent n0)).
  { intros r n Hr. destruct (decide (r = a)) as [->|Hra].
    - rewrite Ha2 in Hr. injection Hr as <-. exists an. repeat split; try done.
    - rewrite Hne2 in Hr by done. exists n. repeat split; done. }
  assert (Hok2 : forall r n c, h2 !! r = Some n -> c ∈ _children n ->
            r <= c /\ exists cn, h2 !! c = Some cn /\ _parent cn = Some r).
  { intros r n c Hr Hin.
    destruct (Hsame _ _ Hr) as (n0 & Hr0 & Hch0 & _ & _).
    rewrite Hch0 in Hin.
    destruct (Hc _ _ _ Hr0 Hin) as (Hle & cn & Hcn & Hpc).
    split; [done|].
    assert (c <> a).
    { intros ->. by apply (Hfresh _ _ Hr0). }
    exists cn. by rewrite Hne2. }
  unfold _addChild. fold h2.
  destruct (lookup_lt_is_Some_2 h2 p) as [tn Htn]; [lia|].
  rewrite Htn, Ha2.
  destruct (doesAlreadyHaveChild h2 tn _).
  { split.
    - exact Hok2.
    - intros r n Hr. destruct (Hsame _ _ Hr) as (n0 & Hr0 & _ & -> & _). eauto.
    - intros r n Hr. destruct (Hsame _ _ Hr) as (n0 & Hr0 & -> & _). rewrite Hlen2. eauto. }
  destruct (Hsame _ _ Htn) as (tn0 & Htn0 & Hcht & Hsot & Hpart).
  set (tn' := push_child a _ tn).
  assert (Hp3 : <[p := tn']> h2 !! p = Some tn').
  { apply list_lookup_insert_eq. lia. }
  assert (Hne3 : forall r, r <> p -> <[p := tn']> h2 !! r = h2 !! r).
  { intros r Hr. by apply list_lookup_insert_ne. }
  assert (Hpar3 : forall c cn r, h2 !! c = Some cn -> _parent cn = Some r ->
            exists cn', <[p := tn']> h2 !! c = Some cn' /\ _parent cn' = Some r).
  { intros c cn r Hcn Hpc. destruct (decide (c = p)) as [->|Hcp].
    - exists tn'. split; [done|]. rewrite Htn in Hcn. injection Hcn as <-. done.
    - exists cn. by rewrite Hne3. }
  split.
  - intros r n c Hr Hin. destruct (decide (r = p)) as [->|Hrp].
    + rewrite Hp3 in Hr. injection Hr as <-. simpl in Hin.
      apply elem_of_app in Hin as [Hin|Hin].
      * destruct (Hok2 _ _ _ Htn Hin) as (Hle & cn & Hcn & Hpc).
        split; [done|]. by eapply Hpar3.
      * apply list_elem_of_singleton in Hin as ->.
        split; [done|].
        apply (Hpar3 _ _ _ Ha2). reflexivity.
    + rewrite Hne3 in Hr by done.
      destruct (Hok2 _ _ _ Hr Hin) as (Hle & cn & Hcn & Hpc).
      split; [done|]. by eapply Hpar3.
  - intros r n Hr. destruct (decide (r = p)) as [->|Hrp].
    + rewrite Hp3 in Hr. injection Hr as <-. simpl.
      rewrite Hsot. rewrite (Hs _ _ Htn0). reflexivity.
    + rewrite Hne3 in Hr by done.
      destruct (Hsame _ _ Hr) as (n0 & Hr0 & _ & -> & _). eauto.
  - intros r n Hr. rewrite length_insert, Hlen2.
    destruct (decide (r = p)) as [->|Hrp].
    + rewrite Hp3 in Hr. injection Hr as <-. simpl.
      rewrite length_app, Hcht. simpl. specialize (Hlen _ _ Htn0). lia.
    + rewrite Hne3 in Hr by done.
      destruct (Hsame _ _ Hr) as (n0 & Hr0 & -> & _). eauto.
Qed.

Lemma store_strict_link h a an p :
  store_strict h -> h !! a = Some an -> _children an = [] ->
  p < a ->
  store_strict (_addChild (alter (set_parent (Some p)) a h) p a).
Proof.
  intros Hs Ha Hch Hpa.
  set (h2 := alter (set_parent (Some p)) a h).
  assert (Hs2 : store_strict h2).
  { intros r n c Hr Hin. unfold h2 in Hr.
    destruct (decide (r = a)) as [->|Hra].
    - rewrite list_lookup_alter_eq, Ha in Hr. injection Hr as <-.
      simpl in Hin. rewrite Hch in Hin. by apply elem_of_nil in Hin.
    - rewrite list_lookup_alter_ne in Hr by done. eauto. }
  unfold _addChild. fold h2.
  destruct (h2 !! p) as [tn|] eqn:Htn; [|done].
  destruct (h2 !! a) as [cn|] eqn:Hcn; [|done].
  destruct (doesAlreadyHaveChild h2 tn cn); [done|].
  intros r n c Hr Hin. destruct (decide (r = p)) as [->|Hrp].
  - rewrite list_lookup_insert_eq in Hr by (by eapply lookup_lt_Some).
    injection Hr as <-. simpl in Hin.
    apply elem_of_app in Hin as [Hin|Hin]; [by eapply Hs2|].
    by apply list_elem_of_singleton in Hin as ->.
  - rewrite list_lookup_insert_ne in Hr by done. by eapply Hs2.
Qed.

Lemma length_addChild h p a : length (_addChild h p a) = length h.
Proof.
  unfold _addChild. destruct (h !! p), (h !! a); try done.
  destruct (doesAlreadyHaveChild _ _ _); [done|]. apply length_insert.
Qed.

Lemma table_ok_set nodes h k nn :
  table_ok nodes h -> table_ok (obj_set k (length h) nodes) (h ++ [nn]).
Proof.
  intros Ht k' r. rewrite length_app. simpl.
  destruct (decide (k = k')) as [->|Hk].
  - rewrite obj_get_set_eq. intros [= <-]. lia.
  - rewrite obj_get_set_ne by done. intros Hr. apply Ht in Hr. lia.
Qed.

Lemma table_ok_length nodes h h' :
  table_ok nodes h -> length h' = length h -> table_ok nodes h'.
Proof. intros Ht Hl k r Hr. rewrite Hl. eauto. Qed.

(** The invariant of the loop of [_initCollection]. *)
Lemma initLoop_ok points : forall nodes h soma nodes' h' soma',
  initLoop points nodes h soma = Return (nodes', h', soma') ->
  store_ok h -> table_ok nodes h ->
  store_ok h' /\ table_ok nodes' h' /\ soma' = soma /\
  (noSelfParent points -> store_strict h -> store_strict h').
Proof.
  induction points as [|slot points IH]; intros nodes h soma nodes' h' soma' Hrun Hok Ht.
  { simpl in Hrun. inv_ret. injection Hrun as <- <- <-. auto. }
  simpl in Hrun. inv_ret.
  match goal with Hs : slot = Some ?x |- _ => rename x into p; subst slot end.
  set (nn := TreeNode.new _ _ _ _ _ _) in *.
  set (a := length h) in *.
  assert (Hok1 : store_ok (h ++ [nn])) by (by apply store_ok_new).
  assert (Ht1 : table_ok (obj_set (Point.id p) a nodes) (h ++ [nn]))
    by (by apply table_ok_set).
  assert (Hnsp : noSelfParent (Some p :: points) ->
            Point.parentId p <> Point.id p /\ noSelfParent points).
  { intros Hn. split.
    - apply (Hn p). apply elem_of_cons. by left.
    - intros q Hq. apply (Hn q). apply elem_of_cons. by right. }
  destruct (Z.eqb_spec (Point.parentId p) (-1)) as [Hroot|Hroot].
  { destruct (IH _ _ _ _ _ _ Hrun Hok1 Ht1) as (? & ? & ? & Hstr).
    split; [done|split; [done|split; [done|]]].
    intros Hn Hs. apply Hstr; [by apply Hnsp|]. by apply store_strict_new. }
  inv_ret.
  match goal with Hs : setParent _ _ _ = _ |- _ => rename Hs into Hset end.
  unfold setParent in Hset. inv_ret.
  match goal with Hs : obj_get _ _ = Some ?x |- _ => rename x into pr; rename Hs into Hpr end.
  subst.
  assert (Ha : (h ++ [nn]) !! a = Some nn).
  { rewrite lookup_app_r by (unfold a; lia).
    replace (a - length h) with 0 by (unfold a; lia). done. }
  assert (Hpa : pr <= a).
  { apply Ht1 in Hpr. rewrite length_app in Hpr. simpl in Hpr. unfold a. lia. }
  rewrite Hpr in Hrun.
  match type of Hrun with initLoop _ _ ?hh _ = _ => set (h3 := hh) in * end.
  assert (Hok3 : store_ok h3).
  { unfold h3. eapply store_ok_link; try done.
    - intros r n Hr Hin.
      destruct (ok_child _ Hok1 _ _ _ Hr Hin) as (_ & cn & Hcn & Hpc).
      rewrite Ha in Hcn. injection Hcn as <-. done.
    - intros r n Hr. rewrite length_app. simpl.
      destruct (decide (r < length h)) as [Hlt|Hge].
      + rewrite lookup_app_l in Hr by done. apply (ok_len _ Hok) in Hr. lia.
      + rewrite lookup_app_r in Hr by lia.
        apply list_lookup_singleton_Some in Hr as [_ <-]. simpl. lia. }
  assert (Ht3 : table_ok (obj_set (Point.id p) a nodes) h3).
  { eapply table_ok_length; [exact Ht1|].
    unfold h3. rewrite length_addChild. apply length_alter. }
  destruct (IH _ _ _ _ _ _ Hrun Hok3 Ht3) as (? & ? & ? & Hstr).
  split; [done|split; [done|split; [done|]]].
  intros Hn Hs. destruct (Hnsp Hn) as [Hne Hn']. apply Hstr; [done|].
  unfold h3. eapply store_strict_link; [by apply store_strict_new|done|done|].
  rewrite obj_get_set_ne in Hpr by done. apply Ht in Hpr. unfold a. lia.
Qed.

End StoreInvariant.

(** ** The sections: how one is built *)

Section BuildFacts.
Import TreeNode TreeNodeCollection.
Context {eng : engine}.

Lemma strip_addChildId c s : strip (addChildId c s) = strip s.
Proof. reflexivity. Qed.

(** Registering a child changes nothing but a list of children. *)
Lemma registerChild_Return par cur secs secs' :
  registerChild par cur secs = Return secs' ->
  map strip secs' = map strip secs /\ length secs' = length secs.
Proof.
  unfold registerChild. destruct (truthy_num par); [|intros H; inv_ret; by subst].
  destruct par as [p|]; [|intros H; inv_ret; by subst].
  intros H. inv_ret. subst. split; [|apply length_insert].
  match goal with Hp : secs !! p = Some ?x |- _ => rename x into ps; rename Hp into Hps end.
  rewrite list_fmap_insert. rewrite strip_addChildId.
  apply list_insert_id. rewrite list_lookup_fmap, Hps. reflexivity.
Qed.

(** The defect of the test [if (parentSectionId)]: nothing is registered
    with the section 0. *)
Lemma registerChild_zero cur secs :
  registerChild (Some 0) cur secs = Return secs.
Proof. reflexivity. Qed.

Lemma registerChild_pos p cur secs ps :
  secs !! S p = Some ps ->
  registerChild (Some (S p)) cur secs
  = Return (<[S p := addChildId cur ps]> secs).
Proof. unfold registerChild. simpl. intros ->. reflexivity. Qed.

Lemma buildRawSection_Return fuel h st c par section st' :
  buildRawSection fuel h st c par = Return (section, st') ->
  exists cn nodeList ys secs',
    h !! c = Some cn /\
    dive (S callStack) fuel h c (seed cn) = Return (nodeList, ys) /\
    section = sectionOf h cn nodeList (currentSectionId st) par /\
    registerChild par (currentSectionId st) (sections st) = Return secs' /\
    st' = mkState (pushAll ys (currentSectionId st) (stack st)) secs'
            (currentSectionId st + 1).
Proof.
  unfold buildRawSection. intros H. inv_ret.
  match goal with Hd : dive _ _ _ _ _ = Return ?x |- _ => destruct x as [nodeList ys] end.
  inv_ret. injection H as <- <-.
  eexists _, nodeList, ys, _. repeat split; eauto.
Qed.

(** [sections.push(section); sections[section.id] = section] when the id
    is the length of the array: the assignment changes nothing. *)
Lemma push_then_set (secs : list RawSection.t) s :
  <[length secs := s]> (secs ++ [s]) = secs ++ [s].
Proof.
  apply list_insert_id. rewrite lookup_app_r by lia.
  replace (length secs - length secs) with 0 by lia. reflexivity.
Qed.

End BuildFacts.

(** ** The sections: their order *)

Section OrderFacts.
Import TreeNode TreeNodeCollection.
Context {eng : engine}.

Lemma Forest_app_inv h es1 : forall es2 next l,
  Forest h (es1 ++ es2) next l ->
  exists l1 l2, Forest h es1 next l1 /\
    Forest h es2 (next + length l1) l2 /\ l = l1 ++ l2.
Proof.
  induction es1 as [|e es1 IH]; intros es2 next l H; simpl in H.
  - exists [], l. simpl. rewrite Nat.add_0_r. repeat split; [constructor|done].
  - inversion H as [|c par es next' cn fuel nodeList ys below after Hc Hd Hb Ha]; subst.
    apply IH in Ha as (l1 & l2 & H1 & H2 & ->).
    exists (sectionOf h cn nodeList next par :: below ++ l1), l2.
    split; [by econstructor|]. split.
    + simpl. rewrite length_app.
      replace (next + S (length below + length l1))
        with (S next + length below + length l1) by lia. done.
    + simpl. by rewrite <- app_assoc.
Qed.

(** In a forest the ids are consecutive. *)
Lemma Forest_ids h es next l :
  Forest h es next l ->
  forall i s, l !! i = Some s -> RawSection.id s = next + i.
Proof.
  induction 1 as [|c par es next cn fuel nodeList ys below after Hc Hd Hb IHb Ha IHa];
    intros i s Hi.
  - by rewrite lookup_nil in Hi.
  - destruct i as [|i]; simpl in Hi.
    + injection Hi as <-. simpl. lia.
    + apply lookup_app_Some in Hi as [Hi|[Hge Hi]].
      * apply IHb in Hi. lia.
      * apply IHa in Hi. lia.
Qed.

Lemma Forest_strip h es next l : Forest h es next l -> map strip l = l.
Proof.
  induction 1 as [|c par es next cn fuel nodeList ys below after Hc Hd Hb IHb Ha IHa];
    [done|].
  simpl. rewrite map_app. by rewrite IHb, IHa.
Qed.

(** The loop over the stack numbers the sections as the forest of the
    entries of the stack, taken from the top. *)
Lemma popping_Forest fuel h : forall st secs,
  popping fuel h st = Return secs ->
  currentSectionId st = length (sections st) ->
  exists l, Forest h (stack st) (currentSectionId st) l /\
    map strip secs = map strip (sections st) ++ l.
Proof.
  induction fuel as [|fuel IH]; intros st secs Hrun Hcur; simpl in Hrun; [discriminate|].
  destruct (stack st) as [|[c par] rest] eqn:Hst.
  { inv_ret. subst. exists []. rewrite app_nil_r. split; [constructor|done]. }
  inv_ret.
  match goal with Hb : buildRawSection _ _ _ _ _ = Return ?x |- _ =>
    destruct x as [section st1]; rename Hb into Hbuild end.
  apply buildRawSection_Return in Hbuild
    as (cn & nodeList & ys & secs' & Hc & Hd & -> & Hreg & ->).
  simpl in *.
  apply registerChild_Return in Hreg as [Hstrip Hlen].
  inv_ret.
  rewrite Hcur, <- Hlen, push_then_set in Hrun.
  apply IH in Hrun as (l & HF & Hl); simpl in *;
    [|rewrite length_app; simpl; lia].
  unfold pushAll in HF. fold (spawned ys (length secs')) in HF.
  apply Forest_app_inv in HF as (below & after & Hb & Ha & ->).
  rewrite Hcur, <- Hlen.
  exists (sectionOf h cn nodeList (length secs') par :: below ++ after).
  split.
  - econstructor; eauto.
    + by replace (S (length secs')) with (length secs' + 1) by lia.
    + by replace (S (length secs') + length below)
        with (length secs' + 1 + length below) by lia.
  - rewrite Hl, map_app, Hstrip. simpl. rewrite <- app_assoc. reflexivity.
Qed.

End OrderFacts.

(** ** The constructor, stage by stage *)

Section ConstructorFacts.
Import TreeNode TreeNodeCollection.
Context {eng : engine}.

Lemma findFirstValid_Some fuel h nodes ids f ch :
  findFirstValid fuel h nodes ids = Return (Some (f, ch)) ->
  exists k fn, k ∈ ids /\ obj_get k nodes = Some f /\ h !! f = Some fn /\
    ch = _children fn /\ ch <> [].
Proof.
  induction ids as [|k ids IH]; simpl; intros H; inv_ret; [discriminate|].
  match goal with Hc : getNonSomaChildren _ _ _ = _ |- _ =>
    apply getNonSomaChildren_Return in Hc; subst end.
  match goal with Hn : h !! _ = Some ?x |- _ => rename x into n end.
  destruct (_children n) as [|c cs] eqn:Hch; simpl in H.
  - apply IH in H as (k' & fn & Hk & ?). exists k', fn. split; [|done].
    apply elem_of_cons. by right.
  - inv_ret. injection H as <- <-. exists k, n. rewrite Hch.
    split; [apply elem_of_cons; by left|]. done.
Qed.

(** The soma nodes collected by [_initCollection]: none, as no type
    equals [SWC_TYPES.SOMA]. *)
Lemma initLoop_soma points : forall nodes h soma nodes' h' soma',
  initLoop points nodes h soma = Return (nodes', h', soma') -> soma' = soma.
Proof.
  induction points as [|slot points IH]; intros nodes h soma nodes' h' soma' H;
    simpl in H; inv_ret.
  - by injection H as <- <- <-.
  - destruct (Z.eqb _ _); inv_ret; eauto.
Qed.

(** What the constructor has done when it returns. *)
Lemma new_Return fuel points c :
  TreeNodeCollection.new fuel points = Return c ->
  initLoop points [] [] [] = Return (_nodes c, store c, []) /\
  _rawSoma c = None /\
  ((findFirstValid fuel (store c) (_nodes c) (Object_keys (_nodes c)) = Return None
    /\ _rawSections c = None /\ _rawMorphology c = None /\ _morphology c = None)
   \/
   (exists f ch secs m,
      findFirstValid fuel (store c) (_nodes c) (Object_keys (_nodes c))
        = Return (Some (f, ch)) /\
      popping fuel (store c) (mkState (rev (map (fun n => mkEntry n None) ch)) [] 0)
        = Return secs /\
      secs <> [] /\
      _rawSections c = Some secs /\
      _rawMorphology c = Some (RawMorphology.mk None (Some secs)) /\
      Morphology.buildFromRawMorphology Morphology.new
        (RawMorphology.mk None (Some secs)) = Return m /\
      _morphology c = Some m)).
Proof.
  unfold TreeNodeCollection.new, _initCollection, _buildSections. intros H. inv_ret.
  match goal with Hi : initLoop _ _ _ _ = Return ?x |- _ =>
    destruct x as [[nodes h] soma]; rename Hi into Hinit end.
  pose proof (initLoop_soma _ _ _ _ _ _ _ Hinit) as ->.
  simpl in *. inv_ret. subst. simpl in *.
  match goal with Hf : findFirstValid _ _ _ _ = Return ?x |- _ =>
    destruct x as [[f ch]|]; rename Hf into Hfirst end.
  - inv_ret.
    match goal with Hp : popping _ _ _ = Return ?x |- _ => rename x into secs; rename Hp into Hpop end.
    destruct secs as [|s secs]; simpl in *.
    + (* the stack was not empty: a section was built *)
      exfalso. apply findFirstValid_Some in Hfirst as (k & fn & _ & _ & _ & -> & Hne).
      apply popping_Forest in Hpop as (l & HF & Hl); [|done].
      simpl in *. symmetry in Hl. subst l.
      inversion HF as [? Hst|? ? ? ? ? ? ? ? ? ? ? ? ? ? Hst]; subst.
      apply (f_equal (@length _)) in Hst.
      rewrite length_rev, length_map in Hst.
      destruct (_children fn); [done|discriminate].
    + inv_ret. subst. unfold _buildMorphologyObjects in H. simpl in H.
      inv_ret. subst. simpl. split; [done|]. split; [done|]. right.
      eexists f, ch, (s :: secs), _. repeat split; eauto.
  - inv_ret. subst. unfold _buildMorphologyObjects in H. simpl in H.
    inv_ret. subst. simpl. split; [done|]. split; [done|]. left. done.
Qed.

End ConstructorFacts.

(** ** The sections: continuity *)

Section ContinuityFacts.
Context {eng : engine}.
Import TreeNode TreeNodeCollection.

Lemma strip_lookup (a b : list RawSection.t) i s :
  map strip a = map strip b -> b !! i = Some s ->
  exists s', a !! i = Some s' /\ RawSection.points s' = RawSection.points s /\
    RawSection.parent s' = RawSection.parent s.
Proof.
  intros Hab Hs.
  assert (H : map strip a !! i = Some (strip s)).
  { rewrite Hab. change (map strip b) with (strip <$> b).
    by rewrite list_lookup_fmap, Hs. }
  change (map strip a) with (strip <$> a) in H.
  rewrite list_lookup_fmap in H.
  destruct (a !! i) as [s'|]; [|discriminate].
  injection H as _ _ Hpts _ Hpar. by exists s'.
Qed.

Lemma continuous_strip a b :
  map strip a = map strip b -> continuous a -> continuous b.
Proof.
  intros Hab Ha i s p Hs Hp.
  destruct (strip_lookup _ _ _ _ Hab Hs) as (s' & Hs' & Hpts & Hpar).
  destruct (Ha i s' p Hs') as (ps & pt & Hps & Hf & Hl); [congruence|].
  destruct (strip_lookup _ _ _ _ (eq_sym Hab) Hps) as (ps' & Hps' & Hpts' & _).
  exists ps', pt. unfold firstPoint, lastPoint in *.
  rewrite Hpts', <- Hpts. done.
Qed.

Lemma entry_ok_strip h a b e :
  map strip a = map strip b -> entry_ok h a e -> entry_ok h b e.
Proof.
  intros Hab (cn & p & pn & Hc & Hp & Hpn & Hq).
  exists cn, p, pn. repeat split; try done.
  intros q Hpar. destruct (Hq q Hpar) as (ps & Hps & Hl).
  destruct (strip_lookup _ _ _ _ (eq_sym Hab) Hps) as (ps' & Hps' & Hpts' & _).
  exists ps'. unfold lastPoint in *. by rewrite Hpts'.
Qed.

Lemma entry_ok_snoc h secs s e : entry_ok h secs e -> entry_ok h (secs ++ [s]) e.
Proof.
  intros (cn & p & pn & Hc & Hp & Hpn & Hq).
  exists cn, p, pn. repeat split; try done.
  intros q Hpar. destruct (Hq q Hpar) as (ps & Hps & Hl).
  exists ps. split; [|done]. by apply lookup_app_l_Some.
Qed.

Lemma head_zeroFirstRadius_Some q x l :
  head (zeroFirstRadius (Some q) (x :: l)) = Some x.
Proof. reflexivity. Qed.

Lemma last_zeroFirstRadius par x l y :
  list.last (zeroFirstRadius par (x :: l ++ [y])) = Some y.
Proof.
  destruct par; simpl.
  - change (x :: l ++ [y]) with ((x :: l) ++ [y]). apply last_snoc.
  - change (?a :: l ++ [y]) with ((a :: l) ++ [y]). apply last_snoc.
Qed.

(** The invariant of the loop over the stack. *)
Lemma popping_continuous fuel h : forall st secs,
  store_ok h ->
  popping fuel h st = Return secs ->
  currentSectionId st = length (sections st) ->
  continuous (sections st) ->
  Forall (entry_ok h (sections st)) (stack st) ->
  continuous secs.
Proof.
  induction fuel as [|fuel IH]; intros st secs Hok Hrun Hcur Hcont Hstack;
    simpl in Hrun; [discriminate|].
  destruct (stack st) as [|[c par] rest] eqn:Hst.
  { inv_ret. by subst. }
  inv_ret.
  match goal with Hb : buildRawSection _ _ _ _ _ = Return ?x |- _ =>
    destruct x as [section st1]; rename Hb into Hbuild end.
  apply buildRawSection_Return in Hbuild
    as (cn & nodeList & ys & secs' & Hc & Hd & -> & Hreg & ->).
  simpl in *.
  apply registerChild_Return in Hreg as [Hstrip Hlen].
  inv_ret. rewrite Hcur, <- Hlen, push_then_set in Hrun.
  apply List.Forall_cons_iff in Hstack
    as [(cn' & p & pn & Hc' & Hp & Hpn & Hq) Hrest].
  simpl in *. rewrite Hc in Hc'. injection Hc' as <-.
  apply dive_Return in Hd as (path & t & tn & -> & Ht & Hys).
  unfold seed, getParent in *. rewrite Hp in *.
  set (section := sectionOf h cn _ _ par) in *.
  assert (Hpts : exists l, RawSection.points section
            = zeroFirstRadius par (pointOf pn :: l ++ [pointOf tn])).
  { exists (map pointOf (nodesOf h path)). unfold section, sectionOf. simpl.
    rewrite Hpn, nodesOf_app, (nodesOf_cons _ _ _ _ Ht). simpl.
    rewrite map_app. reflexivity. }
  destruct Hpts as (l & Hpts).
  assert (Hlast : lastPoint section = Some (pointOf tn)).
  { unfold lastPoint. rewrite Hpts. apply last_zeroFirstRadius. }
  assert (Hcont' : continuous (secs' ++ [section])).
  { pose proof (continuous_strip _ _ (eq_sym Hstrip) Hcont) as Hc1.
    intros i s q Hs Hpar.
    apply lookup_app_Some in Hs as [Hs|[Hge Hs]].
    - destruct (Hc1 _ _ _ Hs Hpar) as (ps & pt & Hps & Hf & Hl).
      exists ps, pt. split; [by apply lookup_app_l_Some|done].
    - apply list_lookup_singleton_Some in Hs as [_ <-].
      unfold section in Hpar. simpl in Hpar. subst par.
      destruct (Hq q eq_refl) as (ps & Hps & Hl).
      destruct (strip_lookup _ _ _ _ Hstrip Hps) as (ps' & Hps' & Hpts' & _).
      exists ps', (pointOf pn). split; [by apply lookup_app_l_Some|].
      split.
      + unfold firstPoint. rewrite Hpts. reflexivity.
      + unfold lastPoint in *. by rewrite Hpts'. }
  eapply IH; [done|exact Hrun|simpl; rewrite length_app; simpl; lia|exact Hcont'|].
  simpl. unfold pushAll. apply Forall_app. split.
  - apply Forall_rev, Forall_map, Forall_forall. intros c' Hin. simpl.
    destruct Hys as [-> | ->]; [destruct Hin|].
    apply list_elem_of_In in Hin.
    destruct (ok_child _ Hok _ _ _ Ht Hin) as (_ & c'n & Hc'n & Hpc').
    exists c'n, t, tn. simpl. repeat split; try done.
    intros q [= <-]. exists section. split; [|done].
    rewrite lookup_app_r by lia. by rewrite Hlen, Nat.sub_diag.
  - eapply List.Forall_impl; [|exact Hrest]. intros e He. simpl.
    apply entry_ok_snoc. by eapply entry_ok_strip.
Qed.

End ContinuityFacts.

(** ** The reconstruction as a whole *)

Section Reconstruction.
Context {eng : engine}.
Import TreeNode TreeNodeCollection.

Lemma table_ok_nil : table_ok [] [].
Proof. intros k r. discriminate. Qed.

Lemma new_store_ok fuel points c :
  TreeNodeCollection.new fuel points = Return c -> store_ok (store c).
Proof.
  intros H. apply new_Return in H as (Hinit & _).
  by destruct (initLoop_ok _ _ _ _ _ _ _ Hinit store_ok_nil table_ok_nil).
Qed.

Lemma new_sections fuel points c secs :
  TreeNodeCollection.new fuel points = Return c ->
  _rawSections c = Some secs ->
  exists f fn,
    store c !! f = Some fn /\
    popping fuel (store c)
      (mkState (rev (map (fun n => mkEntry n None) (_children fn))) [] 0)
    = Return secs.
Proof.
  intros H Hsecs. apply new_Return in H as (_ & _ & [(_ & Hn & _)|H]).
  { rewrite Hn in Hsecs. discriminate. }
  destruct H as (f & ch & secs' & m & Hfirst & Hpop & _ & Hs & _).
  rewrite Hs in Hsecs. injection Hsecs as ->.
  apply findFirstValid_Some in Hfirst as (k & fn & _ & _ & Hf & -> & _).
  by exists f, fn.
Qed.

(** C10.  The ids of the sections are 0, 1, 2, ... and they are given
    depth first: the sections are the forest of the children of the
    first node that has some, each fork taken in the reverse of the
    order of the children. *)
Theorem C10_ids_depth_first_reverse_siblings fuel points c secs :
  TreeNodeCollection.new fuel points = Return c ->
  _rawSections c = Some secs ->
  (exists f fn,
     store c !! f = Some fn /\
     Forest (store c) (rev (map (fun n => mkEntry n None) (_children fn))) 0
       (map strip secs)) /\
  (forall i s, secs !! i = Some s -> RawSection.id s = i).
Proof.
  intros H Hsecs.
  destruct (new_sections _ _ _ _ H Hsecs) as (f & fn & Hf & Hpop).
  apply popping_Forest in Hpop as (l & HF & Hl); [|done].
  simpl in *. subst l. split; [by exists f, fn|].
  intros i s Hs.
  assert (Hi : map strip secs !! i = Some (strip s)).
  { change (map strip secs) with (strip <$> secs).
    by rewrite list_lookup_fmap, Hs. }
  apply (Forest_ids _ _ _ _ HF) in Hi. simpl in Hi. done.
Qed.

Lemma new_continuous fuel points c secs :
  TreeNodeCollection.new fuel points = Return c ->
  _rawSections c = Some secs -> continuous secs.
Proof.
  intros H Hsecs.
  pose proof (new_store_ok _ _ _ H) as Hok.
  destruct (new_sections _ _ _ _ H Hsecs) as (f & fn & Hf & Hpop).
  eapply popping_continuous; [exact Hok|exact Hpop|done| |].
  - intros i s p. simpl. by rewrite lookup_nil.
  - simpl. apply Forall_rev, Forall_map, Forall_forall. intros c' Hin.
    apply list_elem_of_In in Hin.
    destruct (ok_child _ Hok _ _ _ Hf Hin) as (_ & cn & Hcn & Hp).
    exists cn, f, fn. simpl. repeat split; try done.
Qed.

End Reconstruction.

(** ** The order of the keys, and the chain of four axon points *)

Section KeyOrder.
Import TreeNode TreeNodeCollection.

Lemma insert_sorted_Forall (P : Z -> Prop) k l :
  P k -> Forall P l -> Forall P (insert_sorted k l).
Proof.
  intros Hk Hl. induction Hl as [|k' l Hk' Hl IH]; simpl.
  - by constructor.
  - destruct (k <=? k')%Z; repeat constructor; done.
Qed.

Lemma sort_keys_Forall (P : Z -> Prop) l : Forall P l -> Forall P (sort_keys l).
Proof.
  induction 1 as [|k l Hk Hl IH]; simpl; [constructor|].
  by apply insert_sorted_Forall.
Qed.

Lemma insert_sorted_least k l :
  Forall (fun k' => k < k')%Z l -> insert_sorted k l = k :: l.
Proof.
  destruct 1 as [|k' l Hk' Hl]; simpl; [done|].
  destruct (Z.leb_spec k k'); [done|lia].
Qed.

(** The key of the property created first comes first when it is a non
    negative number below all the others. *)
Lemma Object_keys_head {V} k (v : V) (o : object V) :
  (0 <= k)%Z -> Forall (fun k' => k < k')%Z (map fst o) ->
  exists rest, Object_keys ((k, v) :: o) = k :: rest.
Proof.
  intros Hk Ho. unfold Object_keys. simpl.
  destruct (isArrayIndex k) eqn:Hidx; simpl.
  - eexists. rewrite insert_sorted_least; [reflexivity|].
    apply sort_keys_Forall. clear -Ho.
    induction Ho as [|k' l Hk' Hl IH]; simpl; [constructor|].
    destruct (isArrayIndex k'); [constructor|]; done.
  - assert (Hnone : List.filter isArrayIndex (map fst o) = []).
    { clear -Ho Hk Hidx. induction Ho as [|k' l Hk' Hl IH]; simpl; [done|].
      assert (isArrayIndex k' = false) as ->; [|done].
      unfold isArrayIndex in *. apply andb_false_iff.
      apply andb_false_iff in Hidx as [Hidx|Hidx]; [lia|]. right. lia. }
    rewrite Hnone. simpl. eauto.
Qed.

End KeyOrder.

Section Chain.
Context {eng : engine}.
Import TreeNode TreeNodeCollection.

Lemma rootFirst_four i0 i1 i2 i3 i4 :
  rootFirst i0 [i1; i2; i3; i4] ->
  (0 <= i0 /\ i0 < i1 /\ i0 < i2 /\ i0 < i3 /\ i0 < i4 /\
   i1 <> i2 /\ i1 <> i3 /\ i1 <> i4 /\ i2 <> i3 /\ i2 <> i4 /\ i3 <> i4)%Z.
Proof.
  intros (H0 & Hlt & Hnd).
  repeat (apply List.Forall_cons_iff in Hlt as [? Hlt]).
  repeat (apply list.NoDup_cons in Hnd as [? Hnd]).
  repeat match goal with
    | H : _ ∉ _ :: _ |- _ => apply not_elem_of_cons in H as [? ?]
    end.
  repeat split; done.
Qed.

Ltac decide_eqb :=
  repeat match goal with
    | |- context [Z.eqb ?a ?b] =>
        first [ replace (Z.eqb a b) with true by (symmetry; apply Z.eqb_eq; lia)
              | replace (Z.eqb a b) with false by (symmetry; apply Z.eqb_neq; lia) ]
    end.

Lemma chain_init i0 i1 i2 i3 i4 p0 p1 p2 p3 p4 r0 r1 r2 r3 r4 :
  rootFirst i0 [i1; i2; i3; i4] ->
  initLoop (chainPoints i0 i1 i2 i3 i4 p0 p1 p2 p3 p4 r0 r1 r2 r3 r4) [] [] []
  = Return
      ([(i0, 0); (i1, 1); (i2, 2); (i3, 3); (i4, 4)],
       [TreeNode.mk i0 1 p0 r0 None [1] false;
        TreeNode.mk i1 2 p1 r1 (Some 0) [2] false;
        TreeNode.mk i2 2 p2 r2 (Some 1) [3] false;
        TreeNode.mk i3 2 p3 r3 (Some 2) [4] false;
        TreeNode.mk i4 2 p4 r4 (Some 3) [] false],
       []).
Proof.
  intros Hroot. apply rootFirst_four in Hroot.
  destruct p0 as [[? ?] ?], p1 as [[? ?] ?], p2 as [[? ?] ?],
    p3 as [[? ?] ?], p4 as [[? ?] ?].
  unfold chainPoints, pt, initLoop. simpl.
  repeat (progress decide_eqb; simpl). reflexivity.
Qed.


(** C8, as the code has it.  One root of type soma and an unbranched
    chain of four axon points below it, the id of the root being a non
    negative integer smaller than the ids of the axon points, which are
    all different: one section of type axon, of five points, the point
    of the root first with its radius set to 0, without parent nor
    children. *)
Theorem C8_chain_one_axon_section fuel i0 i1 i2 i3 i4
  p0 p1 p2 p3 p4 r0 r1 r2 r3 r4 :
  rootFirst i0 [i1; i2; i3; i4] ->
  exists c m,
    TreeNodeCollection.new (5 + fuel)
      (chainPoints i0 i1 i2 i3 i4 p0 p1 p2 p3 p4 r0 r1 r2 r3 r4) = Return c /\
    _rawSections c
    = Some [RawSection.mk 2 None
              [RawPoint.mk p0 0; RawPoint.mk p1 r1; RawPoint.mk p2 r2;
               RawPoint.mk p3 r3; RawPoint.mk p4 r4] 0 [] None] /\
    _morphology c = Some m /\
    Morphology.getArrayOfSections m
    = [MSection.mk 0 None [] (Some "axon"%string) (Some 2%Z)
         [p0; p1; p2; p3; p4] [0%float; r1; r2; r3; r4]].
Proof.
  intros Hroot. pose proof (rootFirst_four _ _ _ _ _ Hroot) as Hids.
  engine_limits eng.
  destruct (Object_keys_head i0 0 [(i1, 1); (i2, 2); (i3, 3); (i4, 4)])
    as [rest Hkeys]; [lia|repeat constructor; simpl; lia|].
  eexists _, _. split.
  - unfold TreeNodeCollection.new, _initCollection.
    rewrite chain_init by done. simpl.
    unfold _buildSections. simpl _nodes. rewrite Hkeys.
    cbn [findFirstValid obj_get]. rewrite Z.eqb_refl.
    vm_compute. reflexivity.
  - repeat split; reflexivity.
Qed.

End Chain.

Section ChainWitnesses.
#[local] Existing Instance smallEngine.
Import TreeNode TreeNodeCollection.

(** C8, as the claim has it, fails.  The same chain with the root
    numbered 10 and the axon points 1 to 4: the keys of the table of nodes come in ascending order, the
    search starts from the node 1, and the section has four points, the
    first an axon point; the point of the root is not in it. *)
Lemma C8_root_id_last_in_key_order :
  _rawSections <$> returned (TreeNodeCollection.new 10
      (chainPoints 10 1 2 3 4 (0, 0, 0) (1, 0, 0) (2, 0, 0) (3, 0, 0) (4, 0, 0)
         5 1 1 1 1)%float)
  = Some (Some [RawSection.mk 2 None
                  [RawPoint.mk (1, 0, 0) 0; RawPoint.mk (2, 0, 0) 1;
                   RawPoint.mk (3, 0, 0) 1; RawPoint.mk (4, 0, 0) 1]%float
                  0 [] None]).
Proof. vm_compute. reflexivity. Qed.

Lemma C8_chain_witness :
  exists c m,
    TreeNodeCollection.new 5
      (chainPoints 1 2 3 4 5 (0, 0, 0) (1, 0, 0) (2, 0, 0) (3, 0, 0) (4, 0, 0)
         5 1 1 1 1)%float = Return c /\
    _rawSections c
    = Some [RawSection.mk 2 None
              [RawPoint.mk (0, 0, 0) 0; RawPoint.mk (1, 0, 0) 1;
               RawPoint.mk (2, 0, 0) 1; RawPoint.mk (3, 0, 0) 1;
               RawPoint.mk (4, 0, 0) 1]%float 0 [] None] /\
    _morphology c = Some m /\
    Morphology.getArrayOfSections m
    = [MSection.mk 0 None [] (Some "axon"%string) (Some 2%Z)
         [(0, 0, 0); (1, 0, 0); (2, 0, 0); (3, 0, 0); (4, 0, 0)]%float
         [0; 1; 1; 1; 1]%float].
Proof.
  apply (C8_chain_one_axon_section 0 1 2 3 4 5).
  split; [lia|]. split.
  - repeat constructor; lia.
  - repeat (apply NoDup_cons_2; [vm_compute; intros H; inversion H; subst;
      repeat match goal with X : _ ∈ _ |- _ => inversion X; clear X; subst end|]).
    apply NoDup_nil_2.
Defined.

End ChainWitnesses.

(** ** Termination *)

Section Termination.
Context {eng : engine}.
Import TreeNode TreeNodeCollection.

(** Where a dive that returns has stopped. *)
Lemma dive_Return_le room fuel h this nl nl' ys :
  store_ok h ->
  dive room fuel h this nl = Return (nl', ys) ->
  exists t tn, this <= t /\ h !! t = Some tn /\ (ys = [] \/ ys = _children tn).
Proof.
  intros Hok. revert this nl.
  induction room as [|room IH]; intros this nl; [discriminate|].
  rewrite dive_S. intros H. inv_ret.
  match goal with Hc : getNonSomaChildren _ _ _ = _ |- _ =>
    apply getNonSomaChildren_Return in Hc; subst end.
  match goal with Ht : h !! this = Some ?x |- _ => rename x into tn; rename Ht into Htn end.
  destruct (_children tn) as [|c [|c' cs]] eqn:Hch.
  - inv_ret. injection H as <- <-. exists this, tn. rewrite Hch. auto.
  - inv_ret. destruct (Z.eqb _ _).
    + apply IH in H as (t & tn' & Hle & Ht & Hys).
      exists t, tn'. split; [|done].
      destruct (ok_child _ Hok this tn c Htn) as [? _]; [|lia].
      rewrite Hch. apply list_elem_of_singleton. done.
    + inv_ret. injection H as <- <-. exists this, tn. auto.
  - inv_ret. injection H as <- <-. exists this, tn. rewrite Hch. auto.
Qed.

(** A dive completes, whatever the fuel: it returns, or it throws when
    the call stack has no room for it. *)
Lemma dive_completes h :
  store_ok h ->
  forall room fuel this nl, completes (dive room fuel h this nl).
Proof.
  intros Hok. induction room as [|room IH]; intros fuel this nl; [exact I|].
  rewrite dive_S. apply bind_completes; [apply deref_completes|].
  intros tn Htn. inv_ret.
  rewrite (getNonSomaChildren_plain _ _ _ (ok_soma _ Hok _ _ Htn)). simpl.
  destruct (_children tn) as [|c [|c' cs]] eqn:Hch; try exact I.
  apply bind_completes; [apply deref_completes|]. intros cn Hcn.
  destruct (Z.eqb _ _); [apply IH|exact I].
Qed.

Lemma registerChild_completes par cur secs : completes (registerChild par cur secs).
Proof.
  unfold registerChild. destruct (truthy_num par); [|exact I].
  destruct par as [p|]; [|exact I].
  destruct (secs !! p); exact I.
Qed.

Lemma buildRawSection_completes h fuel st c par :
  store_ok h -> completes (buildRawSection fuel h st c par).
Proof.
  intros Hok. unfold buildRawSection.
  apply bind_completes; [apply deref_completes|]. intros cn Hcn. inv_ret.
  apply bind_completes; [by apply dive_completes|].
  intros [nodeList ys] Hd.
  apply bind_completes; [apply registerChild_completes|]. intros; exact I.
Qed.

Lemma weight_pos n r : 0 < weight n r.
Proof. unfold weight. apply Nat.neq_0_lt_0, Nat.pow_nonzero. lia. Qed.

Lemma potential_app n a b : potential n (a ++ b) = potential n a + potential n b.
Proof. unfold potential. by rewrite map_app, list_sum_app. Qed.

Lemma potential_rev n a : potential n (rev a) = potential n a.
Proof.
  induction a as [|e a IH]; simpl; [done|].
  rewrite potential_app, IH. unfold potential. simpl. lia.
Qed.

(** The nodes created after [c] weigh less than [c] alone. *)
Lemma potential_children n c cur (ys : list ref) :
  c < n -> length ys <= n -> Forall (fun y => c < y) ys ->
  potential n (map (fun y => mkEntry y (Some cur)) ys) < weight n c.
Proof.
  intros Hc Hlen Hys.
  assert (Hsum : potential n (map (fun y => mkEntry y (Some cur)) ys)
                 <= length ys * S n ^ (n - c - 1)).
  { clear Hlen. induction Hys as [|y ys Hy Hys IH]; simpl; [unfold potential; simpl; lia|].
    unfold potential in *. simpl.
    assert (weight n y <= S n ^ (n - c - 1)).
    { unfold weight. apply Nat.pow_le_mono_r; lia. }
    lia. }
  unfold weight. replace (n - c) with (S (n - c - 1)) by lia.
  rewrite Nat.pow_succ_r'.
  assert (0 < S n ^ (n - c - 1)) by (apply Nat.neq_0_lt_0, Nat.pow_nonzero; lia).
  nia.
Qed.

(** The loop over the stack completes: an iteration takes a node off
    the stack and puts back nodes created after it. *)
Lemma popping_completes h :
  store_ok h -> store_strict h ->
  forall fuel st,
    Forall (fun e => node e < length h) (stack st) ->
    potential (length h) (stack st) + length h + 1 < fuel ->
    completes (popping fuel h st).
Proof.
  intros Hok Hstrict. induction fuel as [|fuel IH]; intros st Hvalid Hfuel; [lia|].
  simpl. destruct (stack st) as [|[c par] rest] eqn:Hst; [exact I|].
  apply List.Forall_cons_iff in Hvalid as [Hc Hrest]. simpl in Hc.
  unfold potential in Hfuel. simpl in Hfuel. fold (potential (length h) rest) in Hfuel.
  apply bind_completes.
  { by apply buildRawSection_completes. }
  intros [section st1] Hbuild.
  apply buildRawSection_Return in Hbuild
    as (cn & nodeList & ys & secs' & Hcn & Hd & -> & Hreg & ->).
  simpl in *.
  apply (dive_Return_le _ _ _ _ _ _ _ Hok) in Hd as (t & tn & Hle & Ht & Hys).
  assert (Hys' : Forall (fun y => c < y /\ y < length h) ys /\ length ys <= length h).
  { destruct Hys as [-> | ->]; [split; [constructor|simpl; lia]|].
    split; [|by eapply ok_len].
    apply Forall_forall. intros y Hy. apply list_elem_of_In in Hy.
    pose proof (Hstrict _ _ _ Ht Hy).
    destruct (ok_child _ Hok _ _ _ Ht Hy) as (_ & yn & Hyn & _).
    apply lookup_lt_Some in Hyn. lia. }
  destruct Hys' as [Hys1 Hys2].
  apply bind_completes; [apply push_completes|]. intros secs1 _.
  apply IH; simpl.
  - unfold pushAll. apply Forall_app. split; [|done].
    apply Forall_rev, Forall_map. simpl.
    eapply List.Forall_impl; [|exact Hys1]. simpl. intros; lia.
  - unfold pushAll. rewrite potential_app, potential_rev.
    assert (potential (length h) (map (fun y => mkEntry y (Some (currentSectionId st))) ys)
            < weight (length h) c).
    { apply potential_children; try done.
      eapply List.Forall_impl; [|exact Hys1]. simpl. intros; lia. }
    lia.
Qed.

End Termination.

(** ** More fuel changes no result *)

Section FuelMonotone.
Context {eng : engine}.
Import TreeNode TreeNodeCollection.

Lemma extends_refl {A} (a : outcome A) : extends a a.
Proof. by right. Qed.

Lemma extends_bind {A B} (m m' : outcome A) (k k' : A -> outcome B) :
  extends m m' -> (forall a, extends (k a) (k' a)) ->
  extends (m ≫= k) (m' ≫= k').
Proof.
  intros [-> | ->] Hk; [by left|].
  destruct m' as [a| |]; simpl; [apply Hk|by right|by left].
Qed.

Lemma extends_completes {A} (a b : outcome A) :
  extends a b -> completes a -> b = a.
Proof. intros [-> | ->]; [intros []|done]. Qed.

Lemma nonSomaLoop_mono h children : forall fuel fuel' i acc,
  fuel <= fuel' ->
  extends (nonSomaLoop fuel h children i acc) (nonSomaLoop fuel' h children i acc).
Proof.
  induction fuel as [|fuel IH]; intros fuel' i acc Hle; [by left|].
  destruct fuel' as [|fuel']; [lia|]. simpl.
  destruct (i <? length children); [|apply extends_refl].
  apply extends_bind; [apply extends_refl|]. intros c.
  apply extends_bind; [apply extends_refl|]. intros cn.
  apply extends_bind; [apply extends_refl|]. intros acc'.
  apply IH. lia.
Qed.

Lemma getNonSomaChildren_mono h n fuel fuel' :
  fuel <= fuel' ->
  extends (getNonSomaChildren fuel h n) (getNonSomaChildren fuel' h n).
Proof.
  intros Hle. unfold getNonSomaChildren.
  destruct (negb _); [apply extends_refl|by apply nonSomaLoop_mono].
Qed.

Lemma dive_mono h fuel fuel' : forall room this nl,
  fuel <= fuel' ->
  extends (dive room fuel h this nl) (dive room fuel' h this nl).
Proof.
  induction room as [|room IH]; intros this nl Hle; [apply extends_refl|].
  rewrite !dive_S.
  apply extends_bind; [apply extends_refl|]. intros tn.
  apply extends_bind; [by apply getNonSomaChildren_mono|]. intros children.
  destruct children as [|c [|c' cs]]; try apply extends_refl.
  apply extends_bind; [apply extends_refl|]. intros cn.
  destruct (Z.eqb _ _); [by apply IH|apply extends_refl].
Qed.

Lemma buildRawSection_mono h st c par fuel fuel' :
  fuel <= fuel' ->
  extends (buildRawSection fuel h st c par) (buildRawSection fuel' h st c par).
Proof.
  intros Hle. unfold buildRawSection.
  apply extends_bind; [apply extends_refl|]. intros sn.
  apply extends_bind; [by apply dive_mono|]. intros [nodeList nextNodes].
  apply extends_refl.
Qed.

Lemma popping_mono h : forall fuel fuel' st,
  fuel <= fuel' -> extends (popping fuel h st) (popping fuel' h st).
Proof.
  induction fuel as [|fuel IH]; intros fuel' st Hle; [by left|].
  destruct fuel' as [|fuel']; [lia|]. simpl.
  destruct (stack st) as [|e rest]; [apply extends_refl|].
  apply extends_bind; [apply buildRawSection_mono; lia|]. intros [section st1].
  apply extends_bind; [apply extends_refl|]. intros secs.
  apply IH. lia.
Qed.

Lemma findFirstValid_mono h nodes ids fuel fuel' :
  fuel <= fuel' ->
  extends (findFirstValid fuel h nodes ids) (findFirstValid fuel' h nodes ids).
Proof.
  intros Hle. induction ids as [|k ids IH]; simpl; [apply extends_refl|].
  apply extends_bind; [apply extends_refl|]. intros r.
  apply extends_bind; [apply extends_refl|]. intros n.
  apply extends_bind; [by apply getNonSomaChildren_mono|]. intros ch.
  destruct (0 <? length ch); [apply extends_refl|exact IH].
Qed.

Lemma buildSections_mono this fuel fuel' :
  fuel <= fuel' -> extends (_buildSections fuel this) (_buildSections fuel' this).
Proof.
  intros Hle. unfold _buildSections.
  apply extends_bind; [by apply findFirstValid_mono|]. intros [[f ch]|];
    [|apply extends_refl].
  apply extends_bind; [by apply popping_mono|]. intros secs. apply extends_refl.
Qed.

(** The result of the constructor, once it has one, is the same for any
    larger amount of fuel. *)
Lemma new_mono points fuel fuel' :
  fuel <= fuel' ->
  extends (TreeNodeCollection.new fuel points) (TreeNodeCollection.new fuel' points).
Proof.
  intros Hle. unfold TreeNodeCollection.new.
  apply extends_bind; [apply extends_refl|]. intros this.
  apply extends_bind; [by apply buildSections_mono|]. intros this'.
  apply extends_refl.
Qed.

Lemma parse_mono parseFloat Math_round this swcStr fuel fuel' :
  fuel <= fuel' ->
  extends (snd (SwcParser.parse parseFloat Math_round fuel this swcStr))
          (snd (SwcParser.parse parseFloat Math_round fuel' this swcStr)).
Proof.
  intros Hle. unfold SwcParser.parse.
  destruct (new_mono (SwcParser.extractPoints parseFloat Math_round swcStr)
              fuel fuel' Hle) as [-> | ->]; [by left|].
  destruct (TreeNodeCollection.new fuel' _); simpl; apply extends_refl.
Qed.

Lemma terminates_intro {A} (run : nat -> outcome A) fuel :
  (forall f f', f <= f' -> extends (run f) (run f')) ->
  completes (run fuel) -> terminates run.
Proof.
  intros Hmono Hc. exists fuel, (run fuel). split; [done|].
  intros fuel' Hle. by apply extends_completes; [apply Hmono|].
Qed.

End FuelMonotone.

Section TerminationOfParse.
Context {eng : engine}.
Import TreeNode TreeNodeCollection.

Lemma findFirstValid_completes fuel h nodes ids :
  store_ok h -> completes (findFirstValid fuel h nodes ids).
Proof.
  intros Hok. induction ids as [|k ids IH]; simpl; [exact I|].
  apply bind_completes; [apply deref_completes|]. intros r Hr.
  apply bind_completes; [apply deref_completes|]. intros n Hn. inv_ret.
  rewrite (getNonSomaChildren_plain _ _ _ (ok_soma _ Hok _ _ Hn)). simpl.
  destruct (0 <? length (_children n)); [exact I|exact IH].
Qed.

Lemma setParent_completes h a p : completes (setParent h a p).
Proof. unfold setParent. destruct p; exact I. Qed.

Lemma initLoop_completes points : forall nodes h soma,
  completes (initLoop points nodes h soma).
Proof.
  induction points as [|slot points IH]; intros nodes h soma; simpl; [exact I|].
  apply bind_completes; [apply deref_completes|]. intros p _.
  destruct (Z.eqb _ _); [apply IH|].
  apply bind_completes; [apply setParent_completes|]. intros; apply IH.
Qed.

Lemma addChildren_completes o : forall children cur,
  completes (Morphology.addChildren o cur children).
Proof.
  induction children as [|c children IH]; intros cur; simpl; [exact I|].
  apply bind_completes; [|intros; apply IH].
  unfold MSection.addChild. apply bind_completes; [apply deref_completes|].
  intros s _. destruct (negb _); [|exact I].
  destruct (MSection.hasChild _ _); exact I.
Qed.

Lemma linkSections_completes raws : forall o,
  completes (Morphology.linkSections raws o).
Proof.
  induction raws as [|raw raws IH]; intros o; simpl; [exact I|].
  apply bind_completes; [apply deref_completes|]. intros s _.
  apply bind_completes; [apply addChildren_completes|]. intros; apply IH.
Qed.

Lemma buildMorphologyObjects_completes this :
  completes (_buildMorphologyObjects this).
Proof.
  unfold _buildMorphologyObjects.
  assert (H : forall raw, completes (Morphology.buildFromRawMorphology Morphology.new raw)).
  { intros raw. unfold Morphology.buildFromRawMorphology.
    apply bind_completes; [apply deref_completes|]. intros raws _.
    apply bind_completes; [apply linkSections_completes|]. intros; exact I. }
  destruct (_rawSections this), (_rawSoma this); try exact I;
    (apply bind_completes; [apply H|intros; exact I]).
Qed.

(** What a stack of at most [n] nodes can weigh. *)
Lemma potential_bound n stack :
  length stack <= n -> potential n stack <= n * S n ^ n.
Proof.
  intros Hlen.
  assert (H : potential n stack <= length stack * S n ^ n).
  { clear Hlen. induction stack as [|e stack IH]; unfold potential in *; simpl; [lia|].
    assert (weight n (node e) <= S n ^ n).
    { unfold weight. apply Nat.pow_le_mono_r; lia. }
    lia. }
  nia.
Qed.

Lemma buildSections_completes fuel this :
  store_ok (store this) -> store_strict (store this) ->
  enough (length (store this)) <= fuel ->
  completes (_buildSections fuel this).
Proof.
  intros Hok Hstrict Hfuel. unfold _buildSections.
  apply bind_completes; [by apply findFirstValid_completes|].
  intros [[f ch]|] Hfirst; [|exact I].
  apply findFirstValid_Some in Hfirst as (k & fn & _ & _ & Hf & -> & _).
  apply bind_completes.
  - apply popping_completes; try done; simpl.
    + apply Forall_rev, Forall_map, Forall_forall. intros c Hc. simpl.
      apply list_elem_of_In in Hc.
      destruct (ok_child _ Hok _ _ _ Hf Hc) as (_ & cn & Hcn & _).
      by eapply lookup_lt_Some.
    + rewrite potential_rev.
      pose proof (potential_bound (length (store this))
                    (map (fun c => mkEntry c None) (_children fn))) as Hb.
      rewrite length_map in Hb. specialize (Hb (ok_len _ Hok _ _ Hf)).
      unfold enough in Hfuel. lia.
  - intros secs _. destruct (0 <? length secs); exact I.
Qed.

(** The constructor completes when no point names itself as parent. *)
Lemma new_completes points :
  noSelfParent points ->
  exists fuel, completes (TreeNodeCollection.new fuel points).
Proof.
  intros Hnsp. unfold TreeNodeCollection.new, _initCollection.
  cbn [_nodes store _rawSoma _rawSections _rawMorphology _morphology].
  destruct (initLoop points [] [] []) as [[[nodes h] soma]| |] eqn:Hinit.
  - destruct (initLoop_ok _ _ _ _ _ _ _ Hinit store_ok_nil table_ok_nil)
      as (Hok & _ & _ & Hstrict).
    specialize (Hstrict Hnsp store_strict_nil).
    exists (enough (length h)). simpl.
    apply bind_completes.
    + by apply buildSections_completes.
    + intros; apply buildMorphologyObjects_completes.
  - exists 0. exact I.
  - pose proof (initLoop_completes points [] [] []) as Hc.
    rewrite Hinit in Hc. destruct Hc.
Qed.

End TerminationOfParse.

(** ** A point that is its own parent *)

Section SelfParent.
Import TreeNode TreeNodeCollection.

Lemma selfParentFork_init :
  initLoop selfParentFork [] [] []
  = Return ([(1%Z, 0); (2%Z, 1)], selfParentStore, []).
Proof. reflexivity. Qed.

Lemma registerChild_valid par cur secs :
  (forall p, par = Some p -> p < length secs) ->
  exists secs', registerChild par cur secs = Return secs' /\
    length secs' = length secs.
Proof.
  intros Hp. unfold registerChild. destruct par as [[|p]|]; simpl; eauto.
  destruct (lookup_lt_is_Some_2 secs (S p)) as [ps Hps]; [by apply Hp|].
  rewrite Hps. simpl. eexists. split; [reflexivity|]. apply length_insert.
Qed.

(** Once the node 0 is on the stack it never leaves it: the section
    built from it puts it back.  The loop goes on until [sections] is
    full. *)
Lemma selfParent_popping {eng : engine} fuel : forall st,
  (exists par, In (mkEntry 0 par) (stack st)) ->
  Forall (fun e => node e < 2 /\
            forall p, parentSectionId e = Some p -> p < length (sections st))
         (stack st) ->
  currentSectionId st = length (sections st) ->
  popping fuel selfParentStore st
  = if fuel <=? maxArrayLength - length (sections st) then OutOfFuel
    else Throw RangeError.
Proof.
  induction fuel as [|fuel IH]; intros st [par0 Hin] Hall Hcur; [reflexivity|].
  remember (if S fuel <=? maxArrayLength - length (sections st)
            then OutOfFuel else Throw RangeError) as r eqn:Hr.
  simpl popping. destruct (stack st) as [|[c par] rest] eqn:Hst; [destruct Hin|].
  apply List.Forall_cons_iff in Hall as [[Hc Hpar] Hrest]. simpl in Hc, Hpar.
  destruct (registerChild_valid par (currentSectionId st) (sections st) Hpar)
    as (secs' & Hreg & Hlen).
  assert (Hrest' : forall s, Forall (fun e => node e < 2 /\
            forall p, parentSectionId e = Some p -> p < length (secs' ++ [s]))
            rest).
  { intros s. eapply List.Forall_impl; [|exact Hrest]. intros e [? He].
    split; [done|]. intros p Hp. apply He in Hp. rewrite length_app. lia. }
  assert (Hfull : maxArrayLength <= length secs' -> r = Throw RangeError).
  { intros H. rewrite Hr.
    by destruct (Nat.leb_spec (S fuel) (maxArrayLength - length (sections st)));
      [lia|]. }
  assert (Hroom : forall s, length secs' < maxArrayLength ->
            r = if fuel <=? maxArrayLength - length (secs' ++ [s])
                then OutOfFuel else Throw RangeError).
  { intros s H. rewrite Hr, length_app. cbn [length].
    destruct (Nat.leb_spec (S fuel) (maxArrayLength - length (sections st)));
      destruct (Nat.leb_spec fuel (maxArrayLength - (length secs' + 1)));
      (reflexivity || lia). }
  clear Hr.
  destruct c as [|[|c]]; [| |lia].
  - (* the node 0: it yields itself and the node 1 *)
    unfold buildRawSection. simpl. rewrite Hreg. simpl.
    destruct (Nat.lt_ge_cases (length secs') maxArrayLength) as [Hlt|Hge].
    + rewrite push_room by done. simpl.
      rewrite Hcur, <- Hlen, push_then_set.
      rewrite IH; simpl; [by rewrite <- Hroom| | |].
      * exists (Some (length secs')). right. left. reflexivity.
      * repeat (apply List.Forall_cons; [split; [simpl; lia|];
          simpl; intros p [= <-]; rewrite length_app; simpl; lia|]).
        apply Hrest'.
      * rewrite length_app. simpl. lia.
    + rewrite push_full by done. simpl. by rewrite Hfull.
  - (* the node 1: a leaf *)
    unfold buildRawSection. simpl. rewrite Hreg. simpl.
    destruct (Nat.lt_ge_cases (length secs') maxArrayLength) as [Hlt|Hge].
    + rewrite push_room by done. simpl.
      rewrite Hcur, <- Hlen, push_then_set.
      rewrite IH; simpl; [by rewrite <- Hroom| | |].
      * destruct Hin as [Hin|Hin]; [discriminate|]. by exists par0.
      * apply Hrest'.
      * rewrite length_app. simpl. lia.
    + rewrite push_full by done. simpl. by rewrite Hfull.
Qed.

Lemma selfParentFork_new {eng : engine} fuel :
  TreeNodeCollection.new fuel selfParentFork
  = if fuel <=? maxArrayLength then OutOfFuel else Throw RangeError.
Proof.
  unfold TreeNodeCollection.new, _initCollection.
  cbn [_nodes store _rawSoma _rawSections _rawMorphology _morphology].
  rewrite selfParentFork_init. simpl.
  unfold _buildSections. simpl.
  rewrite selfParent_popping; simpl; [|..|reflexivity].
  - rewrite Nat.sub_0_r. by destruct (fuel <=? maxArrayLength).
  - exists None. simpl. right. left. reflexivity.
  - repeat (apply List.Forall_cons; [split; [simpl; lia|intros p; discriminate]|]).
    constructor.
Qed.


(** The text of the two lines gives these points when the host reads
    the numerals as what they denote. *)
Lemma selfParentFork_text parseFloat Math_round :
  SwcParser.extractPoints parseFloat Math_round
    (unlines ["1 2 0 0 0 1 1"; "2 2 1 0 0 1 1"]%string)
  = [parsed parseFloat Math_round "1" "2" "0" "0" "0" "1" "1";
     parsed parseFloat Math_round "2" "2" "1" "0" "0" "1" "1"].
Proof. vm_compute. reflexivity. Qed.

End SelfParent.

(** ** Failures of the construction *)

Section Failures.
Context {eng : engine}.
Import TreeNode TreeNodeCollection.

(** [setParent] throws nothing but a TypeError. *)
Lemma setParent_Throw h a p e : setParent h a p = Throw e -> e = TypeError.
Proof. unfold setParent. destruct p; simpl; [discriminate|by intros [= <-]]. Qed.

(** The loop of [_initCollection] throws at the first point whose parent
    is not in the table of nodes, if not before. *)
Lemma initLoop_throws points : forall i p nodes h soma,
  points !! i = Some (Some p) ->
  Point.parentId p <> (-1)%Z ->
  Point.parentId p <> Point.id p ->
  obj_get (Point.parentId p) nodes = None ->
  (forall j q, j < i -> points !! j = Some (Some q) ->
     Point.id q <> Point.parentId p) ->
  initLoop points nodes h soma = Throw TypeError.
Proof.
  induction points as [|slot points IH]; intros i p nodes h soma Hi Hroot Hself Hnone Hbefore.
  { by rewrite lookup_nil in Hi. }
  destruct i as [|i]; simpl in Hi.
  - injection Hi as ->. simpl.
    destruct (Z.eqb_spec (Point.parentId p) (-1)); [done|].
    rewrite obj_get_set_ne by done. rewrite Hnone. reflexivity.
  - destruct slot as [q|]; [|reflexivity]. simpl.
    assert (Hq : Point.id q <> Point.parentId p) by (apply (Hbefore 0); [lia|done]).
    assert (Hnone' : forall r, obj_get (Point.parentId p) (obj_set (Point.id q) r nodes) = None).
    { intros r. by rewrite obj_get_set_ne. }
    assert (Hbefore' : forall j q', j < i -> points !! j = Some (Some q') ->
              Point.id q' <> Point.parentId p).
    { intros j q' Hj Hq'. apply (Hbefore (S j)); [lia|done]. }
    destruct (Z.eqb _ _); [by eapply IH|].
    destruct (setParent _ _ _) as [h'|e|] eqn:Hset; simpl.
    + by eapply IH.
    + by rewrite (setParent_Throw _ _ _ _ Hset).
    + pose proof (setParent_completes (h ++ [TreeNode.new (Point.id q) (Point.type q)
          (Point.x q) (Point.y q) (Point.z q) (Point.radius q)]) (length h)
          (obj_get (Point.parentId q) (obj_set (Point.id q) (length h) nodes))) as Hc.
      rewrite Hset in Hc. destruct Hc.
Qed.

(** C7, as the code has it.  A point that names a parent other than -1,
    which is neither its own id nor the id of a point before it, is
    fatal: the constructor throws, the parse throws, and the parser is
    left without morphology. *)
Theorem C7_unregistered_parent_is_fatal fuel points i p :
  parentNotRegistered points i p ->
  TreeNodeCollection.new fuel points = Throw TypeError /\
  forall parseFloat Math_round this swcStr,
    SwcParser.extractPoints parseFloat Math_round swcStr = points ->
    SwcParser.parse parseFloat Math_round fuel this swcStr
    = (SwcParser.mk None None, Throw TypeError).
Proof.
  intros [(Hi & Hroot & Hbefore) Hself].
  assert (Hnew : TreeNodeCollection.new fuel points = Throw TypeError).
  { unfold TreeNodeCollection.new, _initCollection.
    cbn [_nodes store _rawSoma _rawSections _rawMorphology _morphology].
    by rewrite (initLoop_throws points i p [] [] []). }
  split; [done|].
  intros parseFloat Math_round this swcStr Hpts.
  unfold SwcParser.parse. by rewrite Hpts, Hnew.
Qed.

End Failures.

Section FailureWitnesses.
#[local] Existing Instance smallEngine.
Import TreeNode TreeNodeCollection.

Lemma C7_unregistered_parent_witness :
  TreeNodeCollection.new 0 [pt 1 1 (0, 0, 0) 5 (-1); pt 2 2 (1, 0, 0) 1 7]%float
  = Throw TypeError /\
  forall parseFloat Math_round this swcStr,
    SwcParser.extractPoints parseFloat Math_round swcStr
    = [pt 1 1 (0, 0, 0) 5 (-1); pt 2 2 (1, 0, 0) 1 7]%float ->
    SwcParser.parse parseFloat Math_round 0 this swcStr
    = (SwcParser.mk None None, Throw TypeError).
Proof.
  apply (C7_unregistered_parent_is_fatal 0 _ 1
           (Point.mk 2 2 1 0 0 1 7)).
  split; [split; [reflexivity|split; [simpl; lia|]]|simpl; lia].
  intros j q Hj Hq. destruct j as [|j]; [|lia].
  injection Hq as <-. simpl. lia.
Defined.

(** C7, as the claim has it, fails: the third point of [selfParentAside]
    names as parent an id that no point before it has, and the parse
    completes with a morphology. *)
Lemma C7_self_parent_is_accepted :
  parentNotEarlier selfParentAside 2 (Point.mk 3 2 2 0 0 1 3) /\
  exists c m,
    TreeNodeCollection.new 10 selfParentAside = Return c /\
    getMorphology c = Some m /\
    length (Morphology.getArrayOfSections m) = 1.
Proof.
  split.
  - split; [reflexivity|split; [simpl; lia|]].
    intros j q Hj Hq. destruct j as [|[|j]]; [| |lia];
      injection Hq as <-; simpl; lia.
  - eexists _, _. split; [vm_compute; reflexivity|]. split; reflexivity.
Qed.

End FailureWitnesses.

(** ** The claims on examples *)

Section Examples.
Context {eng : engine}.
Import TreeNode TreeNodeCollection.

Lemma fork_sections fuel p1 p2 p3 p4 r1 r2 r3 r4 :
  _rawSections <$>
    returned (TreeNodeCollection.new (4 + fuel) (forkPoints p1 p2 p3 p4 r1 r2 r3 r4))
  = Some (Some
     [RawSection.mk 2 None [RawPoint.mk p1 0; RawPoint.mk p2 r2] 0 [] None;
      RawSection.mk 2 None [RawPoint.mk p2 r2; RawPoint.mk p4 r4] 1 [] (Some 0);
      RawSection.mk 2 None [RawPoint.mk p2 r2; RawPoint.mk p3 r3] 2 [] (Some 0)]).
Proof.
  destruct p1 as [[? ?] ?], p2 as [[? ?] ?], p3 as [[? ?] ?], p4 as [[? ?] ?].
  engine_limits eng. vm_compute. reflexivity.
Qed.

(** C6.  A section that has a parent section starts with the point its
    parent section ends with; so do the two sections below a fork, which
    name the same parent. *)
Theorem C6_first_point_is_last_point_of_parent :
  (forall fuel points c secs,
     TreeNodeCollection.new fuel points = Return c ->
     _rawSections c = Some secs -> continuous secs) /\
  (forall fuel p1 p2 p3 p4 r1 r2 r3 r4,
     exists s0 s1 s2,
       _rawSections <$>
         returned (TreeNodeCollection.new (4 + fuel)
                     (forkPoints p1 p2 p3 p4 r1 r2 r3 r4))
       = Some (Some [s0; s1; s2]) /\
       RawSection.parent s1 = Some 0 /\ RawSection.parent s2 = Some 0 /\
       lastPoint s0 = Some (RawPoint.mk p2 r2) /\
       firstPoint s1 = Some (RawPoint.mk p2 r2) /\
       firstPoint s2 = Some (RawPoint.mk p2 r2)).
Proof.
  split; [exact new_continuous|].
  intros. eexists _, _, _. split; [apply fork_sections|].
  repeat split; reflexivity.
Qed.

(** C4 fails on the code.  Below a fork the two sections name the
    section 0 as their parent, and the section 0 lists no child: the
    test [if (parentSectionId)] takes the id 0 for no parent.  The
    morphology built from the raw sections sets the parents, which it
    tests with [!== null], and has no children to add. *)
Theorem C4_children_of_section_0_are_not_registered fuel p1 p2 p3 p4 r1 r2 r3 r4 :
  (forall cur secs, registerChild (Some 0) cur secs = Return secs) /\
  exists c s0 s1 s2 m,
    TreeNodeCollection.new (4 + fuel) (forkPoints p1 p2 p3 p4 r1 r2 r3 r4)
    = Return c /\
    _rawSections c = Some [s0; s1; s2] /\
    RawSection.parent s1 = Some 0 /\ RawSection.parent s2 = Some 0 /\
    RawSection.children s0 = [] /\
    getMorphology c = Some m /\
    MSection._parent <$> Morphology.getSection m 1 = Some (Some 0) /\
    MSection._parent <$> Morphology.getSection m 2 = Some (Some 0) /\
    MSection._children <$> Morphology.getSection m 0 = Some [].
Proof.
  split; [reflexivity|].
  destruct p1 as [[? ?] ?], p2 as [[? ?] ?], p3 as [[? ?] ?], p4 as [[? ?] ?].
  engine_limits eng. eexists _, _, _, _, _. split; [vm_compute; reflexivity|].
  repeat split; reflexivity.
Qed.

(** A section whose parent has an id other than 0 is registered with
    it. *)
Lemma registerChild_registers p cur secs ps :
  secs !! S p = Some ps ->
  exists secs' ps',
    registerChild (Some (S p)) cur secs = Return secs' /\
    secs' !! S p = Some ps' /\
    RawSection.children ps' = RawSection.children ps ++ [cur].
Proof.
  intros Hps. rewrite (registerChild_pos _ _ _ _ Hps).
  exists (<[S p := addChildId cur ps]> secs), (addChildId cur ps).
  split; [reflexivity|]. split; [|reflexivity].
  apply list_lookup_insert_eq. by eapply lookup_lt_Some.
Qed.

(** No soma is ever synthesized, since no type equals
    [SWC_TYPES.SOMA], which is undefined. *)
Lemma new_no_soma fuel points c :
  TreeNodeCollection.new fuel points = Return c ->
  _rawSoma c = None /\
  (forall raw, getRawMorphology c = Some raw -> RawMorphology.soma raw = None) /\
  (forall m, getMorphology c = Some m -> Morphology.getSoma m = None).
Proof.
  intros H. apply new_Return in H as (_ & Hsoma & [(_ & _ & Hraw & Hm)|H]).
  { unfold getRawMorphology, getMorphology. rewrite Hraw, Hm. by repeat split. }
  destruct H as (f & ch & secs & m & _ & _ & _ & _ & Hraw & Hbuild & Hm).
  unfold getRawMorphology, getMorphology. rewrite Hraw, Hm.
  split; [done|]. split; [by intros raw [= <-]|].
  intros m' [= <-]. unfold Morphology.buildFromRawMorphology in Hbuild.
  simpl in Hbuild. inv_ret. by subst.
Qed.

(** C1 fails on the code.  The one point [1 1 0 0 0 5 -1] gives no soma,
    no section and no morphology at all; so does every input that yields
    no section, whatever the types of its points. *)
Theorem C1_single_soma_point_gives_no_morphology :
  (forall fuel, exists c,
     TreeNodeCollection.new fuel [pt 1 1 (0, 0, 0) 5 (-1)]%float = Return c /\
     _rawSoma c = None /\ _rawSections c = None /\
     getRawMorphology c = None /\ getMorphology c = None) /\
  (forall fuel points c,
     TreeNodeCollection.new fuel points = Return c ->
     _rawSections c = None ->
     getRawMorphology c = None /\ getMorphology c = None).
Proof.
  split.
  - intros fuel. eexists. split; [reflexivity|]. by repeat split.
  - intros fuel points c H Hsecs.
    apply new_Return in H as (_ & _ & [(_ & _ & Hraw & Hm)|H]); [done|].
    destruct H as (f & ch & secs & m & _ & _ & _ & Hs & _). congruence.
Qed.

(** C9 fails on the code.  Whatever the points, the constructor
    synthesizes no soma record, and the morphology it builds has no
    soma: so for a root of type soma of radius 5 with an axon child. *)
Theorem C9_no_soma_is_synthesized :
  (forall fuel points c,
     TreeNodeCollection.new fuel points = Return c ->
     _rawSoma c = None /\
     (forall m, getMorphology c = Some m -> Morphology.getSoma m = None)) /\
  (forall fuel, exists c m,
     TreeNodeCollection.new (3 + fuel)
       [pt 1 1 (0, 0, 0) 5 (-1); pt 2 2 (1, 0, 0) 1 1]%float = Return c /\
     _rawSoma c = None /\
     getMorphology c = Some m /\ Morphology.getSoma m = None).
Proof.
  split.
  - intros fuel points c H. destruct (new_no_soma _ _ _ H) as (? & _ & ?). done.
  - intros fuel. engine_limits eng. eexists _, _. split; [vm_compute; reflexivity|]. by repeat split.
Qed.

(** Two points of type soma, the second a child of the first: they are
    nodes like the others, and make one section, of type soma. *)
Lemma two_soma_points_make_a_section fuel :
  exists c m,
    TreeNodeCollection.new (3 + fuel)
      [pt 1 1 (0, 0, 0) 5 (-1); pt 2 1 (1, 0, 0) 5 1]%float = Return c /\
    _rawSoma c = None /\
    _rawSections c
    = Some [RawSection.mk 1 None
              [RawPoint.mk (0, 0, 0) 0; RawPoint.mk (1, 0, 0) 5]%float
              0 [] None] /\
    getMorphology c = Some m /\ Morphology.getSoma m = None.
Proof.
  engine_limits eng. eexists _, _. split; [vm_compute; reflexivity|]. by repeat split.
Qed.

End Examples.

(** ** The table of points *)

Section PointTable.
Context {eng : engine}.
Import TreeNode TreeNodeCollection.
Variable parseFloat : string -> float.
Variable Math_round : float -> Z.

(** An empty slot of the array of points is fatal. *)
Lemma initLoop_hole points : forall i nodes h soma,
  points !! i = Some None ->
  initLoop points nodes h soma = Throw TypeError.
Proof.
  induction points as [|slot points IH]; intros i nodes h soma Hi.
  { by rewrite lookup_nil in Hi. }
  destruct i as [|i]; simpl in Hi.
  - injection Hi as ->. reflexivity.
  - destruct slot as [q|]; [|reflexivity]. simpl.
    destruct (Z.eqb _ _); [by eapply IH|].
    destruct (setParent _ _ _) as [h'|e|] eqn:Hset; simpl.
    + by eapply IH.
    + by rewrite (setParent_Throw _ _ _ _ Hset).
    + pose proof (setParent_completes (h ++ [TreeNode.new (Point.id q) (Point.type q)
          (Point.x q) (Point.y q) (Point.z q) (Point.radius q)]) (length h)
          (obj_get (Point.parentId q) (obj_set (Point.id q) (length h) nodes))) as Hc.
      rewrite Hset in Hc. destruct Hc.
Qed.

Lemma new_hole fuel points i :
  points !! i = Some None ->
  TreeNodeCollection.new fuel points = Throw TypeError.
Proof.
  intros Hi. unfold TreeNodeCollection.new, _initCollection.
  cbn [_nodes store _rawSoma _rawSections _rawMorphology _morphology].
  by rewrite (initLoop_hole points i [] [] []).
Qed.

(** C3 fails on the code.  The line [foo] between two lines of seven
    fields is not left out of the array: its slot stays empty, the array
    has three slots, and the parse throws on the empty one. *)
Theorem C3_short_line_leaves_an_empty_slot :
  SwcParser.extractPoints parseFloat Math_round textWithShortLine
  = [parsed parseFloat Math_round "1" "1" "0" "0" "0" "5" "-1";
     None;
     parsed parseFloat Math_round "2" "2" "1" "0" "0" "1" "1"] /\
  forall fuel this,
    SwcParser.parse parseFloat Math_round fuel this textWithShortLine
    = (SwcParser.mk None None, Throw TypeError).
Proof.
  assert (H : SwcParser.extractPoints parseFloat Math_round textWithShortLine
              !! 1 = Some None) by (vm_compute; reflexivity).
  split; [vm_compute; reflexivity|].
  intros fuel this. unfold SwcParser.parse.
  by rewrite (new_hole fuel _ 1 H).
Qed.

End PointTable.

(** ** The morphology *)

Section MorphologyFacts.
Context {eng : engine}.

Lemma obj_get_None {V} k (o : object V) :
  k ∉ map fst o -> obj_get k o = None.
Proof.
  induction o as [|[k' v] o IH]; simpl; [done|].
  intros Hk. apply not_elem_of_cons in Hk as [Hne Hk].
  destruct (Z.eqb_spec k k'); [done|]. by apply IH.
Qed.

Lemma obj_get_elem_of {V} k (v : V) (o : object V) :
  wf_object o -> (k, v) ∈ o -> obj_get k o = Some v.
Proof.
  unfold wf_object. induction o as [|[k' v'] o IH]; simpl; intros Hwf Hin.
  - by apply elem_of_nil in Hin.
  - apply list.NoDup_cons in Hwf as [Hk' Hwf].
    apply elem_of_cons in Hin as [[= <- <-]|Hin].
    + by rewrite Z.eqb_refl.
    + destruct (Z.eqb_spec k k') as [->|Hne]; [|by apply IH].
      exfalso. apply Hk'. apply list_elem_of_fmap. by exists (k', v).
Qed.

(** C5.  [getSection] gives [null] for an id under which the morphology
    stores nothing, and the section stored under the id otherwise. *)
Theorem C5_getSection_by_id (m : Morphology.t) (id : Z) :
  wf_object (Morphology._sections m) ->
  (id ∉ map fst (Morphology._sections m) -> Morphology.getSection m id = None) /\
  (forall s, (id, s) ∈ Morphology._sections m ->
     Morphology.getSection m id = Some s).
Proof.
  intros Hwf. unfold Morphology.getSection, obj_in. split.
  - intros Hid. by rewrite (obj_get_None _ _ Hid).
  - intros s Hs. by rewrite (obj_get_elem_of _ _ _ Hwf Hs).
Qed.

Lemma C5_getSection_witness :
  (0%Z ∉ map fst (Morphology._sections oneSection) ->
   Morphology.getSection oneSection 0 = None) /\
  (forall s, (0%Z, s) ∈ Morphology._sections oneSection ->
     Morphology.getSection oneSection 0 = Some s).
Proof.
  apply (C5_getSection_by_id oneSection 0).
  unfold wf_object. simpl. apply NoDup_singleton.
Defined.

Lemma obj_set_keys {V} k (v : V) (o : object V) :
  map fst (obj_set k v o)
  = if obj_in k o then map fst o else map fst o ++ [k].
Proof.
  unfold obj_in. induction o as [|[k' v'] o IH]; simpl; [done|].
  destruct (Z.eqb_spec k k') as [->|Hne]; simpl; [done|].
  rewrite IH. by destruct (obj_get k o).
Qed.

Lemma obj_set_wf {V} k (v : V) (o : object V) :
  wf_object o -> wf_object (obj_set k v o).
Proof.
  unfold wf_object. rewrite obj_set_keys. unfold obj_in.
  destruct (obj_get k o) eqn:Hk; [done|].
  intros Hwf. apply list.NoDup_app. split; [done|]. split; [|apply NoDup_singleton].
  intros k' Hk' Hin. apply list_elem_of_singleton in Hin as ->.
  clear Hwf. induction o as [|[k0 v0] o IH]; simpl in *; [by apply elem_of_nil in Hk'|].
  destruct (Z.eqb_spec k k0); [done|].
  apply elem_of_cons in Hk' as [?|?]; [done|]. by apply IH.
Qed.

Lemma initSections_wf raws : forall o,
  wf_object o -> wf_object (Morphology.initSections raws o).
Proof.
  unfold Morphology.initSections.
  induction raws as [|r raws IH]; intros o Ho; simpl; [done|].
  apply IH. by apply obj_set_wf.
Qed.

Lemma linkSections_wf raws : forall o o',
  Morphology.linkSections raws o = Return o' -> wf_object o -> wf_object o'.
Proof.
  induction raws as [|r raws IH]; intros o o' H Ho; simpl in H; inv_ret; [by subst|].
  eapply IH; [exact H|]. by apply obj_set_wf.
Qed.

(** The sections of a morphology built from raw sections are stored
    under names that are all different. *)
Lemma buildFromRawMorphology_wf raw m :
  Morphology.buildFromRawMorphology Morphology.new raw = Return m ->
  wf_object (Morphology._sections m).
Proof.
  unfold Morphology.buildFromRawMorphology. intros H. inv_ret. subst. simpl.
  eapply linkSections_wf; [eassumption|].
  apply initSections_wf. destruct (RawMorphology.soma raw); apply NoDup_nil_2.
Qed.

(** What is left of a morphology that has a soma and no section: the
    construction throws when it reads the length of [null]. *)
Lemma buildFromRawMorphology_without_sections soma :
  Morphology.buildFromRawMorphology Morphology.new (RawMorphology.mk soma None)
  = Throw TypeError.
Proof. by destruct soma. Qed.

End MorphologyFacts.

(** ** The instances the theorems are applied to *)

Section Witnesses.
#[local] Existing Instance smallEngine.
Import TreeNode TreeNodeCollection.

Lemma C10_ids_witness :
  exists c secs,
    TreeNodeCollection.new 10
      (forkPoints (0, 0, 0) (1, 0, 0) (2, 1, 0) (2, (-1), 0) 5 1 1 1)%float
    = Return c /\
    _rawSections c = Some secs /\
    (exists f fn,
       store c !! f = Some fn /\
       Forest (store c) (rev (map (fun n => mkEntry n None) (_children fn))) 0
         (map strip secs)) /\
    (forall i s, secs !! i = Some s -> RawSection.id s = i).
Proof.
  eexists _, _. split; [vm_compute; reflexivity|]. split; [reflexivity|].
  eapply (C10_ids_depth_first_reverse_siblings 10
            (forkPoints (0, 0, 0) (1, 0, 0) (2, 1, 0) (2, (-1), 0) 5 1 1 1)%float).
  - vm_compute. reflexivity.
  - reflexivity.
Defined.

Lemma new_hole_witness :
  TreeNodeCollection.new 0
    [pt 1 1 (0, 0, 0) 5 (-1); None; pt 2 2 (1, 0, 0) 1 1]%float
  = Throw TypeError.
Proof.
  apply (new_hole 0 [pt 1 1 (0, 0, 0) 5 (-1); None; pt 2 2 (1, 0, 0) 1 1]%float 1).
  reflexivity.
Defined.

Lemma registerChild_registers_witness :
  exists secs' ps',
    registerChild (Some 1) 2
      [RawSection.mk 2 None [] 0 [] None; RawSection.mk 2 None [] 1 [] None]
    = Return secs' /\
    secs' !! 1 = Some ps' /\
    RawSection.children ps' = [] ++ [2].
Proof.
  apply (registerChild_registers 0 2
           [RawSection.mk 2 None [] 0 [] None; RawSection.mk 2 None [] 1 [] None]
           (RawSection.mk 2 None [] 1 [] None)).
  reflexivity.
Defined.

End Witnesses.

(* ================================================================== *)
(** * The text of a file and the array of points *)
(* ================================================================== *)

(** ** Regular expressions *)

Section RegexFacts.

Lemma rmatch_star_cons m q p r prev c s :
  rmatch m (Many q false p :: r) prev (c :: s)
  = if p c then
      match q with
      | Greedy => orelse (succ_len (rmatch m (Many q false p :: r) (Some c) s))
                         (rmatch m r prev (c :: s))
      | Lazy => orelse (rmatch m r prev (c :: s))
                       (succ_len (rmatch m (Many q false p :: r) (Some c) s))
      end
    else rmatch m r prev (c :: s).
Proof. reflexivity. Qed.

Lemma rmatch_one m p r prev s :
  rmatch m (One p :: r) prev s
  = match s with
    | c :: s' => if p c then succ_len (rmatch m r (Some c) s') else None
    | [] => None
    end.
Proof. by destruct s. Qed.

Lemma rmatch_bol m r prev s :
  rmatch m (Bol :: r) prev s = if at_bol m prev then rmatch m r prev s else None.
Proof. reflexivity. Qed.

Lemma rmatch_eol m r prev s :
  rmatch m (Eol :: r) prev s = if at_eol m s then rmatch m r prev s else None.
Proof. reflexivity. Qed.

Lemma rmatch_plus m q p r prev s :
  rmatch m (Many q true p :: r) prev s
  = match s with
    | c :: s' =>
        if p c then succ_len (rmatch m (Many q false p :: r) (Some c) s') else None
    | [] => None
    end.
Proof. by destruct s. Qed.

(** A line terminator is white space, [#] and the comma are not. *)
Lemma terminator_space c : isLineTerminator c = true -> isSpace c = true.
Proof.
  unfold isLineTerminator, isSpace. intros H.
  apply orb_true_iff in H as [H|H]; apply Nat.eqb_eq in H; rewrite H; reflexivity.
Qed.

Lemma space_not_terminator c : isSpace c = false -> isLineTerminator c = false.
Proof.
  intros H. destruct (isLineTerminator c) eqn:Ht; [|done].
  by rewrite (terminator_space _ Ht) in H.
Qed.

Lemma isChar_eq d c : isChar d c = true -> c = d.
Proof. unfold isChar. intros H. by apply Ascii.eqb_eq in H. Qed.

Lemma hash_not_space c : isChar "#" c = true -> isSpace c = false.
Proof. intros H. by rewrite (isChar_eq _ _ H). Qed.

Lemma field_facts c :
  isField c = true ->
  isSpace c = false /\ isSpaceOrComma c = false /\ isChar "#" c = false /\
  isLineTerminator c = false.
Proof.
  unfold isField, isSpaceOrComma. intros H.
  apply andb_true_iff in H as [H1 H2].
  apply negb_true_iff in H1, H2. apply orb_false_iff in H1 as [Hs Hc].
  repeat split; try done.
  - by rewrite Hs, Hc.
  - by apply space_not_terminator.
Qed.

Lemma blank_facts c :
  isBlank c = true ->
  isSpaceOrComma c = true /\ isChar "#" c = false /\ isLineTerminator c = false.
Proof.
  unfold isBlank. intros H. apply andb_true_iff in H as [H1 H2].
  apply negb_true_iff in H2. repeat split; try done.
  destruct (isChar "#" c) eqn:Hh; [|done].
  by rewrite (isChar_eq _ _ Hh) in H1.
Qed.

Lemma gap_facts c :
  isGap c = true -> isSpace c = true /\ isLineTerminator c = false.
Proof.
  unfold isGap. intros H. apply andb_true_iff in H as [H1 H2].
  by apply negb_true_iff in H2.
Qed.

Lemma run_cons p c s : run p (c :: s) = if p c then S (run p s) else 0.
Proof. reflexivity. Qed.

Lemma commentAt_cons c s :
  commentAt (c :: s)
  = if isSpace c then succ_len (commentAt s)
    else if isChar "#" c then Some (S (run isDot s)) else None.
Proof. reflexivity. Qed.

(** [p*] at the end of an expression takes the longest run. *)
Lemma rmatch_star_end m p prev s :
  rmatch m [Many Greedy false p] prev s = Some (run p s).
Proof.
  revert prev. induction s as [|c s IH]; intros prev; [reflexivity|].
  rewrite rmatch_star_cons, run_cons. destruct (p c); [|reflexivity].
  by rewrite IH.
Qed.

(** [/[\s,]+/] *)
Lemma rmatch_separator prev s :
  rmatch false SwcParser.re_separator prev s
  = match run isSpaceOrComma s with 0 => None | n => Some n end.
Proof.
  unfold SwcParser.re_separator. rewrite rmatch_plus.
  destruct s as [|c s]; [reflexivity|]. rewrite run_cons.
  destruct (isSpaceOrComma c); [|reflexivity].
  by rewrite rmatch_star_end.
Qed.

(** [.*?$], with the flag [m]: up to the end of the line. *)
Lemma rmatch_rest_of_line prev s :
  rmatch true [Many Lazy false isDot; Eol] prev s = Some (run isDot s).
Proof.
  revert prev. induction s as [|c s IH]; intros prev; [reflexivity|].
  rewrite rmatch_star_cons, rmatch_eol, IH, run_cons. unfold isDot at 1 3.
  unfold at_eol. destruct (isLineTerminator c); reflexivity.
Qed.

(** [/\s*#.*?$/mg] *)
Lemma rmatch_comment prev s :
  rmatch true SwcParser.re_comment prev s = commentAt s.
Proof.
  unfold SwcParser.re_comment.
  revert prev. induction s as [|c s IH]; intros prev; [reflexivity|].
  rewrite rmatch_star_cons, commentAt_cons.
  destruct (isSpace c) eqn:Hs.
  - rewrite IH, rmatch_one.
    assert (Hh : isChar "#" c = false).
    { destruct (isChar "#" c) eqn:Hh; [|done]. by rewrite (hash_not_space _ Hh) in Hs. }
    rewrite Hh. by destruct (succ_len (commentAt s)).
  - rewrite rmatch_one. destruct (isChar "#" c); [|reflexivity].
    by rewrite rmatch_rest_of_line.
Qed.

(** [/^\s*$/mg]: no match away from the start of a line, nor where the
    line starts with a character that is no white space. *)
Lemma rmatch_empty_inside prev s :
  at_bol true prev = false -> rmatch true SwcParser.re_empty prev s = None.
Proof. intros H. unfold SwcParser.re_empty. by rewrite rmatch_bol, H. Qed.

Lemma rmatch_empty_field prev c s :
  isSpace c = false -> rmatch true SwcParser.re_empty prev (c :: s) = None.
Proof.
  intros H. unfold SwcParser.re_empty. rewrite rmatch_bol.
  destruct (at_bol true prev); [|done].
  rewrite rmatch_star_cons, H, rmatch_eol. unfold at_eol.
  by rewrite (space_not_terminator _ H).
Qed.

(** [/^\s+/m] *)
Lemma rmatch_leading_inside prev s :
  at_bol true prev = false -> rmatch true SwcParser.re_leading prev s = None.
Proof. intros H. unfold SwcParser.re_leading. by rewrite rmatch_bol, H. Qed.

Lemma rmatch_leading_field prev c s :
  isSpace c = false -> rmatch true SwcParser.re_leading prev (c :: s) = None.
Proof.
  intros H. unfold SwcParser.re_leading. rewrite rmatch_bol.
  destruct (at_bol true prev); [|done].
  by rewrite rmatch_plus, H.
Qed.

(** [/\s+$/m]: no match before a character of the line that is no
    white space. *)
Lemma rmatch_spaces_eol prev a c b :
  Forall (fun x => isLineTerminator x = false) a -> isSpace c = false ->
  rmatch true [Many Greedy false isSpace; Eol] prev (a ++ c :: b) = None.
Proof.
  intros Ha Hc. revert prev.
  induction Ha as [|x a Hx Ha IH]; intros prev; simpl app.
  - rewrite rmatch_star_cons, Hc, rmatch_eol. unfold at_eol.
    by rewrite (space_not_terminator _ Hc).
  - rewrite rmatch_star_cons, IH, rmatch_eol. unfold at_eol. rewrite Hx.
    by destruct (isSpace x).
Qed.

Lemma rmatch_trailing prev a c b :
  Forall (fun x => isLineTerminator x = false) a -> isSpace c = false ->
  rmatch true SwcParser.re_trailing prev (a ++ c :: b) = None.
Proof.
  intros Ha Hc. unfold SwcParser.re_trailing. rewrite rmatch_plus.
  destruct a as [|x a]; simpl app; cbv iota.
  - by rewrite Hc.
  - apply List.Forall_cons_iff in Ha as [_ Ha].
    rewrite (rmatch_spaces_eol _ _ _ _ Ha Hc). by destruct (isSpace x).
Qed.

End RegexFacts.

(** ** [replace], [trim] and [split] *)

Section ReplaceFacts.

Abbreviation nonTerminator := (fun c : ascii => isLineTerminator c = false).
Abbreviation nonHash := (fun c : ascii => isChar "#" c = false).

Lemma remove_all_cons m r prev c s :
  remove_all m r 0 prev (c :: s)
  = match rmatch m r prev (c :: s) with
    | Some (S n) => remove_all m r n (Some c) s
    | _ => c :: remove_all m r 0 (Some c) s
    end.
Proof. reflexivity. Qed.

Lemma remove_all_quiet m r s : forall prev,
  quiet m r prev s -> remove_all m r 0 prev s = s.
Proof.
  induction s as [|c s IH]; intros prev H; [reflexivity|].
  destruct H as [H Hq]. rewrite remove_all_cons.
  destruct H as [-> | ->]; by rewrite (IH _ Hq).
Qed.

Lemma remove_first_quiet m r s : forall prev,
  quiet m r prev s -> remove_first m r prev s = s.
Proof.
  induction s as [|c s IH]; intros prev H.
  - simpl. destruct (rmatch m r prev []); [apply drop_nil|done].
  - destruct H as [H Hq]. simpl remove_first.
    destruct H as [-> | ->]; [by rewrite (IH _ Hq)|reflexivity].
Qed.

(** *** Comments *)

Lemma uncomment_prev n prev s :
  remove_all true SwcParser.re_comment n prev s
  = remove_all true SwcParser.re_comment n None s.
Proof.
  destruct s as [|c s]; [reflexivity|]. destruct n as [|n]; [|reflexivity].
  by rewrite !remove_all_cons, !rmatch_comment.
Qed.

Lemma uncomment_skip l : forall prev t,
  remove_all true SwcParser.re_comment (length l) prev (l ++ t)
  = remove_all true SwcParser.re_comment 0 None t.
Proof.
  induction l as [|c l IH]; intros prev t; [apply uncomment_prev|].
  simpl. apply IH.
Qed.

Lemma uncomment_match prev l t :
  l <> [] -> commentAt (l ++ t) = Some (length l) ->
  remove_all true SwcParser.re_comment 0 prev (l ++ t)
  = remove_all true SwcParser.re_comment 0 None t.
Proof.
  destruct l as [|c l]; [done|]. intros _ H. simpl app in *.
  rewrite remove_all_cons, rmatch_comment, H. simpl length. apply uncomment_skip.
Qed.

Lemma uncomment_keep prev c s :
  commentAt (c :: s) = None ->
  remove_all true SwcParser.re_comment 0 prev (c :: s)
  = c :: remove_all true SwcParser.re_comment 0 None s.
Proof.
  intros H. rewrite remove_all_cons, rmatch_comment, H. by rewrite uncomment_prev.
Qed.

Lemma commentAt_none l z t :
  Forall nonHash l -> isChar "#" z = false -> isSpace z = false ->
  commentAt (l ++ z :: t) = None.
Proof.
  intros Hl Hz Hs. induction Hl as [|c l Hc Hl IH]; simpl app;
    rewrite commentAt_cons.
  - by rewrite Hs, Hz.
  - rewrite IH, Hc. by destruct (isSpace c).
Qed.

Lemma uncomment_row l z t : forall prev,
  Forall nonHash l -> isChar "#" z = false -> isSpace z = false ->
  remove_all true SwcParser.re_comment 0 prev (l ++ z :: t)
  = l ++ z :: remove_all true SwcParser.re_comment 0 None t.
Proof.
  intros prev Hl Hz Hs. revert prev.
  induction Hl as [|c l Hc Hl IH]; intros prev; simpl app.
  - rewrite uncomment_keep; [done|]. by rewrite commentAt_cons, Hs, Hz.
  - rewrite uncomment_keep.
    + by rewrite IH.
    + change (c :: l ++ z :: t) with ((c :: l) ++ z :: t).
      apply commentAt_none; [by constructor|done|done].
Qed.

Lemma run_line p l t :
  Forall (fun c => p c = true) l ->
  match t with [] => True | c :: _ => p c = false end ->
  run p (l ++ t) = length l.
Proof.
  intros Hl Ht. induction Hl as [|c l Hc Hl IH]; simpl app.
  - destruct t as [|c t]; [reflexivity|]. by rewrite run_cons, Ht.
  - by rewrite run_cons, Hc, IH.
Qed.

End ReplaceFacts.

(** ** Rows and lines *)

Section RowFacts.

Lemma wf_field_chars f :
  wf_field f = true -> f <> [] /\ Forall (fun c => isField c = true) f.
Proof.
  unfold wf_field. destruct f as [|c f]; [done|]. intros H. split; [done|].
  apply Forall_forall. exact (proj1 (forallb_forall _ _) H).
Qed.

Lemma wf_sep_chars s :
  wf_sep s = true -> s <> [] /\ Forall (fun c => isBlank c = true) s.
Proof.
  unfold wf_sep. destruct s as [|c s]; [done|]. intros H. split; [done|].
  apply Forall_forall. exact (proj1 (forallb_forall _ _) H).
Qed.

Lemma wf_row_parts r :
  wf_row r = true ->
  (lead r <> [] /\ Forall (fun c => isField c = true) (lead r)) /\
  Forall (fun sf => (fst sf <> [] /\ Forall (fun c => isBlank c = true) (fst sf)) /\
                    (snd sf <> [] /\ Forall (fun c => isField c = true) (snd sf)))
         (others r).
Proof.
  unfold wf_row. intros H. apply andb_true_iff in H as [H1 H2].
  split; [by apply wf_field_chars|].
  apply Forall_forall. intros sf Hin.
  pose proof (proj1 (forallb_forall _ _) H2 sf Hin) as H3. clear H2. rename H3 into H2. apply andb_true_iff in H2 as [Hs Hf].
  split; [by apply wf_sep_chars|by apply wf_field_chars].
Qed.

Lemma wf_row_text r : wf_row r = true -> rowText (render_row r).
Proof.
  intros H. apply wf_row_parts in H as [[Hne Hlead] Hothers].
  unfold render_row. split; [|split].
  - apply Forall_app. split.
    + eapply List.Forall_impl; [|exact Hlead]. intros c Hc.
      by destruct (field_facts _ Hc) as (_ & _ & ? & ?).
    + apply Forall_concat, Forall_map.
      eapply List.Forall_impl; [|exact Hothers].
      intros [s f] [[_ Hs] [_ Hf]]. simpl in *. apply Forall_app. split.
      * eapply List.Forall_impl; [|exact Hs]. intros c Hc.
        by destruct (blank_facts _ Hc) as (_ & ? & ?).
      * eapply List.Forall_impl; [|exact Hf]. intros c Hc.
        by destruct (field_facts _ Hc) as (_ & _ & ? & ?).
  - destruct (lead r) as [|c l]; [done|].
    exists c, (l ++ concat (map (fun sf => fst sf ++ snd sf) (others r))).
    split; [done|]. apply List.Forall_cons_iff in Hlead as [Hc _].
    by destruct (field_facts _ Hc).
  - destruct (others r) as [|[s f] os _] using rev_ind.
    + simpl. rewrite app_nil_r.
      destruct (lead r) as [|z l _] using rev_ind; [done|].
      exists l, z. split; [done|].
      apply Forall_app in Hlead as [_ Hz].
      apply List.Forall_cons_iff in Hz as [Hz _]. by destruct (field_facts _ Hz).
    + apply Forall_app in Hothers as [_ Hlast].
      apply List.Forall_cons_iff in Hlast as [[_ [Hfne Hf]] _]. simpl in *.
      destruct f as [|z f _] using rev_ind; [done|].
      rewrite map_app, concat_app. simpl. rewrite app_nil_r.
      exists (lead r ++ concat (map (fun sf => fst sf ++ snd sf) os) ++ s ++ f), z.
      split; [by rewrite <- !app_assoc|].
      apply Forall_app in Hf as [_ Hz].
      apply List.Forall_cons_iff in Hz as [Hz _]. by destruct (field_facts _ Hz).
Qed.

End RowFacts.

(** ** The text of a file *)

Section TextFacts.

Abbreviation startsLine t :=
  (match t with [] => True | c :: _ => isDot c = false end).

Lemma tailLines_cons l ls :
  tailLines (l :: ls) = SwcParser.LF :: l ++ tailLines ls.
Proof. reflexivity. Qed.

Lemma tailLines_starts ls : startsLine (tailLines ls).
Proof. by destruct ls. Qed.

Lemma wf_comment_chars gap text :
  wf_comment gap text = true ->
  Forall (fun c => isGap c = true) gap /\ Forall (fun c => isDot c = true) text.
Proof.
  unfold wf_comment. intros H. apply andb_true_iff in H as [H1 H2].
  split; apply Forall_forall.
  - exact (proj1 (forallb_forall _ _) H1).
  - exact (proj1 (forallb_forall _ _) H2).
Qed.

Lemma commentAt_comment gap text t :
  wf_comment gap text = true -> startsLine t ->
  commentAt (render_comment gap text ++ t)
  = Some (length (render_comment gap text)).
Proof.
  intros H Ht. apply wf_comment_chars in H as [Hgap Htext].
  unfold render_comment. rewrite <- app_assoc. simpl app.
  induction Hgap as [|c gap Hc Hgap IH]; simpl app; rewrite commentAt_cons.
  - change (isSpace "#") with false. change (isChar "#" "#") with true.
    cbv iota. by rewrite (run_line isDot text t Htext Ht).
  - destruct (gap_facts _ Hc) as [-> _]. by rewrite IH.
Qed.

Lemma render_comment_ne gap text : render_comment gap text <> [].
Proof. unfold render_comment. by destruct gap. Qed.

Lemma uncomment_rowText l t prev :
  rowText l ->
  remove_all true SwcParser.re_comment 0 prev (l ++ t)
  = l ++ remove_all true SwcParser.re_comment 0 None t.
Proof.
  intros (Hall & _ & l' & z & -> & Hz).
  apply Forall_app in Hall as [Hl' Hz'].
  apply List.Forall_cons_iff in Hz' as [[_ Hzh] _].
  rewrite <- !app_assoc. simpl app. apply uncomment_row; [|done|done].
  eapply List.Forall_impl; [|exact Hl']. by intros c [_ ?].
Qed.

Lemma commentAt_rowText l t : rowText l -> commentAt (l ++ t) = None.
Proof.
  intros (Hall & _ & l' & z & -> & Hz).
  apply Forall_app in Hall as [Hl' Hz'].
  apply List.Forall_cons_iff in Hz' as [[_ Hzh] _].
  rewrite <- !app_assoc. simpl app. apply commentAt_none; [|done|done].
  eapply List.Forall_impl; [|exact Hl']. by intros c [_ ?].
Qed.

Lemma wf_line_row r remark : wf_line (Data r remark) = true -> wf_row r = true.
Proof.
  simpl. destruct remark as [[gap text]|]; [|done].
  intros H. by apply andb_true_iff in H as [? _].
Qed.

(** The lines after the first one: a comment goes with the line feed
    before it. *)
Lemma uncomment_line l t prev :
  wf_line l = true -> startsLine t ->
  remove_all true SwcParser.re_comment 0 prev (render_line l ++ t)
  = match l with Data r _ => render_row r | Comment _ _ => [] end
    ++ remove_all true SwcParser.re_comment 0 None t.
Proof.
  intros Hl Ht. destruct l as [gap text|r [[gap text]|]]; simpl render_line.
  - apply uncomment_match; [apply render_comment_ne|].
    by apply commentAt_comment.
  - simpl in Hl. apply andb_true_iff in Hl as [Hr Hc].
    rewrite <- app_assoc, (uncomment_rowText _ _ _ (wf_row_text _ Hr)).
    f_equal. apply uncomment_match; [apply render_comment_ne|].
    by apply commentAt_comment.
  - by apply uncomment_rowText, wf_row_text.
Qed.

Lemma uncomment_tail doc : forall prev,
  Forall (fun l => wf_line l = true) doc ->
  remove_all true SwcParser.re_comment 0 prev (tailLines (map render_line doc))
  = tailLines (map render_row (rowsOf doc)).
Proof.
  induction doc as [|l doc IH]; intros prev Hdoc; [reflexivity|].
  apply List.Forall_cons_iff in Hdoc as [Hl Hdoc].
  simpl map. rewrite tailLines_cons.
  pose proof (tailLines_starts (map render_line doc)) as Ht.
  destruct l as [gap text|r remark].
  - change (SwcParser.LF :: render_line (Comment gap text) ++ ?t)
      with ((SwcParser.LF :: render_comment gap text) ++ t).
    rewrite uncomment_match.
    + by apply IH.
    + done.
    + simpl app. rewrite commentAt_cons. change (isSpace SwcParser.LF) with true.
      cbv iota. by rewrite (commentAt_comment _ _ _ Hl Ht).
  - rewrite uncomment_keep.
    + rewrite (uncomment_line _ _ _ Hl Ht), (IH _ Hdoc). reflexivity.
    + rewrite commentAt_cons. change (isSpace SwcParser.LF) with true. cbv iota.
      pose proof (wf_row_text _ (wf_line_row _ _ Hl)) as Hr.
      destruct remark as [[gap text]|]; simpl render_line.
      * by rewrite <- app_assoc, (commentAt_rowText _ _ Hr).
      * by rewrite (commentAt_rowText _ _ Hr).
Qed.

(** *** [trim] *)

Lemma trim_tight s :
  (exists c l, s = c :: l /\ isSpace c = false) ->
  (exists l z, s = l ++ [z] /\ isSpace z = false) ->
  trim s = s.
Proof.
  intros (c & l & Hs & Hc) (l' & z & Hs' & Hz). unfold trim.
  assert (H : dropWhile isSpace s = s) by (rewrite Hs; simpl; by rewrite Hc).
  rewrite H, Hs', rev_unit. simpl dropWhile. rewrite Hz. simpl rev.
  by rewrite rev_involutive.
Qed.

Lemma trim_LF s : trim (SwcParser.LF :: s) = trim s.
Proof. reflexivity. Qed.

Lemma tailLines_last ls :
  ls <> [] -> Forall rowText ls ->
  exists s z, tailLines ls = s ++ [z] /\ isSpace z = false.
Proof.
  induction ls as [|l ls IH]; [done|]. intros _ H.
  apply List.Forall_cons_iff in H as [Hl Hls]. rewrite tailLines_cons.
  destruct ls as [|l2 ls].
  - destruct Hl as (_ & _ & l' & z & -> & Hz).
    exists (SwcParser.LF :: l'), z. split; [|done]. simpl. by rewrite app_nil_r.
  - destruct (IH ltac:(done) Hls) as (s & z & -> & Hz).
    exists (SwcParser.LF :: l ++ s), z. split; [|done]. simpl. by rewrite app_assoc.
Qed.

Lemma trim_joinLines ls :
  Forall rowText ls -> trim (joinLines ls) = joinLines ls.
Proof.
  intros H. destruct ls as [|l ls]; [reflexivity|].
  apply List.Forall_cons_iff in H as [Hl Hls]. simpl joinLines.
  apply trim_tight.
  - destruct Hl as (_ & (c & l' & -> & Hc) & _). by exists c, (l' ++ tailLines ls).
  - destruct ls as [|l2 ls].
    + destruct Hl as (_ & _ & l' & z & -> & Hz). exists l', z.
      split; [|done]. simpl. by rewrite app_nil_r.
    + destruct (tailLines_last (l2 :: ls) ltac:(done) Hls) as (s & z & -> & Hz).
      exists (l ++ s), z. split; [|done]. by rewrite app_assoc.
Qed.

Lemma trim_tailLines ls :
  Forall rowText ls -> trim (tailLines ls) = joinLines ls.
Proof.
  intros H. destruct ls as [|l ls]; [reflexivity|].
  rewrite tailLines_cons, trim_LF. by apply (trim_joinLines (l :: ls)).
Qed.

End TextFacts.

Section LineFacts.

Abbreviation nonTerminator := (fun c : ascii => isLineTerminator c = false).

Lemma rowText_line l : rowText l -> Forall nonTerminator l.
Proof. intros (H & _). eapply List.Forall_impl; [|exact H]. by intros c [? _]. Qed.

(** *** Empty lines *)

Lemma tidy_quiet s : forall prev,
  tidy prev s = true -> quiet true SwcParser.re_empty prev s.
Proof.
  induction s as [|c s IH]; intros prev H; [done|].
  simpl in H. apply andb_true_iff in H as [H1 H2]. split; [|by apply IH].
  left. apply orb_true_iff in H1 as [H1|H1]; apply negb_true_iff in H1.
  - by apply rmatch_empty_inside.
  - by apply rmatch_empty_field.
Qed.

Lemma tidy_inside l : forall c t,
  Forall nonTerminator l -> isLineTerminator c = false ->
  (forall c', isLineTerminator c' = false -> tidy (Some c') t = true) ->
  tidy (Some c) (l ++ t) = true.
Proof.
  induction l as [|x l IH]; intros c t Hl Hc Ht; simpl app; [by apply Ht|].
  apply List.Forall_cons_iff in Hl as [Hx Hl].
  simpl. rewrite Hc. simpl. by apply IH.
Qed.

Lemma tidy_rowText l prev t :
  rowText l ->
  (forall c', isLineTerminator c' = false -> tidy (Some c') t = true) ->
  tidy prev (l ++ t) = true.
Proof.
  intros Hl Ht. pose proof (rowText_line _ Hl) as Hline.
  destruct Hl as (_ & (c & l' & -> & Hc) & _).
  apply List.Forall_cons_iff in Hline as [Hct Hline].
  simpl. rewrite Hc, orb_true_r. simpl. by apply tidy_inside.
Qed.

Lemma tidy_tailLines ls :
  Forall rowText ls ->
  forall c, isLineTerminator c = false -> tidy (Some c) (tailLines ls) = true.
Proof.
  induction 1 as [|l ls Hl Hls IH]; intros c Hc; [reflexivity|].
  rewrite tailLines_cons. simpl. rewrite Hc. simpl.
  by apply tidy_rowText.
Qed.

Lemma tidy_joinLines ls : Forall rowText ls -> tidy None (joinLines ls) = true.
Proof.
  intros H. destruct ls as [|l ls]; [reflexivity|].
  apply List.Forall_cons_iff in H as [Hl Hls]. simpl joinLines.
  apply tidy_rowText; [done|]. by apply tidy_tailLines.
Qed.

(** *** The lines *)

Lemma split_char_cons sep piece c s :
  split_char sep piece (c :: s)
  = if isChar sep c then piece :: split_char sep [] s
    else split_char sep (piece ++ [c]) s.
Proof. reflexivity. Qed.

Lemma split_char_line l : forall piece t,
  Forall nonTerminator l ->
  split_char SwcParser.LF piece (l ++ t) = split_char SwcParser.LF (piece ++ l) t.
Proof.
  induction l as [|c l IH]; intros piece t Hl; simpl app.
  - by rewrite app_nil_r.
  - apply List.Forall_cons_iff in Hl as [Hc Hl]. rewrite split_char_cons.
    assert (Hne : isChar SwcParser.LF c = false).
    { destruct (isChar SwcParser.LF c) eqn:E; [|done].
      by rewrite (isChar_eq _ _ E) in Hc. }
    rewrite Hne, (IH _ _ Hl). by rewrite <- app_assoc.
Qed.

Lemma split_char_tailLines ls : forall piece,
  Forall (Forall nonTerminator) ls ->
  split_char SwcParser.LF piece (tailLines ls) = piece :: ls.
Proof.
  induction ls as [|l ls IH]; intros piece Hls; [reflexivity|].
  apply List.Forall_cons_iff in Hls as [Hl Hls].
  rewrite tailLines_cons, split_char_cons.
  change (isChar SwcParser.LF SwcParser.LF) with true. cbv iota. f_equal.
  by rewrite (split_char_line _ _ _ Hl), IH.
Qed.

Lemma split_char_joinLines l ls :
  Forall (Forall nonTerminator) (l :: ls) ->
  split_char SwcParser.LF [] (joinLines (l :: ls)) = l :: ls.
Proof.
  intros H. apply List.Forall_cons_iff in H as [Hl Hls]. simpl joinLines.
  by rewrite (split_char_line _ _ _ Hl), split_char_tailLines.
Qed.

(** *** White space around a line *)

Lemma quiet_leading l : forall prev,
  Forall nonTerminator l ->
  at_bol true prev = false \/ (exists c l', l = c :: l' /\ isSpace c = false) ->
  quiet true SwcParser.re_leading prev l.
Proof.
  induction l as [|c l IH]; intros prev Hl Hstart; [done|].
  apply List.Forall_cons_iff in Hl as [Hc Hl]. split.
  - left. destruct Hstart as [H|(c' & l' & [= <- <-] & H)].
    + by apply rmatch_leading_inside.
    + by apply rmatch_leading_field.
  - apply IH; [done|]. left. simpl. exact Hc.
Qed.

Lemma quiet_trailing l z : forall prev,
  Forall nonTerminator l -> isSpace z = false ->
  quiet true SwcParser.re_trailing prev (l ++ [z]).
Proof.
  induction l as [|c l IH]; intros prev Hl Hz; simpl app.
  - split; [|done]. left. by apply (rmatch_trailing prev [] z []).
  - split.
    + left. by apply (rmatch_trailing prev (c :: l) z []).
    + apply List.Forall_cons_iff in Hl as [_ Hl]. by apply IH.
Qed.

Lemma unspace_rowText l :
  rowText l ->
  remove_first true SwcParser.re_trailing None
    (remove_first true SwcParser.re_leading None l) = l.
Proof.
  intros Hl. pose proof (rowText_line _ Hl) as Hline.
  destruct Hl as (_ & Hhead & l' & z & Hl & Hz).
  rewrite (remove_first_quiet _ _ l None).
  - rewrite Hl. apply remove_first_quiet, quiet_trailing; [|done].
    rewrite Hl in Hline. by apply Forall_app in Hline as [? _].
  - apply quiet_leading; [done|by right].
Qed.

End LineFacts.

(** ** The fields of a line *)

Section FieldFacts.

Abbreviation nonSeparator := (fun c : ascii => isSpaceOrComma c = false).
Abbreviation separator := (fun c : ascii => isSpaceOrComma c = true).

Lemma split_loop_cons r piece at_p prev c s :
  split_loop r 0 piece at_p prev (c :: s)
  = match rmatch false r prev (c :: s) with
    | Some (S n) => piece :: split_loop r n [] true (Some c) s
    | Some O =>
        if at_p then split_loop r 0 (piece ++ [c]) false (Some c) s
        else piece :: split_loop r 0 [c] false (Some c) s
    | None => split_loop r 0 (piece ++ [c]) false (Some c) s
    end.
Proof. reflexivity. Qed.

Lemma split_prev n piece at_p prev s :
  split_loop SwcParser.re_separator n piece at_p prev s
  = split_loop SwcParser.re_separator n piece at_p None s.
Proof.
  destruct s as [|c s]; [reflexivity|]. destruct n as [|n]; [|reflexivity].
  by rewrite !split_loop_cons, !rmatch_separator.
Qed.

Lemma split_skip l : forall prev t,
  split_loop SwcParser.re_separator (length l) [] true prev (l ++ t)
  = split_loop SwcParser.re_separator 0 [] true None t.
Proof.
  induction l as [|c l IH]; intros prev t; [apply split_prev|].
  simpl. apply IH.
Qed.

Lemma split_inside f : forall piece prev t,
  Forall nonSeparator f ->
  split_loop SwcParser.re_separator 0 piece false prev (f ++ t)
  = split_loop SwcParser.re_separator 0 (piece ++ f) false None t.
Proof.
  induction f as [|c f IH]; intros piece prev t Hf; simpl app.
  - by rewrite app_nil_r, split_prev.
  - apply List.Forall_cons_iff in Hf as [Hc Hf].
    rewrite split_loop_cons, rmatch_separator, run_cons, Hc.
    rewrite (IH _ _ _ Hf). by rewrite <- app_assoc.
Qed.

Lemma split_field f piece at_p prev t :
  f <> [] -> Forall nonSeparator f ->
  split_loop SwcParser.re_separator 0 piece at_p prev (f ++ t)
  = split_loop SwcParser.re_separator 0 (piece ++ f) false None t.
Proof.
  destruct f as [|c f]; [done|]. intros _ Hf.
  apply List.Forall_cons_iff in Hf as [Hc Hf]. simpl app.
  rewrite split_loop_cons, rmatch_separator, run_cons, Hc.
  rewrite (split_inside _ _ _ _ Hf). by rewrite <- app_assoc.
Qed.

Lemma split_sep s piece at_p prev t :
  s <> [] -> Forall separator s ->
  match t with [] => True | c :: _ => isSpaceOrComma c = false end ->
  split_loop SwcParser.re_separator 0 piece at_p prev (s ++ t)
  = piece :: split_loop SwcParser.re_separator 0 [] true None t.
Proof.
  destruct s as [|c s]; [done|]. intros _ Hs Ht.
  apply List.Forall_cons_iff in Hs as [Hc Hs]. simpl app.
  rewrite split_loop_cons, rmatch_separator, run_cons, Hc.
  rewrite (run_line isSpaceOrComma s t Hs Ht). by rewrite split_skip.
Qed.

Abbreviation wf_pair :=
  (fun sf : list ascii * list ascii =>
     (fst sf <> [] /\ Forall (fun c => isBlank c = true) (fst sf)) /\
     (snd sf <> [] /\ Forall (fun c => isField c = true) (snd sf))).

Lemma split_others os : forall piece,
  Forall wf_pair os ->
  split_loop SwcParser.re_separator 0 piece false None
    (concat (map (fun sf => fst sf ++ snd sf) os))
  = piece :: map snd os.
Proof.
  induction os as [|[s f] os IH]; intros piece Hos; [reflexivity|].
  apply List.Forall_cons_iff in Hos as [[[Hsne Hs] [Hfne Hf]] Hos]. simpl in *.
  assert (Hs' : Forall separator s).
  { eapply List.Forall_impl; [|exact Hs]. intros c Hc.
    by destruct (blank_facts _ Hc). }
  assert (Hf' : Forall nonSeparator f).
  { eapply List.Forall_impl; [|exact Hf]. intros c Hc.
    by destruct (field_facts _ Hc) as (_ & ? & _). }
  rewrite <- !app_assoc, split_sep; [|done|done|].
  - by rewrite (split_field f [] true None _ Hfne Hf'), IH.
  - destruct f as [|c f]; [done|]. simpl.
    by apply List.Forall_cons_iff in Hf' as [? _].
Qed.

Lemma split_row r :
  wf_row r = true ->
  split_regex SwcParser.re_separator (render_row r) = fields r.
Proof.
  intros H. apply wf_row_parts in H as [[Hne Hlead] Hothers].
  unfold render_row, fields.
  assert (Hl : Forall nonSeparator (lead r)).
  { eapply List.Forall_impl; [|exact Hlead]. intros c Hc.
    by destruct (field_facts _ Hc) as (_ & ? & _). }
  destruct (lead r) as [|c l] eqn:E; [done|].
  change (split_regex SwcParser.re_separator ((c :: l) ++ ?t))
    with (split_loop SwcParser.re_separator 0 [] true None ((c :: l) ++ t)).
  rewrite (split_field (c :: l) [] true None _ Hne Hl).
  by apply split_others.
Qed.

(** *** Arrays *)

Lemma trunc_snoc_Some {A} (l : array A) v : trunc (l ++ [Some v]) = l ++ [Some v].
Proof.
  induction l as [|x l IH]; [reflexivity|]. simpl. rewrite IH.
  destruct x; [done|]. by destruct l.
Qed.

Lemma trunc_snoc_None {A} (l : array A) : trunc (l ++ [None]) = trunc l.
Proof. induction l as [|x l IH]; [reflexivity|]. simpl. by rewrite IH. Qed.

Lemma trunc_length {A} (l : array A) : length (trunc l) <= length l.
Proof.
  induction l as [|x l IH]; [done|]. simpl.
  destruct x, (trunc l); simpl in *; lia.
Qed.

Lemma trunc_pad {A} (l : array A) :
  trunc l ++ replicate (length l - length (trunc l)) None = l.
Proof.
  induction l as [|x l IH]; [reflexivity|]. simpl.
  destruct x as [v|]; [simpl; by rewrite IH|].
  destruct (trunc l) as [|y t] eqn:E; simpl in *.
  - rewrite Nat.sub_0_r in IH. by rewrite IH.
  - by rewrite IH.
Qed.

Lemma array_set_trunc {A} (l : array A) v :
  array_set (length l) v (trunc l) = l ++ [Some v].
Proof.
  unfold array_set. pose proof (trunc_length l) as Hle.
  destruct (Nat.ltb_spec (length l) (length (trunc l))); [lia|].
  by rewrite app_assoc, trunc_pad.
Qed.

End FieldFacts.

(** ** [extractPoints] *)

Section ExtractFacts.
Variable parseFloat : string -> float.
Variable Math_round : float -> Z.

Lemma linesLoop_cons line lines i swcPoints :
  SwcParser.linesLoop parseFloat Math_round (line :: lines) i swcPoints
  = let row :=
      split_regex SwcParser.re_separator
        (remove_first true SwcParser.re_trailing None
           (remove_first true SwcParser.re_leading None line)) in
    SwcParser.linesLoop parseFloat Math_round lines (i + 1)
      (if 7 <=? length row then
         array_set i (rowPoint parseFloat Math_round row) swcPoints
       else swcPoints).
Proof. reflexivity. Qed.

Lemma linesLoop_rows rows : forall filled,
  Forall (fun r => wf_row r = true) rows ->
  SwcParser.linesLoop parseFloat Math_round (map render_row rows)
    (length filled) (trunc filled)
  = trunc (filled ++ map (slot parseFloat Math_round) rows).
Proof.
  induction rows as [|r rows IH]; intros filled Hrows.
  - simpl. by rewrite app_nil_r.
  - apply List.Forall_cons_iff in Hrows as [Hr Hrows].
    simpl map. rewrite linesLoop_cons. cbv zeta.
    rewrite (unspace_rowText _ (wf_row_text _ Hr)), (split_row _ Hr).
    replace (length filled + 1)
      with (length (filled ++ [slot parseFloat Math_round r]))
      by (rewrite length_app; reflexivity).
    replace (filled ++ slot parseFloat Math_round r :: map (slot parseFloat Math_round) rows)
      with ((filled ++ [slot parseFloat Math_round r])
            ++ map (slot parseFloat Math_round) rows)
      by (by rewrite <- app_assoc).
    rewrite <- (IH _ Hrows). f_equal. unfold slot.
    destruct (7 <=? length (fields r)).
    + by rewrite array_set_trunc, trunc_snoc_Some.
    + by rewrite trunc_snoc_None.
Qed.

Lemma rowsOf_wf doc :
  Forall (fun l => wf_line l = true) doc ->
  Forall (fun r => wf_row r = true) (rowsOf doc).
Proof.
  induction 1 as [|l doc Hl Hdoc IH]; [constructor|].
  destruct l as [gap text|r remark]; [exact IH|].
  constructor; [by eapply wf_line_row|exact IH].
Qed.

Lemma rows_text rows :
  Forall (fun r => wf_row r = true) rows -> Forall rowText (map render_row rows).
Proof.
  intros H. apply Forall_map. eapply List.Forall_impl; [|exact H].
  intros r. apply wf_row_text.
Qed.

Lemma uncomment_joinLines doc :
  Forall (fun l => wf_line l = true) doc ->
  trim (remove_all true SwcParser.re_comment 0 None
          (joinLines (map render_line doc)))
  = joinLines (map render_row (rowsOf doc)).
Proof.
  intros Hdoc. pose proof (rows_text _ (rowsOf_wf _ Hdoc)) as Hrows.
  destruct doc as [|l doc]; [reflexivity|].
  apply List.Forall_cons_iff in Hdoc as [Hl Hdoc].
  simpl map. simpl joinLines.
  rewrite (uncomment_line _ _ _ Hl (tailLines_starts _)), (uncomment_tail _ _ Hdoc).
  destruct l as [gap text|r remark].
  - simpl app. apply trim_tailLines. exact Hrows.
  - apply (trim_joinLines (render_row r :: map render_row (rowsOf doc))).
    exact Hrows.
Qed.

(** The array [extractPoints] makes of the text of a file. *)
Lemma extractPoints_doc doc :
  Forall (fun l => wf_line l = true) doc ->
  SwcParser.extractPoints parseFloat Math_round (render doc)
  = trunc (map (slot parseFloat Math_round) (rowsOf doc)).
Proof.
  intros Hdoc. pose proof (rowsOf_wf _ Hdoc) as Hwf.
  pose proof (rows_text _ Hwf) as Hrows.
  unfold SwcParser.extractPoints, render.
  rewrite list_ascii_of_string_of_list_ascii, (uncomment_joinLines _ Hdoc).
  rewrite (remove_all_quiet _ _ _ _ (tidy_quiet _ _ (tidy_joinLines _ Hrows))).
  destruct (rowsOf doc) as [|r rows]; [reflexivity|].
  change (map render_row (r :: rows)) with (render_row r :: map render_row rows) in *.
  rewrite split_char_joinLines.
  - apply (linesLoop_rows (r :: rows) [] Hwf).
  - eapply List.Forall_impl; [|exact Hrows]. apply rowText_line.
Qed.

End ExtractFacts.


(** ** What [extractPoints] makes of a file *)

Section ExtractPoints.
Variable parseFloat : string -> float.
Variable Math_round : float -> Z.

Lemma rowsOf_plain rows : rowsOf (plain rows) = rows.
Proof. induction rows as [|r rows IH]; [reflexivity|]. simpl. by rewrite IH. Qed.

Lemma plain_wf rows :
  Forall (fun r => wf_row r = true) rows ->
  Forall (fun l => wf_line l = true) (plain rows).
Proof. intros H. apply Forall_map. exact H. Qed.

Lemma trunc_filled {A} (l : list A) : trunc (map Some l) = map Some l.
Proof. induction l as [|x l IH]; [reflexivity|]. simpl. by rewrite IH. Qed.

(** The text of rows of fields, one row a line.  A row of seven fields
    or more fills the slot of its line with its point; a row of fewer
    fields leaves the slot of its line empty when a row of seven fields
    comes after it, and leaves nothing otherwise.  When every row has
    seven fields the array is the list of the points. *)
Theorem extractPoints_of_rows rows :
  Forall (fun r => wf_row r = true) rows ->
  SwcParser.extractPoints parseFloat Math_round (render (plain rows))
  = trunc (map (slot parseFloat Math_round) rows) /\
  (Forall (fun r => 7 <= length (fields r)) rows ->
   SwcParser.extractPoints parseFloat Math_round (render (plain rows))
   = map (fun r => Some (rowPoint parseFloat Math_round (fields r))) rows).
Proof.
  intros Hrows.
  assert (H : SwcParser.extractPoints parseFloat Math_round (render (plain rows))
              = trunc (map (slot parseFloat Math_round) rows)).
  { rewrite (extractPoints_doc _ _ _ (plain_wf _ Hrows)). by rewrite rowsOf_plain. }
  split; [exact H|]. intros Hseven. rewrite H.
  assert (Hs : map (slot parseFloat Math_round) rows
               = map Some (map (fun r => rowPoint parseFloat Math_round (fields r)) rows)).
  { rewrite map_map. apply map_ext_Forall.
    eapply List.Forall_impl; [|exact Hseven]. intros r Hr. cbv beta in Hr. unfold slot.
    destruct (Nat.leb_spec 7 (length (fields r))); [done|lia]. }
  by rewrite Hs, trunc_filled, map_map.
Qed.

(** Comments do not count: a file gives the array of points of its rows
    of fields, whatever the lines of comment before, between and after
    them, and whatever the remarks at the end of the rows. *)
Theorem extractPoints_ignores_comments doc :
  Forall (fun l => wf_line l = true) doc ->
  SwcParser.extractPoints parseFloat Math_round (render doc)
  = SwcParser.extractPoints parseFloat Math_round (render (plain (rowsOf doc))).
Proof.
  intros Hdoc. rewrite (extractPoints_doc _ _ _ Hdoc).
  rewrite (extractPoints_doc _ _ _ (plain_wf _ (rowsOf_wf _ Hdoc))).
  by rewrite rowsOf_plain.
Qed.

End ExtractPoints.

Lemma extractPoints_of_rows_witness :
  Forall (fun r => wf_row r = true) rowsWithShortOnes /\
  forall parseFloat Math_round,
    SwcParser.extractPoints parseFloat Math_round (render (plain rowsWithShortOnes))
    = [parsed parseFloat Math_round "1" "1" "0" "0" "0" "5" "-1"; None;
       parsed parseFloat Math_round "2" "2" "1" "0" "0" "1" "1"].
Proof.
  assert (H : Forall (fun r => wf_row r = true) rowsWithShortOnes)
    by (repeat constructor).
  split; [exact H|]. intros parseFloat Math_round.
  exact (proj1 (extractPoints_of_rows parseFloat Math_round rowsWithShortOnes H)).
Defined.

Lemma extractPoints_ignores_comments_witness :
  Forall (fun l => wf_line l = true) fileWithComments /\
  forall parseFloat Math_round,
    SwcParser.extractPoints parseFloat Math_round (render fileWithComments)
    = SwcParser.extractPoints parseFloat Math_round
        (render (plain (rowsOf fileWithComments))).
Proof.
  assert (H : Forall (fun l => wf_line l = true) fileWithComments)
    by (repeat constructor).
  split; [exact H|]. intros parseFloat Math_round.
  exact (extractPoints_ignores_comments parseFloat Math_round fileWithComments H).
Defined.

(** ** Points that name no parent *)

Section Unconnected.
Context {eng : engine}.
Import TreeNode TreeNodeCollection.

Lemma initLoop_unconnected points : forall nodes h soma,
  unconnected points ->
  exists nodes' h',
    initLoop points nodes h soma = Return (nodes', h', soma) /\
    (childless h -> childless h') /\
    (table_ok nodes h -> table_ok nodes' h').
Proof.
  induction points as [|slot points IH]; intros nodes h soma Hp.
  { exists nodes, h. by repeat split. }
  apply List.Forall_cons_iff in Hp as [(p & -> & Hpar) Hp].
  simpl. rewrite Hpar. simpl.
  destruct (IH (obj_set (Point.id p) (length h) nodes)
              (h ++ [TreeNode.new (Point.id p) (Point.type p) (Point.x p)
                       (Point.y p) (Point.z p) (Point.radius p)]) soma Hp)
    as (nodes' & h' & Hrun & Hch & Htab).
  exists nodes', h'. split; [exact Hrun|]. split.
  - intros Hh. apply Hch. apply Forall_app. split; [done|]. by repeat constructor.
  - intros Ht. apply Htab. by apply table_ok_set.
Qed.

Lemma obj_get_key {V} k (o : object V) :
  In k (map fst o) -> exists v, obj_get k o = Some v.
Proof.
  induction o as [|[k' v] o IH]; simpl; [done|].
  intros [<-|Hin].
  - rewrite Z.eqb_refl. by exists v.
  - destruct (Z.eqb k k'); [by exists v|by apply IH].
Qed.

Lemma Object_keys_own {V} k (o : object V) :
  In k (Object_keys o) -> exists v, obj_get k o = Some v.
Proof.
  unfold Object_keys. intros Hin. apply obj_get_key.
  apply in_app_or in Hin as [Hin|Hin].
  - assert (H : Forall (fun k => In k (map fst o))
                  (sort_keys (List.filter isArrayIndex (map fst o)))).
    { apply sort_keys_Forall, Forall_forall. intros x Hx.
      by apply filter_In in Hx as [? _]. }
    rewrite Forall_forall in H. by apply H.
  - by apply filter_In in Hin as [? _].
Qed.

Lemma findFirstValid_childless fuel h nodes ids :
  childless h -> table_ok nodes h ->
  (forall k, In k ids -> exists r, obj_get k nodes = Some r) ->
  findFirstValid fuel h nodes ids = Return None.
Proof.
  intros Hh Ht. induction ids as [|k ids IH]; intros Hids; [reflexivity|].
  destruct (Hids k (or_introl eq_refl)) as (r & Hr).
  simpl. rewrite Hr. simpl.
  destruct (lookup_lt_is_Some_2 h r (Ht _ _ Hr)) as (n & Hn).
  rewrite Hn. simpl.
  unfold childless in Hh. rewrite Forall_forall in Hh.
  destruct (Hh n) as [Hc Hs].
  { apply list_elem_of_In. by eapply list_elem_of_lookup_2. }
  rewrite (getNonSomaChildren_plain _ _ _ Hs), Hc. simpl.
  apply IH. intros k' Hk'. apply Hids. by right.
Qed.

(** Points that name no parent, among them the points of an empty
    file, give no section and no morphology; the parse returns and both
    its getters give [null]. *)
Theorem unconnected_points_give_no_morphology points fuel :
  unconnected points ->
  (exists c,
     TreeNodeCollection.new fuel points = Return c /\
     _rawSections c = None /\ getRawMorphology c = None /\
     getMorphology c = None) /\
  forall parseFloat Math_round this swcStr,
    SwcParser.extractPoints parseFloat Math_round swcStr = points ->
    SwcParser.parse parseFloat Math_round fuel this swcStr
    = (SwcParser.mk None None, Return tt).
Proof.
  intros Hp.
  destruct (initLoop_unconnected points [] [] [] Hp) as (nodes & h & Hrun & Hch & Htab).
  assert (Hnew : TreeNodeCollection.new fuel points
                 = Return (TreeNodeCollection.mk nodes h None None None None)).
  { unfold TreeNodeCollection.new, _initCollection.
    cbn [_nodes store _rawSoma _rawSections _rawMorphology _morphology].
    rewrite Hrun. simpl. unfold _buildSections.
    cbn [_nodes store _rawSoma _rawSections _rawMorphology _morphology].
    rewrite findFirstValid_childless.
    - reflexivity.
    - apply Hch. constructor.
    - apply Htab, table_ok_nil.
    - intros k Hk. by apply Object_keys_own. }
  split.
  - eexists. split; [exact Hnew|]. by repeat split.
  - intros parseFloat Math_round this swcStr Hx. unfold SwcParser.parse.
    by rewrite Hx, Hnew.
Qed.

End Unconnected.

Section UnconnectedWitness.
#[local] Existing Instance smallEngine.

Lemma unconnected_points_witness :
  unconnected [pt 1 1 (0, 0, 0) 5 (-1); pt 2 2 (1, 0, 0) 1 (-1)]%float /\
  (exists c,
     TreeNodeCollection.new 0
       [pt 1 1 (0, 0, 0) 5 (-1); pt 2 2 (1, 0, 0) 1 (-1)]%float = Return c /\
     TreeNodeCollection._rawSections c = None /\
     TreeNodeCollection.getRawMorphology c = None /\
     TreeNodeCollection.getMorphology c = None) /\
  forall parseFloat Math_round this swcStr,
    SwcParser.extractPoints parseFloat Math_round swcStr
    = [pt 1 1 (0, 0, 0) 5 (-1); pt 2 2 (1, 0, 0) 1 (-1)]%float ->
    SwcParser.parse parseFloat Math_round 0 this swcStr
    = (SwcParser.mk None None, Return tt).
Proof.
  assert (H : unconnected [pt 1 1 (0, 0, 0) 5 (-1); pt 2 2 (1, 0, 0) 1 (-1)]%float).
  { repeat constructor; eexists; (split; [reflexivity|reflexivity]). }
  split; [exact H|].
  exact (unconnected_points_give_no_morphology _ 0 H).
Defined.

End UnconnectedWitness.

(** ** The lists of children of the raw sections *)

Section Registry.
Context {eng : engine}.
Import TreeNode TreeNodeCollection.

Lemma indicesOf_app p a : forall b i,
  indicesOf p (a ++ b) i = indicesOf p a i ++ indicesOf p b (i + length a).
Proof.
  induction a as [|q a IH]; intros b i; simpl.
  - by rewrite Nat.add_0_r.
  - rewrite IH. replace (S i + length a) with (i + S (length a)) by lia.
    destruct q as [q'|]; [|done]. by destruct (q' =? p).
Qed.

Lemma indicesOf_none p parents : forall i,
  Forall (fun q => q <> Some p) parents -> indicesOf p parents i = [].
Proof.
  induction parents as [|q parents IH]; intros i H; [reflexivity|].
  apply List.Forall_cons_iff in H as [Hq H]. simpl.
  destruct q as [q'|]; [|by apply IH].
  destruct (Nat.eqb_spec q' p) as [->|_]; [done|by apply IH].
Qed.

Lemma map_parent_strip secs secs' :
  map strip secs' = map strip secs ->
  map RawSection.parent secs' = map RawSection.parent secs.
Proof.
  intros H.
  assert (Hs : forall l, map RawSection.parent l = map RawSection.parent (map strip l)).
  { intros l. rewrite map_map. reflexivity. }
  by rewrite (Hs secs'), (Hs secs), H.
Qed.

Lemma registerChild_cases par cur secs secs' :
  registerChild par cur secs = Return secs' ->
  (secs' = secs /\ (par = None \/ par = Some 0)) \/
  (exists p ps, par = Some (S p) /\ secs !! S p = Some ps /\
     secs' = <[S p := addChildId cur ps]> secs).
Proof.
  destruct par as [[|p]|]; simpl.
  - intros [= <-]. left. split; [done|by right].
  - unfold registerChild. simpl. intros H. inv_ret. subst. right.
    eexists _, _. by repeat split.
  - intros [= <-]. left. split; [done|by left].
Qed.

Lemma childrenOf_snoc secs s p :
  childrenOf (secs ++ [s]) p
  = childrenOf secs p
    ++ match RawSection.parent s with
       | Some q => if q =? p then [length secs] else []
       | None => []
       end.
Proof.
  unfold childrenOf. rewrite map_app, indicesOf_app, length_map. simpl.
  destruct (RawSection.parent s) as [q|]; [|done]. by destruct (q =? p).
Qed.

(** The invariant of the loop over the stack. *)
Lemma popping_registered fuel h : forall st secs,
  popping fuel h st = Return secs ->
  currentSectionId st = length (sections st) ->
  registered (sections st) -> parentsFirst (sections st) ->
  Forall (fun e => forall q, parentSectionId e = Some q -> q < length (sections st))
         (stack st) ->
  registered secs /\ parentsFirst secs.
Proof.
  induction fuel as [|fuel IH]; intros st secs Hrun Hcur Hreg Hpar Hstack;
    simpl in Hrun; [discriminate|].
  destruct (stack st) as [|[c par] rest] eqn:Hst.
  { inv_ret. by subst. }
  inv_ret.
  match goal with Hb : buildRawSection _ _ _ _ _ = Return ?x |- _ =>
    destruct x as [section st1]; rename Hb into Hbuild end.
  apply buildRawSection_Return in Hbuild
    as (cn & nodeList & ys & secs' & Hc & Hd & -> & Hregister & ->).
  simpl in *.
  pose proof (registerChild_Return _ _ _ _ Hregister) as [Hstrip Hlen].
  inv_ret. rewrite Hcur, <- Hlen, push_then_set in Hrun. rewrite Hlen in Hrun.
  apply List.Forall_cons_iff in Hstack as [Hq Hrest]. simpl in Hq.
  pose proof (map_parent_strip _ _ Hstrip) as Hparents.
  set (section := sectionOf h cn nodeList (length (sections st)) par) in *.
  assert (Hpar' : parentsFirst (secs' ++ [section])).
  { intros i s q Hs Hsq. apply lookup_app_Some in Hs as [Hs|[Hge Hs]].
    - assert (Hx : map RawSection.parent (sections st) !! i = Some (Some q)).
      { rewrite <- Hparents. change (map ?f ?l) with (f <$> l).
        by rewrite list_lookup_fmap, Hs, <- Hsq. }
      change (map ?f ?l) with (f <$> l) in Hx. rewrite list_lookup_fmap in Hx.
      destruct (sections st !! i) as [s0|] eqn:Hs0; [|discriminate].
      injection Hx as Hx. by eapply Hpar.
    - apply list_lookup_singleton_Some in Hs as [Hi <-].
      unfold section in Hsq. simpl in Hsq. specialize (Hq q Hsq). lia. }
  assert (Hco : forall p, childrenOf secs' p = childrenOf (sections st) p).
  { intros p. unfold childrenOf. by rewrite Hparents. }
  assert (Hreg' : registered (secs' ++ [section])).
  { intros p ps Hps. rewrite childrenOf_snoc, Hco, Hlen.
    change (RawSection.parent section) with par.
    apply lookup_app_Some in Hps as [Hps|[Hge Hps]].
    - apply registerChild_cases in Hregister
        as [[-> Hpar0]|(p0 & ps0 & -> & Hps0 & ->)].
      + rewrite (Hreg _ _ Hps). destruct p as [|p]; [done|].
        destruct Hpar0 as [-> | ->]; simpl; by rewrite app_nil_r.
      + destruct (decide (p = S p0)) as [->|Hne].
        * rewrite list_lookup_insert_eq in Hps by (by eapply lookup_lt_Some).
          injection Hps as <-. simpl. rewrite Nat.eqb_refl.
          by rewrite Hcur, (Hreg _ _ Hps0).
        * rewrite list_lookup_insert_ne in Hps by done.
          rewrite (Hreg _ _ Hps). destruct p as [|p]; [done|].
          destruct (Nat.eqb_spec (S p0) (S p)) as [Heq|_]; [congruence|].
          by rewrite app_nil_r.
    - apply list_lookup_singleton_Some in Hps as [Hi <-].
      assert (Hp : p = length (sections st)) by lia. subst p.
      unfold section at 1. simpl RawSection.children.
      destruct (length (sections st)) as [|n] eqn:Hn; [done|].
      rewrite <- Hn in *.
      assert (Hnone : childrenOf (sections st) (length (sections st)) = []).
      { unfold childrenOf. apply indicesOf_none, Forall_forall.
        intros q Hq' ->. apply list_elem_of_In in Hq'.
        apply list_elem_of_fmap in Hq' as (s & Hs & Hin).
        apply list_elem_of_lookup in Hin as (i & Hi').
        pose proof (Hpar _ _ _ Hi' (eq_sym Hs)) as Hlt.
        apply lookup_lt_Some in Hi'. lia. }
      rewrite Hnone. destruct par as [q|]; [|done].
      destruct (Nat.eqb_spec q (length (sections st))) as [->|_]; [|done].
      specialize (Hq _ eq_refl). lia. }
  eapply IH; [exact Hrun|simpl; rewrite length_app; simpl; lia|exact Hreg'|exact Hpar'|].
  simpl. rewrite length_app. simpl. unfold pushAll. apply Forall_app. split.
  - apply Forall_rev, Forall_map, Forall_forall. intros y _ q [= <-]. lia.
  - eapply List.Forall_impl; [|exact Hrest]. intros e He q Hq'.
    specialize (He q Hq'). lia.
Qed.

Lemma new_registered fuel points c secs :
  TreeNodeCollection.new fuel points = Return c ->
  _rawSections c = Some secs ->
  registered secs /\ parentsFirst secs.
Proof.
  intros Hnew Hsecs.
  destruct (new_sections _ _ _ _ Hnew Hsecs) as (f & fn & Hf & Hpop).
  eapply popping_registered; [exact Hpop|reflexivity| | |]; simpl.
  - intros p ps Hp. by rewrite lookup_nil in Hp.
  - intros i s q Hs. by rewrite lookup_nil in Hs.
  - apply Forall_rev, Forall_map, Forall_forall. by intros y _ q [=].
Qed.

(** The lists of children of the raw sections of a parse: the list of
    the section 0 is empty, whatever sections name it as their parent;
    the list of any other section holds the sections that name it as
    their parent, in the order of their ids.  A section names a parent
    that was built before it. *)
Theorem children_lists_of_raw_sections fuel points c secs :
  TreeNodeCollection.new fuel points = Return c ->
  _rawSections c = Some secs ->
  (forall p ps, secs !! p = Some ps ->
     RawSection.children ps
     = match p with 0 => [] | S _ => childrenOf secs p end) /\
  (forall i s q, secs !! i = Some s -> RawSection.parent s = Some q -> q < i).
Proof.
  intros Hnew Hsecs.
  destruct (new_registered _ _ _ _ Hnew Hsecs) as [Hreg Hpar].
  split; [exact Hreg|exact Hpar].
Qed.

End Registry.

Section RegistryWitness.
#[local] Existing Instance smallEngine.
Import TreeNode TreeNodeCollection.

Lemma children_lists_witness :
  exists c secs,
    TreeNodeCollection.new 20 twoForks = Return c /\
    _rawSections c = Some secs /\
    map RawSection.parent secs = [None; Some 0; Some 1; Some 1; Some 0] /\
    map RawSection.children secs = [[]; [2; 3]; []; []; []] /\
    (forall p ps, secs !! p = Some ps ->
       RawSection.children ps
       = match p with 0 => [] | S _ => childrenOf secs p end) /\
    (forall i s q, secs !! i = Some s -> RawSection.parent s = Some q -> q < i).
Proof.
  eexists _, _. split; [vm_compute; reflexivity|]. split; [reflexivity|].
  split; [reflexivity|]. split; [reflexivity|].
  eapply (children_lists_of_raw_sections 20 twoForks).
  - vm_compute. reflexivity.
  - reflexivity.
Defined.

End RegistryWitness.

(** ** The morphology of raw sections *)

Section MirrorFacts.
Context {eng : engine}.

Lemma idsFrom_cons off s l :
  idsFrom off (s :: l) -> RawSection.id s = off /\ idsFrom (S off) l.
Proof.
  intros H. split.
  - rewrite (H 0 s eq_refl). lia.
  - intros i x Hx. rewrite (H (S i) x Hx). lia.
Qed.

Lemma key_eqb a b : Z.eqb (Morphology.key a) (Morphology.key b) = (a =? b).
Proof.
  unfold Morphology.key.
  destruct (Nat.eqb_spec a b) as [->|Hne]; [apply Z.eqb_refl|].
  apply Z.eqb_neq. lia.
Qed.

Lemma obj_get_entries F l : forall off q,
  idsFrom off l ->
  obj_get (Morphology.key q) (entries F l)
  = if off <=? q then F <$> l !! (q - off) else None.
Proof.
  induction l as [|s l IH]; intros off q Hids.
  - simpl. by destruct (off <=? q).
  - apply idsFrom_cons in Hids as [Hs Hids]. simpl.
    rewrite Hs, key_eqb, (IH _ _ Hids).
    destruct (Nat.eqb_spec q off) as [->|Hne].
    + by rewrite Nat.leb_refl, Nat.sub_diag.
    + destruct (Nat.leb_spec off q), (Nat.leb_spec (S off) q); try lia; [|done].
      replace (q - off) with (S (q - S off)) by lia. reflexivity.
Qed.

Lemma obj_get_app {V} k (a b : object V) :
  obj_get k (a ++ b)
  = match obj_get k a with Some v => Some v | None => obj_get k b end.
Proof.
  induction a as [|[k' v] a IH]; simpl; [done|]. by destruct (Z.eqb k k').
Qed.

Lemma obj_set_app_r {V} k (v : V) (a b : object V) :
  obj_get k a = None -> obj_set k v (a ++ b) = a ++ obj_set k v b.
Proof.
  induction a as [|[k' v'] a IH]; simpl; [done|].
  destruct (Z.eqb k k'); [done|]. intros H. by rewrite IH.
Qed.

(** The sections stored while the list is walked: those of [pre] are
    linked, those of [rest] are not yet. *)
Lemma obj_get_stored F G pre rest q :
  idsFrom 0 (pre ++ rest) -> q < length (pre ++ rest) ->
  (forall s, MSection._id (F s) = RawSection.id s) ->
  (forall s, MSection._id (G s) = RawSection.id s) ->
  exists x, obj_get (Morphology.key q) (entries F pre ++ entries G rest) = Some x
            /\ MSection._id x = q.
Proof.
  intros Hids Hq HF HG.
  assert (Hpre : idsFrom 0 pre).
  { intros i s Hs. apply Hids. by apply lookup_app_l_Some. }
  assert (Hrest : idsFrom (length pre) rest).
  { intros i s Hs. rewrite (Hids (length pre + i) s); [lia|].
    rewrite lookup_app_r by lia. by replace (length pre + i - length pre) with i by lia. }
  rewrite obj_get_app, (obj_get_entries _ _ _ _ Hpre), (obj_get_entries _ _ _ _ Hrest).
  simpl. rewrite Nat.sub_0_r.
  destruct (pre !! q) as [s|] eqn:Hs; simpl.
  - exists (F s). split; [done|]. rewrite HF. by rewrite (Hpre _ _ Hs).
  - apply lookup_ge_None in Hs.
    destruct (Nat.leb_spec (length pre) q); [|lia].
    rewrite length_app in Hq.
    destruct (lookup_lt_is_Some_2 rest (q - length pre) ltac:(lia)) as (s & Hs').
    rewrite Hs'. simpl. exists (G s). split; [done|].
    rewrite HG, (Hrest _ _ Hs'). lia.
Qed.

Lemma initSections_entries rest : forall pre,
  idsFrom 0 (pre ++ rest) ->
  Morphology.initSections rest (entries MSection.initWithRawSection pre)
  = entries MSection.initWithRawSection (pre ++ rest).
Proof.
  unfold Morphology.initSections.
  induction rest as [|s rest IH]; intros pre Hids; simpl.
  - by rewrite app_nil_r.
  - assert (Hpre : idsFrom 0 pre).
    { intros i x Hx. apply Hids. by apply lookup_app_l_Some. }
    assert (Hs : RawSection.id s = length pre).
    { rewrite (Hids (length pre) s); [lia|].
      by rewrite lookup_app_r, Nat.sub_diag by lia. }
    assert (Hnone : obj_get (Morphology.key (length pre))
                      (entries MSection.initWithRawSection pre) = None).
    { rewrite (obj_get_entries _ _ _ _ Hpre). simpl. rewrite Nat.sub_0_r.
      by rewrite (lookup_ge_None_2 pre (length pre)) by lia. }
    change (MSection.getId (MSection.initWithRawSection s)) with (RawSection.id s).
    rewrite Hs.
    replace (obj_set _ _ _)
      with (entries MSection.initWithRawSection (pre ++ [s])).
    + rewrite IH by (by rewrite <- app_assoc). by rewrite <- app_assoc.
    + pose proof (obj_set_app_r (Morphology.key (length pre))
                    (MSection.initWithRawSection s)
                    (entries MSection.initWithRawSection pre) [] Hnone) as Hx.
      rewrite app_nil_r in Hx. rewrite Hx. unfold entries.
      rewrite map_app. simpl. by rewrite Hs.
Qed.

Lemma hasChild_false cur sc :
  MSection._id sc ∉ MSection._children cur -> MSection.hasChild cur sc = false.
Proof.
  unfold MSection.hasChild, MSection.getId. intros H.
  induction (MSection._children cur) as [|c cs IH]; [reflexivity|].
  apply not_elem_of_cons in H as [Hne H]. simpl.
  destruct (Nat.eqb_spec c (MSection._id sc)); [congruence|]. by apply IH.
Qed.

Lemma addChildren_fresh o cs : forall cur,
  (forall c, c ∈ cs ->
     exists sc, obj_get (Morphology.key c) o = Some sc /\ MSection._id sc = c) ->
  Forall (fun c => c <> MSection._id cur) cs ->
  NoDup (MSection._children cur ++ cs) ->
  Morphology.addChildren o cur cs
  = Return (with_children (MSection._children cur ++ cs) cur).
Proof.
  induction cs as [|c cs IH]; intros cur Hget Hne Hnd.
  - simpl. rewrite app_nil_r. by destruct cur.
  - destruct (Hget c) as (sc & Hsc & Hid); [by left|].
    apply List.Forall_cons_iff in Hne as [Hc Hne].
    simpl. rewrite Hsc. unfold MSection.addChild. simpl.
    unfold MSection.getId. rewrite Hid.
    destruct (Nat.eqb_spec c (MSection._id cur)) as [|_]; [done|]. simpl.
    rewrite hasChild_false.
    + change (mret ?x ≫= ?k) with (k x). cbv beta. rewrite IH.
      * simpl. by rewrite <- app_assoc.
      * intros c' Hc'. apply Hget. by right.
      * exact Hne.
      * simpl. by rewrite <- app_assoc.
    + rewrite Hid. apply list.NoDup_app in Hnd as (_ & Hdisj & _).
      intros Hin. apply (Hdisj c Hin). by left.
Qed.

Lemma linkSections_entries raws :
  wellNumbered raws ->
  forall rest pre, pre ++ rest = raws ->
    Morphology.linkSections rest
      (entries mirror pre ++ entries MSection.initWithRawSection rest)
    = Return (entries mirror raws).
Proof.
  intros Hwf.
  assert (Hids : idsFrom 0 raws).
  { intros i s Hs. by destruct (Hwf i s Hs) as [-> _]. }
  induction rest as [|s rest IH]; intros pre Hraws.
  { simpl. rewrite !app_nil_r in *. by subst. }
  assert (Hlook : raws !! length pre = Some s).
  { rewrite <- Hraws. by rewrite lookup_app_r, Nat.sub_diag by lia. }
  destruct (Hwf _ _ Hlook) as (Hid & Hparent & Hchildren & Hnd).
  assert (Hpre : idsFrom 0 pre).
  { intros i x Hx. apply Hids. rewrite <- Hraws. by apply lookup_app_l_Some. }
  assert (Hnone : obj_get (Morphology.key (length pre)) (entries mirror pre) = None).
  { rewrite (obj_get_entries _ _ _ _ Hpre). simpl. rewrite Nat.sub_0_r.
    by rewrite (lookup_ge_None_2 pre (length pre)) by lia. }
  assert (Hstored : forall q, q < length raws ->
            exists x, obj_get (Morphology.key q)
                        (entries mirror pre
                         ++ entries MSection.initWithRawSection (s :: rest)) = Some x
                      /\ MSection._id x = q).
  { intros q Hq. apply obj_get_stored; try done; by rewrite Hraws. }
  set (o := entries mirror pre ++ entries MSection.initWithRawSection (s :: rest)) in *.
  simpl Morphology.linkSections. rewrite Hid.
  assert (Hcur : obj_get (Morphology.key (length pre)) o
                 = Some (MSection.initWithRawSection s)).
  { unfold o. rewrite obj_get_app, Hnone. simpl. by rewrite Hid, Z.eqb_refl. }
  rewrite Hcur. simpl.
  set (linked := match RawSection.parent s with
                 | Some p => MSection.setParent (MSection.initWithRawSection s)
                               (obj_get (Morphology.key p) o)
                 | None => MSection.initWithRawSection s
                 end).
  assert (Hlinked : linked = with_children [] (mirror s)).
  { unfold linked. destruct (RawSection.parent s) as [q|] eqn:Hq;
      [|unfold with_children, mirror; simpl; by rewrite Hq].
    destruct (Hparent q eq_refl) as [Hlt Hne].
    destruct (Hstored q Hlt) as (x & -> & Hx). simpl.
    unfold MSection.getId. rewrite Hx, Hid.
    destruct (Nat.eqb_spec q (length pre)); [done|]. simpl.
    unfold MSection.with_parent, with_children, mirror. simpl.
    by rewrite Hq. }
  rewrite Hlinked.
  rewrite (addChildren_fresh o (RawSection.children s) (with_children [] (mirror s))).
  - simpl.
    replace (with_children (RawSection.children s) (with_children [] (mirror s)))
      with (mirror s) by reflexivity.
    unfold o. rewrite (obj_set_app_r _ _ _ _ Hnone). simpl.
    rewrite Hid, Z.eqb_refl.
    specialize (IH (pre ++ [s])). rewrite <- app_assoc in IH.
    specialize (IH Hraws). unfold entries in IH |- *.
    rewrite map_app, <- app_assoc in IH. simpl in IH. rewrite Hid in IH. exact IH.
  - intros c Hc. rewrite Forall_forall in Hchildren.
    apply list_elem_of_In in Hc. destruct (Hchildren c Hc) as [Hlt _].
    by apply Hstored.
  - eapply List.Forall_impl; [|exact Hchildren]. intros c [_ Hc]. simpl. lia.
  - exact Hnd.
Qed.

Lemma build_entries raws soma :
  wellNumbered raws ->
  Morphology.buildFromRawMorphology Morphology.new
    (RawMorphology.mk soma (Some raws))
  = Return (Morphology.mk (entries mirror raws)
              (Soma.initWithRawSection Soma.new <$> soma)).
Proof.
  intros Hwf. unfold Morphology.buildFromRawMorphology. simpl.
  assert (Hids : idsFrom 0 raws).
  { intros i s Hs. by destruct (Hwf i s Hs) as [-> _]. }
  assert (Hinit : forall o, o = [] ->
            Morphology.initSections raws o
            = entries MSection.initWithRawSection raws).
  { intros o ->. exact (initSections_entries raws [] Hids). }
  assert (Hlink : Morphology.linkSections raws
                    (entries MSection.initWithRawSection raws)
                  = Return (entries mirror raws)).
  { exact (linkSections_entries raws Hwf raws [] eq_refl). }
  destruct soma as [rawSoma|]; simpl; rewrite (Hinit [] eq_refl), Hlink; reflexivity.
Qed.

End MirrorFacts.

Section KeyFacts.
Context {eng : engine}.

Lemma keys_entries F l : forall off,
  idsFrom off l ->
  map fst (entries F l) = map Z.of_nat (seq off (length l)).
Proof.
  induction l as [|s l IH]; intros off Hids; [reflexivity|].
  apply idsFrom_cons in Hids as [Hs Hids]. simpl.
  rewrite (IH _ Hids). unfold Morphology.key. by rewrite Hs.
Qed.

Lemma filter_none {A} (p : A -> bool) l :
  Forall (fun x => p x = false) l -> List.filter p l = [].
Proof.
  induction 1 as [|x l Hx Hl IH]; [reflexivity|]. simpl. by rewrite Hx.
Qed.

Lemma filter_all {A} (p : A -> bool) l :
  Forall (fun x => p x = true) l -> List.filter p l = l.
Proof.
  induction 1 as [|x l Hx Hl IH]; [reflexivity|]. simpl. by rewrite Hx, IH.
Qed.

Lemma seq_above a n : Forall (fun k => (Z.of_nat a <= k)%Z) (map Z.of_nat (seq a n)).
Proof.
  apply Forall_map, Forall_forall. intros x Hx. apply in_seq in Hx. simpl. lia.
Qed.

(** The names that are numbers counting up are listed as they are. *)
Lemma keys_counting n : forall a,
  sort_keys (List.filter isArrayIndex (map Z.of_nat (seq a n)))
  ++ List.filter (fun k => negb (isArrayIndex k)) (map Z.of_nat (seq a n))
  = map Z.of_nat (seq a n).
Proof.
  induction n as [|n IH]; intros a; [reflexivity|].
  simpl seq. simpl map. simpl List.filter.
  pose proof (seq_above (S a) n) as Habove.
  destruct (isArrayIndex (Z.of_nat a)) eqn:Ha; simpl negb; cbv iota.
  - unfold sort_keys. simpl foldr. fold (sort_keys (List.filter isArrayIndex
                                          (map Z.of_nat (seq (S a) n)))).
    rewrite insert_sorted_least.
    + simpl. by rewrite IH.
    + apply sort_keys_Forall, Forall_forall. intros x Hx.
      apply filter_In in Hx as [Hx _].
      rewrite Forall_forall in Habove. specialize (Habove x Hx). lia.
  - assert (Hbig : Forall (fun k => isArrayIndex k = false)
                     (map Z.of_nat (seq (S a) n))).
    { eapply List.Forall_impl; [|exact Habove]. intros k Hk. simpl in Hk.
      unfold isArrayIndex in *. apply andb_false_iff in Ha.
      apply andb_false_iff. right. apply Z.ltb_ge.
      destruct Ha as [Ha|Ha]; [apply Z.leb_gt in Ha; lia|apply Z.ltb_ge in Ha; lia]. }
    rewrite (filter_none _ _ Hbig). simpl. f_equal. apply filter_all.
    eapply List.Forall_impl; [|exact Hbig]. intros k Hk. simpl. by rewrite Hk.
Qed.

Lemma Object_keys_entries F raws :
  idsFrom 0 raws ->
  Object_keys (entries F raws) = map Z.of_nat (seq 0 (length raws)).
Proof.
  intros Hids. unfold Object_keys. rewrite (keys_entries _ _ _ Hids).
  apply keys_counting.
Qed.

Lemma wf_entries F raws : idsFrom 0 raws -> wf_object (entries F raws).
Proof.
  intros Hids. unfold wf_object. rewrite (keys_entries _ _ _ Hids).
  change (map Z.of_nat ?l) with (Z.of_nat <$> l).
  apply NoDup_fmap_2; [apply _|]. apply NoDup_ListNoDup, seq_NoDup.
Qed.

Lemma omap_get {V} (o : object V) :
  wf_object o ->
  forall l, (forall kv, kv ∈ l -> kv ∈ o) ->
    omap (fun k => obj_get k o) (map fst l) = map snd l.
Proof.
  intros Hwf. induction l as [|[k v] l IH]; intros Hl; [reflexivity|].
  simpl. rewrite (obj_get_elem_of k v o Hwf) by (apply Hl; by left).
  f_equal. apply IH. intros kv Hkv. apply Hl. by right.
Qed.

Lemma Object_values_entries F raws :
  idsFrom 0 raws -> Object_values (entries F raws) = map F raws.
Proof.
  intros Hids. unfold Object_values.
  rewrite (Object_keys_entries _ _ Hids), <- (keys_entries F _ _ Hids).
  rewrite (omap_get _ (wf_entries F _ Hids)) by done.
  unfold entries. rewrite map_map. reflexivity.
Qed.

Lemma getSection_entries F raws soma i :
  idsFrom 0 raws ->
  Morphology.getSection (Morphology.mk (entries F raws) soma) (Z.of_nat i)
  = F <$> raws !! i.
Proof.
  intros Hids. unfold Morphology.getSection, obj_in. simpl.
  pose proof (obj_get_entries F raws 0 i Hids) as H.
  unfold Morphology.key in H. rewrite H. simpl. rewrite Nat.sub_0_r.
  by destruct (raws !! i).
Qed.

Lemma wellNumbered_ids raws : wellNumbered raws -> idsFrom 0 raws.
Proof. intros Hwf i s Hs. by destruct (Hwf i s Hs) as [-> _]. Qed.

End KeyFacts.

Section MirrorTheorems.
Context {eng : engine}.
Import TreeNode TreeNodeCollection.

(** A morphology built from raw sections that are well numbered holds
    one section for each raw section, with its id, its parent, its
    children, its type and its points; [getArrayOfSections] lists them
    in the order of the raw sections and [getSection] gives the section
    of an id, [null] for a number that is no id.  The soma is that of
    the raw morphology, [null] when it has none. *)
Theorem morphology_mirrors_raw_sections raws soma :
  wellNumbered raws ->
  exists m,
    Morphology.buildFromRawMorphology Morphology.new
      (RawMorphology.mk soma (Some raws)) = Return m /\
    Morphology.getArrayOfSections m = map mirror raws /\
    (forall i, Morphology.getSection m (Z.of_nat i) = mirror <$> raws !! i) /\
    Morphology.getSoma m = Soma.initWithRawSection Soma.new <$> soma.
Proof.
  intros Hwf. pose proof (wellNumbered_ids _ Hwf) as Hids.
  eexists. split; [by apply build_entries|]. split; [|split].
  - by apply Object_values_entries.
  - intros i. by apply getSection_entries.
  - reflexivity.
Qed.

(** [getNumberOfSections] gives the list of the ids of the sections,
    not their number. *)
Theorem getNumberOfSections_lists_the_ids raws soma :
  wellNumbered raws ->
  exists m,
    Morphology.buildFromRawMorphology Morphology.new
      (RawMorphology.mk soma (Some raws)) = Return m /\
    Morphology.getNumberOfSections m = map Z.of_nat (seq 0 (length raws)).
Proof.
  intros Hwf. pose proof (wellNumbered_ids _ Hwf) as Hids.
  eexists. split; [by apply build_entries|].
  by apply Object_keys_entries.
Qed.

Lemma filter_mirror raws :
  List.filter
    (fun s => match MSection.getParent s with Some _ => false | None => true end)
    (map mirror raws)
  = map mirror (List.filter orphan raws).
Proof.
  induction raws as [|s raws IH]; [reflexivity|]. simpl. unfold orphan at 1.
  destruct (RawSection.parent s); simpl; by rewrite IH.
Qed.

(** The orphan sections of a morphology built from raw sections that
    are well numbered are the sections of the raw sections without a
    parent, in their order: on the first call, and on any call that
    forces the search. *)
Theorem orphan_sections_have_no_parent raws soma :
  wellNumbered raws ->
  exists m,
    Morphology.buildFromRawMorphology Morphology.new
      (RawMorphology.mk soma (Some raws)) = Return m /\
    (forall force,
       snd (Morphology.getOrphanSections m [] force)
       = map mirror (List.filter orphan raws)) /\
    (forall sp,
       snd (Morphology.getOrphanSections m sp true)
       = map mirror (List.filter orphan raws)).
Proof.
  intros Hwf. pose proof (wellNumbered_ids _ Hwf) as Hids.
  eexists. split; [by apply build_entries|].
  unfold Morphology.getOrphanSections, Morphology._findSpecialSection. simpl.
  split.
  - intros force. rewrite (Object_values_entries _ _ Hids), filter_mirror.
    by destruct force.
  - intros sp. rewrite (Object_values_entries _ _ Hids), filter_mirror.
    reflexivity.
Qed.

(** *** The raw sections of a parse are well numbered *)

Lemma indicesOf_elem p parents : forall i c,
  In c (indicesOf p parents i) ->
  i <= c /\ parents !! (c - i) = Some (Some p).
Proof.
  induction parents as [|q parents IH]; intros i c Hin; simpl in *; [done|].
  assert (Hrec : In c (indicesOf p parents (S i)) ->
                 i <= c /\ (q :: parents) !! (c - i) = Some (Some p)).
  { intros H. destruct (IH _ _ H) as [Hr Hl]. split; [lia|].
    replace (c - i) with (S (c - S i)) by lia. done. }
  destruct q as [q'|]; [|by apply Hrec].
  destruct (Nat.eqb_spec q' p) as [->|]; [|by apply Hrec].
  destruct Hin as [<-|Hin]; [|by apply Hrec].
  split; [lia|]. by rewrite Nat.sub_diag.
Qed.

Lemma indicesOf_NoDup p parents : forall i, NoDup (indicesOf p parents i).
Proof.
  induction parents as [|q parents IH]; intros i; simpl; [constructor|].
  destruct q as [q'|]; [|apply IH]. destruct (q' =? p); [|apply IH].
  constructor; [|apply IH]. intros Hin. apply list_elem_of_In in Hin.
  apply indicesOf_elem in Hin as [Hle _]. lia.
Qed.

Lemma new_ids fuel points c secs :
  TreeNodeCollection.new fuel points = Return c ->
  _rawSections c = Some secs -> idsFrom 0 secs.
Proof.
  intros H Hsecs.
  destruct (new_sections _ _ _ _ H Hsecs) as (f & fn & Hf & Hpop).
  apply popping_Forest in Hpop as (l & HF & Hl); [|done].
  simpl in *. subst l. intros i s Hs.
  assert (Hi : map strip secs !! i = Some (strip s)).
  { change (map strip secs) with (strip <$> secs).
    by rewrite list_lookup_fmap, Hs. }
  apply (Forest_ids _ _ _ _ HF) in Hi. simpl in Hi. done.
Qed.

Lemma new_wellNumbered fuel points c secs :
  TreeNodeCollection.new fuel points = Return c ->
  _rawSections c = Some secs -> wellNumbered secs.
Proof.
  intros Hnew Hsecs.
  pose proof (new_ids _ _ _ _ Hnew Hsecs) as Hids.
  destruct (new_registered _ _ _ _ Hnew Hsecs) as [Hreg Hpar].
  intros i s Hs. pose proof (lookup_lt_Some _ _ _ Hs) as Hi.
  split; [by rewrite (Hids _ _ Hs)|]. split.
  { intros q Hq. pose proof (Hpar _ _ _ Hs Hq). lia. }
  rewrite (Hreg _ _ Hs). destruct i as [|i]; [split; constructor|].
  split; [|apply indicesOf_NoDup].
  apply Forall_forall. intros x Hx. unfold childrenOf in Hx.
  apply indicesOf_elem in Hx as [_ Hx]. rewrite Nat.sub_0_r in Hx.
  change (map ?f ?l) with (f <$> l) in Hx. rewrite list_lookup_fmap in Hx.
  destruct (secs !! x) as [sx|] eqn:Hsx; [|discriminate].
  injection Hx as Hx. pose proof (Hpar _ _ _ Hsx Hx).
  apply lookup_lt_Some in Hsx. lia.
Qed.

(** The morphology of a parse holds one section for each raw section,
    with its id, its parent, its children, its type and its points, in
    the order of the raw sections; it has no soma.  Its orphan sections
    are the sections of the raw sections without a parent. *)
Theorem parsed_morphology_mirrors_raw_sections fuel points c secs :
  TreeNodeCollection.new fuel points = Return c ->
  _rawSections c = Some secs ->
  exists m,
    getMorphology c = Some m /\
    getRawMorphology c = Some (RawMorphology.mk None (Some secs)) /\
    Morphology.getArrayOfSections m = map mirror secs /\
    (forall i, Morphology.getSection m (Z.of_nat i) = mirror <$> secs !! i) /\
    (forall force,
       snd (Morphology.getOrphanSections m [] force)
       = map mirror (List.filter orphan secs)).
Proof.
  intros Hnew Hsecs.
  pose proof (new_wellNumbered _ _ _ _ Hnew Hsecs) as Hwf.
  pose proof (wellNumbered_ids _ Hwf) as Hids.
  apply new_Return in Hnew as (_ & _ & [(_ & Hn & _)|H]).
  { rewrite Hn in Hsecs. discriminate. }
  destruct H as (f & ch & secs' & m & _ & _ & _ & Hs & Hraw & Hbuild & Hm).
  rewrite Hs in Hsecs. injection Hsecs as ->.
  rewrite (build_entries _ None Hwf) in Hbuild. injection Hbuild as <-.
  eexists. split; [exact Hm|]. split; [exact Hraw|]. split; [|split].
  - by apply Object_values_entries.
  - intros i. by apply getSection_entries.
  - intros force.
    unfold Morphology.getOrphanSections, Morphology._findSpecialSection. simpl.
    rewrite (Object_values_entries _ _ Hids), filter_mirror. by destruct force.
Qed.

End MirrorTheorems.

Section MirrorWitnesses.
#[local] Existing Instance smallEngine.
Import TreeNode TreeNodeCollection.

Lemma threeRaw_wellNumbered : wellNumbered threeRaw.
Proof.
  intros i s Hs. destruct i as [|[|[|i]]]; simpl in Hs; try discriminate;
    injection Hs as <-; simpl.
  - split; [done|]. split; [by intros q [=]|]. split.
    + repeat constructor; lia.
    + apply NoDup_cons_2; [|apply NoDup_singleton].
      intros H. apply list_elem_of_singleton in H. discriminate.
  - split; [done|]. split; [intros q [= <-]; lia|]. split; constructor.
  - split; [done|]. split; [intros q [= <-]; lia|]. split; constructor.
Defined.

Lemma morphology_mirrors_witness :
  exists m,
    Morphology.buildFromRawMorphology Morphology.new
      (RawMorphology.mk None (Some threeRaw)) = Return m /\
    Morphology.getArrayOfSections m = map mirror threeRaw /\
    (forall i, Morphology.getSection m (Z.of_nat i) = mirror <$> threeRaw !! i) /\
    Morphology.getSoma m = Soma.initWithRawSection Soma.new <$> None.
Proof.
  exact (morphology_mirrors_raw_sections threeRaw None threeRaw_wellNumbered).
Defined.

Lemma getNumberOfSections_witness :
  exists m,
    Morphology.buildFromRawMorphology Morphology.new
      (RawMorphology.mk None (Some threeRaw)) = Return m /\
    Morphology.getNumberOfSections m = [0; 1; 2]%Z.
Proof.
  exact (getNumberOfSections_lists_the_ids threeRaw None threeRaw_wellNumbered).
Defined.

Lemma orphan_sections_witness :
  exists m,
    Morphology.buildFromRawMorphology Morphology.new
      (RawMorphology.mk None (Some threeRaw)) = Return m /\
    (forall force,
       snd (Morphology.getOrphanSections m [] force)
       = map mirror (List.filter orphan threeRaw)) /\
    (forall sp,
       snd (Morphology.getOrphanSections m sp true)
       = map mirror (List.filter orphan threeRaw)).
Proof.
  exact (orphan_sections_have_no_parent threeRaw None threeRaw_wellNumbered).
Defined.

Lemma parsed_morphology_witness :
  exists c secs,
    TreeNodeCollection.new 20 twoForks = Return c /\
    _rawSections c = Some secs /\
    exists m,
      getMorphology c = Some m /\
      getRawMorphology c = Some (RawMorphology.mk None (Some secs)) /\
      Morphology.getArrayOfSections m = map mirror secs /\
      (forall i, Morphology.getSection m (Z.of_nat i) = mirror <$> secs !! i) /\
      (forall force,
         snd (Morphology.getOrphanSections m [] force)
         = map mirror (List.filter orphan secs)).
Proof.
  eexists _, _. split; [vm_compute; reflexivity|]. split; [reflexivity|].
  eapply (parsed_morphology_mirrors_raw_sections 20 twoForks).
  - vm_compute. reflexivity.
  - reflexivity.
Defined.

End MirrorWitnesses.

(** ** morphologycorejs: the soma and the sections *)

Section SomaFacts.

(** The center of a soma is [null] exactly when the soma has no point;
    the center of a soma of one point, added by [addPoint] or read from
    a raw soma, is that point. *)
Theorem soma_center_is_null_without_points :
  (forall s, Soma.getCenter s = None <-> Soma.getPoints s = []) /\
  (forall x y z, Soma.getCenter (Soma.addPoint Soma.new x y z) = Some (x, y, z)) /\
  (forall raw p, RawSoma.points raw = [p] ->
     Soma.getCenter (Soma.initWithRawSection Soma.new raw) = Some p
     /\ Soma.getRadius (Soma.initWithRawSection Soma.new raw)
        = Some (RawSoma.radius raw)).
Proof.
  split; [|split].
  - intros s. unfold Soma.getCenter, Soma.getPoints.
    destruct (Soma._points s) as [|p [|q l]]; simpl; split; done.
  - reflexivity.
  - intros raw p Hp. unfold Soma.getCenter. simpl. by rewrite Hp.
Qed.

End SomaFacts.

Section SectionFacts.

Lemma TYPEVALUE_2_TYPENAME_Some v n :
  MSection.TYPEVALUE_2_TYPENAME v = Some n -> MSection.TYPENAME_2_TYPEVALUE n = Some v.
Proof.
  destruct v as [|p|p]; simpl; try discriminate.
  - by intros [= <-].
  - do 3 (try (destruct p as [p|p|]; simpl; try discriminate));
      by intros [= <-].
Qed.

Lemma TYPENAME_2_TYPEVALUE_Some n v :
  MSection.TYPENAME_2_TYPEVALUE n = Some v -> MSection.TYPEVALUE_2_TYPENAME v = Some n.
Proof.
  unfold MSection.TYPENAME_2_TYPEVALUE.
  repeat match goal with
    | |- context [String.eqb n ?x] =>
        destruct (String.eqb_spec n x) as [->|_]; [by intros [= <-]|]
    end.
  discriminate.
Qed.

(** The table of the names and the table of the values are inverse of
    each other.  A raw section that has a value from 1 to 5 and no name
    gets the name of its value, which the table of the names maps back
    to the value; a raw section of value 0 ([undefined]) without a name
    gets neither a value nor a name. *)
Theorem type_tables_are_inverse :
  (forall n v, MSection.TYPENAME_2_TYPEVALUE n = Some v
               <-> MSection.TYPEVALUE_2_TYPENAME v = Some n) /\
  (forall raw, RawSection.typename raw = None ->
     (1 <= RawSection.typevalue raw <= 5)%Z ->
     exists n,
       MSection.getTypename (MSection.initWithRawSection raw) = Some n /\
       MSection.getTypevalue (MSection.initWithRawSection raw)
       = Some (RawSection.typevalue raw) /\
       MSection.TYPENAME_2_TYPEVALUE n = Some (RawSection.typevalue raw)) /\
  (forall raw, RawSection.typename raw = None ->
     RawSection.typevalue raw = 0%Z ->
     MSection.getTypename (MSection.initWithRawSection raw) = None /\
     MSection.getTypevalue (MSection.initWithRawSection raw) = None).
Proof.
  split; [|split].
  - intros n v. split;
      [apply TYPENAME_2_TYPEVALUE_Some|apply TYPEVALUE_2_TYPENAME_Some].
  - intros raw Hn Hv.
    unfold MSection.getTypename, MSection.getTypevalue, MSection.initWithRawSection.
    simpl. rewrite Hn. simpl.
    assert (Htv : MSection.truthy_value (RawSection.typevalue raw) = true).
    { unfold MSection.truthy_value. apply negb_true_iff, Z.eqb_neq. lia. }
    rewrite Htv.
    assert (Hname : exists n, MSection.TYPEVALUE_2_TYPENAME (RawSection.typevalue raw)
                              = Some n).
    { assert (Hc : (RawSection.typevalue raw = 1 \/ RawSection.typevalue raw = 2 \/
                    RawSection.typevalue raw = 3 \/ RawSection.typevalue raw = 4 \/
                    RawSection.typevalue raw = 5)%Z) by lia.
      destruct Hc as [-> | [-> | [-> | [-> | ->]]]]; eexists; reflexivity. }
    destruct Hname as (n & Hname). exists n. rewrite Hname.
    split; [done|]. split; [done|]. by apply TYPEVALUE_2_TYPENAME_Some.
  - intros raw Hn Hv.
    unfold MSection.getTypename, MSection.getTypevalue, MSection.initWithRawSection.
    simpl. by rewrite Hn, Hv.
Qed.

(** *** Children *)

Lemma hasChild_elem this sec :
  MSection.hasChild this sec = true <-> MSection.getId sec ∈ MSection._children this.
Proof.
  unfold MSection.hasChild. rewrite existsb_exists. split.
  - intros (c & Hin & Hc). apply Nat.eqb_eq in Hc as <-. by apply list_elem_of_In.
  - intros Hin. exists (MSection.getId sec). split; [by apply list_elem_of_In|].
    apply Nat.eqb_refl.
Qed.

(** [addChild] keeps the children of a section apart: the section is
    never its own child and no child is listed twice; a section with
    another id is a child afterwards, and adding it once more changes
    nothing.  [setParent] never makes a section its own parent. *)
Theorem addChild_keeps_children_apart this sec :
  childrenApart this ->
  exists this',
    MSection.addChild this (Some sec) = Return this' /\
    childrenApart this' /\
    (MSection.getId sec <> MSection.getId this ->
     MSection.getId sec ∈ MSection.getChildren this') /\
    MSection.addChild this' (Some sec) = Return this' /\
    (MSection.getParent this <> Some (MSection.getId this) ->
     MSection.getParent (MSection.setParent this (Some sec))
     <> Some (MSection.getId this)).
Proof.
  intros [Hnd Hself]. unfold MSection.addChild, MSection.getId, MSection.getChildren.
  simpl.
  assert (Hparent : MSection.getParent this <> Some (MSection._id this) ->
            MSection.getParent (MSection.setParent this (Some sec))
            <> Some (MSection._id this)).
  { unfold MSection.setParent, MSection.getId, MSection.getParent. intros H.
    destruct (Nat.eqb_spec (MSection._id sec) (MSection._id this)); simpl; [done|].
    congruence. }
  destruct (Nat.eqb_spec (MSection._id sec) (MSection._id this)) as [Heq|Hne]; simpl.
  { exists this. repeat split; try done. simpl.
    by destruct (Nat.eqb_spec (MSection._id sec) (MSection._id this)). }
  destruct (MSection.hasChild this sec) eqn:Hhas.
  - exists this. split; [done|]. split; [done|]. split.
    + intros _. by apply hasChild_elem.
    + split; [|done]. simpl.
      destruct (Nat.eqb_spec (MSection._id sec) (MSection._id this)); [done|].
      simpl. by rewrite Hhas.
  - assert (Hnot : MSection._id sec ∉ MSection._children this).
    { intros Hin. apply hasChild_elem in Hin. congruence. }
    exists (MSection.with_child (MSection._id sec) this).
    split; [done|]. split; [|split; [|split; [|done]]].
    + split; simpl.
      * apply list.NoDup_app. split; [done|]. split; [|apply NoDup_singleton].
        intros x Hx Hx'. apply list_elem_of_singleton in Hx' as ->. done.
      * intros Hin. apply elem_of_app in Hin as [Hin|Hin]; [done|].
        apply list_elem_of_singleton in Hin. congruence.
    + intros _. simpl. apply elem_of_app. right. by apply list_elem_of_singleton.
    + simpl.
      destruct (Nat.eqb_spec (MSection._id sec) (MSection._id this)); [done|].
      simpl.
      assert (Hhas' : MSection.hasChild
                        (MSection.with_child (MSection._id sec) this) sec = true).
      { apply hasChild_elem. simpl. apply elem_of_app. right.
        by apply list_elem_of_singleton. }
      by rewrite Hhas'.
Qed.

(** *** Points and size *)

Lemma sizeLoop_cons a b l sum :
  MSection.sizeLoop (a :: b :: l) sum
  = MSection.sizeLoop (b :: l) (PrimFloat.add sum (MSection.segment a b)).
Proof. reflexivity. Qed.

Lemma sizeLoop_snoc l : forall p q sum,
  MSection.sizeLoop ((l ++ [p]) ++ [q]) sum
  = PrimFloat.add (MSection.sizeLoop (l ++ [p]) sum) (MSection.segment p q).
Proof.
  induction l as [|a l IH]; intros p q sum; [reflexivity|].
  specialize (IH p q (PrimFloat.add sum (MSection.segment a
                        (match l ++ [p] with b :: _ => b | [] => a end)))).
  change (((a :: l) ++ [p]) ++ [q]) with (a :: (l ++ [p]) ++ [q]).
  change ((a :: l) ++ [p]) with (a :: (l ++ [p])).
  destruct (l ++ [p]) as [|b l'] eqn:E; [by destruct l|].
  change ((b :: l') ++ [q]) with (b :: l' ++ [q]) in *.
  rewrite !sizeLoop_cons. exact IH.
Qed.

(** On a section read from a raw section, to which points may have been
    added since, [addPoint] adds a point and its radius, 1 when none is
    given; the size of the section grows by the length of the segment
    from the point that was the last one to the new point, and does not
    change when the section had no point. *)
Theorem addPoint_adds_a_segment raw more x y z r :
  MSection.getPoints
    (MSection.addPoint (addPoints (MSection.initWithRawSection raw) more) x y z r)
  = MSection.getPoints (addPoints (MSection.initWithRawSection raw) more)
    ++ [(x, y, z)] /\
  MSection.getRadiuses
    (MSection.addPoint (addPoints (MSection.initWithRawSection raw) more) x y z r)
  = MSection.getRadiuses (addPoints (MSection.initWithRawSection raw) more)
    ++ [default 1%float r] /\
  MSection.getSize
    (MSection.addPoint (addPoints (MSection.initWithRawSection raw) more) x y z r)
  = match list.last
            (MSection.getPoints (addPoints (MSection.initWithRawSection raw) more))
    with
    | Some p =>
        PrimFloat.add
          (MSection.getSize (addPoints (MSection.initWithRawSection raw) more))
          (MSection.segment p (x, y, z))
    | None => MSection.getSize (addPoints (MSection.initWithRawSection raw) more)
    end.
Proof.
  generalize (addPoints (MSection.initWithRawSection raw) more). intros s.
  split; [done|]. split; [done|].
  unfold MSection.getSize, MSection.getPoints. simpl.
  destruct (MSection._points s) as [|p l _] using rev_ind; [reflexivity|].
  rewrite last_snoc. apply sizeLoop_snoc.
Qed.

Lemma addPoints_lengths more : forall s,
  length (MSection.getPoints (addPoints s more))
  = length (MSection.getPoints s) + length more /\
  length (MSection.getRadiuses (addPoints s more))
  = length (MSection.getRadiuses s) + length more.
Proof.
  induction more as [|[[[x y] z] r] more IH]; intros s; simpl.
  - by rewrite !Nat.add_0_r.
  - destruct (IH (MSection.addPoint s x y z r)) as [-> ->].
    unfold MSection.getPoints, MSection.getRadiuses. simpl.
    rewrite !length_app. simpl. lia.
Qed.

(** A section read from a raw section has as many radiuses as points,
    and [addPoint] keeps it so. *)
Theorem a_radius_for_each_point raw more :
  length (MSection.getRadiuses (addPoints (MSection.initWithRawSection raw) more))
  = length (MSection.getPoints (addPoints (MSection.initWithRawSection raw) more))
  /\ length (MSection.getPoints (addPoints (MSection.initWithRawSection raw) more))
     = length (RawSection.points raw) + length more.
Proof.
  destruct (addPoints_lengths more (MSection.initWithRawSection raw)) as [-> ->].
  unfold MSection.getPoints, MSection.getRadiuses. simpl.
  by rewrite !length_map.
Qed.

End SectionFacts.

Lemma addChild_witness :
  childrenApart sectionWithChildren /\
  exists this',
    MSection.addChild sectionWithChildren (Some sectionThree) = Return this' /\
    childrenApart this' /\
    (MSection.getId sectionThree <> MSection.getId sectionWithChildren ->
     MSection.getId sectionThree ∈ MSection.getChildren this') /\
    MSection.addChild this' (Some sectionThree) = Return this' /\
    (MSection.getParent sectionWithChildren
       <> Some (MSection.getId sectionWithChildren) ->
     MSection.getParent (MSection.setParent sectionWithChildren (Some sectionThree))
     <> Some (MSection.getId sectionWithChildren)).
Proof.
  assert (H : childrenApart sectionWithChildren).
  { split; simpl.
    - apply NoDup_cons_2; [|apply NoDup_singleton].
      intros H. apply list_elem_of_singleton in H. discriminate.
    - intros H. apply elem_of_cons in H as [H|H]; [discriminate|].
      apply list_elem_of_singleton in H. discriminate. }
  split; [exact H|].
  exact (addChild_keeps_children_apart sectionWithChildren sectionThree H).
Defined.

(** ** What a section is made of *)

Section SectionNodes.
Context {eng : engine}.
Import TreeNode TreeNodeCollection.

(** A dive walks nodes of one type, and ends at a node that has no
    child, one child of another type, or two children or more: the
    children it yields are none, or two or more. *)
Lemma dive_path fuel h : forall room this nl nl' ys tn0,
  dive room fuel h this nl = Return (nl', ys) ->
  h !! this = Some tn0 ->
  exists path,
    nl' = nl ++ path /\ path <> [] /\
    Forall (fun r => exists n, h !! r = Some n /\ getType n = getType tn0) path /\
    length ys <> 1.
Proof.
  induction room as [|room IH]; intros this nl nl' ys tn0;
    [by rewrite dive_O|rewrite dive_S].
  intros H Htn0. inv_ret.
  match goal with Hc : getNonSomaChildren _ _ _ = _ |- _ =>
    apply getNonSomaChildren_Return in Hc; subst end.
  match goal with Ht : h !! this = Some ?x |- _ =>
    rewrite Htn0 in Ht; injection Ht as <- end.
  assert (Hthis : Forall (fun r => exists n, h !! r = Some n /\ getType n = getType tn0)
                    [this]).
  { constructor; [by exists tn0|constructor]. }
  destruct (_children tn0) as [|c [|c' cs]] eqn:Hch.
  - inv_ret. injection H as <- <-. exists [this]. by repeat split.
  - inv_ret.
    match goal with Hc : h !! c = Some ?x |- _ => rename x into cn; rename Hc into Hcn end.
    destruct (Z.eqb_spec (getType cn) (_type tn0)) as [Heq|Hne].
    + destruct (IH _ _ _ _ _ H Hcn) as (path & -> & Hne & Hall & Hys).
      exists (this :: path). rewrite <- app_assoc. split; [done|]. split; [done|].
      split; [|done]. constructor; [by exists tn0|].
      eapply List.Forall_impl; [|exact Hall]. intros r (n & Hn & Ht).
      exists n. split; [done|]. unfold getType in *. congruence.
    + inv_ret. injection H as <- <-. exists [this]. by repeat split.
  - inv_ret. injection H as <- <-. exists [this]. by repeat split.
Qed.

Lemma nodesOf_valid h (P : TreeNode.t -> Prop) l :
  Forall (fun r => exists n, h !! r = Some n /\ P n) l ->
  Forall (fun n => n ∈ h /\ P n) (nodesOf h l) /\
  length (nodesOf h l) = length l.
Proof.
  induction 1 as [|r l (n & Hn & HP) Hl [IH1 IH2]]; [by split; [constructor|]|].
  rewrite (nodesOf_cons _ _ _ _ Hn). split.
  - constructor; [|done]. split; [by eapply list_elem_of_lookup_2|done].
  - simpl. by rewrite IH2.
Qed.

Lemma Forest_madeOf h f fn :
  store_ok h -> h !! f = Some fn ->
  forall es next l,
    Forest h es next l ->
    Forall (fun e => exists r n, h !! r = Some n /\ node e ∈ _children n /\
                       (parentSectionId e = None -> r = f)) es ->
    Forall (madeOf h fn) l.
Proof.
  intros Hok Hf es next l HF.
  induction HF as [next|c par es next cn fuel nodeList ys below after
                     Hc Hd Hbelow IHbelow Hafter IHafter]; intros Hes.
  { constructor. }
  apply List.Forall_cons_iff in Hes as [(r & n & Hr & Hin & Hroot) Hes].
  simpl in Hin, Hroot.
  destruct (ok_child _ Hok _ _ _ Hr Hin) as (_ & cn' & Hc' & Hpar).
  rewrite Hc in Hc'. injection Hc' as <-.
  pose proof (dive_Return _ _ _ _ _ _ _ Hd) as (path' & t & tn & _ & Ht & Hys).
  destruct (dive_path _ _ _ _ _ _ _ _ Hd Hc) as (path & -> & Hne & Hall & _).
  unfold seed, getParent in *. rewrite Hpar in *.
  destruct (nodesOf_valid h _ _ Hall) as [Hns Hlen].
  constructor; [|apply Forall_app; split].
  - exists n, (nodesOf h path). split; [by eapply list_elem_of_lookup_2|].
    split; [intros E; rewrite E in Hlen; by destruct path|].
    split; [exact Hns|]. split.
    + unfold sectionOf. simpl. by rewrite Hr.
    + simpl. intros ->. rewrite (Hroot eq_refl) in Hr. rewrite Hf in Hr.
      by injection Hr as <-.
  - apply IHbelow. unfold spawned.
    apply Forall_rev, Forall_map, Forall_forall. intros y Hy. simpl.
    destruct Hys as [-> | ->]; [destruct Hy|].
    exists t, tn. split; [done|]. split; [by apply list_elem_of_In|done].
  - by apply IHafter.
Qed.

Lemma madeOf_strip h fn s : madeOf h fn (strip s) -> madeOf h fn s.
Proof. intros H. exact H. Qed.

(** Every raw section of a parse is made of the point of the node
    above its starting node, then of the points of one or more nodes of
    one type, the type of the section: it has two points or more, and
    but for the first they are of one type.  The sections without a
    parent all start at one node, with the radius 0. *)
Theorem sections_are_made_of_nodes_of_one_type fuel points c secs :
  TreeNodeCollection.new fuel points = Return c ->
  _rawSections c = Some secs ->
  exists root, root ∈ store c /\
    Forall (fun s => madeOf (store c) root s /\ 2 <= length (RawSection.points s))
           secs.
Proof.
  intros Hnew Hsecs.
  destruct (new_sections _ _ _ _ Hnew Hsecs) as (f & fn & Hf & Hpop).
  exists fn. split; [by eapply list_elem_of_lookup_2|].
  destruct (popping_Forest _ _ _ _ Hpop eq_refl) as (l & HF & Hl).
  simpl in HF, Hl. subst l.
  assert (Hes : Forall (fun e => exists r n, store c !! r = Some n /\
                          node e ∈ _children n /\
                          (parentSectionId e = None -> r = f))
                  (rev (map (fun n => mkEntry n None) (_children fn)))).
  { apply Forall_rev, Forall_map, Forall_forall. intros y Hy. simpl.
    exists f, fn. split; [done|]. split; [by apply list_elem_of_In|done]. }
  pose proof (Forest_madeOf _ f fn (new_store_ok _ _ _ Hnew) Hf _ _ _ HF Hes) as H.
  apply (proj1 (List.Forall_map strip (madeOf (store c) fn) secs)) in H.
  eapply List.Forall_impl; [|exact H]. intros s Hs. simpl in Hs.
  apply madeOf_strip in Hs. split; [exact Hs|].
  destruct Hs as (above & ns & _ & Hne & _ & -> & _).
  destruct ns as [|n ns]; [done|].
  destruct (RawSection.parent s); simpl; lia.
Qed.

(** *** Forks *)

Lemma entriesBelow_app p a b :
  entriesBelow p (a ++ b) = entriesBelow p a + entriesBelow p b.
Proof. unfold entriesBelow. by rewrite filter_app, length_app. Qed.

Lemma entriesBelow_spawned p ys next :
  entriesBelow p (spawned ys next) = if next =? p then length ys else 0.
Proof.
  unfold entriesBelow, spawned. rewrite <- map_rev.
  induction (rev ys) as [|y l IH] eqn:E in ys |- *.
  - simpl. assert (ys = []) as ->; [|by destruct (next =? p)].
    apply (f_equal (@rev _)) in E. by rewrite rev_involutive in E.
  - assert (Hlen : length ys = S (length l)).
    { rewrite <- (length_rev ys), E. reflexivity. }
    simpl. specialize (IH (rev l) (rev_involutive l)).
    rewrite length_rev in IH.
    destruct (next =? p); simpl; rewrite IH; lia.
Qed.

Lemma indicesOf_length p l : forall i j,
  length (indicesOf p l i) = length (indicesOf p l j).
Proof.
  induction l as [|q l IH]; intros i j; [reflexivity|]. simpl.
  destruct q as [q'|]; [|apply IH].
  destruct (q' =? p); simpl; by rewrite (IH (S i) (S j)).
Qed.

Lemma childrenOf_app a b p :
  length (childrenOf (a ++ b) p) = length (childrenOf a p) + length (childrenOf b p).
Proof.
  unfold childrenOf. rewrite map_app, indicesOf_app, length_app. f_equal.
  apply indicesOf_length.
Qed.

Lemma childrenOf_cons s l p :
  length (childrenOf (s :: l) p)
  = (match RawSection.parent s with
     | Some q => if q =? p then 1 else 0
     | None => 0
     end) + length (childrenOf l p).
Proof.
  change (s :: l) with ([s] ++ l). rewrite childrenOf_app. f_equal.
  unfold childrenOf. simpl. destruct (RawSection.parent s) as [q|]; [|done].
  by destruct (q =? p).
Qed.

(** The number of sections that name a section as their parent, along
    the order of the sections. *)
Lemma Forest_forks h : forall es next l,
  Forest h es next l ->
  Forall (fun e => forall q, parentSectionId e = Some q -> q < next) es ->
  (forall p, p < next -> length (childrenOf l p) = entriesBelow p es) /\
  (forall p, next <= p -> length (childrenOf l p) <> 1) /\
  (forall p, next + length l <= p -> length (childrenOf l p) = 0).
Proof.
  intros es next l HF.
  induction HF as [next|c par es next cn fuel nodeList ys below after
                     Hc Hd Hbelow IHbelow Hafter IHafter]; intros Hes.
  { by repeat split. }
  apply List.Forall_cons_iff in Hes as [Hpar Hes]. simpl in Hpar.
  destruct (dive_path _ _ _ _ _ _ _ _ Hd Hc) as (_ & _ & _ & _ & Hys).
  destruct IHbelow as (Hb1 & Hb2 & Hb3).
  { unfold spawned. apply Forall_rev, Forall_map, Forall_forall.
    intros y _ q [= <-]. lia. }
  destruct IHafter as (Ha1 & Ha2 & Ha3).
  { eapply List.Forall_impl; [|exact Hes]. intros e He q Hq.
    specialize (He q Hq). lia. }
  assert (Hes0 : forall p, next <= p -> entriesBelow p es = 0).
  { intros p Hp. unfold entriesBelow.
    rewrite (filter_none _ es); [done|].
    eapply List.Forall_impl; [|exact Hes]. intros e He. simpl in He.
    destruct (parentSectionId e) as [q|]; [|done].
    specialize (He q eq_refl). apply Nat.eqb_neq. lia. }
  assert (Hhead : forall p,
            match RawSection.parent (sectionOf h cn nodeList next par) with
            | Some q => if q =? p then 1 else 0
            | None => 0
            end
            = entriesBelow p [mkEntry c par]).
  { intros p. unfold entriesBelow. simpl. destruct par as [q|]; [|done].
    by destruct (q =? p). }
  assert (Hhead0 : forall p, next <= p -> entriesBelow p [mkEntry c par] = 0).
  { intros p Hp. unfold entriesBelow. simpl. destruct par as [q|]; [|done].
    specialize (Hpar q eq_refl). destruct (Nat.eqb_spec q p); [lia|done]. }
  split; [|split].
  - intros p Hp. rewrite childrenOf_cons, childrenOf_app, Hhead.
    rewrite (Hb1 p ltac:(lia)), entriesBelow_spawned, (Ha1 p ltac:(lia)).
    destruct (Nat.eqb_spec next p); [lia|].
    change (mkEntry c par :: es) with ([mkEntry c par] ++ es).
    rewrite entriesBelow_app. lia.
  - intros p Hp. rewrite childrenOf_cons, childrenOf_app, Hhead, (Hhead0 p Hp).
    destruct (Nat.lt_ge_cases p (S next + length below)) as [Hlt|Hge].
    + rewrite (Ha1 p Hlt), (Hes0 p Hp).
      destruct (Nat.eq_dec p next) as [->|Hne].
      * rewrite (Hb1 next ltac:(lia)), entriesBelow_spawned, Nat.eqb_refl. lia.
      * pose proof (Hb2 p ltac:(lia)). lia.
    + rewrite (Hb3 p ltac:(lia)). pose proof (Ha2 p Hge). lia.
  - intros p Hp. simpl in Hp. rewrite length_app in Hp.
    rewrite childrenOf_cons, childrenOf_app, Hhead, (Hhead0 p ltac:(lia)).
    rewrite (Hb3 p ltac:(lia)), (Ha3 p ltac:(lia)). lia.
Qed.

Lemma childrenOf_strip secs p : childrenOf (map strip secs) p = childrenOf secs p.
Proof. unfold childrenOf. by rewrite map_map. Qed.


End SectionNodes.

Section SectionNodesWitnesses.
#[local] Existing Instance smallEngine.
Import TreeNode TreeNodeCollection.

Lemma sections_are_made_of_nodes_witness :
  exists c secs,
    TreeNodeCollection.new 20 twoForks = Return c /\
    _rawSections c = Some secs /\
    exists root, root ∈ store c /\
      Forall (fun s => madeOf (store c) root s /\ 2 <= length (RawSection.points s))
             secs.
Proof.
  eexists _, _. split; [vm_compute; reflexivity|]. split; [reflexivity|].
  eapply (sections_are_made_of_nodes_of_one_type 20 twoForks).
  - vm_compute. reflexivity.
  - reflexivity.
Defined.


End SectionNodesWitnesses.

(** ** The nodes [_initCollection] makes of the points *)

Section Collected.
Context {eng : engine}.
Import TreeNode TreeNodeCollection.

Lemma lastFrom_snoc ps : forall i p k found,
  lastFrom i (ps ++ [p]) k found
  = if Z.eqb (Point.id p) k then Some (i + length ps) else lastFrom i ps k found.
Proof.
  induction ps as [|q ps IH]; intros i p k found; simpl.
  - by rewrite Nat.add_0_r.
  - rewrite IH. by replace (S i + length ps) with (i + S (length ps)) by lia.
Qed.

Lemma lastWithId_snoc ps p k :
  lastWithId (ps ++ [p]) k
  = if Z.eqb (Point.id p) k then Some (length ps) else lastWithId ps k.
Proof. unfold lastWithId. by rewrite lastFrom_snoc. Qed.

Lemma obj_get_set {V} k k' (v : V) o :
  obj_get k (obj_set k' v o) = if Z.eqb k' k then Some v else obj_get k o.
Proof.
  destruct (Z.eqb_spec k' k) as [->|Hne].
  - apply obj_get_set_eq.
  - by apply obj_get_set_ne.
Qed.

Lemma parentOf_snoc pre p i q :
  i < length pre -> parentOf (pre ++ [p]) i q = parentOf pre i q.
Proof.
  intros Hi. unfold parentOf. by rewrite take_app_le by lia.
Qed.

Lemma core_push_child c soma n : core (push_child c soma n) = core n.
Proof. reflexivity. Qed.

Lemma id_push_child c soma n : _id (push_child c soma n) = _id n.
Proof. reflexivity. Qed.

Lemma addChild_lookup h p a i :
  exists n', (_addChild h p a) !! i = n' /\
    core <$> n' = core <$> h !! i /\ _id <$> n' = _id <$> h !! i.
Proof.
  unfold _addChild.
  destruct (h !! p) as [tn|] eqn:Hp; [|by eexists].
  destruct (h !! a) as [cn|] eqn:Ha; [|by eexists].
  destruct (doesAlreadyHaveChild h tn cn); [by eexists|].
  eexists. split; [reflexivity|].
  destruct (decide (i = p)) as [->|Hne].
  - rewrite list_lookup_insert_eq by (by eapply lookup_lt_Some). by rewrite Hp.
  - by rewrite list_lookup_insert_ne.
Qed.

Lemma idOf_addChild h p a c : idOf (_addChild h p a) c = idOf h c.
Proof.
  unfold idOf. by destruct (addChild_lookup h p a c) as (n' & -> & _ & ->).
Qed.

Lemma idOf_alter h x a c : idOf (alter (set_parent x) a h) c = idOf h c.
Proof.
  unfold idOf. destruct (decide (c = a)) as [->|Hne].
  - rewrite list_lookup_alter_eq. by destruct (h !! a).
  - by rewrite list_lookup_alter_ne.
Qed.

Lemma omap_ext_in {A B} (f g : A -> option B) (l : list A) :
  (forall c, c ∈ l -> f c = g c) -> omap f l = omap g l.
Proof.
  induction l as [|c cs IH]; intros H; [reflexivity|].
  change (omap f (c :: cs))
    with (match f c with Some y => y :: omap f cs | None => omap f cs end).
  change (omap g (c :: cs))
    with (match g c with Some y => y :: omap g cs | None => omap g cs end).
  rewrite (H c) by (by left). rewrite IH; [done|].
  intros c' Hc'. apply H. by right.
Qed.

Lemma childIds_ext h h' n :
  (forall c, c ∈ _children n -> idOf h' c = idOf h c) ->
  childIds h' n = childIds h n.
Proof. intros H. unfold childIds. by apply omap_ext_in. Qed.

Lemma doesAlreadyHaveChild_false h tn cn :
  doesAlreadyHaveChild h tn cn = false -> _id cn ∉ childIds h tn.
Proof.
  unfold doesAlreadyHaveChild, childIds, getId.
  induction (_children tn) as [|c cs IH]; simpl; [intros _; apply not_elem_of_nil|].
  intros H. apply orb_false_iff in H as [Hc H].
  destruct (idOf h c) as [i|]; [|by apply IH].
  apply not_elem_of_cons. split; [|by apply IH].
  apply Z.eqb_neq in Hc. congruence.
Qed.

(** Linking a child keeps the ids of the children of a node apart. *)
Lemma addChild_ids h p a :
  (forall r n, h !! r = Some n -> NoDup (childIds h n)) ->
  forall r n, (_addChild h p a) !! r = Some n -> NoDup (childIds (_addChild h p a) n).
Proof.
  intros Hh r n Hr.
  rewrite (childIds_ext h) by (intros; apply idOf_addChild).
  revert Hr. unfold _addChild.
  destruct (h !! p) as [tn|] eqn:Hp; [|by apply Hh].
  destruct (h !! a) as [cn|] eqn:Ha; [|by apply Hh].
  destruct (doesAlreadyHaveChild h tn cn) eqn:Hhas; [by apply Hh|].
  destruct (decide (r = p)) as [->|Hne].
  - rewrite list_lookup_insert_eq by (by eapply lookup_lt_Some).
    intros [= <-]. unfold childIds. simpl. rewrite omap_app. simpl.
    unfold idOf at 2. rewrite Ha. simpl.
    apply list.NoDup_app. split; [by eapply Hh|]. split; [|apply NoDup_singleton].
    intros x Hx Hx'. apply list_elem_of_singleton in Hx' as ->.
    by apply (doesAlreadyHaveChild_false _ _ _ Hhas).
  - rewrite list_lookup_insert_ne by done. by apply Hh.
Qed.

Lemma alter_ids h x a :
  (forall r n, h !! r = Some n -> NoDup (childIds h n)) ->
  forall r n, alter (set_parent x) a h !! r = Some n ->
    NoDup (childIds (alter (set_parent x) a h) n).
Proof.
  intros Hh r n Hr.
  rewrite (childIds_ext h) by (intros; apply idOf_alter).
  destruct (decide (r = a)) as [->|Hne].
  - rewrite list_lookup_alter_eq in Hr.
    destruct (h !! a) as [an|] eqn:Ha; [|discriminate].
    injection Hr as <-. by apply (Hh a an).
  - rewrite list_lookup_alter_ne in Hr by done. by apply (Hh r).
Qed.

Lemma new_ids_apart h nn :
  store_ok h -> _children nn = [] ->
  (forall r n, h !! r = Some n -> NoDup (childIds h n)) ->
  forall r n, (h ++ [nn]) !! r = Some n -> NoDup (childIds (h ++ [nn]) n).
Proof.
  intros Hok Hnn Hh r n Hr. apply lookup_app_Some in Hr as [Hr|[_ Hr]].
  - rewrite (childIds_ext h); [by eapply Hh|].
    intros c Hc. destruct (ok_child _ Hok _ _ _ Hr Hc) as (_ & cn & Hcn & _).
    unfold idOf. by rewrite (lookup_app_l_Some _ _ _ _ Hcn), Hcn.
  - apply list_lookup_singleton_Some in Hr as [_ <-].
    unfold childIds. rewrite Hnn. constructor.
Qed.

(** The invariant of the loop of [_initCollection]. *)
Lemma initLoop_collected rest : forall pre nodes h soma nodes' h' soma',
  initLoop (map Some rest) nodes h soma = Return (nodes', h', soma') ->
  collected pre nodes h -> table_ok nodes h ->
  collected (pre ++ rest) nodes' h'.
Proof.
  induction rest as [|p rest IH]; intros pre nodes h soma nodes' h' soma' Hrun Hc Ht.
  { simpl in Hrun. inv_ret. injection Hrun as <- <- <-. by rewrite app_nil_r. }
  destruct Hc as [Hlen Htab Hcore Hok Hids].
  simpl in Hrun.
  set (nn := TreeNode.new _ _ _ _ _ _) in *.
  set (a := length h) in *.
  assert (Hok1 : store_ok (h ++ [nn])) by (by apply store_ok_new).
  assert (Ht1 : table_ok (obj_set (Point.id p) a nodes) (h ++ [nn]))
    by (by apply table_ok_set).
  assert (Ha : (h ++ [nn]) !! a = Some nn).
  { rewrite lookup_app_r by (unfold a; lia).
    replace (a - length h) with 0 by (unfold a; lia). done. }
  assert (Htab1 : forall k, obj_get k (obj_set (Point.id p) a nodes)
                            = lastWithId (pre ++ [p]) k).
  { intros k. by rewrite obj_get_set, lastWithId_snoc, Htab, Hlen. }
  assert (Hold : forall i q, pre !! i = Some q ->
            core <$> (h ++ [nn]) !! i = Some (nodeOf (pre ++ [p]) i q)).
  { intros i q Hq. pose proof (lookup_lt_Some _ _ _ Hq) as Hi.
    rewrite lookup_app_l by lia. rewrite (Hcore _ _ Hq).
    unfold nodeOf. by rewrite parentOf_snoc. }
  assert (Hids1 : forall r n, (h ++ [nn]) !! r = Some n ->
            NoDup (childIds (h ++ [nn]) n)) by (by apply new_ids_apart).
  replace (pre ++ p :: rest) with ((pre ++ [p]) ++ rest) by (by rewrite <- app_assoc).
  destruct (Z.eqb_spec (Point.parentId p) (-1)) as [Hroot|Hroot].
  { eapply IH; [exact Hrun| |exact Ht1]. split; try done.
    - rewrite !length_app. simpl. lia.
    - intros i q Hq. apply lookup_app_Some in Hq as [Hq|[Hge Hq]]; [by apply Hold|].
      apply list_lookup_singleton_Some in Hq as [Hi <-].
      assert (i = a) as -> by (unfold a; lia). rewrite Ha. simpl.
      unfold core, nodeOf, parentOf. simpl. rewrite Hroot. reflexivity. }
  inv_ret.
  match goal with Hs : setParent _ _ _ = _ |- _ => rename Hs into Hset end.
  unfold setParent in Hset. inv_ret.
  match goal with Hs : obj_get _ _ = Some ?x |- _ => rename x into pr; rename Hs into Hpr end.
  subst.
  assert (Hpa : pr <= a).
  { apply Ht1 in Hpr. rewrite length_app in Hpr. simpl in Hpr. unfold a. lia. }
  rewrite Hpr in Hrun.
  match type of Hrun with initLoop _ _ ?hh _ = _ => set (h3 := hh) in * end.
  assert (Hok3 : store_ok h3).
  { unfold h3. eapply store_ok_link; try done.
    - intros r n Hr Hin.
      destruct (ok_child _ Hok1 _ _ _ Hr Hin) as (_ & cn & Hcn & Hpc).
      rewrite Ha in Hcn. injection Hcn as <-. done.
    - intros r n Hr. rewrite length_app. simpl.
      destruct (decide (r < length h)) as [Hlt|Hge].
      + rewrite lookup_app_l in Hr by done. apply (ok_len _ Hok) in Hr. lia.
      + rewrite lookup_app_r in Hr by lia.
        apply list_lookup_singleton_Some in Hr as [_ <-]. simpl. lia. }
  assert (Hlen3 : length h3 = length (h ++ [nn])).
  { unfold h3. rewrite length_addChild. apply length_alter. }
  assert (Ht3 : table_ok (obj_set (Point.id p) a nodes) h3).
  { eapply table_ok_length; [exact Ht1|exact Hlen3]. }
  assert (Hcore3 : forall i, core <$> h3 !! i
            = core <$> alter (set_parent (Some pr)) a (h ++ [nn]) !! i).
  { intros i. unfold h3.
    by destruct (addChild_lookup (alter (set_parent (Some pr)) a (h ++ [nn])) pr a i)
      as (n' & -> & -> & _). }
  eapply IH; [exact Hrun| |exact Ht3]. split; try done.
  - rewrite Hlen3, !length_app. simpl. lia.
  - intros i q Hq. rewrite Hcore3.
    apply lookup_app_Some in Hq as [Hq|[Hge Hq]].
    + pose proof (lookup_lt_Some _ _ _ Hq) as Hi.
      rewrite list_lookup_alter_ne by (unfold a; lia). by apply Hold.
    + apply list_lookup_singleton_Some in Hq as [Hi <-].
      assert (i = a) as -> by (unfold a; lia).
      rewrite list_lookup_alter_eq, Ha. simpl.
      unfold core, nodeOf, parentOf. simpl.
      destruct (Z.eqb_spec (Point.parentId p) (-1)); [done|].
      rewrite take_ge by (rewrite length_app; simpl; unfold a; lia).
      by rewrite <- Htab1, Hpr.
  - unfold h3. apply addChild_ids. by apply alter_ids.
Qed.

Lemma collected_nil : collected [] [] [].
Proof.
  split; try done; apply store_ok_nil.
Qed.

Lemma initCollection_collected ps c :
  _initCollection (TreeNodeCollection.mk [] [] None None None None) (map Some ps)
  = Return c ->
  collected ps (_nodes c) (store c).
Proof.
  unfold _initCollection.
  cbn [_nodes store _rawSoma _rawSections _rawMorphology _morphology].
  intros H. inv_ret.
  match goal with Hi : initLoop _ _ _ _ = Return ?x |- _ =>
    destruct x as [[nodes h] soma]; rename Hi into Hinit end.
  inv_ret. subst c. simpl.
  exact (initLoop_collected ps [] [] [] [] nodes h soma Hinit collected_nil table_ok_nil).
Qed.

(** The nodes of the points of a file: one node for each point, at the
    place of the point, with the id, the type, the position and the
    radius of the point.  A point that names no parent (-1) gives a
    node without a parent; the parent of any other node is the node of
    the last point up to it, itself included, that has the id it names.
    The table of the nodes gives, for an id, the node of the last point
    that has this id. *)
Theorem nodes_of_the_points ps c :
  _initCollection (TreeNodeCollection.mk [] [] None None None None) (map Some ps)
  = Return c ->
  length (store c) = length ps /\
  (forall k, obj_get k (_nodes c) = lastWithId ps k) /\
  (forall i p, ps !! i = Some p ->
     exists n, store c !! i = Some n /\
       getId n = Point.id p /\ getType n = Point.type p /\
       getPosition n = (Point.x p, Point.y p, Point.z p) /\
       getRadius n = Point.radius p /\
       getParent n = parentOf ps i p).
Proof.
  intros H. destruct (initCollection_collected _ _ H) as [Hlen Htab Hcore _ _].
  split; [done|]. split; [done|]. intros i p Hp.
  specialize (Hcore i p Hp).
  destruct (store c !! i) as [n|]; [|discriminate].
  exists n. split; [done|]. unfold core, nodeOf in Hcore.
  injection Hcore as H1 H2 H3 H4 H5. by repeat split.
Qed.

(** The children of a node have ids that are all different, and each
    of them is a node that has this node as its parent: a point whose
    id is that of a child its parent has already is not added to the
    children. *)
Theorem children_of_a_node_have_different_ids ps c :
  _initCollection (TreeNodeCollection.mk [] [] None None None None) (map Some ps)
  = Return c ->
  forall r n, store c !! r = Some n ->
    NoDup (childIds (store c) n) /\
    Forall (fun ch => exists cn, store c !! ch = Some cn /\ getParent cn = Some r)
           (getChildren n).
Proof.
  intros H r n Hr. destruct (initCollection_collected _ _ H) as [_ _ _ Hok Hids].
  split; [by eapply Hids|]. apply Forall_forall. intros ch Hch.
  apply list_elem_of_In in Hch.
  by destruct (ok_child _ Hok _ _ _ Hr Hch) as (_ & cn & Hcn & Hp); exists cn.
Qed.

End Collected.

Section CollectedWitnesses.
#[local] Existing Instance smallEngine.
Import TreeNode TreeNodeCollection.

Lemma nodes_of_the_points_witness :
  exists c,
    _initCollection (TreeNodeCollection.mk [] [] None None None None)
      (map Some twiceTheSameId) = Return c /\
    map getParent (store c) = [None; Some 0; Some 0; Some 2] /\
    map getChildren (store c) = [[1]; []; [3]; []] /\
    length (store c) = length twiceTheSameId /\
    (forall k, obj_get k (_nodes c) = lastWithId twiceTheSameId k) /\
    (forall i p, twiceTheSameId !! i = Some p ->
       exists n, store c !! i = Some n /\
         getId n = Point.id p /\ getType n = Point.type p /\
         getPosition n = (Point.x p, Point.y p, Point.z p) /\
         getRadius n = Point.radius p /\
         getParent n = parentOf twiceTheSameId i p).
Proof.
  eexists. split; [vm_compute; reflexivity|]. split; [reflexivity|].
  split; [reflexivity|].
  apply (nodes_of_the_points twiceTheSameId). vm_compute. reflexivity.
Defined.

Lemma children_of_a_node_witness :
  exists c,
    _initCollection (TreeNodeCollection.mk [] [] None None None None)
      (map Some twiceTheSameId) = Return c /\
    forall r n, store c !! r = Some n ->
      NoDup (childIds (store c) n) /\
      Forall (fun ch => exists cn, store c !! ch = Some cn /\ getParent cn = Some r)
             (getChildren n).
Proof.
  eexists. split; [vm_compute; reflexivity|].
  apply (children_of_a_node_have_different_ids twiceTheSameId).
  vm_compute. reflexivity.
Defined.

End CollectedWitnesses.

(** ** Files without rows, and rows that are too short *)

Section RowsOfFiles.
Context {eng : engine}.
Import TreeNode TreeNodeCollection.

Lemma rowsOf_comments doc :
  Forall (fun l => isComment l = true) doc -> rowsOf doc = [].
Proof.
  induction 1 as [|l doc Hl Hdoc IH]; [reflexivity|].
  destruct l; [exact IH|discriminate].
Qed.

(** A file that has no row of fields, the empty file among them, only
    lines of comment otherwise, gives no point: the parse returns, and
    both its getters give [null]. *)
Theorem file_without_rows_gives_no_morphology doc :
  Forall (fun l => wf_line l = true) doc ->
  Forall (fun l => isComment l = true) doc ->
  forall parseFloat Math_round fuel this,
    SwcParser.extractPoints parseFloat Math_round (render doc) = [] /\
    SwcParser.parse parseFloat Math_round fuel this (render doc)
    = (SwcParser.mk None None, Return tt).
Proof.
  intros Hwf Hc parseFloat Math_round fuel this.
  assert (H : SwcParser.extractPoints parseFloat Math_round (render doc) = []).
  { rewrite (extractPoints_doc _ _ _ Hwf). by rewrite (rowsOf_comments _ Hc). }
  split; [exact H|]. unfold SwcParser.parse. by rewrite H.
Qed.

Lemma trunc_lookup {A} (l : array A) : forall i j v,
  l !! j = Some (Some v) -> i <= j -> trunc l !! i = l !! i.
Proof.
  induction l as [|x l IH]; intros i j v Hj Hij; [done|].
  destruct j as [|j].
  - assert (i = 0) as -> by lia. simpl in Hj. injection Hj as ->. reflexivity.
  - simpl in Hj.
    assert (Hne : trunc l <> []).
    { intros E. pose proof (IH j j v Hj (le_n _)) as H. rewrite E, Hj in H.
      discriminate. }
    assert (Ht : trunc (x :: l) = x :: trunc l).
    { simpl. destruct x; [done|]. by destruct (trunc l). }
    rewrite Ht. destruct i as [|i]; [reflexivity|]. simpl.
    apply (IH i j v Hj). lia.
Qed.

(** A row of fewer than seven fields that comes before a row of seven
    fields leaves the slot of its line empty, and the parse of the file
    throws a TypeError. *)
Theorem short_row_before_a_row_is_fatal rows i j short full :
  Forall (fun r => wf_row r = true) rows ->
  rows !! i = Some short -> length (fields short) < 7 ->
  rows !! j = Some full -> 7 <= length (fields full) -> i < j ->
  forall parseFloat Math_round fuel this,
    SwcParser.extractPoints parseFloat Math_round (render (plain rows)) !! i
    = Some None /\
    SwcParser.parse parseFloat Math_round fuel this (render (plain rows))
    = (SwcParser.mk None None, Throw TypeError).
Proof.
  intros Hwf Hi Hshort Hj Hfull Hij parseFloat Math_round fuel this.
  assert (H : SwcParser.extractPoints parseFloat Math_round (render (plain rows)) !! i
              = Some None).
  { rewrite (extractPoints_doc _ _ _ (plain_wf _ Hwf)), rowsOf_plain.
    rewrite (trunc_lookup _ i j (rowPoint parseFloat Math_round (fields full)));
      [| |lia].
    - change (map ?f ?l) with (f <$> l). rewrite list_lookup_fmap, Hi. simpl.
      unfold slot. by destruct (Nat.leb_spec 7 (length (fields short))); [lia|].
    - change (map ?f ?l) with (f <$> l). rewrite list_lookup_fmap, Hj. simpl.
      unfold slot. by destruct (Nat.leb_spec 7 (length (fields full))); [|lia]. }
  split; [exact H|]. unfold SwcParser.parse.
  by rewrite (new_hole fuel _ i H).
Qed.

End RowsOfFiles.

(** ** The node the sections start from *)

Section FirstNode.
Context {eng : engine}.
Import TreeNode TreeNodeCollection.

Lemma insert_sorted_In k l x : In x (insert_sorted k l) <-> x = k \/ In x l.
Proof.
  induction l as [|k' l IH]; simpl; [intuition|].
  destruct (k <=? k')%Z; simpl; [intuition|]. rewrite IH. intuition.
Qed.

Lemma sort_keys_In l x : In x (sort_keys l) <-> In x l.
Proof.
  unfold sort_keys. induction l as [|k l IH]; simpl; [done|].
  rewrite insert_sorted_In, IH. intuition.
Qed.

Lemma insert_sorted_ascending k l : ascending l -> ascending (insert_sorted k l).
Proof.
  induction l as [|k' l IH]; simpl; [by split|].
  intros [Hk' Hl]. destruct (Z.leb_spec k k') as [Hle|Hgt]; simpl.
  - split; [|by split]. constructor; [done|].
    eapply List.Forall_impl; [|exact Hk']. intros x Hx. simpl in Hx. lia.
  - split; [|by apply IH]. apply Forall_forall. intros x Hx.
    apply insert_sorted_In in Hx as [->|Hx]; [lia|].
    rewrite Forall_forall in Hk'. by apply Hk'.
Qed.

Lemma sort_keys_ascending l : ascending (sort_keys l).
Proof.
  unfold sort_keys. induction l as [|k l IH]; simpl; [done|].
  by apply insert_sorted_ascending.
Qed.

Lemma ascending_split before k after :
  ascending (before ++ k :: after) -> Forall (Z.le k) after.
Proof.
  induction before as [|b before IH]; simpl; [by intros [? _]|].
  intros [_ H]. by apply IH.
Qed.

(** The keys before a key in the order of [Object.keys]: the array
    indices below it when it is an array index, and all the array
    indices when it is none. *)
Lemma Object_keys_before {V} (o : object V) before k after k' :
  Object_keys o = before ++ k :: after ->
  In k' (map fst o) -> isArrayIndex k' = true ->
  (isArrayIndex k = true -> (k' < k)%Z) ->
  In k' before.
Proof.
  unfold Object_keys. intros Hsplit Hk' Hidx Hlt.
  assert (Hin : In k' (sort_keys (List.filter isArrayIndex (map fst o)))).
  { apply sort_keys_In, filter_In. by split. }
  apply app_eq_app in Hsplit as (l & [[Hs Hb]|[Hb Hs]]).
  - destruct l as [|x l].
    + rewrite app_nil_r in Hs. simpl in Hb. by rewrite <- Hs.
    + injection Hb as <- Hafter. rewrite Hs in Hin.
      pose proof (sort_keys_ascending (List.filter isArrayIndex (map fst o))) as Hasc.
      rewrite Hs in Hasc.
      assert (Hkidx : isArrayIndex k = true).
      { assert (Hk : In k (sort_keys (List.filter isArrayIndex (map fst o)))).
        { rewrite Hs. apply in_or_app. right. by left. }
        apply sort_keys_In, filter_In in Hk as [_ Hk]. done. }
      specialize (Hlt Hkidx).
      apply in_app_or in Hin as [Hin|[<-|Hin]]; [done|lia|].
      apply ascending_split in Hasc. rewrite Forall_forall in Hasc.
      specialize (Hasc k' Hin). lia.
  - rewrite Hb. apply in_or_app. by left.
Qed.

Lemma findFirstValid_first fuel h nodes ids f ch :
  findFirstValid fuel h nodes ids = Return (Some (f, ch)) ->
  exists before k after fn,
    ids = before ++ k :: after /\
    obj_get k nodes = Some f /\ h !! f = Some fn /\ ch = _children fn /\ ch <> [] /\
    Forall (fun k' => exists r n, obj_get k' nodes = Some r /\ h !! r = Some n /\
                        _children n = []) before.
Proof.
  induction ids as [|k ids IH]; simpl; intros H; [discriminate|].
  inv_ret.
  match goal with Hg : obj_get k nodes = Some ?x |- _ => rename x into r; rename Hg into Hr end.
  match goal with Hg : h !! r = Some ?x |- _ => rename x into n; rename Hg into Hn end.
  match goal with Hc : getNonSomaChildren _ _ _ = _ |- _ =>
    apply getNonSomaChildren_Return in Hc; subst end.
  destruct (_children n) as [|c cs] eqn:Hch; simpl in H.
  - destruct (IH H) as (before & k0 & after & fn & -> & Hk0 & Hfn & Hc & Hne & Hb).
    exists (k :: before), k0, after, fn. repeat split; try done.
    constructor; [|done]. by exists r, n.
  - injection H as <- <-. exists [], k, ids, n. rewrite Hch. by repeat split.
Qed.

(** The sections of a parse are those below one node, the first in the
    order of [Object.keys] that has a child: a node registered under an
    array index has no child when this node is registered under a
    larger array index, or under a name that is no array index. *)
Theorem sections_start_below_the_first_node_with_children fuel points c secs :
  TreeNodeCollection.new fuel points = Return c ->
  _rawSections c = Some secs ->
  exists k f fn,
    obj_get k (_nodes c) = Some f /\ store c !! f = Some fn /\
    _children fn <> [] /\
    Forest (store c) (rev (map (fun n => mkEntry n None) (_children fn))) 0
      (map strip secs) /\
    forall k' r n,
      isArrayIndex k' = true -> (isArrayIndex k = true -> (k' < k)%Z) ->
      obj_get k' (_nodes c) = Some r -> store c !! r = Some n ->
      _children n = [].
Proof.
  intros H Hsecs. apply new_Return in H as (_ & _ & [(_ & Hn & _)|H]).
  { rewrite Hn in Hsecs. discriminate. }
  destruct H as (f & ch & secs' & m & Hfirst & Hpop & _ & Hs & _).
  rewrite Hs in Hsecs. injection Hsecs as ->.
  apply findFirstValid_first in Hfirst
    as (before & k & after & fn & Hkeys & Hk & Hf & -> & Hne & Hbefore).
  exists k, f, fn. split; [done|]. split; [done|]. split; [done|]. split.
  - apply popping_Forest in Hpop as (l & HF & Hl); [|done].
    simpl in *. by subst l.
  - intros k' r n Hidx Hlt Hr Hn.
    assert (Hin : In k' (map fst (_nodes c))).
    { clear -Hr. induction (_nodes c) as [|[k0 v] o IH]; simpl in *; [discriminate|].
      destruct (Z.eqb_spec k' k0) as [->|_]; [by left|]. right. by apply IH. }
    pose proof (Object_keys_before _ _ _ _ _ Hkeys Hin Hidx Hlt) as Hb.
    rewrite Forall_forall in Hbefore.
    destruct (Hbefore k' Hb) as (r' & n' & Hr' & Hn' & Hc).
    rewrite Hr in Hr'. injection Hr' as <-. rewrite Hn in Hn'. by injection Hn' as <-.
Qed.

End FirstNode.

Section RowsWitnesses.
#[local] Existing Instance smallEngine.
Import TreeNode TreeNodeCollection.

Lemma file_without_rows_witness :
  Forall (fun l => wf_line l = true) onlyComments /\
  Forall (fun l => isComment l = true) onlyComments /\
  forall parseFloat Math_round fuel this,
    SwcParser.extractPoints parseFloat Math_round (render onlyComments) = [] /\
    SwcParser.parse parseFloat Math_round fuel this (render onlyComments)
    = (SwcParser.mk None None, Return tt).
Proof.
  assert (H1 : Forall (fun l => wf_line l = true) onlyComments)
    by (repeat constructor).
  assert (H2 : Forall (fun l => isComment l = true) onlyComments)
    by (repeat constructor).
  split; [exact H1|]. split; [exact H2|].
  exact (file_without_rows_gives_no_morphology onlyComments H1 H2).
Defined.

Lemma short_row_witness :
  Forall (fun r => wf_row r = true) rowsWithShortOnes /\
  forall parseFloat Math_round fuel this,
    SwcParser.extractPoints parseFloat Math_round (render (plain rowsWithShortOnes))
      !! 1 = Some None /\
    SwcParser.parse parseFloat Math_round fuel this (render (plain rowsWithShortOnes))
    = (SwcParser.mk None None, Throw TypeError).
Proof.
  assert (H : Forall (fun r => wf_row r = true) rowsWithShortOnes)
    by (repeat constructor).
  split; [exact H|].
  apply (short_row_before_a_row_is_fatal rowsWithShortOnes 1 2
           (spaced "foo" []) (spaced "2" ["2"; "1"; "0"; "0"; "1"; "1"]%string) H).
  - reflexivity.
  - simpl. lia.
  - reflexivity.
  - simpl. lia.
  - lia.
Defined.

Lemma sections_start_witness :
  exists c secs,
    TreeNodeCollection.new 10
      (chainPoints 10 1 2 3 4 (0, 0, 0) (1, 0, 0) (2, 0, 0) (3, 0, 0) (4, 0, 0)
         5 1 1 1 1)%float = Return c /\
    _rawSections c = Some secs /\
    exists k f fn,
      obj_get k (_nodes c) = Some f /\ store c !! f = Some fn /\
      _children fn <> [] /\
      Forest (store c) (rev (map (fun n => mkEntry n None) (_children fn))) 0
        (map strip secs) /\
      forall k' r n,
        isArrayIndex k' = true -> (isArrayIndex k = true -> (k' < k)%Z) ->
        obj_get k' (_nodes c) = Some r -> store c !! r = Some n ->
        _children n = [].
Proof.
  eexists _, _. split; [vm_compute; reflexivity|]. split; [reflexivity|].
  eapply (sections_start_below_the_first_node_with_children 10
            (chainPoints 10 1 2 3 4 (0, 0, 0) (1, 0, 0) (2, 0, 0) (3, 0, 0) (4, 0, 0)
               5 1 1 1 1)%float).
  - vm_compute. reflexivity.
  - reflexivity.
Defined.

End RowsWitnesses.

(** ** Points that a parse accepts *)

Section Accepted.
Context {eng : engine}.
Import TreeNode TreeNodeCollection.

Lemma safe_bind {A B} (m : outcome A) (k : A -> outcome B) :
  safe m -> (forall a, m = Return a -> safe (k a)) -> safe (m ≫= k).
Proof.
  intros Hm Hk e. destruct m as [a|e'|]; simpl.
  - by apply Hk.
  - by destruct (Hm e').
  - discriminate.
Qed.

Lemma safe_Return {A} (a : A) : safe (Return a).
Proof. intros e. discriminate. Qed.

Lemma safe_completes {A} (m : outcome A) :
  safe m -> completes m -> exists a, m = Return a.
Proof.
  intros Hs Hc. destruct m as [a|e|]; [by exists a|by destruct (Hs e)|destruct Hc].
Qed.

Lemma lastFrom_found ps : forall i k found,
  found <> None -> lastFrom i ps k found <> None.
Proof.
  induction ps as [|p ps IH]; intros i k found Hf; simpl; [done|].
  apply IH. by destruct (Z.eqb _ _).
Qed.

Lemma lastFrom_Some ps k q : forall j i found,
  ps !! j = Some q -> Point.id q = k -> lastFrom i ps k found <> None.
Proof.
  induction ps as [|p ps IH]; intros j i found Hj Hk; [done|].
  simpl. destruct j as [|j].
  - simpl in Hj. injection Hj as ->. rewrite Hk, Z.eqb_refl.
    by apply lastFrom_found.
  - simpl in Hj. by eapply IH.
Qed.

Lemma lastWithId_Some ps k j q :
  ps !! j = Some q -> Point.id q = k -> lastWithId ps k <> None.
Proof. apply lastFrom_Some. Qed.

Lemma parentsBefore_noSelfParent ps : parentsBefore ps -> noSelfParent (map Some ps).
Proof.
  intros H p Hp. change (map Some ps) with (Some <$> ps) in Hp.
  apply list_elem_of_fmap in Hp as (q & [= <-] & Hq).
  apply list_elem_of_lookup in Hq as (i & Hi). by destruct (H i p Hi).
Qed.

(** The loop of [_initCollection] returns. *)
Lemma initLoop_returns rest : forall pre nodes h soma,
  collected pre nodes h -> table_ok nodes h ->
  parentsBefore (pre ++ rest) ->
  exists nodes' h', initLoop (map Some rest) nodes h soma = Return (nodes', h', soma).
Proof.
  induction rest as [|p rest IH]; intros pre nodes h soma Hc Ht Hpb.
  { by exists nodes, h. }
  assert (Hp : (pre ++ p :: rest) !! length pre = Some p).
  { by rewrite lookup_app_r, Nat.sub_diag by lia. }
  destruct (Hpb _ _ Hp) as [Hself Hparent].
  assert (Hone : exists nodes1 h1,
            initLoop (map Some [p]) nodes h soma = Return (nodes1, h1, soma) /\
            forall soma', initLoop (map Some (p :: rest)) nodes h soma'
                          = initLoop (map Some rest) nodes1 h1 soma').
  { simpl. destruct (Z.eqb_spec (Point.parentId p) (-1)) as [Hroot|Hroot].
    - eexists _, _. split; reflexivity.
    - destruct Hparent as [Hroot'|(j & q & Hj & Hq & Hid)]; [done|].
      assert (Hfound : obj_get (Point.parentId p)
                         (obj_set (Point.id p) (length h) nodes) <> None).
      { rewrite obj_get_set_ne by congruence.
        rewrite (col_table _ _ _ Hc).
        apply (lastWithId_Some pre _ j q); [|done].
        rewrite lookup_app_l in Hq by lia. exact Hq. }
      destruct (obj_get (Point.parentId p) (obj_set (Point.id p) (length h) nodes))
        as [pr|] eqn:Hpr; [|done].
      unfold setParent. simpl. eexists _, _. split; reflexivity. }
  destruct Hone as (nodes1 & h1 & Hone & Hstep).
  rewrite Hstep.
  pose proof (initLoop_collected [p] pre nodes h soma _ _ _ Hone Hc Ht) as Hc1.
  destruct (initLoop_ok _ _ _ _ _ _ _ Hone (col_ok _ _ _ Hc) Ht) as (_ & Ht1 & _).
  apply (IH (pre ++ [p])); [done|done|]. by rewrite <- app_assoc.
Qed.

(** *** The forest of the nodes *)

Lemma below_le h a b : store_ok h -> below h a b -> a <= b.
Proof.
  intros Hok H. induction H as [x|x y z (n & Hn & Hy) _ IH]; [lia|].
  destruct (ok_child _ Hok _ _ _ Hn Hy) as [Hle _]. lia.
Qed.

Lemma parent_unique h r r' c :
  store_ok h -> childOf h r c -> childOf h r' c -> r = r'.
Proof.
  intros Hok (n & Hn & Hc) (n' & Hn' & Hc').
  destruct (ok_child _ Hok _ _ _ Hn Hc) as (_ & cn & Hcn & Hp).
  destruct (ok_child _ Hok _ _ _ Hn' Hc') as (_ & cn' & Hcn' & Hp').
  congruence.
Qed.

(** The nodes above a node are one above the other. *)
Lemma below_chain h a b x :
  store_ok h -> below h a x -> below h b x -> below h a b \/ below h b a.
Proof.
  intros Hok Ha. revert b. unfold below in *. revert x Ha.
  apply (rtc_ind_r (fun x => forall b, rtc (childOf h) b x ->
                      rtc (childOf h) a b \/ rtc (childOf h) b a));
    [intros b Hb; by right|].
  intros p x Hap Hpx IH b Hb.
  apply rtc_inv_r in Hb as [->|(p' & Hbp & Hp'x)].
  - left. by eapply rtc_r.
  - rewrite (parent_unique h p' p x Hok Hp'x Hpx) in Hbp. by apply IH.
Qed.

Lemma siblings_apart h t y y' :
  forest h -> childOf h t y -> childOf h t y' -> below h y y' -> y = y'.
Proof.
  intros Hf Hy Hy' Hb.
  apply rtc_inv_r in Hb as [->|(p & Hyp & Hpy')]; [done|].
  rewrite (parent_unique h p t y' (forest_ok _ Hf) Hpy' Hy') in Hyp.
  apply (below_le h y t (forest_ok _ Hf)) in Hyp.
  destruct Hy as (n & Hn & Hy). pose proof (forest_strict _ Hf _ _ _ Hn Hy). lia.
Qed.

Lemma children_apart h t tn :
  forest h -> h !! t = Some tn -> apart h (_children tn).
Proof.
  intros Hf Ht. split; [by eapply forest_once|].
  intros a b Ha Hb. apply (siblings_apart h t); [done|by exists tn..].
Qed.

(** A dive ends at the node it starts from or at a node below it. *)
Lemma dive_below h fuel : forall room this nl nl' ys,
  dive room fuel h this nl = Return (nl', ys) ->
  exists t tn, below h this t /\ h !! t = Some tn /\
    (ys = [] \/ ys = _children tn).
Proof.
  induction room as [|room IH]; intros this nl nl' ys;
    [by rewrite dive_O|rewrite dive_S].
  intros H. inv_ret.
  match goal with Hc : getNonSomaChildren _ _ _ = _ |- _ =>
    apply getNonSomaChildren_Return in Hc; subst end.
  match goal with Ht : h !! this = Some ?x |- _ => rename x into tn; rename Ht into Htn end.
  destruct (_children tn) as [|c [|c' cs]] eqn:Hch.
  - inv_ret. injection H as <- <-. exists this, tn. rewrite Hch.
    split; [apply rtc_refl|auto].
  - inv_ret. destruct (Z.eqb _ _).
    + apply IH in H as (t & tn' & Hb & Ht & Hys). exists t, tn'.
      split; [|done]. eapply rtc_l; [|exact Hb].
      exists tn. split; [done|]. rewrite Hch. by left.
    + inv_ret. injection H as <- <-. exists this, tn.
      split; [apply rtc_refl|auto].
  - inv_ret. injection H as <- <-. exists this, tn. rewrite Hch.
    split; [apply rtc_refl|auto].
Qed.

(** Different nodes of a store are no more than the store has. *)
Lemma NoDup_below_length (l : list nat) n :
  NoDup l -> Forall (fun g => g < n) l -> length l <= n.
Proof.
  intros Hnd Hall.
  apply Nat.le_trans with (length (seq 0 n)); [|by rewrite List.length_seq].
  apply NoDup_incl_length; [by apply NoDup_ListNoDup|].
  intros g Hg. apply in_seq. rewrite Forall_forall in Hall.
  apply Hall in Hg. lia.
Qed.

Lemma NoDup_omap_inv {A B} (f : A -> option B) l :
  (forall x, x ∈ l -> is_Some (f x)) -> NoDup (omap f l) -> NoDup l.
Proof.
  induction l as [|x l IH]; intros Hf Hnd; [constructor|].
  destruct (Hf x) as [y Hy]; [by left|].
  change (omap f (x :: l))
    with (match f x with Some y => y :: omap f l | None => omap f l end) in Hnd.
  rewrite Hy in Hnd. apply list.NoDup_cons in Hnd as [Hnotin Hnd].
  apply list.NoDup_cons. split.
  - intros Hx. apply Hnotin. apply list_elem_of_omap. by exists x.
  - apply IH; [|done]. intros z Hz. apply Hf. by right.
Qed.

(** *** The sections: nothing throws *)

(** A dive from a node of a forest needs no more calls than there are
    nodes from this one on. *)
Lemma dive_safe h : forest h -> forall room fuel this nl,
  this < length h -> length h - this <= room ->
  safe (dive room fuel h this nl).
Proof.
  intros Hf. pose proof (forest_ok _ Hf) as Hok.
  induction room as [|room IH]; intros fuel this nl Hthis Hroom; [lia|].
  rewrite dive_S. destruct (lookup_lt_is_Some_2 h this Hthis) as (tn & Htn).
  rewrite Htn. simpl.
  rewrite (getNonSomaChildren_plain _ _ _ (ok_soma _ Hok _ _ Htn)). simpl.
  destruct (_children tn) as [|c [|c' cs]] eqn:Hch; try apply safe_Return.
  assert (Hc : c ∈ _children tn) by (rewrite Hch; by left).
  destruct (ok_child _ Hok _ _ c Htn Hc) as (_ & cn & Hcn & _).
  pose proof (forest_strict _ Hf _ _ _ Htn Hc) as Hlt.
  rewrite Hcn. simpl. destruct (Z.eqb _ _); [|apply safe_Return].
  pose proof (lookup_lt_Some _ _ _ Hcn). apply IH; lia.
Qed.

Lemma registerChild_safe par cur secs :
  (forall q, par = Some q -> q < length secs) ->
  safe (registerChild par cur secs).
Proof.
  intros Hpar. unfold registerChild.
  destruct (truthy_num par); [|apply safe_Return].
  destruct par as [q|]; [|apply safe_Return].
  destruct (lookup_lt_is_Some_2 secs q (Hpar q eq_refl)) as (ps & ->).
  apply safe_Return.
Qed.

Lemma buildRawSection_safe h fuel st c par :
  forest h -> length h <= S callStack -> c < length h ->
  (forall q, par = Some q -> q < length (sections st)) ->
  safe (buildRawSection fuel h st c par).
Proof.
  intros Hf Hstack Hc Hpar. unfold buildRawSection.
  destruct (lookup_lt_is_Some_2 h c Hc) as (cn & ->). simpl.
  apply safe_bind; [apply dive_safe; [done|done|lia]|].
  intros [nodeList nextNodes] _.
  apply safe_bind; [by apply registerChild_safe|]. intros; apply safe_Return.
Qed.

(** The loop over the stack starts a section from a node once: there
    are no more sections than nodes, and [sections] has room for them
    when it has room for the points. *)
Lemma popping_safe h :
  forest h -> length h <= S callStack -> length h <= maxArrayLength ->
  forall fuel st started, pending h started st -> safe (popping fuel h st).
Proof.
  intros Hf Hstack Hlength. pose proof (forest_ok _ Hf) as Hok.
  induction fuel as [|fuel IH]; intros st started Hpe; [by intros e|].
  destruct Hpe as [Hst Hcur Hlen Honce Hnodes [Hnd Hapart] Hdone].
  simpl. unfold stack_ok in Hst.
  destruct (stack st) as [|[c par] rest] eqn:Hstack'; [apply safe_Return|].
  apply List.Forall_cons_iff in Hst as [[Hc Hpar] Hrest]. simpl in Hc, Hpar.
  simpl in Hnd, Hapart, Hdone. apply list.NoDup_cons in Hnd as [Hc_rest Hnd].
  apply safe_bind; [by apply buildRawSection_safe|].
  intros [section st1] Hbuild.
  apply buildRawSection_Return in Hbuild
    as (cn & nodeList & ys & secs' & Hcn & Hd & -> & Hreg & ->).
  simpl in *. apply registerChild_Return in Hreg as [_ Hlen'].
  apply dive_below in Hd as (t & tn & Hct & Ht & Hys).
  assert (Hc_new : c ∉ started).
  { intros Hin. apply (Hdone c c Hin); [by left|apply rtc_refl]. }
  assert (Hroom : length secs' < maxArrayLength).
  { pose proof (NoDup_below_length (c :: started) (length h)) as Hn.
    simpl in Hn. rewrite Hlen', Hlen.
    assert (S (length started) <= length h); [|lia].
    apply Hn; [by apply list.NoDup_cons|by constructor]. }
  rewrite push_room by done. simpl.
  assert (Hys_child : forall y, y ∈ ys -> childOf h t y /\ below h c y).
  { intros y Hy. destruct Hys as [-> | ->]; [by apply elem_of_nil in Hy|].
    assert (Hty : childOf h t y) by by exists tn.
    split; [done|]. by eapply rtc_r. }
  assert (Hys_apart : apart h ys).
  { destruct Hys as [-> | ->]; [|by eapply children_apart].
    split; [constructor|]. intros a b Ha. by apply elem_of_nil in Ha. }
  assert (Hrest_c : forall a, a ∈ map node rest -> ~ below h c a /\ ~ below h a c).
  { intros a Ha. split; intros Hb.
    - apply Hapart in Hb; [by subst|by left|by right].
    - apply Hapart in Hb; [by subst|by right|by left]. }
  apply (IH _ (c :: started)). split; simpl.
  - unfold stack_ok. simpl. rewrite length_insert, length_app. simpl.
    unfold pushAll. apply Forall_app. split.
    + apply Forall_rev, Forall_map, Forall_forall. intros y Hy. simpl.
      apply list_elem_of_In, Hys_child in Hy as [(n & Hn & Hy) _].
      destruct (ok_child _ Hok _ _ _ Hn Hy) as (_ & yn & Hyn & _).
      split; [by eapply lookup_lt_Some|]. intros q [= <-]. lia.
    + eapply List.Forall_impl; [|exact Hrest]. intros e [He Hq]. split; [done|].
      intros q Hq'. specialize (Hq q Hq'). lia.
  - rewrite length_insert, length_app. simpl. lia.
  - rewrite length_insert, length_app. simpl. lia.
  - by apply list.NoDup_cons.
  - by constructor.
  - unfold pushAll. rewrite map_app, map_rev, map_map. simpl. rewrite map_id.
    destruct Hys_apart as [Hys_nd Hys_ap]. split.
    + apply list.NoDup_app.
      split; [by apply NoDup_ListNoDup, NoDup_rev, NoDup_ListNoDup|].
      split; [|done].
      intros y Hy Hin. apply list_elem_of_In, in_rev, list_elem_of_In in Hy.
      destruct (Hys_child y Hy) as [_ Hcy]. by destruct (Hrest_c y Hin).
    + intros a b Ha Hb Hab.
      apply elem_of_app in Ha as [Ha|Ha]; apply elem_of_app in Hb as [Hb|Hb].
      * apply list_elem_of_In, in_rev, list_elem_of_In in Ha, Hb. by apply Hys_ap.
      * apply list_elem_of_In, in_rev, list_elem_of_In in Ha.
        destruct (Hys_child a Ha) as [_ Hca].
        destruct (Hrest_c b Hb) as [Hcb _]. destruct Hcb. by etrans.
      * apply list_elem_of_In, in_rev, list_elem_of_In in Hb.
        destruct (Hys_child b Hb) as [_ Hcb].
        destruct (Hrest_c a Ha) as [Hca Hac].
        by destruct (below_chain h a c b Hok Hab Hcb).
      * apply Hapart; [by right|by right|done].
  - unfold pushAll. rewrite map_app, map_rev, map_map. simpl. rewrite map_id.
    intros g a Hg Ha Hag.
    apply elem_of_cons in Hg as [->|Hg]; apply elem_of_app in Ha as [Ha|Ha].
    + apply list_elem_of_In, in_rev, list_elem_of_In in Ha.
      destruct (Hys_child a Ha) as [(n & Hn & Hta) _].
      pose proof (forest_strict _ Hf _ _ _ Hn Hta).
      apply (below_le h) in Hag, Hct; [lia|done..].
    + by destruct (Hrest_c a Ha).
    + apply list_elem_of_In, in_rev, list_elem_of_In in Ha.
      destruct (Hys_child a Ha) as [_ Hca].
      apply (Hdone g c Hg); [by left|by etrans].
    + apply (Hdone g a Hg); [by right|done].
Qed.

Lemma findFirstValid_safe fuel h nodes ids :
  store_ok h -> table_ok nodes h ->
  (forall k, In k ids -> exists r, obj_get k nodes = Some r) ->
  safe (findFirstValid fuel h nodes ids).
Proof.
  intros Hok Ht. induction ids as [|k ids IH]; intros Hids; [apply safe_Return|].
  destruct (Hids k (or_introl eq_refl)) as (r & Hr).
  simpl. rewrite Hr. simpl.
  destruct (lookup_lt_is_Some_2 h r (Ht _ _ Hr)) as (n & Hn).
  rewrite Hn. simpl.
  rewrite (getNonSomaChildren_plain _ _ _ (ok_soma _ Hok _ _ Hn)). simpl.
  destruct (0 <? length (_children n)); [apply safe_Return|].
  apply IH. intros k' Hk'. apply Hids. by right.
Qed.

Lemma popping_wellNumbered fuel h stack0 secs :
  popping fuel h (mkState stack0 [] 0) = Return secs ->
  Forall (fun e => parentSectionId e = None) stack0 ->
  wellNumbered secs.
Proof.
  intros Hpop Hstack.
  assert (Hids : idsFrom 0 secs).
  { destruct (popping_Forest _ _ _ _ Hpop eq_refl) as (l & HF & Hl).
    simpl in *. subst l. intros i s Hs.
    assert (Hi : map strip secs !! i = Some (strip s)).
    { change (map strip secs) with (strip <$> secs).
      by rewrite list_lookup_fmap, Hs. }
    apply (Forest_ids _ _ _ _ HF) in Hi. simpl in Hi. done. }
  destruct (popping_registered _ _ _ _ Hpop eq_refl) as [Hreg Hpar]; simpl.
  { intros p ps Hp. by rewrite lookup_nil in Hp. }
  { intros i s q Hs. by rewrite lookup_nil in Hs. }
  { eapply List.Forall_impl; [|exact Hstack]. by intros e -> q [=]. }
  intros i s Hs. pose proof (lookup_lt_Some _ _ _ Hs) as Hi.
  split; [by rewrite (Hids _ _ Hs)|]. split.
  { intros q Hq. pose proof (Hpar _ _ _ Hs Hq). lia. }
  rewrite (Hreg _ _ Hs). destruct i as [|i]; [split; constructor|].
  split; [|apply indicesOf_NoDup].
  apply Forall_forall. intros x Hx. unfold childrenOf in Hx.
  apply indicesOf_elem in Hx as [_ Hx]. rewrite Nat.sub_0_r in Hx.
  change (map ?f ?l) with (f <$> l) in Hx. rewrite list_lookup_fmap in Hx.
  destruct (secs !! x) as [sx|] eqn:Hsx; [|discriminate].
  injection Hx as Hx. pose proof (Hpar _ _ _ Hsx Hx).
  apply lookup_lt_Some in Hsx. lia.
Qed.

Lemma apart_rev h l : apart h l -> apart h (rev l).
Proof.
  intros [Hnd Hap]. split.
  - by apply NoDup_ListNoDup, NoDup_rev, NoDup_ListNoDup.
  - intros a b Ha Hb. apply list_elem_of_In, in_rev, list_elem_of_In in Ha, Hb.
    by apply Hap.
Qed.

(** The loop of [_initCollection] throws nothing but a TypeError, and
    returns on an array without empty slot only. *)
Lemma initLoop_Throw points : forall nodes h soma e,
  initLoop points nodes h soma = Throw e -> e = TypeError.
Proof.
  induction points as [|slot points IH]; intros nodes h soma e; simpl; [discriminate|].
  destruct slot as [p|]; simpl; [|by intros [= <-]].
  destruct (Z.eqb _ _); [apply IH|].
  destruct (setParent _ _ _) as [h'| |] eqn:Hset; simpl; [apply IH| |discriminate].
  intros [= <-]. by eapply setParent_Throw.
Qed.

Lemma initLoop_Return_points points : forall nodes h soma r,
  initLoop points nodes h soma = Return r -> points = map Some (omap id points).
Proof.
  induction points as [|slot points IH]; intros nodes h soma r; simpl; [done|].
  destruct slot as [p|]; simpl; [|discriminate].
  intros H. f_equal. destruct (Z.eqb _ _); [by eapply IH|].
  inv_ret. by eapply IH.
Qed.

(** Without a point that is its own parent, the nodes form a forest, of
    one node for each point. *)
Lemma initLoop_forest points nodes h soma :
  initLoop points [] [] [] = Return (nodes, h, soma) ->
  noSelfParent points ->
  forest h /\ table_ok nodes h /\ soma = [] /\ length h = length points.
Proof.
  intros Hinit Hnsp.
  destruct (initLoop_ok _ _ _ _ _ _ _ Hinit store_ok_nil table_ok_nil)
    as (Hok & Ht & Hsoma & Hstrict).
  specialize (Hstrict Hnsp store_strict_nil).
  pose proof (initLoop_Return_points _ _ _ _ _ Hinit) as Hpts.
  set (ps := omap id points) in Hpts. clearbody ps. subst points.
  pose proof (initLoop_collected _ [] _ _ _ _ _ _ Hinit collected_nil table_ok_nil)
    as [Hlen _ _ _ Hids].
  split; [|split; [done|split; [done|]]].
  - split; [done|done|]. intros r n Hr.
    apply (NoDup_omap_inv (idOf h)); [|by eapply Hids].
    intros c Hc. destruct (ok_child _ Hok _ _ _ Hr Hc) as (_ & cn & Hcn & _).
    unfold idOf. rewrite Hcn. by eexists.
  - by rewrite Hlen, length_map.
Qed.

Lemma new_after_init fuel points nodes h :
  initLoop points [] [] [] = Return (nodes, h, []) ->
  TreeNodeCollection.new fuel points
  = _buildSections fuel (TreeNodeCollection.mk nodes h None None None None)
    ≫= _buildMorphologyObjects.
Proof.
  intros Hinit. unfold TreeNodeCollection.new, _initCollection.
  cbn [_nodes store _rawSoma _rawSections _rawMorphology _morphology].
  by rewrite Hinit.
Qed.

(** Once the nodes are a forest that the limits of the engine have room
    for, the sections and the morphology are built without a throw. *)
Lemma construct_safe nodes h fuel :
  forest h -> table_ok nodes h ->
  length h <= S callStack -> length h <= maxArrayLength ->
  safe (_buildSections fuel (TreeNodeCollection.mk nodes h None None None None)
        ≫= _buildMorphologyObjects).
Proof.
  intros Hf Ht Hstack Hlength. pose proof (forest_ok _ Hf) as Hok.
  apply safe_bind.
  - unfold _buildSections. simpl. apply safe_bind.
    + apply findFirstValid_safe; [done|done|]. intros k Hk. by apply Object_keys_own.
    + intros [[f ch]|] Hfirst; [|apply safe_Return].
      apply findFirstValid_Some in Hfirst as (k & fn & _ & _ & Hfn & -> & _).
      apply safe_bind.
      * apply (popping_safe h Hf Hstack Hlength _ _ []). split; simpl.
        -- unfold stack_ok. simpl.
           apply Forall_rev, Forall_map, Forall_forall. intros y Hy. simpl.
           apply list_elem_of_In in Hy.
           destruct (ok_child _ Hok _ _ _ Hfn Hy) as (_ & yn & Hyn & _).
           split; [by eapply lookup_lt_Some|by intros q [=]].
        -- reflexivity.
        -- reflexivity.
        -- constructor.
        -- constructor.
        -- rewrite map_rev, map_map. simpl. rewrite map_id.
           apply apart_rev. by eapply children_apart.
        -- intros g a Hg. by apply elem_of_nil in Hg.
      * intros secs _. destruct (0 <? length secs); apply safe_Return.
  - intros c2 Hc2. unfold _buildSections in Hc2. simpl in Hc2. inv_ret.
    match goal with Hfv : findFirstValid _ _ _ _ = Return ?x |- _ =>
      destruct x as [[f ch]|]; rename Hfv into Hfirst end.
    + inv_ret.
      match goal with Hp : popping _ _ _ = Return ?x |- _ =>
        rename x into secs; rename Hp into Hpop end.
      destruct (0 <? length secs); inv_ret; subst c2.
      * unfold _buildMorphologyObjects. simpl.
        rewrite (build_entries secs None).
        -- apply safe_Return.
        -- eapply popping_wellNumbered; [exact Hpop|].
           apply Forall_rev, Forall_map, Forall_forall. by intros y _.
      * apply safe_Return.
    + inv_ret. subst c2. apply safe_Return.
Qed.

(** Why the loop of [_initCollection] throws: it has met an empty slot
    of the array, or a point whose parent is not registered. *)
Lemma initLoop_Throw_cause rest : forall pre nodes h soma e,
  collected pre nodes h -> table_ok nodes h ->
  initLoop rest nodes h soma = Throw e ->
  (exists i, rest !! i = Some None) \/
  exists i p, parentNotRegistered (map Some pre ++ rest) (length pre + i) p.
Proof.
  induction rest as [|slot rest IH]; intros pre nodes h soma e Hc Ht Hrun;
    [discriminate|].
  destruct slot as [p|]; [|left; by exists 0].
  assert (Hnext : forall nodes1 h1,
            initLoop [Some p] nodes h soma = Return (nodes1, h1, soma) ->
            initLoop rest nodes1 h1 soma = Throw e ->
            (exists i, (Some p :: rest) !! i = Some None) \/
            exists i q,
              parentNotRegistered (map Some pre ++ Some p :: rest) (length pre + i) q).
  { intros nodes1 h1 Hone Hrest.
    pose proof (initLoop_collected [p] pre nodes h soma _ _ _ Hone Hc Ht) as Hc1.
    destruct (initLoop_ok _ _ _ _ _ _ _ Hone (col_ok _ _ _ Hc) Ht) as (_ & Ht1 & _).
    destruct (IH (pre ++ [p]) _ _ _ _ Hc1 Ht1 Hrest) as [(i & Hi)|(i & q & Hq)].
    - left. by exists (S i).
    - right. exists (S i), q.
      rewrite map_app, <- app_assoc, length_app in Hq. simpl in Hq.
      by replace (length pre + S i) with (length pre + 1 + i) by lia. }
  simpl in Hrun. simpl in Hnext.
  destruct (Z.eqb_spec (Point.parentId p) (-1)) as [Hroot|Hroot].
  { by apply (Hnext _ _ eq_refl). }
  destruct (Z.eqb_spec (Point.parentId p) (Point.id p)) as [Hself|Hself].
  { rewrite Hself, obj_get_set_eq in Hrun, Hnext. by apply (Hnext _ _ eq_refl). }
  rewrite obj_get_set_ne in Hrun, Hnext by congruence.
  destruct (obj_get (Point.parentId p) nodes) as [pr|] eqn:Hpr.
  { by apply (Hnext _ _ eq_refl). }
  right. exists 0, p. rewrite Nat.add_0_r. split; [split; [|split]|done].
  - by rewrite lookup_app_r, length_map, Nat.sub_diag by (rewrite length_map; lia).
  - done.
  - intros j q Hj Hq. rewrite lookup_app_l in Hq by (rewrite length_map; lia).
    change (map Some pre) with (Some <$> pre) in Hq.
    rewrite list_lookup_fmap in Hq.
    destruct (pre !! j) as [q'|] eqn:Hq'; [|discriminate].
    injection Hq as ->. rewrite (col_table _ _ _ Hc) in Hpr. intros Hid.
    by apply (lastWithId_Some pre _ j q Hq' Hid).
Qed.

(** Without a point that is its own parent, and within the limits of
    the engine, the constructor throws nothing but a TypeError, on an
    empty slot of the array or on a point whose parent is not
    registered. *)
Lemma new_Throw fuel points e :
  noSelfParent points ->
  length points <= callStack -> length points <= maxArrayLength ->
  TreeNodeCollection.new fuel points = Throw e ->
  e = TypeError /\
  ((exists i, points !! i = Some None) \/
   exists i p, parentNotRegistered points i p).
Proof.
  intros Hnsp Hstack Hlength Hnew.
  destruct (initLoop points [] [] []) as [[[nodes h] soma]|e'|] eqn:Hinit.
  - destruct (initLoop_forest _ _ _ _ Hinit Hnsp) as (Hf & Ht & -> & Hlen).
    rewrite (new_after_init _ _ _ _ Hinit) in Hnew.
    destruct (construct_safe nodes h fuel Hf Ht) with (e := e); [lia|lia|done].
  - pose proof (initLoop_Throw _ _ _ _ _ Hinit) as ->.
    unfold TreeNodeCollection.new, _initCollection in Hnew.
    cbn [_nodes store _rawSoma _rawSections _rawMorphology _morphology] in Hnew.
    rewrite Hinit in Hnew. injection Hnew as <-. split; [done|].
    exact (initLoop_Throw_cause points [] [] [] [] _ collected_nil table_ok_nil Hinit).
  - unfold TreeNodeCollection.new, _initCollection in Hnew.
    cbn [_nodes store _rawSoma _rawSections _rawMorphology _morphology] in Hnew.
    rewrite Hinit in Hnew. discriminate.
Qed.

(** The constructor returns, given enough fuel. *)
Lemma new_returns ps :
  parentsBefore ps ->
  length ps <= callStack -> length ps <= maxArrayLength ->
  exists fuel c, TreeNodeCollection.new fuel (map Some ps) = Return c.
Proof.
  intros Hpb Hstack Hlength.
  pose proof (parentsBefore_noSelfParent _ Hpb) as Hnsp.
  destruct (new_completes _ Hnsp) as [fuel Hfuel]. exists fuel.
  destruct (TreeNodeCollection.new fuel (map Some ps)) as [c|e|] eqn:Hnew;
    [by exists c| |destruct Hfuel].
  destruct (initLoop_returns ps [] [] [] [] collected_nil table_ok_nil Hpb)
    as (nodes & h & Hinit).
  destruct (initLoop_forest _ _ _ _ Hinit Hnsp) as (Hf & Ht & _ & Hlen).
  rewrite length_map in Hlen.
  rewrite (new_after_init _ _ _ _ Hinit) in Hnew.
  destruct (construct_safe nodes h fuel Hf Ht) with (e := e); [lia|lia|done].
Qed.

(** Points that each name as parent -1 or the id of a point before
    them, and never their own id, and that are no more than the engine
    allows calls inside one another and elements in an array, are
    accepted: given enough fuel, the constructor returns, with the same
    result for any larger amount of fuel, and so does the parse of a
    text they were extracted from. *)
Theorem points_with_parents_before_are_parsed ps :
  parentsBefore ps ->
  length ps <= callStack -> length ps <= maxArrayLength ->
  exists fuel c,
    (forall fuel', fuel <= fuel' ->
       TreeNodeCollection.new fuel' (map Some ps) = Return c) /\
    (forall parseFloat Math_round this swcStr fuel',
       SwcParser.extractPoints parseFloat Math_round swcStr = map Some ps ->
       fuel <= fuel' ->
       SwcParser.parse parseFloat Math_round fuel' this swcStr
       = (SwcParser.mk (getMorphology c) (getRawMorphology c), Return tt)).
Proof.
  intros Hpb Hstack Hlength.
  destruct (new_returns ps Hpb Hstack Hlength) as (fuel & c & Hnew).
  assert (Hlater : forall fuel', fuel <= fuel' ->
            TreeNodeCollection.new fuel' (map Some ps) = Return c).
  { intros fuel' Hle.
    destruct (new_mono (map Some ps) fuel fuel' Hle) as [H|H]; [|by rewrite <- H].
    rewrite Hnew in H. discriminate. }
  exists fuel, c. split; [exact Hlater|].
  intros parseFloat Math_round this swcStr fuel' Hx Hle.
  unfold SwcParser.parse. by rewrite Hx, (Hlater fuel' Hle).
Qed.

(** *** Termination, and what is thrown *)


End Accepted.

Section AcceptedWitness.
#[local] Existing Instance smallEngine.
Import TreeNode TreeNodeCollection.

Lemma twoForks_parentsBefore :
  parentsBefore
    (omap id twoForks).
Proof.
  intros i p Hp.
  destruct i as [|[|[|[|[|[|i]]]]]]; simpl in Hp; try discriminate;
    injection Hp as <-; simpl; (split; [lia|]).
  - by left.
  - right. exists 0. eexists. split; [lia|]. split; reflexivity.
  - right. exists 1. eexists. split; [lia|]. split; reflexivity.
  - right. exists 1. eexists. split; [lia|]. split; reflexivity.
  - right. exists 3. eexists. split; [lia|]. split; reflexivity.
  - right. exists 3. eexists. split; [lia|]. split; reflexivity.
Defined.

Lemma points_with_parents_before_witness :
  parentsBefore (omap id twoForks) /\
  length (omap id twoForks) <= callStack /\
  length (omap id twoForks) <= maxArrayLength /\
  exists fuel c,
    (forall fuel', fuel <= fuel' ->
       TreeNodeCollection.new fuel' (map Some (omap id twoForks)) = Return c) /\
    (forall parseFloat Math_round this swcStr fuel',
       SwcParser.extractPoints parseFloat Math_round swcStr
       = map Some (omap id twoForks) ->
       fuel <= fuel' ->
       SwcParser.parse parseFloat Math_round fuel' this swcStr
       = (SwcParser.mk (getMorphology c) (getRawMorphology c), Return tt)).
Proof.
  assert (Hstack : length (omap id twoForks) <= callStack) by (simpl; lia).
  assert (Hlength : length (omap id twoForks) <= maxArrayLength) by (simpl; lia).
  split; [exact twoForks_parentsBefore|]. split; [exact Hstack|].
  split; [exact Hlength|].
  exact (points_with_parents_before_are_parsed _ twoForks_parentsBefore
           Hstack Hlength).
Defined.


End AcceptedWitness.

(** ** Files as they are written *)

Section WrittenFacts.

Abbreviation spaceChar := (fun c : ascii => isSpace c = true).
Abbreviation gapChar := (fun c : ascii => isGap c = true).
Abbreviation nonTerminator := (fun c : ascii => isLineTerminator c = false).
Abbreviation nonHash := (fun c : ascii => isChar "#" c = false).
Abbreviation nonLF := (fun c : ascii => isChar SwcParser.LF c = false).
Abbreviation startsLine t :=
  (match t with [] => True | c :: _ => isDot c = false end).

Lemma gap_space l : Forall gapChar l -> Forall spaceChar l.
Proof. apply List.Forall_impl. intros c Hc. by destruct (gap_facts _ Hc). Qed.

Lemma gap_line l : Forall gapChar l -> Forall nonTerminator l.
Proof. apply List.Forall_impl. intros c Hc. by destruct (gap_facts _ Hc). Qed.

Lemma ending_space c : Forall spaceChar (ending c).
Proof. destruct c; repeat constructor. Qed.

Lemma space_nonHash l : Forall spaceChar l -> Forall nonHash l.
Proof.
  apply List.Forall_impl. intros c Hc.
  destruct (isChar "#" c) eqn:E; [|done].
  by rewrite (hash_not_space _ E) in Hc.
Qed.

Lemma line_nonLF l : Forall nonTerminator l -> Forall nonLF l.
Proof.
  apply List.Forall_impl. intros c Hc.
  destruct (isChar SwcParser.LF c) eqn:E; [|done].
  by rewrite (isChar_eq _ _ E) in Hc.
Qed.

Lemma ending_nonLF c : Forall nonLF (ending c).
Proof. destruct c; repeat constructor. Qed.

(** *** Comments *)

Lemma commentAt_spaces w : Forall spaceChar w -> commentAt w = None.
Proof.
  induction 1 as [|c w Hc Hw IH]; [reflexivity|].
  by rewrite commentAt_cons, Hc, IH.
Qed.

Lemma uncomment_spaces w : forall prev,
  Forall spaceChar w -> remove_all true SwcParser.re_comment 0 prev w = w.
Proof.
  induction w as [|c w IH]; intros prev Hw; [reflexivity|].
  rewrite uncomment_keep.
  - apply List.Forall_cons_iff in Hw as [_ Hw]. by rewrite IH.
  - by apply commentAt_spaces.
Qed.

Lemma commentAt_after_spaces w tx t :
  Forall spaceChar w -> Forall (fun c => isDot c = true) tx -> startsLine t ->
  commentAt (w ++ "#"%char :: tx ++ t) = Some (length (w ++ "#"%char :: tx)).
Proof.
  intros Hw Htx Ht. induction Hw as [|c w Hc Hw IH]; simpl app;
    rewrite commentAt_cons.
  - change (isSpace "#") with false. change (isChar "#" "#") with true.
    cbv iota. by rewrite (run_line isDot tx t Htx Ht).
  - by rewrite Hc, IH.
Qed.

Lemma uncomment_comment w tx t prev :
  Forall spaceChar w -> Forall (fun c => isDot c = true) tx -> startsLine t ->
  remove_all true SwcParser.re_comment 0 prev (w ++ "#"%char :: tx ++ t)
  = remove_all true SwcParser.re_comment 0 None t.
Proof.
  intros Hw Htx Ht.
  change (w ++ "#"%char :: tx ++ t) with (w ++ ("#"%char :: tx) ++ t).
  rewrite app_assoc. apply uncomment_match.
  - by destruct w.
  - rewrite <- app_assoc. by apply commentAt_after_spaces.
Qed.

Lemma uncomment_after_row w l t prev :
  Forall spaceChar w -> rowText l ->
  remove_all true SwcParser.re_comment 0 prev (w ++ l ++ t)
  = w ++ l ++ remove_all true SwcParser.re_comment 0 None t.
Proof.
  intros Hw (Hall & _ & l' & z & -> & Hz).
  apply Forall_app in Hall as [Hl' Hz'].
  apply List.Forall_cons_iff in Hz' as [[_ Hzh] _].
  rewrite <- !app_assoc. simpl app. rewrite !app_assoc.
  apply uncomment_row; [|done|done].
  apply Forall_app. split; [by apply space_nonHash|].
  eapply List.Forall_impl; [|exact Hl']. by intros c [_ ?].
Qed.

Lemma uncomment_LF t :
  trim (remove_all true SwcParser.re_comment 0 None (SwcParser.LF :: t))
  = trim (remove_all true SwcParser.re_comment 0 None t).
Proof.
  rewrite remove_all_cons, rmatch_comment, commentAt_cons.
  change (isSpace SwcParser.LF) with true. cbv iota.
  destruct (commentAt t) as [n|] eqn:Hn; simpl succ_len; cbv iota.
  - destruct t as [|c t]; [discriminate|].
    rewrite remove_all_cons, rmatch_comment, Hn.
    destruct n as [|n]; [|reflexivity].
    exfalso. rewrite commentAt_cons in Hn.
    destruct (isSpace c); [by destruct (commentAt t)|].
    by destruct (isChar "#" c).
  - by rewrite trim_LF, uncomment_prev.
Qed.

Lemma gapped_cons tr c ind r gs t :
  concat (map render_gapped (mkGapped tr c ind r :: gs)) ++ t
  = (tr ++ ending c ++ SwcParser.LF :: ind) ++ render_row r
    ++ concat (map render_gapped gs) ++ t.
Proof.
  change (concat (map render_gapped (mkGapped tr c ind r :: gs)))
    with (render_gapped (mkGapped tr c ind r) ++ concat (map render_gapped gs)).
  unfold render_gapped at 1. cbn [g_trailing g_cr g_indent g_row].
  rewrite <- !app_assoc. f_equal. f_equal. simpl. by rewrite <- !app_assoc.
Qed.

(** What is left of a file without its comments. *)
Lemma uncomment_written doc : forall tr c prev,
  Forall gapChar tr ->
  Forall (fun w => wf_written w = true) doc ->
  remove_all true SwcParser.re_comment 0 prev
    (tr ++ ending c ++ tailLines (map render_written doc))
  = concat (map render_gapped (gaps tr c doc)) ++ leftover tr c doc.
Proof.
  induction doc as [|w doc IH]; intros tr c prev Htr Hdoc.
  - simpl. rewrite app_nil_r. apply uncomment_spaces.
    apply Forall_app. split; [by apply gap_space|apply ending_space].
  - apply List.Forall_cons_iff in Hdoc as [Hw Hdoc].
    unfold wf_written in Hw.
    apply andb_true_iff in Hw as [Hw Htrail].
    apply andb_true_iff in Hw as [Hind Hline].
    assert (Hind' : Forall gapChar (indent w)).
    { apply Forall_forall. exact (proj1 (forallb_forall _ _) Hind). }
    assert (Htrail' : Forall gapChar (trailing w)).
    { apply Forall_forall. exact (proj1 (forallb_forall _ _) Htrail). }
    clear Hind Htrail.
    assert (Hws : Forall spaceChar (tr ++ ending c ++ SwcParser.LF :: indent w)).
    { apply Forall_app. split; [by apply gap_space|].
      apply Forall_app. split; [apply ending_space|].
      constructor; [reflexivity|by apply gap_space]. }
    assert (Hnext : startsLine (ending (cr w) ++ tailLines (map render_written doc))).
    { destruct (cr w); [reflexivity|]. simpl. apply tailLines_starts. }
    simpl map. rewrite tailLines_cons. unfold render_written at 1.
    simpl gaps. simpl leftover.
    destruct (content w) as [gp text|r [[gp text]|]] eqn:Hc; simpl render_line.
    + simpl in Hline. apply wf_comment_chars in Hline as [Hgp Htext].
      transitivity (remove_all true SwcParser.re_comment 0 prev
        ((tr ++ ending c ++ SwcParser.LF :: indent w ++ gp) ++ "#"%char
           :: (text ++ trailing w)
           ++ (ending (cr w) ++ tailLines (map render_written doc)))).
      { f_equal. unfold render_comment. rewrite <- !app_assoc. simpl.
        rewrite <- !app_assoc. reflexivity. }
      rewrite uncomment_comment.
      * by apply (IH [] (cr w) None).
      * pose proof (proj2 (Forall_app _ _ _) (conj Hws (gap_space _ Hgp))) as H.
        rewrite <- !app_assoc in H. exact H.
      * apply Forall_app. split; [done|].
        eapply List.Forall_impl; [|exact Htrail']. intros x Hx.
        destruct (gap_facts _ Hx) as [_ Hx']. unfold isDot. by rewrite Hx'.
      * exact Hnext.
    + simpl in Hline. apply andb_true_iff in Hline as [Hr Hcom].
      apply wf_comment_chars in Hcom as [Hgp Htext].
      transitivity (remove_all true SwcParser.re_comment 0 prev
        ((tr ++ ending c ++ SwcParser.LF :: indent w) ++ render_row r
           ++ (gp ++ "#"%char :: (text ++ trailing w)
               ++ (ending (cr w) ++ tailLines (map render_written doc))))).
      { f_equal. unfold render_comment. rewrite <- !app_assoc. simpl.
        rewrite <- ?app_assoc. reflexivity. }
      rewrite (uncomment_after_row _ _ _ _ Hws (wf_row_text _ Hr)).
      rewrite uncomment_comment.
      * change (ending (cr w) ++ tailLines (map render_written doc))
          with ([] ++ ending (cr w) ++ tailLines (map render_written doc)).
        rewrite (IH [] (cr w) None); [|constructor|done].
        symmetry. apply gapped_cons.
      * by apply gap_space.
      * apply Forall_app. split; [done|].
        eapply List.Forall_impl; [|exact Htrail']. intros x Hx.
        destruct (gap_facts _ Hx) as [_ Hx']. unfold isDot. by rewrite Hx'.
      * exact Hnext.
    + simpl in Hline.
      transitivity (remove_all true SwcParser.re_comment 0 prev
        ((tr ++ ending c ++ SwcParser.LF :: indent w) ++ render_row r
           ++ (trailing w ++ ending (cr w) ++ tailLines (map render_written doc)))).
      { f_equal. rewrite <- !app_assoc. simpl. rewrite <- ?app_assoc. reflexivity. }
      rewrite (uncomment_after_row _ _ _ _ Hws (wf_row_text _ Hline)).
      rewrite (IH (trailing w) (cr w) None); [|done|done].
      symmetry. apply gapped_cons.
Qed.

Lemma wf_written_parts w :
  wf_written w = true ->
  Forall gapChar (indent w) /\ wf_line (content w) = true /\
  Forall gapChar (trailing w).
Proof.
  unfold wf_written. intros Hw.
  apply andb_true_iff in Hw as [Hw Htrail].
  apply andb_true_iff in Hw as [Hind Hline].
  repeat split; [|done|]; apply Forall_forall.
  - exact (proj1 (forallb_forall _ _) Hind).
  - exact (proj1 (forallb_forall _ _) Htrail).
Qed.

Lemma gaps_wf doc : forall tr c,
  Forall gapChar tr ->
  Forall (fun w => wf_written w = true) doc ->
  Forall wf_gapped (gaps tr c doc) /\ Forall spaceChar (leftover tr c doc) /\
  map g_row (gaps tr c doc) = rowsWritten doc.
Proof.
  unfold rowsWritten.
  induction doc as [|w doc IH]; intros tr c Htr Hdoc.
  - simpl. split; [constructor|]. split; [|reflexivity].
    apply Forall_app. split; [by apply gap_space|apply ending_space].
  - apply List.Forall_cons_iff in Hdoc as [Hw Hdoc].
    apply wf_written_parts in Hw as (Hind & Hline & Htrail).
    simpl. destruct (content w) as [gp text|r [[gp text]|]] eqn:Hc.
    + apply IH; [constructor|done].
    + destruct (IH [] (cr w)) as (H1 & H2 & H3); [constructor|done|].
      repeat split; [|done|simpl; by rewrite H3].
      constructor; [|done]. repeat split; try done.
      by eapply wf_line_row.
    + destruct (IH (trailing w) (cr w)) as (H1 & H2 & H3); [done|done|].
      repeat split; [|done|simpl; by rewrite H3].
      constructor; [|done]. by repeat split.
Qed.

(** *** [trim] *)

Lemma dropWhile_spaces w t :
  Forall spaceChar w -> dropWhile isSpace (w ++ t) = dropWhile isSpace t.
Proof. induction 1 as [|c w Hc Hw IH]; [reflexivity|]. simpl. by rewrite Hc. Qed.

Lemma trim_spaces w : Forall spaceChar w -> trim w = [].
Proof.
  intros Hw. unfold trim.
  rewrite <- (app_nil_r w), (dropWhile_spaces _ _ Hw). reflexivity.
Qed.

Lemma trim_around w s w' :
  Forall spaceChar w -> Forall spaceChar w' ->
  (exists c l, s = c :: l /\ isSpace c = false) ->
  (exists l z, s = l ++ [z] /\ isSpace z = false) ->
  trim (w ++ s ++ w') = s.
Proof.
  intros Hw Hw' (c & l & Hs & Hc) (l' & z & Hs' & Hz). unfold trim.
  rewrite (dropWhile_spaces _ _ Hw).
  assert (H : dropWhile isSpace (s ++ w') = s ++ w').
  { rewrite Hs. simpl. by rewrite Hc. }
  rewrite H, rev_app_distr, dropWhile_spaces.
  - rewrite Hs', rev_unit. simpl dropWhile. rewrite Hz.
    change (rev (z :: rev l')) with (rev (rev l') ++ [z]).
    by rewrite rev_involutive.
  - apply Forall_rev. exact Hw'.
Qed.

Lemma gapped_last gs : forall l z,
  Forall wf_gapped gs -> isSpace z = false ->
  exists l' z', (l ++ [z]) ++ concat (map render_gapped gs) = l' ++ [z']
                /\ isSpace z' = false.
Proof.
  induction gs as [|g gs IH]; intros l z Hgs Hz.
  - exists l, z. split; [|done]. simpl. by rewrite app_nil_r.
  - apply List.Forall_cons_iff in Hgs as [(_ & _ & Hr) Hgs].
    destruct (wf_row_text _ Hr) as (_ & _ & l2 & z2 & Hrow & Hz2).
    destruct (IH ((l ++ [z]) ++ g_trailing g ++ ending (g_cr g)
                    ++ SwcParser.LF :: g_indent g ++ l2) z2 Hgs Hz2)
      as (l' & z' & Heq & Hz').
    exists l', z'. split; [|done]. rewrite <- Heq.
    change (concat (map render_gapped (g :: gs)))
      with (render_gapped g ++ concat (map render_gapped gs)).
    unfold render_gapped. rewrite Hrow. rewrite <- !app_assoc. simpl.
    rewrite <- !app_assoc. reflexivity.
Qed.

(** The text of a file without its comments, trimmed: its rows, from
    the first field of the first one to the last field of the last. *)
Lemma trim_written doc :
  Forall (fun w => wf_written w = true) doc ->
  trim (remove_all true SwcParser.re_comment 0 None
          (joinLines (map render_written doc)))
  = inner (gaps [] false doc).
Proof.
  intros Hdoc. destruct doc as [|w doc]; [reflexivity|].
  rewrite <- uncomment_LF.
  change (SwcParser.LF :: joinLines (map render_written (w :: doc)))
    with ([] ++ ending false ++ tailLines (map render_written (w :: doc))).
  rewrite (uncomment_written _ _ _ _ (Forall_nil _) Hdoc).
  destruct (gaps_wf (w :: doc) [] false (Forall_nil _) Hdoc) as (Hgs & Hleft & _).
  destruct (gaps [] false (w :: doc)) as [|g gs].
  - simpl. by apply trim_spaces.
  - apply List.Forall_cons_iff in Hgs as [(Htr & Hind & Hr) Hgs].
    destruct g as [tr c ind r]. simpl in Htr, Hind, Hr.
    rewrite gapped_cons. unfold inner. cbn [g_row].
    rewrite (app_assoc (render_row r)).
    destruct (wf_row_text _ Hr) as (_ & Hhead & l2 & z2 & Hrow & Hz2).
    apply trim_around.
    + apply Forall_app. split; [by apply gap_space|].
      apply Forall_app. split; [apply ending_space|].
      constructor; [reflexivity|by apply gap_space].
    + exact Hleft.
    + destruct Hhead as (c0 & l0 & Hl0 & Hc0).
      exists c0, (l0 ++ concat (map render_gapped gs)). split; [|done].
      by rewrite Hl0.
    + rewrite Hrow. by apply gapped_last.
Qed.

(** *** Empty lines *)

Lemma rmatch_empty_line prev a z b :
  Forall nonTerminator a -> isSpace z = false ->
  rmatch true SwcParser.re_empty prev (a ++ z :: b) = None.
Proof.
  intros Ha Hz. unfold SwcParser.re_empty. rewrite rmatch_bol.
  destruct (at_bol true prev); [|reflexivity].
  by apply rmatch_spaces_eol.
Qed.

Lemma rmatch_empty_LF prev a z b :
  Forall nonTerminator a -> isSpace z = false ->
  rmatch true SwcParser.re_empty prev (SwcParser.LF :: a ++ z :: b) = None
  \/ rmatch true SwcParser.re_empty prev (SwcParser.LF :: a ++ z :: b) = Some 0.
Proof.
  intros Ha Hz. unfold SwcParser.re_empty. rewrite rmatch_bol.
  destruct (at_bol true prev); [|by left]. right.
  rewrite rmatch_star_cons. change (isSpace SwcParser.LF) with true. cbv iota.
  rewrite (rmatch_spaces_eol _ _ _ _ Ha Hz). reflexivity.
Qed.

Lemma quiet_empty_line a z t : forall prev,
  Forall nonTerminator a -> isSpace z = false ->
  quiet true SwcParser.re_empty (Some z) t ->
  quiet true SwcParser.re_empty prev (a ++ z :: t).
Proof.
  induction a as [|c a IH]; intros prev Ha Hz Ht; simpl app.
  - split; [|done]. left. by apply rmatch_empty_field.
  - split.
    + left. by apply (rmatch_empty_line prev (c :: a) z t).
    + apply List.Forall_cons_iff in Ha as [_ Ha]. by apply IH.
Qed.

Lemma quiet_empty_inside a t : forall x,
  isLineTerminator x = false -> Forall nonTerminator a ->
  (forall y, isLineTerminator y = false ->
     quiet true SwcParser.re_empty (Some y) t) ->
  quiet true SwcParser.re_empty (Some x) (a ++ t).
Proof.
  induction a as [|c a IH]; intros x Hx Ha Ht; simpl app; [by apply Ht|].
  apply List.Forall_cons_iff in Ha as [Hc Ha]. split.
  - left. apply rmatch_empty_inside. simpl. exact Hx.
  - by apply IH.
Qed.

Lemma quiet_empty_gaps gs : forall x,
  Forall wf_gapped gs -> isLineTerminator x = false ->
  quiet true SwcParser.re_empty (Some x) (concat (map render_gapped gs)).
Proof.
  induction gs as [|g gs IH]; intros x Hgs Hx; [done|].
  apply List.Forall_cons_iff in Hgs as [(Htr & Hind & Hr) Hgs].
  change (concat (map render_gapped (g :: gs)))
    with (render_gapped g ++ concat (map render_gapped gs)).
  destruct (wf_row_text _ Hr) as (Hall & _ & l2 & z2 & Hrow & Hz2).
  assert (Hl2 : Forall nonTerminator l2).
  { rewrite Hrow in Hall. apply Forall_app in Hall as [Hall _].
    eapply List.Forall_impl; [|exact Hall]. by intros c [? _]. }
  assert (Hline : Forall nonTerminator (g_indent g ++ l2)).
  { apply Forall_app. split; [by apply gap_line|done]. }
  assert (Htext : render_gapped g ++ concat (map render_gapped gs)
                  = g_trailing g ++ ending (g_cr g)
                    ++ SwcParser.LF :: (g_indent g ++ l2)
                    ++ z2 :: concat (map render_gapped gs)).
  { unfold render_gapped. rewrite Hrow, <- !app_assoc. simpl.
    rewrite <- !app_assoc. reflexivity. }
  rewrite Htext.
  assert (Hq : forall prev, quiet true SwcParser.re_empty prev
                 ((g_indent g ++ l2) ++ z2 :: concat (map render_gapped gs))).
  { intros prev. apply quiet_empty_line; [done|done|].
    apply IH; [done|]. by apply space_not_terminator. }
  apply quiet_empty_inside; [done|by apply gap_line|]. intros y Hy.
  destruct (g_cr g); simpl app.
  - split; [left; apply rmatch_empty_inside; simpl; exact Hy|].
    split; [by apply rmatch_empty_LF|]. apply Hq.
  - split; [by apply rmatch_empty_LF|]. apply Hq.
Qed.

Lemma quiet_empty_inner gs :
  Forall wf_gapped gs -> quiet true SwcParser.re_empty None (inner gs).
Proof.
  intros Hgs. destruct gs as [|g gs]; [done|].
  apply List.Forall_cons_iff in Hgs as [(_ & _ & Hr) Hgs]. unfold inner.
  destruct (wf_row_text _ Hr) as (Hall & _ & l2 & z2 & Hrow & Hz2).
  rewrite Hrow, <- app_assoc. simpl app.
  apply quiet_empty_line; [|done|].
  - rewrite Hrow in Hall. apply Forall_app in Hall as [Hall _].
    eapply List.Forall_impl; [|exact Hall]. by intros c [? _].
  - apply quiet_empty_gaps; [done|]. by apply space_not_terminator.
Qed.

(** *** The lines *)

Lemma split_char_nonLF l : forall piece t,
  Forall nonLF l ->
  split_char SwcParser.LF piece (l ++ t) = split_char SwcParser.LF (piece ++ l) t.
Proof.
  induction l as [|c l IH]; intros piece t Hl; simpl app.
  - by rewrite app_nil_r.
  - apply List.Forall_cons_iff in Hl as [Hc Hl]. rewrite split_char_cons.
    rewrite Hc, (IH _ _ Hl). by rewrite <- app_assoc.
Qed.

Lemma split_char_gaps gs : forall piece,
  Forall wf_gapped gs ->
  split_char SwcParser.LF piece (concat (map render_gapped gs))
  = linesFrom piece gs.
Proof.
  induction gs as [|g gs IH]; intros piece Hgs; [reflexivity|].
  apply List.Forall_cons_iff in Hgs as [(Htr & Hind & Hr) Hgs].
  change (concat (map render_gapped (g :: gs)))
    with (render_gapped g ++ concat (map render_gapped gs)).
  unfold render_gapped. rewrite <- !app_assoc.
  rewrite (split_char_nonLF (g_trailing g)) by (by apply line_nonLF, gap_line).
  rewrite (split_char_nonLF (ending (g_cr g))) by apply ending_nonLF.
  simpl app. rewrite split_char_cons.
  change (isChar SwcParser.LF SwcParser.LF) with true. cbv iota.
  rewrite <- ?app_assoc.
  rewrite (split_char_nonLF (g_indent g)) by (by apply line_nonLF, gap_line).
  rewrite (split_char_nonLF (render_row (g_row g))).
  - rewrite (IH _ Hgs). simpl. rewrite <- ?app_assoc. reflexivity.
  - apply line_nonLF. destruct (wf_row_text _ Hr) as (Hall & _).
    eapply List.Forall_impl; [|exact Hall]. by intros c [? _].
Qed.

Lemma split_char_inner g gs :
  Forall wf_gapped (g :: gs) ->
  split_char SwcParser.LF [] (inner (g :: gs))
  = linesFrom (render_row (g_row g)) gs.
Proof.
  intros Hgs. apply List.Forall_cons_iff in Hgs as [(_ & _ & Hr) Hgs].
  unfold inner. rewrite split_char_nonLF, split_char_gaps; [done|done|].
  apply line_nonLF. destruct (wf_row_text _ Hr) as (Hall & _).
  eapply List.Forall_impl; [|exact Hall]. by intros c [? _].
Qed.

(** *** White space around a line *)

Lemma rmatch_spaces_end prev w :
  Forall spaceChar w ->
  rmatch true [Many Greedy false isSpace; Eol] prev w = Some (length w).
Proof.
  intros Hw. revert prev. induction Hw as [|c w Hc Hw IH]; intros prev.
  - reflexivity.
  - rewrite rmatch_star_cons, Hc, IH. reflexivity.
Qed.

Lemma rmatch_trailing_end prev c w :
  Forall spaceChar (c :: w) ->
  rmatch true SwcParser.re_trailing prev (c :: w) = Some (length (c :: w)).
Proof.
  intros Hw. apply List.Forall_cons_iff in Hw as [Hc Hw].
  unfold SwcParser.re_trailing. rewrite rmatch_plus, Hc.
  by rewrite (rmatch_spaces_end _ _ Hw).
Qed.

Lemma remove_first_eq m r prev s :
  remove_first m r prev s
  = match rmatch m r prev s with
    | Some n => drop n s
    | None =>
        match s with
        | [] => []
        | c :: s' => c :: remove_first m r (Some c) s'
        end
    end.
Proof. by destruct s. Qed.

Lemma remove_trailing l z w : forall prev,
  Forall nonTerminator l -> isSpace z = false -> Forall spaceChar w ->
  remove_first true SwcParser.re_trailing prev (l ++ z :: w) = l ++ [z].
Proof.
  induction l as [|c l IH]; intros prev Hl Hz Hw; simpl app.
  - pose proof (rmatch_trailing prev [] z w Hl Hz) as H. simpl app in H.
    rewrite remove_first_eq, H.
    f_equal. destruct w as [|c w]; [reflexivity|].
    rewrite remove_first_eq, (rmatch_trailing_end _ _ _ Hw).
    by rewrite drop_all.
  - pose proof (rmatch_trailing prev (c :: l) z w Hl Hz) as H. simpl app in H.
    rewrite remove_first_eq, H.
    apply List.Forall_cons_iff in Hl as [_ Hl]. by rewrite IH.
Qed.

Lemma rmatch_leading_start c w z t :
  Forall spaceChar (c :: w) -> isSpace z = false ->
  rmatch true SwcParser.re_leading None ((c :: w) ++ z :: t)
  = Some (length (c :: w)).
Proof.
  intros Hw Hz. apply List.Forall_cons_iff in Hw as [Hc Hw].
  unfold SwcParser.re_leading. rewrite rmatch_bol. simpl at_bol. cbv iota.
  simpl app. rewrite rmatch_plus, Hc, rmatch_star_end.
  rewrite (run_line isSpace w (z :: t)); [reflexivity|exact Hw|exact Hz].
Qed.

Lemma quiet_leading_end l e : forall prev,
  Forall nonTerminator l -> e = [] \/ e = [CR] ->
  at_bol true prev = false \/ (exists c l', l = c :: l' /\ isSpace c = false) ->
  quiet true SwcParser.re_leading prev (l ++ e).
Proof.
  induction l as [|c l IH]; intros prev Hl He Hstart; simpl app.
  - destruct He as [-> | ->]; [done|]. split; [|done]. left.
    destruct Hstart as [H|(c' & l' & [=] & _)].
    by apply rmatch_leading_inside.
  - apply List.Forall_cons_iff in Hl as [Hc Hl]. split.
    + left. destruct Hstart as [H|(c' & l' & [= <- <-] & H)].
      * by apply rmatch_leading_inside.
      * by apply rmatch_leading_field.
    + apply IH; [done|done|]. left. simpl. exact Hc.
Qed.

(** A line without the white space around it is its row. *)
Lemma unspace_line ind r tr c :
  Forall gapChar ind -> wf_row r = true -> Forall gapChar tr ->
  unspace (ind ++ render_row r ++ tr ++ ending c) = render_row r.
Proof.
  intros Hind Hr Htr. unfold unspace.
  destruct (wf_row_text _ Hr) as (Hall & (c0 & l0 & Hl0 & Hc0) & l2 & z2 & Hrow & Hz2).
  assert (Hline : Forall nonTerminator (render_row r)).
  { eapply List.Forall_impl; [|exact Hall]. by intros x [? _]. }
  assert (Hlead : remove_first true SwcParser.re_leading None
                    (ind ++ render_row r ++ tr ++ ending c)
                  = render_row r ++ tr ++ ending c).
  { destruct ind as [|i ind].
    - simpl app. rewrite app_assoc. apply remove_first_quiet.
      apply quiet_leading_end.
      + apply Forall_app. split; [done|by apply gap_line].
      + destruct c; [by right|by left].
      + right. exists c0, (l0 ++ tr). split; [|done]. by rewrite Hl0.
    - rewrite Hl0. simpl app at 2.
      rewrite remove_first_eq.
      rewrite (rmatch_leading_start i ind c0 _ (gap_space _ Hind) Hc0).
      by rewrite drop_app_length. }
  rewrite Hlead, Hrow, <- app_assoc. simpl app.
  apply remove_trailing; [|done|].
  - rewrite Hrow in Hline. by apply Forall_app in Hline as [? _].
  - apply Forall_app. split; [by apply gap_space|apply ending_space].
Qed.

Lemma unspace_indented ind r :
  Forall gapChar ind -> wf_row r = true ->
  unspace (ind ++ render_row r) = render_row r.
Proof.
  intros Hind Hr.
  pose proof (unspace_line ind r [] false Hind Hr (Forall_nil _)) as H.
  change (ind ++ render_row r ++ [] ++ ending false)
    with (ind ++ render_row r ++ []) in H.
  by rewrite app_nil_r in H.
Qed.

Lemma unspace_row r : wf_row r = true -> unspace (render_row r) = render_row r.
Proof. intros Hr. by apply (unspace_indented [] r). Qed.

End WrittenFacts.

(** ** What [extractPoints] makes of a file as it is written *)

Section ExtractWritten.
Variable parseFloat : string -> float.
Variable Math_round : float -> Z.

Lemma linesLoop_unspace lines lines' :
  map unspace lines = map unspace lines' ->
  forall i swcPoints,
    SwcParser.linesLoop parseFloat Math_round lines i swcPoints
    = SwcParser.linesLoop parseFloat Math_round lines' i swcPoints.
Proof.
  revert lines'. induction lines as [|l lines IH]; intros [|l' lines'] H;
    try discriminate; [reflexivity|].
  injection H as Hl Hlines. intros i swcPoints.
  rewrite !linesLoop_cons. cbv zeta. fold (unspace l). fold (unspace l').
  rewrite Hl. by apply IH.
Qed.

Lemma unspace_linesFrom gs : forall ind r,
  Forall (fun c => isGap c = true) ind -> wf_row r = true ->
  Forall wf_gapped gs ->
  map unspace (linesFrom (ind ++ render_row r) gs)
  = map unspace (map render_row (r :: map g_row gs)).
Proof.
  induction gs as [|g gs IH]; intros ind r Hind Hr Hgs.
  - simpl. f_equal. by rewrite unspace_indented, unspace_row.
  - apply List.Forall_cons_iff in Hgs as [(Htr & Hind' & Hr') Hgs].
    simpl linesFrom. simpl map. f_equal.
    + by rewrite <- app_assoc, (unspace_line ind r _ _ Hind Hr Htr), unspace_row.
    + apply (IH _ _ Hind' Hr' Hgs).
Qed.

(** The array [extractPoints] makes of the text of a file as it is
    written. *)
Lemma extractPoints_written doc :
  Forall (fun w => wf_written w = true) doc ->
  SwcParser.extractPoints parseFloat Math_round (write doc)
  = trunc (map (slot parseFloat Math_round) (rowsWritten doc)).
Proof.
  intros Hdoc. unfold SwcParser.extractPoints, write.
  rewrite list_ascii_of_string_of_list_ascii, (trim_written _ Hdoc).
  destruct (gaps_wf doc [] false (Forall_nil _) Hdoc) as (Hgs & _ & Hrows).
  rewrite <- Hrows.
  rewrite (remove_all_quiet _ _ _ _ (quiet_empty_inner _ Hgs)).
  destruct (gaps [] false doc) as [|g gs]; [reflexivity|].
  rewrite (split_char_inner _ _ Hgs).
  pose proof Hgs as Hgs'.
  apply List.Forall_cons_iff in Hgs' as [(_ & _ & Hr) Hgs'].
  rewrite (linesLoop_unspace _ (map render_row (g_row g :: map g_row gs))).
  - apply (linesLoop_rows parseFloat Math_round (g_row g :: map g_row gs) []).
    constructor; [done|]. apply Forall_map.
    eapply List.Forall_impl; [|exact Hgs']. by intros x (_ & _ & ?).
  - apply (unspace_linesFrom gs [] (g_row g)); [constructor|done|done].
Qed.

(** White space and carriage returns do not count: a file whose rows
    are indented, followed by white space, or ended by a carriage
    return before the line feed, with lines of comment and remarks,
    gives the array of the points of its rows, as if it were made of
    its rows only.  When every row has seven fields or more, the array
    is the list of the points of the rows. *)
Theorem extractPoints_ignores_white_space doc :
  Forall (fun w => wf_written w = true) doc ->
  SwcParser.extractPoints parseFloat Math_round (write doc)
  = SwcParser.extractPoints parseFloat Math_round
      (render (plain (rowsWritten doc))) /\
  (Forall (fun r => 7 <= length (fields r)) (rowsWritten doc) ->
   SwcParser.extractPoints parseFloat Math_round (write doc)
   = map (fun r => Some (rowPoint parseFloat Math_round (fields r)))
       (rowsWritten doc)).
Proof.
  intros Hdoc.
  assert (Hwf : Forall (fun r => wf_row r = true) (rowsWritten doc)).
  { destruct (gaps_wf doc [] false (Forall_nil _) Hdoc) as (Hgs & _ & Hrows).
    rewrite <- Hrows. apply Forall_map.
    eapply List.Forall_impl; [|exact Hgs]. by intros x (_ & _ & ?). }
  rewrite (extractPoints_written _ Hdoc).
  rewrite (extractPoints_doc _ _ _ (plain_wf _ Hwf)), rowsOf_plain.
  split; [reflexivity|]. intros Hseven.
  assert (Hs : map (slot parseFloat Math_round) (rowsWritten doc)
               = map Some (map (fun r => rowPoint parseFloat Math_round (fields r))
                             (rowsWritten doc))).
  { rewrite map_map. apply map_ext_Forall.
    eapply List.Forall_impl; [|exact Hseven]. intros r Hr. cbv beta in Hr.
    unfold slot. destruct (Nat.leb_spec 7 (length (fields r))); [done|lia]. }
  by rewrite Hs, trunc_filled, map_map.
Qed.

End ExtractWritten.

Lemma extractPoints_ignores_white_space_witness :
  Forall (fun w => wf_written w = true) fileAsWritten /\
  forall parseFloat Math_round,
    SwcParser.extractPoints parseFloat Math_round (write fileAsWritten)
    = [parsed parseFloat Math_round "1" "1" "0" "0" "0" "5" "-1";
       parsed parseFloat Math_round "2" "2" "1" "0" "0" "1" "1"].
Proof.
  assert (H : Forall (fun w => wf_written w = true) fileAsWritten)
    by (repeat constructor).
  split; [exact H|]. intros parseFloat Math_round.
  refine (proj2 (extractPoints_ignores_white_space parseFloat Math_round
                   fileAsWritten H) _).
  repeat constructor.
Defined.

(** ** Blank lines *)

Section BlankLines.
Context {eng : engine}.

Abbreviation gapChar := (fun c : ascii => isGap c = true).
Abbreviation nonTerminator := (fun c : ascii => isLineTerminator c = false).
Abbreviation nonHash := (fun c : ascii => isChar "#" c = false).

Lemma tailLines_app ls ls' : tailLines (ls ++ ls') = tailLines ls ++ tailLines ls'.
Proof. unfold tailLines. by rewrite map_app, concat_app. Qed.

Lemma commentAt_nonHash s : Forall nonHash s -> commentAt s = None.
Proof.
  induction 1 as [|c s Hc Hs IH]; [reflexivity|].
  rewrite commentAt_cons, IH, Hc. by destruct (isSpace c).
Qed.

Lemma uncomment_nonHash s : forall prev,
  Forall nonHash s -> remove_all true SwcParser.re_comment 0 prev s = s.
Proof.
  induction s as [|c s IH]; intros prev Hs; [reflexivity|].
  rewrite uncomment_keep; [|by apply commentAt_nonHash].
  apply List.Forall_cons_iff in Hs as [_ Hs]. by rewrite IH.
Qed.

Lemma tailLines_Forall (P : ascii -> Prop) ls :
  P SwcParser.LF -> Forall (Forall P) ls -> Forall P (tailLines ls).
Proof.
  intros HP. induction 1 as [|l ls Hl Hls IH]; [constructor|].
  rewrite tailLines_cons. constructor; [done|]. by apply Forall_app.
Qed.

(** *** Empty lines, and lines of white space *)

Lemma unempty_row l z t t' : forall prev,
  Forall nonTerminator l -> isSpace z = false ->
  remove_all true SwcParser.re_empty 0 (Some z) t = t' ->
  remove_all true SwcParser.re_empty 0 prev (l ++ z :: t) = l ++ z :: t'.
Proof.
  induction l as [|c l IH]; intros prev Hl Hz Ht; simpl app.
  - by rewrite remove_all_cons, rmatch_empty_field, Ht.
  - pose proof (rmatch_empty_line prev (c :: l) z t Hl Hz) as H.
    simpl app in H. rewrite remove_all_cons, H.
    apply List.Forall_cons_iff in Hl as [_ Hl]. by rewrite (IH _ Hl Hz Ht).
Qed.

Lemma unempty_rowText l t t' prev :
  rowText l ->
  (forall x, isLineTerminator x = false ->
     remove_all true SwcParser.re_empty 0 (Some x) t = t') ->
  remove_all true SwcParser.re_empty 0 prev (l ++ t) = l ++ t'.
Proof.
  intros (Hall & _ & l' & z & -> & Hz) Ht.
  apply Forall_app in Hall as [Hl' _].
  rewrite <- !app_assoc. simpl app. apply unempty_row; [|done|].
  - eapply List.Forall_impl; [|exact Hl']. by intros c [? _].
  - apply Ht. by apply space_not_terminator.
Qed.

Lemma unempty_LF x t :
  isLineTerminator x = false ->
  remove_all true SwcParser.re_empty 0 (Some x) (SwcParser.LF :: t)
  = SwcParser.LF :: remove_all true SwcParser.re_empty 0 (Some SwcParser.LF) t.
Proof.
  intros Hx. rewrite remove_all_cons, rmatch_empty_inside; [done|].
  simpl. exact Hx.
Qed.

Lemma unempty_tailLines ls t t' :
  Forall rowText ls ->
  (forall x, isLineTerminator x = false ->
     remove_all true SwcParser.re_empty 0 (Some x) t = t') ->
  forall x, isLineTerminator x = false ->
    remove_all true SwcParser.re_empty 0 (Some x) (tailLines ls ++ t)
    = tailLines ls ++ t'.
Proof.
  intros Hls Ht. induction Hls as [|l ls Hl Hls IH]; intros x Hx; [by apply Ht|].
  rewrite tailLines_cons. simpl app. rewrite (unempty_LF _ _ Hx). f_equal.
  rewrite <- !app_assoc. by apply unempty_rowText.
Qed.

Lemma rmatch_spaces_LF prev g a z b :
  Forall gapChar g -> Forall nonTerminator a -> isSpace z = false ->
  rmatch true [Many Greedy false isSpace; Eol] prev
    (g ++ SwcParser.LF :: a ++ z :: b) = Some (length g).
Proof.
  intros Hg Ha Hz. revert prev.
  induction Hg as [|c g Hc Hg IH]; intros prev; simpl app.
  - rewrite rmatch_star_cons. change (isSpace SwcParser.LF) with true. cbv iota.
    rewrite (rmatch_spaces_eol _ _ _ _ Ha Hz). reflexivity.
  - rewrite rmatch_star_cons. destruct (gap_facts _ Hc) as [-> _].
    by rewrite IH.
Qed.

Lemma unempty_skip g t t' :
  Forall gapChar g ->
  (forall x, isLineTerminator x = false ->
     remove_all true SwcParser.re_empty 0 (Some x) t = t') ->
  forall x, isLineTerminator x = false ->
    remove_all true SwcParser.re_empty (length g) (Some x) (g ++ t) = t'.
Proof.
  intros Hg Ht. induction Hg as [|c g Hc Hg IH]; intros x Hx; [by apply Ht|].
  simpl. apply IH. by destruct (gap_facts _ Hc).
Qed.

(** A line of white space between two rows is left as an empty line. *)
Lemma unempty_blank g l ls x :
  Forall gapChar g -> rowText l -> Forall rowText ls ->
  isLineTerminator x = false ->
  remove_all true SwcParser.re_empty 0 (Some x)
    (SwcParser.LF :: g ++ tailLines (l :: ls))
  = SwcParser.LF :: tailLines (l :: ls).
Proof.
  intros Hg Hl Hls Hx.
  assert (Hrest : forall prev,
            remove_all true SwcParser.re_empty 0 prev (l ++ tailLines ls)
            = l ++ tailLines ls).
  { intros prev. apply unempty_rowText; [done|]. intros y Hy.
    rewrite <- (app_nil_r (tailLines ls)).
    by apply (unempty_tailLines ls [] []). }
  assert (Hline : forall y, isLineTerminator y = false ->
            remove_all true SwcParser.re_empty 0 (Some y) (tailLines (l :: ls))
            = tailLines (l :: ls)).
  { intros y Hy. rewrite tailLines_cons, (unempty_LF _ _ Hy). by rewrite Hrest. }
  rewrite (unempty_LF _ _ Hx). f_equal.
  pose proof Hl as (Hall & _ & l' & z & Hrow & Hz).
  assert (Hl' : Forall nonTerminator l').
  { rewrite Hrow in Hall. apply Forall_app in Hall as [Hall _].
    eapply List.Forall_impl; [|exact Hall]. by intros c [? _]. }
  assert (Hm : rmatch true SwcParser.re_empty (Some SwcParser.LF)
                 (g ++ tailLines (l :: ls)) = Some (length g)).
  { unfold SwcParser.re_empty. rewrite rmatch_bol. simpl at_bol. cbv iota.
    rewrite tailLines_cons, Hrow, <- app_assoc. simpl app.
    by apply rmatch_spaces_LF. }
  destruct g as [|c g].
  - simpl app in *. rewrite tailLines_cons in *.
    rewrite remove_all_cons, Hm. by rewrite Hrest.
  - simpl app in *. rewrite remove_all_cons, Hm. simpl length.
    apply List.Forall_cons_iff in Hg as [Hc Hg].
    apply (unempty_skip g _ _ Hg Hline). by destruct (gap_facts _ Hc).
Qed.

Lemma unempty_withBlank l ls g l2 ls2 :
  Forall rowText (l :: ls) -> Forall gapChar g -> Forall rowText (l2 :: ls2) ->
  remove_all true SwcParser.re_empty 0 None
    (joinLines ((l :: ls) ++ g :: l2 :: ls2))
  = joinLines ((l :: ls) ++ [] :: l2 :: ls2).
Proof.
  intros Hls Hg Hls2.
  apply List.Forall_cons_iff in Hls as [Hl Hls].
  apply List.Forall_cons_iff in Hls2 as [Hl2 Hls2].
  simpl app. simpl joinLines. rewrite !tailLines_app.
  apply unempty_rowText; [done|]. intros x Hx.
  apply unempty_tailLines; [done| |done]. intros y Hy.
  change (tailLines (g :: l2 :: ls2))
    with (SwcParser.LF :: g ++ tailLines (l2 :: ls2)).
  by apply unempty_blank.
Qed.

End BlankLines.

Section BlankLineIsFatal.
Context {eng : engine}.
Variable parseFloat : string -> float.
Variable Math_round : float -> Z.

Abbreviation nonHash := (fun c : ascii => isChar "#" c = false).

Lemma linesLoop_app lines : forall lines' i swcPoints,
  SwcParser.linesLoop parseFloat Math_round (lines ++ lines') i swcPoints
  = SwcParser.linesLoop parseFloat Math_round lines' (i + length lines)
      (SwcParser.linesLoop parseFloat Math_round lines i swcPoints).
Proof.
  induction lines as [|l lines IH]; intros lines' i swcPoints.
  - simpl. by rewrite Nat.add_0_r.
  - simpl app. rewrite !linesLoop_cons. cbv zeta. rewrite IH.
    simpl length. f_equal. lia.
Qed.

(** The array of a file with a line of white space among its rows. *)
Lemma extractPoints_withBlankLine above blank below :
  Forall (fun r => wf_row r = true) above -> above <> [] ->
  Forall (fun c => isGap c = true) blank ->
  Forall (fun r => wf_row r = true) below -> below <> [] ->
  SwcParser.extractPoints parseFloat Math_round (withBlankLine above blank below)
  = trunc (map (slot parseFloat Math_round) above ++ None
             :: map (slot parseFloat Math_round) below).
Proof.
  intros Ha Hane Hg Hb Hbne.
  pose proof (rows_text _ Ha) as Hta. pose proof (rows_text _ Hb) as Htb.
  destruct above as [|r above]; [done|]. destruct below as [|r2 below]; [done|].
  simpl map in Hta, Htb.
  unfold SwcParser.extractPoints, withBlankLine.
  rewrite list_ascii_of_string_of_list_ascii.
  assert (Hrows : forall ls, Forall rowText ls -> Forall (Forall nonHash) ls).
  { intros ls. apply List.Forall_impl. intros l (Hall & _).
    eapply List.Forall_impl; [|exact Hall]. by intros c [_ ?]. }
  rewrite uncomment_nonHash.
  2:{ simpl map. simpl app. simpl joinLines.
      pose proof (Hrows _ Hta) as Hha. pose proof (Hrows _ Htb) as Hhb.
      apply List.Forall_cons_iff in Hha as [Hr Hha].
      apply Forall_app. split; [done|].
      apply tailLines_Forall; [reflexivity|].
      apply Forall_app. split; [done|]. constructor; [|done].
      eapply List.Forall_impl; [|exact Hg]. intros c Hc.
      destruct (isChar "#" c) eqn:E; [|done].
      destruct (gap_facts _ Hc) as [Hs _]. by rewrite (hash_not_space _ E) in Hs. }
  rewrite trim_tight.
  2:{ simpl map. simpl app. simpl joinLines.
      apply List.Forall_cons_iff in Hta as [(_ & (c & l' & -> & Hc) & _) _].
      by exists c, (l' ++ tailLines (map render_row above
                                  ++ blank :: render_row r2 :: map render_row below)). }
  2:{ simpl map. simpl app. simpl joinLines.
      rewrite tailLines_app.
      change (tailLines (blank :: ?ls)) with (SwcParser.LF :: blank ++ tailLines ls).
      destruct (tailLines_last (render_row r2 :: map render_row below)
                  ltac:(done) Htb) as (s & z & -> & Hz).
      exists (render_row r ++ tailLines (map render_row above)
                ++ SwcParser.LF :: blank ++ s), z.
      split; [|done]. rewrite <- !app_assoc. simpl. by rewrite <- !app_assoc. }
  simpl map.
  rewrite (unempty_withBlank _ _ _ _ _ Hta Hg Htb).
  change ((render_row r :: map render_row above)
          ++ [] :: render_row r2 :: map render_row below)
    with (render_row r :: (map render_row above
                           ++ [] :: render_row r2 :: map render_row below)).
  rewrite split_char_joinLines.
  2:{ constructor.
      - apply List.Forall_cons_iff in Hta as [Hr _]. by apply rowText_line.
      - apply Forall_app. split.
        + apply List.Forall_cons_iff in Hta as [_ Hta].
          eapply List.Forall_impl; [|exact Hta]. apply rowText_line.
        + constructor; [constructor|].
          eapply List.Forall_impl; [|exact Htb]. apply rowText_line. }
  change (render_row r :: (map render_row above
                           ++ [] :: render_row r2 :: map render_row below))
    with (map render_row (r :: above) ++ [] :: map render_row (r2 :: below)).
  rewrite linesLoop_app.
  pose proof (linesLoop_rows parseFloat Math_round (r :: above) [] Ha) as H1.
  cbn [trunc length] in H1. rewrite H1. clear H1.
  rewrite linesLoop_cons. cbv zeta.
  change (7 <=? length (split_regex SwcParser.re_separator
            (remove_first true SwcParser.re_trailing None
               (remove_first true SwcParser.re_leading None []))))
    with false. cbv iota.
  set (filled := map (slot parseFloat Math_round) (r :: above) ++ [None]).
  replace (0 + length (map render_row (r :: above)) + 1) with (length filled)
    by (unfold filled; rewrite length_app, !length_map; simpl; lia).
  replace (trunc ([] ++ map (slot parseFloat Math_round) (r :: above)))
    with (trunc filled) by (unfold filled; by rewrite trunc_snoc_None).
  rewrite (linesLoop_rows parseFloat Math_round (r2 :: below) filled Hb).
  unfold filled. by rewrite <- app_assoc.
Qed.


End BlankLineIsFatal.

Section BlankLineWitness.
#[local] Existing Instance smallEngine.


End BlankLineWitness.

(** ** Inputs that meet the limits of the engine *)

Section Limits.
Context {eng : engine}.
Import TreeNode TreeNodeCollection.

(** *** A point that is its own parent, alone *)

Lemma loneSelfParent_init :
  initLoop loneSelfParent [] [] [] = Return ([(1%Z, 0)], loneStore, []).
Proof. reflexivity. Qed.

(** The node is its only child, of its own type: [dive] calls itself on
    it, until the call stack is full. *)
Lemma dive_lone fuel : forall room nl,
  dive room fuel loneStore 0 nl = Throw RangeError.
Proof.
  induction room as [|room IH]; intros nl; [reflexivity|].
  rewrite dive_S. simpl. apply IH.
Qed.

(** A lone point that is its own parent: the recursion of [dive] from
    the node to itself exceeds the call stack, whatever its size; the
    constructor and the parse fail with a RangeError. *)
Theorem lone_self_parent_overflows_the_call_stack fuel :
  TreeNodeCollection.new (S fuel) loneSelfParent = Throw RangeError /\
  forall parseFloat Math_round this swcStr,
    SwcParser.extractPoints parseFloat Math_round swcStr = loneSelfParent ->
    SwcParser.parse parseFloat Math_round (S fuel) this swcStr
    = (SwcParser.mk None None, Throw RangeError).
Proof.
  assert (Hnew : TreeNodeCollection.new (S fuel) loneSelfParent = Throw RangeError).
  { unfold TreeNodeCollection.new, _initCollection.
    cbn [_nodes store _rawSoma _rawSections _rawMorphology _morphology].
    rewrite loneSelfParent_init. simpl.
    unfold _buildSections. simpl. unfold buildRawSection. simpl.
    by rewrite dive_lone. }
  split; [exact Hnew|].
  intros parseFloat Math_round this swcStr Hpts.
  unfold SwcParser.parse. by rewrite Hpts, Hnew.
Qed.

(** *** A chain longer than the call stack *)

Arguments chainStore : simpl never.

Lemma chainStore_length j : length (chainStore j) = S j.
Proof. unfold chainStore. by rewrite length_map, List.length_seq. Qed.

Lemma chainStore_lookup j i :
  i <= j -> chainStore j !! i = Some (chainNode j i).
Proof.
  intros Hi. unfold chainStore. change (map ?f ?l) with (f <$> l).
  rewrite list_lookup_fmap, lookup_seq_lt by lia. reflexivity.
Qed.

Lemma chainStore_lookup_ge j i : j < i -> chainStore j !! i = None.
Proof. intros Hi. apply lookup_ge_None. rewrite chainStore_length. lia. Qed.

(** Reading the point [j] of the chain links the node [S j] to the node
    [j]. *)
Lemma chain_link j :
  _addChild
    (alter (set_parent (Some j)) (S j)
       (chainStore j ++ [TreeNode.new (Z.of_nat j + 2) 2 0 0 0 1]))
    j (S j)
  = chainStore (S j).
Proof.
  set (nn := TreeNode.new (Z.of_nat j + 2) 2 0 0 0 1).
  assert (Hj : alter (set_parent (Some j)) (S j) (chainStore j ++ [nn]) !! j
               = Some (chainNode j j)).
  { rewrite list_lookup_alter_ne by lia.
    rewrite lookup_app_l by (rewrite chainStore_length; lia).
    by apply chainStore_lookup. }
  assert (HSj : alter (set_parent (Some j)) (S j) (chainStore j ++ [nn]) !! S j
                = Some (set_parent (Some j) nn)).
  { rewrite list_lookup_alter_eq.
    rewrite lookup_app_r by (rewrite chainStore_length; lia).
    by rewrite chainStore_length, Nat.sub_diag. }
  unfold _addChild. rewrite Hj, HSj.
  assert (Hnone : doesAlreadyHaveChild
            (alter (set_parent (Some j)) (S j) (chainStore j ++ [nn]))
            (chainNode j j) (set_parent (Some j) nn) = false).
  { unfold doesAlreadyHaveChild, chainNode. simpl. by rewrite Nat.ltb_irrefl. }
  rewrite Hnone. apply list_eq. intros i.
  destruct (decide (i = j)) as [->|Hij].
  - rewrite list_lookup_insert_eq
      by (rewrite length_alter, length_app, chainStore_length; simpl; lia).
    rewrite chainStore_lookup by lia. f_equal.
    unfold push_child, chainNode. simpl. rewrite Nat.ltb_irrefl.
    by destruct (Nat.ltb_spec j (S j)); [|lia].
  - rewrite list_lookup_insert_ne by done.
    destruct (decide (i = S j)) as [->|HiSj].
    + rewrite HSj, chainStore_lookup by lia. f_equal.
      unfold set_parent, nn, TreeNode.new, chainNode. simpl.
      rewrite Nat.ltb_irrefl, Nat.sub_0_r. f_equal. lia.
    + rewrite list_lookup_alter_ne by done.
      destruct (decide (i < j)) as [Hlt|Hge].
      * rewrite lookup_app_l by (rewrite chainStore_length; lia).
        rewrite !chainStore_lookup by lia. f_equal. unfold chainNode.
        destruct (Nat.ltb_spec i j); [|lia].
        by destruct (Nat.ltb_spec i (S j)); [|lia].
      * rewrite chainStore_lookup_ge by lia.
        apply lookup_ge_None. rewrite length_app, chainStore_length. simpl. lia.
Qed.

Lemma obj_get_cons {V} k k' (v : V) o :
  obj_get k ((k', v) :: o) = if Z.eqb k k' then Some v else obj_get k o.
Proof. reflexivity. Qed.

Lemma obj_set_cons_ne {V} k k' (v v' : V) o :
  k <> k' -> obj_set k v ((k', v') :: o) = (k', v') :: obj_set k v o.
Proof. intros Hne. simpl. by destruct (Z.eqb_spec k k'). Qed.

Lemma setParent_Some h a p :
  setParent h a (Some p) = Return (_addChild (alter (set_parent (Some p)) a h) p a).
Proof. reflexivity. Qed.

(** A turn of the loop of [_initCollection], for a point that names a
    parent. *)
Lemma initLoop_child p rest nodes h soma :
  Point.parentId p <> (-1)%Z ->
  initLoop (Some p :: rest) nodes h soma
  = (h' ← setParent
            (h ++ [TreeNode.new (Point.id p) (Point.type p) (Point.x p)
                     (Point.y p) (Point.z p) (Point.radius p)])
            (length h)
            (obj_get (Point.parentId p) (obj_set (Point.id p) (length h) nodes));
     initLoop rest (obj_set (Point.id p) (length h) nodes) h' soma).
Proof.
  intros Hp. simpl. by destruct (Z.eqb_spec (Point.parentId p) (-1)).
Qed.

(** The loop of [_initCollection] over the points of the chain from the
    point [j] on. *)
Lemma chain_initLoop m : forall j tl,
  Forall (fun k => 1 < k)%Z (map fst tl) ->
  obj_get (Z.of_nat j + 1) ((1%Z, 0) :: tl) = Some j ->
  exists tl',
    Forall (fun k => 1 < k)%Z (map fst tl') /\
    initLoop (map (fun i => Some (chainPoint i)) (seq j m))
      ((1%Z, 0) :: tl) (chainStore j) []
    = Return ((1%Z, 0) :: tl', chainStore (j + m), []).
Proof.
  induction m as [|m IH]; intros j tl Htl Hj.
  { exists tl. by rewrite Nat.add_0_r. }
  destruct (IH (S j) (obj_set (Z.of_nat j + 2) (S j) tl)) as (tl' & Htl' & Hrun).
  { rewrite obj_set_keys. destruct (obj_in _ _); [done|].
    apply Forall_app. split; [done|]. constructor; [lia|constructor]. }
  { rewrite obj_get_cons. destruct (Z.eqb_spec (Z.of_nat (S j) + 1) 1); [lia|].
    replace (Z.of_nat (S j) + 1)%Z with (Z.of_nat j + 2)%Z by lia.
    apply obj_get_set_eq. }
  exists tl'. split; [done|].
  replace (j + S m) with (S j + m) by lia. rewrite <- Hrun.
  cbn [seq map]. rewrite initLoop_child by (simpl; lia).
  rewrite chainStore_length.
  change (Point.parentId (chainPoint j)) with (Z.of_nat j + 1)%Z.
  change (Point.id (chainPoint j)) with (Z.of_nat j + 2)%Z.
  rewrite obj_get_set_ne, Hj, setParent_Some by lia.
  rewrite obj_set_cons_ne by lia.
  change (Return ?a ≫= ?k) with (k a). cbv beta.
  change (Point.type (chainPoint j)) with 2%Z.
  change (Point.x (chainPoint j)) with 0%float.
  change (Point.y (chainPoint j)) with 0%float.
  change (Point.z (chainPoint j)) with 0%float.
  change (Point.radius (chainPoint j)) with 1%float.
  by rewrite chain_link.
Qed.

Lemma longChain_init n :
  exists tl,
    Forall (fun k => 1 < k)%Z (map fst tl) /\
    initLoop (longChain n) [] [] [] = Return ((1%Z, 0) :: tl, chainStore n, []).
Proof.
  destruct (chain_initLoop n 0 []) as (tl & Htl & Hrun); [constructor|reflexivity|].
  exists tl. split; [done|]. exact Hrun.
Qed.

(** Along the chain every node has one child, of its own type: [dive]
    calls itself from node to node. *)
Lemma dive_chain n fuel : forall room k nl,
  1 <= k -> k + room <= n ->
  dive room fuel (chainStore n) k nl = Throw RangeError.
Proof.
  induction room as [|room IH]; intros k nl Hk Hroom; [reflexivity|].
  rewrite dive_S, chainStore_lookup by lia.
  change (deref (Some ?a) ≫= ?f) with (f a). cbv beta.
  rewrite getNonSomaChildren_plain by reflexivity.
  change (Return ?a ≫= ?f) with (f a). cbv beta.
  unfold chainNode at 1. cbn [_children].
  destruct (Nat.ltb_spec k n); [|lia].
  rewrite chainStore_lookup by lia.
  change (deref (Some ?a) ≫= ?f) with (f a). cbv beta.
  destruct k as [|k]; [lia|]. cbn [getType _type chainNode Nat.eqb Z.eqb Pos.eqb].
  apply IH; lia.
Qed.

Lemma longChain_noSelfParent n : noSelfParent (longChain n).
Proof.
  intros p Hp. unfold longChain in Hp.
  apply elem_of_cons in Hp as [Hp|Hp]; [injection Hp as ->; simpl; lia|].
  change (map ?f ?l) with (f <$> l) in Hp.
  apply list_elem_of_fmap in Hp as (i & [= ->] & _). simpl. lia.
Qed.


End Limits.

Section LimitsWitness.
#[local] Existing Instance smallEngine.


End LimitsWitness.
